(** * Symplectic Pauli and Majorana operator algebra

    A shallow embedding of [symred/symplectic_form.py] (class [PauliwordOp],
    class [StabilizerOp]) and of [symmer/symplectic/majorana_op.py]
    (function [bubble_sort_maj], class [MajoranaOp]).

    Conventions of the embedding.
    - A numpy integer matrix is a list of rows, each row a list of [Z];
      its second dimension is kept next to it because numpy keeps it even
      when the matrix has no rows.
    - A complex coefficient is a pair of reals; the phases the code
      multiplies by are powers of [-1], [-i] and [i] with natural
      exponents, which numpy computes by repeated multiplication for
      exponents below 100.  The rounding of [complex128] is not
      modelled: a property that states which coefficients are added
      or multiplied reads the same in both, and a property that states
      an exact cancellation is kept to operands on which the
      floating-point arithmetic is exact as well.
    - A Python exception is a value of [error]; code that can raise
      lives in the monad [result]. *)

From Stdlib Require Import ZArith List Bool Arith Lia Reals Lra Permutation Sorted.
From Stdlib Require Import Ascii.
Import ListNotations.

(** ** Exceptions *)

Inductive error : Type :=
| AssertionError (msg : nat)
| ValueError (msg : nat).

Inductive result (A : Type) : Type :=
| Ok (a : A)
| Raise (e : error).
Arguments Ok {A} a.
Arguments Raise {A} e.

Definition bind {A B : Type} (m : result A) (k : A -> result B) : result B :=
  match m with
  | Ok a => k a
  | Raise e => Raise e
  end.

Definition assert (b : bool) (msg : nat) : result unit :=
  if b then Ok tt else Raise (AssertionError msg).

Declare Scope result_scope.
Delimit Scope result_scope with result.
Notation "x <- m ;; k" := (bind m (fun x => k))
  (at level 61, m at next level, right associativity) : result_scope.
Notation "m ;;; k" := (bind m (fun _ => k))
  (at level 61, right associativity) : result_scope.

(** ** Complex coefficients *)

Module Cplx.

Definition C : Type := (R * R)%type.

Definition Cre (z : C) : R := fst z.
Definition Cim (z : C) : R := snd z.

Definition C0 : C := (0, 0)%R.
Definition C1 : C := (1, 0)%R.
Definition Ci : C := (0, 1)%R.
Definition RtoC (x : R) : C := (x, 0%R).

Definition Cadd (a b : C) : C := (fst a + fst b, snd a + snd b)%R.
Definition Copp (a : C) : C := (- fst a, - snd a)%R.
Definition Csub (a b : C) : C := Cadd a (Copp b).
Definition Cmul (a b : C) : C :=
  (fst a * fst b - snd a * snd b, fst a * snd b + snd a * fst b)%R.
Definition Cconj (a : C) : C := (fst a, - snd a)%R.

(** [abs] of a complex number. *)
Definition Cabs (a : C) : R := sqrt (fst a * fst a + snd a * snd a).

(** [z ** k] for a natural exponent. *)
Fixpoint Cpow (z : C) (k : nat) : C :=
  match k with
  | O => C1
  | S k' => Cmul z (Cpow z k')
  end.

Definition Csum (l : list C) : C := fold_right Cadd C0 l.

(** [abs(z) > t] as a test. *)
Definition Cabs_gtb (z : C) (t : R) : bool :=
  if Rlt_dec t (Cabs z) then true else false.

End Cplx.
Export Cplx.

Declare Scope C_scope.
Delimit Scope C_scope with C.
Bind Scope C_scope with C.
Infix "+" := Cadd : C_scope.
Infix "*" := Cmul : C_scope.
Infix "-" := Csub : C_scope.
Notation "- x" := (Copp x) : C_scope.
Infix "^" := Cpow : C_scope.

(** ** [bubble_sort_maj] *)

Module BubbleSort.

(** [arr[j] = x]; the loops below write within range only. *)
Fixpoint list_set (j : nat) (x : Z) (arr : list Z) {struct arr} : list Z :=
  match arr, j with
  | [], _ => []
  | _ :: t, O => x :: t
  | y :: t, S j' => y :: list_set j' x t
  end.

(** The body of the inner loop at index [j]:
    [if arr[j] > arr[j+1]: arr[j], arr[j+1] = arr[j+1], arr[j];
    swapped = True; swap_counter += 1], on the state
    [(arr, swapped, swap_counter)]. *)
Definition compare_exchange (st : list Z * bool * nat) (j : nat)
  : list Z * bool * nat :=
  let '(arr, swapped, swap_counter) := st in
  if (nth j arr 0 >? nth (S j) arr 0)%Z
  then (list_set (S j) (nth j arr 0%Z) (list_set j (nth (S j) arr 0%Z) arr),
        true, S swap_counter)
  else st.

(** The inner loop [for j in range(0, k)], entered with
    [swapped = False]; the third component counts the exchanges of
    this run. *)
Definition inner_loop (k : nat) (arr : list Z) : list Z * bool * nat :=
  fold_left compare_exchange (seq 0 k) (arr, false, O).

(** The outer loop [for i in range(n_sites)], from [i] with
    [passes] iterations left; leaves at the first pass without an
    exchange. *)
Fixpoint outer_loop (n_sites i passes : nat) (arr : list Z) (swap_counter : nat)
  : list Z * nat :=
  match passes with
  | O => (arr, swap_counter)
  | S passes' =>
      let '(arr', swapped, c) := inner_loop (n_sites - i - 1) arr in
      if swapped
      then outer_loop n_sites (S i) passes' arr' (swap_counter + c)
      else (arr', (swap_counter + c)%nat)
  end.

Definition sign_dict (k : nat) : Z :=
  match k with
  | O => 1
  | _ => (-1)
  end.

Definition bubble_sort_count (array : list Z) : list Z * nat :=
  let n_sites := length array in
  outer_loop n_sites 0 n_sites array 0.

Definition bubble_sort_maj (array : list Z) : list Z * Z :=
  let '(arr, swap_counter) := bubble_sort_count array in
  (arr, sign_dict (swap_counter mod 2)).

(** One run of the inner loop by recursion on [arr[j:]]: the new
    [arr[j:]], whether an exchange took place, and how many. *)
Fixpoint pass_from (k : nat) (arr : list Z) : list Z * bool * nat :=
  match k, arr with
  | S k', a :: b :: t =>
      if (a >? b)%Z
      then let '(r, _, c) := pass_from k' (a :: t) in (b :: r, true, S c)
      else let '(r, s, c) := pass_from k' (b :: t) in (a :: r, s, c)
  | _, _ => (arr, false, O)
  end.

(** Number of elements of [l] that [a] is larger than. *)
Fixpoint larger_before (a : Z) (l : list Z) : nat :=
  match l with
  | [] => O
  | b :: t => ((if (a >? b)%Z then 1 else 0) + larger_before a t)%nat
  end.

(** Number of pairs of positions [i < j] with [arr[i] > arr[j]]. *)
Fixpoint inversions (l : list Z) : nat :=
  match l with
  | [] => O
  | a :: t => (larger_before a t + inversions t)%nat
  end.

(** The first [k] adjacent pairs of a list are in order. *)
Fixpoint ordered_upto (k : nat) (l : list Z) : Prop :=
  match k, l with
  | S k', a :: ((b :: _) as t) => (a <= b)%Z /\ ordered_upto k' t
  | _, _ => True
  end.

End BubbleSort.

(** ** The numpy operations the two classes rely on *)

Module NumPy.

Definition matrix : Type := list (list Z).

Fixpoint zip_with {A B D : Type} (f : A -> B -> D) (a : list A) (b : list B)
  : list D :=
  match a, b with
  | x :: a', y :: b' => f x y :: zip_with f a' b'
  | _, _ => []
  end.

(** Sum of a vector: [np.sum], [np.einsum('ij->i', m)] row by row. *)
Definition vsum (v : list Z) : Z := fold_right Z.add 0%Z v.

(** [np.einsum('ij->i', m)], [m.sum(axis=1)]. *)
Definition sum_axis1 (m : matrix) : list Z := map vsum m.

(** [np.einsum('ij->j', m)] for a matrix with [ncols] columns. *)
Definition sum_axis0 (ncols : nat) (m : matrix) : list Z :=
  fold_right (zip_with Z.add) (repeat 0%Z ncols) m.

(** [np.count_nonzero(m, axis=1)]. *)
Definition count_nonzero (v : list Z) : Z :=
  Z.of_nat (length (filter (fun x => negb (x =? 0)%Z) v)).

(** Inner product of two vectors of the same length. *)
Definition dot (a b : list Z) : Z := vsum (zip_with Z.mul a b).

(** Two dimensions are compatible for broadcasting when they are equal
    or one of them is 1. *)
Definition compatible (a b : nat) : bool :=
  (a =? b)%nat || (a =? 1)%nat || (b =? 1)%nat.

Definition broadcast_dim (a b : nat) : nat := if (a =? 1)%nat then b else a.

(** Elementwise operation on two axes of compatible lengths: an axis
    of length 1 is stretched. *)
Definition stretch {A B D : Type} (f : A -> B -> D) (a : list A) (b : list B)
  : list D :=
  if (length a =? length b)%nat then zip_with f a b
  else match a, b with
       | _, [y] => map (fun x => f x y) a
       | [x], _ => map (f x) b
       | _, _ => []
       end.

(** Elementwise operation on two one-dimensional arrays. *)
Definition broadcast1 {A B D : Type} (f : A -> B -> D) (a : list A) (b : list B)
  : result (list D) :=
  if compatible (length a) (length b) then Ok (stretch f a b)
  else Raise (ValueError 0).

(** Elementwise operation on two matrices, of [ca] and [cb] columns;
    the result carries its number of columns. *)
Definition broadcast2 {A B D : Type} (f : A -> B -> D)
  (ca : nat) (a : list (list A)) (cb : nat) (b : list (list B))
  : result (nat * list (list D)) :=
  if compatible (length a) (length b) && compatible ca cb
  then Ok (broadcast_dim ca cb, stretch (stretch f) a b)
  else Raise (ValueError 0).

(** *** 64-bit integers *)

(** The value of a mathematical integer stored in an [int64]. *)
Definition wrap64 (z : Z) : Z := ((z + 2 ^ 63) mod 2 ^ 64 - 2 ^ 63)%Z.

(** [1 << k] on [int64]: numpy defines a shift by the width or more
    as 0, and [1 << 63] is the most negative value. *)
Definition lshift1 (k : nat) : Z :=
  if (k <? 64)%nat then wrap64 (2 ^ Z.of_nat k) else 0%Z.

(** [1 << np.arange(ncols)[::-1]]. *)
Definition pow2_weights (ncols : nat) : list Z :=
  map lshift1 (rev (seq 0 ncols)).

(** [m @ w] for an [int64] matrix and an [int64] vector. *)
Definition matvec64 (m : matrix) (w : list Z) : list Z :=
  map (fun r => wrap64 (dot r w)) m.

(** *** Sorting and run lengths *)

Fixpoint insert_by_key {T : Type} (x : Z * T) (l : list (Z * T)) : list (Z * T) :=
  match l with
  | [] => [x]
  | y :: t => if (fst x <=? fst y)%Z then x :: l else y :: insert_by_key x t
  end.

(** Sort by key, elements of equal key keeping their order. *)
Definition sort_by_key {T : Type} (l : list (Z * T)) : list (Z * T) :=
  fold_right insert_by_key [] l.

(** [np.argsort(keys)].  numpy's default sort leaves the order of
    equal keys unspecified; the order chosen here is the stable one. *)
Definition argsort (keys : list Z) : list nat :=
  map snd (sort_by_key (combine keys (seq 0 (length keys)))).

(** [arr[idx]] for an index array [idx]. *)
Definition take {A : Type} (d : A) (arr : list A) (idx : list nat) : list A :=
  map (fun i => nth i arr d) idx.

(** [arr[mask]] for a boolean mask. *)
Fixpoint select {A : Type} (arr : list A) (mask : list bool) : list A :=
  match arr, mask with
  | x :: arr', b :: mask' => if b then x :: select arr' mask' else select arr' mask'
  | _, _ => []
  end.

(** Run lengths of a list: on a sorted list, the distinct values with
    their numbers of occurrences. *)
Fixpoint run_lengths (l : list Z) : list (Z * nat) :=
  match l with
  | [] => []
  | x :: t =>
      match run_lengths t with
      | (y, c) :: r => if (x =? y)%Z then (y, S c) :: r else (x, 1%nat) :: (y, c) :: r
      | [] => [(x, 1%nat)]
      end
  end.

(** [np.unique(l, return_counts=True)]: sorts, then counts. *)
Definition unique_counts (l : list Z) : list (Z * nat) :=
  run_lengths (map fst (sort_by_key (map (fun k => (k, tt)) l))).

Fixpoint cumsum_from (acc : nat) (l : list nat) : list nat :=
  match l with
  | [] => []
  | x :: t => (acc + x)%nat :: cumsum_from (acc + x) t
  end.

Definition cumsum (l : list nat) : list nat := cumsum_from 0 l.

(** [np.add.reduceat(arr, idx)]: the sum of [arr[i:j]] for two
    consecutive indices [i < j], [arr[i]] when [i >= j], and the sum
    of [arr[i:]] for the last index. *)
Fixpoint reduceat (arr : list C) (idx : list nat) : list C :=
  match idx with
  | [] => []
  | i :: rest =>
      match rest with
      | [] => Csum (skipn i arr)
      | j :: _ =>
          if (i <? j)%nat then Csum (firstn (j - i) (skipn i arr))
          else nth i arr C0
      end :: reduceat arr rest
  end.

(** The row bookkeeping shared by the two [cleanup] methods: rows and
    coefficients ordered by the integer value of the row, the first
    row of each run of equal values, and the sum of the coefficients
    of the run. *)
Definition merge_rows (ncols : nat) (symp_matrix : matrix) (coeff_vec : list C)
  : matrix * list C :=
  let int_list := matvec64 symp_matrix (pow2_weights ncols) in
  let re_order_indices := argsort int_list in
  let sorted_int_list := take 0%Z int_list re_order_indices in
  let sorted_symp_matrix := take [] symp_matrix re_order_indices in
  let sorted_coeff_vec := take C0 coeff_vec re_order_indices in
  let indices := map snd (unique_counts sorted_int_list) in
  let row_summing := removelast (0%nat :: cumsum indices) in
  let reduced_symplectic_matrix := take [] sorted_symp_matrix row_summing in
  let reduced_coeff_vec := reduceat sorted_coeff_vec row_summing in
  (reduced_symplectic_matrix, reduced_coeff_vec).

End NumPy.
Import NumPy.

(** ** [PauliwordOp] and [StabilizerOp] *)

Module Pauli.

Record PauliwordOp : Type := mkPauliwordOp {
  symp_matrix : matrix;
  n_cols : nat;            (* [symp_matrix.shape[1]] *)
  coeff_vec : list C
}.

Definition n_qubits (P : PauliwordOp) : nat := n_cols P / 2.
Definition n_terms (P : PauliwordOp) : nat := length (symp_matrix P).
Definition X_block (P : PauliwordOp) : matrix :=
  map (firstn (n_qubits P)) (symp_matrix P).
Definition Z_block (P : PauliwordOp) : matrix :=
  map (skipn (n_qubits P)) (symp_matrix P).
Definition Z_cols (P : PauliwordOp) : nat := (n_cols P - n_qubits P)%nat.

Definition is_bit (b : Z) : bool := ((b =? 0) || (b =? 1))%Z.

(** [PauliwordOp(operator, coeff_vec)] for a two-dimensional array. *)
Definition init (ncols : nat) (operator : matrix) (coeff_vec : list C)
  : result PauliwordOp :=
  (assert (length operator =? length coeff_vec)%nat 1 ;;;
   assert (forallb (forallb is_bit) operator) 2 ;;;
   Ok (mkPauliwordOp operator ncols coeff_vec))%result.

(** [PauliwordOp(operator, coeff_vec)] for a one-dimensional array,
    reshaped into one row. *)
Definition init_vec (operator : list Z) (coeff_vec : list C) : result PauliwordOp :=
  init (length operator) [operator] coeff_vec.

Definition char_is (c : ascii) (x : ascii) : Z := if Ascii.eqb x c then 1%Z else 0%Z.

(** [string_to_symplectic]. *)
Definition string_to_symplectic (pauli_str : list ascii) (n_qubits : nat)
  : result (list Z) :=
  (assert (length pauli_str =? n_qubits)%nat 3 ;;;
   assert (forallb (fun x => Ascii.eqb x "I" || Ascii.eqb x "X"
                             || Ascii.eqb x "Y" || Ascii.eqb x "Z")%char
             pauli_str) 4 ;;;
   let X_loc := map (char_is "X") pauli_str in
   let Z_loc := map (char_is "Z") pauli_str in
   let Y_loc := map (char_is "Y") pauli_str in
   Ok (zip_with Z.add X_loc Y_loc ++ zip_with Z.add Z_loc Y_loc))%result.

Fixpoint map_result {A B : Type} (f : A -> result B) (l : list A) : result (list B) :=
  match l with
  | [] => Ok []
  | x :: t => (y <- f x ;; r <- map_result f t ;; Ok (y :: r))%result
  end.

(** [PauliwordOp(operator_list, coeff_vec)] for a non-empty list of
    strings. *)
Definition init_strings (operator_list : list (list ascii)) (coeff_vec : list C)
  : result PauliwordOp :=
  match operator_list with
  | [] => Raise (ValueError 1)
  | s0 :: _ =>
      let n := length s0 in
      (rows <- map_result (fun s => string_to_symplectic s n) operator_list ;;
       init (2 * n) rows coeff_vec)%result
  end.

(** The cached property [Y_count]. *)
Definition Y_count (P : PauliwordOp) : result (list Z) :=
  (Y_coords <- broadcast2 Z.land (n_qubits P) (X_block P) (Z_cols P) (Z_block P) ;;
   Ok (sum_axis1 (snd Y_coords)))%result.

Definition _multiply_single_Pword_phaseless (self Pword : PauliwordOp)
  : result PauliwordOp :=
  (pauli_mult_phaseless <-
     broadcast2 Z.lxor (n_cols self) (symp_matrix self)
                       (n_cols Pword) (symp_matrix Pword) ;;
   init (fst pauli_mult_phaseless) (snd pauli_mult_phaseless)
        (repeat C1 (n_terms self)))%result.

Definition Zpow (z : C) (k : Z) : C := Cpow z (Z.to_nat k).

Definition _multiply_single_Pword (self Pword : PauliwordOp) : result PauliwordOp :=
  (phaseless_prod_Pword <- _multiply_single_Pword_phaseless self Pword ;;
   assert (n_terms Pword =? 1)%nat 5 ;;;
   flips <- broadcast2 Z.land (n_qubits self) (X_block self)
                              (Z_cols Pword) (Z_block Pword) ;;
   let num_sign_flips := sum_axis1 (snd flips) in
   let sign_change := map (Zpow (- C1)%C) num_sign_flips in
   ya <- Y_count self ;;
   yb <- Y_count Pword ;;
   full_Y_count <- broadcast1 Z.add ya yb ;;
   let sigma_tau_compensation := map (Zpow (- Ci)%C) full_Y_count in
   yp <- Y_count phaseless_prod_Pword ;;
   let tau_sigma_compensation := map (Zpow Ci) yp in
   m1 <- broadcast1 Cmul sign_change sigma_tau_compensation ;;
   phase_mod <- broadcast1 Cmul m1 tau_sigma_compensation ;;
   m2 <- broadcast1 Cmul phase_mod (coeff_vec self) ;;
   new_coeff_vec <- broadcast1 Cmul m2 (coeff_vec Pword) ;;
   init (n_cols phaseless_prod_Pword) (symp_matrix phaseless_prod_Pword)
        new_coeff_vec)%result.

Definition cleanup (self : PauliwordOp) : result PauliwordOp :=
  let '(reduced_symplectic_matrix, reduced_coeff_vec) :=
    merge_rows (n_cols self) (symp_matrix self) (coeff_vec self) in
  init (n_cols self) reduced_symplectic_matrix reduced_coeff_vec.

(** The default [zero_threshold]. *)
Definition zero_threshold : R := (1 / 10 ^ 15)%R.

Definition cleanup_zeros (self : PauliwordOp) : result PauliwordOp :=
  (clean_operator <- cleanup self ;;
   let mask_nonzero :=
     map (fun c => Cabs_gtb c zero_threshold) (coeff_vec clean_operator) in
   init (n_cols clean_operator)
        (select (symp_matrix clean_operator) mask_nonzero)
        (select (coeff_vec clean_operator) mask_nonzero))%result.

(** [np.vstack] of two matrices: their numbers of columns must agree. *)
Definition vstack (ca : nat) (a : matrix) (cb : nat) (b : matrix) : result matrix :=
  if (ca =? cb)%nat then Ok (a ++ b) else Raise (ValueError 2).

Definition add (self Pword : PauliwordOp) : result PauliwordOp :=
  (assert (n_qubits self =? n_qubits Pword)%nat 6 ;;;
   P_symp_mat_new <- vstack (n_cols self) (symp_matrix self)
                            (n_cols Pword) (symp_matrix Pword) ;;
   let P_new_coeffs := coeff_vec self ++ coeff_vec Pword in
   P <- init (n_cols self) P_symp_mat_new P_new_coeffs ;;
   cleanup P)%result.

(** [reduce(lambda x,y: x+y, l)]: a [TypeError] on the empty list. *)
Definition reduce_add (l : list PauliwordOp) : result PauliwordOp :=
  match l with
  | [] => Raise (ValueError 3)
  | x :: t => fold_left (fun acc y => (a <- acc ;; add a y)%result) t (Ok x)
  end.

Definition mul (self Pword : PauliwordOp) : result PauliwordOp :=
  (assert (n_qubits self =? n_qubits Pword)%nat 6 ;;;
   P_updated_list <-
     map_result (fun '(Pvec_single, coeff_single) =>
                   Pword_temp <- init_vec Pvec_single [coeff_single] ;;
                   _multiply_single_Pword self Pword_temp)
                (combine (symp_matrix Pword) (coeff_vec Pword)) ;;
   reduce_add P_updated_list)%result.

(** [self[key]] for a non-negative integer key. *)
Definition getitem (self : PauliwordOp) (key : nat) : result PauliwordOp :=
  (assert (key <? n_terms self)%nat 7 ;;;
   init_vec (nth key (symp_matrix self) []) [nth key (coeff_vec self) C0])%result.

Definition multiply_by_constant (self : PauliwordOp) (const : C) : result PauliwordOp :=
  init (n_cols self) (symp_matrix self) (map (fun c => (c * const)%C) (coeff_vec self)).

(** [a @ b.T] for two matrices given by their rows. *)
Definition matmul_T (ca : nat) (a : matrix) (cb : nat) (b : matrix) : result matrix :=
  if (ca =? cb)%nat then Ok (map (fun r => map (dot r) b) a)
  else Raise (ValueError 4).

Definition commutes_termwise (self Pword : PauliwordOp) : result (list (list bool)) :=
  (assert (n_qubits self =? n_qubits Pword)%nat 6 ;;;
   let Omega_Pword_symp_T := zip_with (@app Z) (Z_block Pword) (X_block Pword) in
   prod <- matmul_T (n_cols self) (symp_matrix self)
                    (Z_cols Pword + n_qubits Pword) Omega_Pword_symp_T ;;
   Ok (map (map (fun x => (x mod 2 =? 0)%Z)) prod))%result.

Definition commutes (self Pword : PauliwordOp) : result bool :=
  (m <- commutes_termwise self Pword ;;
   Ok (forallb (forallb (fun b => b)) m))%result.

Definition C_eqb (a b : C) : bool :=
  if Req_dec_T (fst a) (fst b) then
    if Req_dec_T (snd a) (snd b) then true else false
  else false.

Definition _rotate_by_single_Pword (self Pword : PauliwordOp) (angle : option R)
  : result PauliwordOp :=
  (assert (n_terms Pword =? 1)%nat 8 ;;;
   let Pword_copy :=
     if negb (C_eqb (nth 0 (coeff_vec Pword) C0) C1)
     then mkPauliwordOp (symp_matrix Pword) (n_cols Pword)
            (C1 :: tl (coeff_vec Pword))
     else Pword in
   m <- commutes_termwise self Pword_copy ;;
   let commute_vec := concat m in
   let commute_symp := select (symp_matrix self) commute_vec in
   let commute_coeff := select (coeff_vec self) commute_vec in
   let anticommute_symp := select (symp_matrix self) (map negb commute_vec) in
   let anticommute_coeff := select (coeff_vec self) (map negb commute_vec) in
   commute_self <- init (n_cols self) commute_symp commute_coeff ;;
   anticom_self <- init (n_cols self) anticommute_symp anticommute_coeff ;;
   anticom_part <-
     match angle with
     | None =>
         p <- mul anticom_self Pword_copy ;;
         multiply_by_constant p (- Ci)%C
     | Some angle =>
         a <- multiply_by_constant anticom_self (RtoC (cos angle)) ;;
         p <- mul anticom_self Pword_copy ;;
         b <- multiply_by_constant p ((- Ci) * RtoC (sin angle))%C ;;
         add a b
     end ;;
   add commute_self anticom_part)%result.

(** [StabilizerOp.update_sector]: the operator after the assignment
    to [self.coeff_vec]. *)
Definition update_sector (self : PauliwordOp) (ref_state : list Z)
  : result PauliwordOp :=
  (overlap <- broadcast2 Z.land (Z_cols self) (Z_block self)
                                (length ref_state) [ref_state] ;;
   Ok (mkPauliwordOp (symp_matrix self) (n_cols self)
         (map (fun r => Zpow (- C1)%C (count_nonzero r)) (snd overlap))))%result.

(** *** The rotation search of [StabilizerOp.stabilizer_rotations] *)

(** [symplectic_to_string] on a vector of even length, as the rows of
    an operator over qubits are: the letters are written in the order
    Y, X, Z, a later one replacing an earlier one. *)
Definition symplectic_to_string (symp_vec : list Z) : list ascii :=
  let n := (length symp_vec / 2)%nat in
  let X_block := firstn n symp_vec in
  let Z_block := skipn n symp_vec in
  let Y_loc := zip_with (fun x z => negb (Z.land x z =? 0)%Z) X_block Z_block in
  let X_loc := zip_with (fun y x => negb (Z.lxor (Z.b2z y) x =? 0)%Z) Y_loc X_block in
  let Z_loc := zip_with (fun y z => negb (Z.lxor (Z.b2z y) z =? 0)%Z) Y_loc Z_block in
  zip_with (fun (y : bool) (xz : bool * bool) =>
              if snd xz then "Z" else if fst xz then "X" else if y then "Y" else "I")%char
           Y_loc (combine X_loc Z_loc).

(** The two lists the closures of [stabilizer_rotations] append to. *)
Record search_state : Type := mkState {
  rotations : list (list ascii);
  used_indices : list nat
}.

(** [v[i] = x], an [IndexError] out of range. *)
Fixpoint set_at (i : nat) (x : Z) (v : list Z) : result (list Z) :=
  match v, i with
  | [], _ => Raise (ValueError 5)
  | _ :: t, O => Ok (x :: t)
  | y :: t, S i' => (r <- set_at i' x t ;; Ok (y :: r))%result
  end.

(** The remainder of a numpy integer: 0 when the divisor is 0 (numpy
    warns and goes on). *)
Definition np_mod (a b : nat) : nat :=
  match b with
  | O => O
  | _ => (a mod b)%nat
  end.

(** [update_sets(base_vector, pivot_index)], for the [n_qubits] of
    the stabilizer operator; [pivot_index] is an element of a numpy
    array. *)
Definition update_sets (nq : nat) (base_vector : list Z) (pivot_index : nat)
  (st : search_state) : result (PauliwordOp * search_state) :=
  let pivot_index_X := np_mod pivot_index nq in
  (v1 <- set_at pivot_index_X 1%Z base_vector ;;
   v2 <- set_at (pivot_index_X + nq) 1%Z v1 ;;
   let st' := mkState (rotations st ++ [symplectic_to_string v2])
                      (used_indices st ++ [pivot_index_X; (pivot_index_X + nq)%nat]) in
   P <- init_vec v2 [C1] ;;
   Ok (P, st'))%result.

(** [np.where(v)[0]]. *)
Definition where_nonzero (v : list Z) : list nat :=
  map snd (filter (fun p => negb (fst p =? 0)%Z) (combine v (seq 0 (length v)))).

(** [np.setdiff1d(a, b)] for an increasing [a]. *)
Definition setdiff1d (a b : list nat) : list nat :=
  filter (fun i => negb (existsb (Nat.eqb i) b)) a.

(** [np.argmin(v)]: the first position of the least value. *)
Fixpoint argmin_from (best_i : nat) (best : Z) (i : nat) (v : list Z) : nat :=
  match v with
  | [] => best_i
  | x :: t => if (x <? best)%Z then argmin_from i x (S i) t
              else argmin_from best_i best (S i) t
  end.

Definition argmin (v : list Z) : result nat :=
  match v with
  | [] => Raise (ValueError 7)
  | x :: t => Ok (argmin_from 0 x 1 t)
  end.

(** One call of [_recursive_rotate_onto_sqp] on a basis that is not
    [None], up to its recursive call: the basis handed to that call
    and the lists as they are then. *)
Definition rotate_onto_sqp_step (nq : nat) (basis : PauliwordOp) (st : search_state)
  : result (option PauliwordOp * search_state) :=
  let row_sum := sum_axis1 (symp_matrix basis) in
  let col_sum := sum_axis0 (n_cols basis) (symp_matrix basis) in
  let sort_rows_by_weight := argsort row_sum in
  match take [] (symp_matrix basis) sort_rows_by_weight with
  | [] => Raise (ValueError 8)
  | pivot_row :: _ =>
      let non_I := setdiff1d (where_nonzero pivot_row) (used_indices st) in
      let support := zip_with Z.mul pivot_row col_sum in
      (k <- argmin (take 0%Z support non_I) ;;
       let pivot_point := nth k non_I O in
       ps <- update_sets nq pivot_row pivot_point st ;;
       rotated_basis <- _rotate_by_single_Pword basis (fst ps) None ;;
       let non_sqp :=
         map snd (filter (fun p => negb (fst p =? 1)%Z)
                    (combine (sum_axis1 (symp_matrix rotated_basis))
                             (seq 0 (n_terms rotated_basis)))) in
       let new_basis :=
         match (l <- map_result (getitem rotated_basis) non_sqp ;; reduce_add l) with
         | Ok b => Some b
         | Raise _ => None
         end in
       Ok (new_basis, snd ps))%result
  end.

(** [_recursive_rotate_onto_sqp(basis)] followed for at most [depth]
    nested calls; [None] when that many calls did not reach the end. *)
Fixpoint _recursive_rotate_onto_sqp (nq depth : nat) (basis : option PauliwordOp)
  (st : search_state) : option (result search_state) :=
  match basis with
  | None => Some (Ok st)
  | Some b =>
      match depth with
      | O => None
      | S depth' =>
          match rotate_onto_sqp_step nq b st with
          | Raise e => Some (Raise e)
          | Ok (new_basis, st') => _recursive_rotate_onto_sqp nq depth' new_basis st'
          end
      end
  end.

End Pauli.

(** ** [MajoranaOp] *)

Module Majorana.

Import BubbleSort.

Record MajoranaOp : Type := mkMajoranaOp {
  symp_matrix : matrix;
  n_sites : nat;
  coeff_vec : list C;
  phase_factors_included : bool
}.

Definition n_terms (M : MajoranaOp) : nat := length (symp_matrix M).

(** What the constructor accepts as its first argument: a numpy array
    of one or two dimensions, or a list of lists of mode indices. *)
Inductive operator_input : Type :=
| Array1 (v : list Z)
| Array2 (ncols : nat) (rows : matrix)
| ListOfLists (terms : list (list Z)).

(** [(1j) ** k] for an integer [k]: [i] has order 4. *)
Definition Ci_pow (k : Z) : C := Cpow Ci (Z.to_nat (k mod 4)).

(** [row[ordered_term] = 1] for a row of length [n]: numpy counts a
    negative index from the end. *)
Definition mark (n : nat) (row : list Z) (ordered_term : list Z) : result (list Z) :=
  fold_left
    (fun acc k =>
       (r <- acc ;;
        let k' := if (k <? 0)%Z then (Z.of_nat n + k)%Z else k in
        if (0 <=? k')%Z && (k' <? Z.of_nat n)%Z
        then Ok (firstn (Z.to_nat k') r ++ 1%Z :: skipn (S (Z.to_nat k')) r)
        else Raise (ValueError 9))%result)
    ordered_term (Ok row).

(** [v[i] *= x], an [IndexError] out of range. *)
Definition scale_at (i : nat) (x : C) (v : list C) : result (list C) :=
  if (i <? length v)%nat
  then Ok (firstn i v ++ (nth i v C0 * x)%C :: skipn (S i) v)
  else Raise (ValueError 10).

(** The loop of [initalize_op] over the terms of a list of lists,
    from term number [ind]. *)
Fixpoint fill_terms (n : nat) (ind : nat) (terms : list (list Z)) (coeffs : list C)
  : result (matrix * list C) :=
  match terms with
  | [] => Ok ([], coeffs)
  | term :: rest =>
      let '(ordered_term, sign) := bubble_sort_maj term in
      (row <- mark n (repeat 0%Z n) ordered_term ;;
       coeffs' <- scale_at ind (RtoC (IZR sign)) coeffs ;;
       r <- fill_terms n (S ind) rest coeffs' ;;
       Ok (row :: fst r, snd r))%result
  end.

(** [MajoranaOp(list_lists_OR_sympletic_form, coeff_list,
    phase_factors_included)]: [__init__] with [initalize_op]. *)
Definition init (input_term : operator_input) (coeff_list : list C)
  (phase_factors_included : bool) : result MajoranaOp :=
  (shape <-
     match input_term with
     | Array1 v =>
         if (length v =? 0)%nat && (length coeff_list =? 1)%nat
         then Ok (2%nat, [[0; 0]]%Z, coeff_list)
         else assert (Nat.even (length v)) 11 ;;; Ok (length v, [v], coeff_list)
     | Array2 ncols rows =>
         if (length rows =? 0)%nat && (length coeff_list =? 1)%nat
         then Ok (2%nat, [[0; 0]]%Z, coeff_list)
         else assert (Nat.even ncols) 11 ;;; Ok (ncols, rows, coeff_list)
     | ListOfLists terms =>
         let flat_list := concat terms in
         let n :=
           match flat_list with
           | [] => 2%nat
           | x :: t =>
               let m := (fold_right Z.max x t + 1)%Z in
               Z.to_nat (if (m mod 2 =? 0)%Z then m else m + 1)%Z
           end in
         r <- fill_terms n 0 terms coeff_list ;;
         Ok (n, fst r, snd r)
     end ;;
   let '(n, m, cv) := shape in
   assert (length m =? length cv)%nat 12 ;;;
   let cv' :=
     if phase_factors_included then cv
     else zip_with (fun c s => (c * Ci_pow (s / 2))%C) cv (sum_axis1 m) in
   Ok (mkMajoranaOp m n cv' phase_factors_included))%result.

Definition zero_threshold : R := (1 / 10 ^ 15)%R.

Definition cleanup (self : MajoranaOp) : result MajoranaOp :=
  let '(reduced_symplectic_matrix, reduced_coeff_vec) :=
    merge_rows (n_sites self) (symp_matrix self) (coeff_vec self) in
  let mask_nonzero := map (fun c => Cabs_gtb c zero_threshold) reduced_coeff_vec in
  init (Array2 (n_sites self) (select reduced_symplectic_matrix mask_nonzero))
       (select reduced_coeff_vec mask_nonzero) true.

(** [temp_mat = np.zeros((n_terms, width)); temp_mat[:, :n] += m]. *)
Definition pad_columns (width : nat) (m : matrix) : matrix :=
  map (fun r => r ++ repeat 0%Z (width - length r)) m.

(** The two matrices brought to the larger of the two numbers of
    sites, as the branches of [__add__], [__mul__] and [__eq__] do. *)
Definition widen (a b : MajoranaOp) : matrix * matrix * nat :=
  if negb (n_sites a =? n_sites b)%nat then
    if (n_sites a <? n_sites b)%nat
    then (pad_columns (n_sites b) (symp_matrix a), symp_matrix b, n_sites b)
    else (symp_matrix a, pad_columns (n_sites a) (symp_matrix b), n_sites a)
  else (symp_matrix a, symp_matrix b, n_sites a).

Definition add (self M_OP : MajoranaOp) : result MajoranaOp :=
  let '(mat_self, mat_M_OP, width) := widen self M_OP in
  let P_symp_mat_new := mat_self ++ mat_M_OP in
  let P_new_coeffs := coeff_vec self ++ coeff_vec M_OP in
  (P <- init (Array2 width P_symp_mat_new) P_new_coeffs true ;;
   cleanup P)%result.

(** [term_index_list[vec.astype(bool)]]. *)
Definition active_modes (vec : list Z) : list Z :=
  map (fun p => Z.of_nat (snd p))
      (filter (fun p => negb (fst p =? 0)%Z) (combine vec (seq 0 (length vec)))).

Definition logical_xor (a b : Z) : Z :=
  Z.b2z (xorb (negb (a =? 0)%Z) (negb (b =? 0)%Z)).

Definition mul (self M_OP : MajoranaOp) : result MajoranaOp :=
  let '(temp_mat_self, temp_mat_M_OP, width) := widen self M_OP in
  let products :=
    flat_map
      (fun '(vec1, c1) =>
         map (fun '(vec2, c2) =>
                let reordering_sign :=
                  snd (bubble_sort_maj (active_modes vec1 ++ active_modes vec2)) in
                (zip_with logical_xor vec1 vec2,
                 (c1 * c2 * RtoC (IZR reordering_sign))%C))
             (combine temp_mat_M_OP (coeff_vec M_OP)))
      (combine temp_mat_self (coeff_vec self)) in
  (P <- init (Array2 width (map fst products)) (map snd products) true ;;
   cleanup P)%result.

(** The matrix [comm_flag] of [commutes_termwise]. *)
Definition commutes_termwise (self M_OP : MajoranaOp) : list (list Z) :=
  let sites :=
    if negb (n_sites self =? n_sites M_OP)%nat
    then Nat.min (n_sites self) (n_sites M_OP)
    else n_sites self in
  let suppA := sum_axis1 (symp_matrix self) in
  let suppB := sum_axis1 (symp_matrix M_OP) in
  map (fun '(rowA, sa) =>
         map (fun '(rowB, sb) =>
                ((sa * sb + dot (firstn sites rowA) (firstn sites rowB) + 1) mod 2)%Z)
             (combine (symp_matrix M_OP) suppB))
      (combine (symp_matrix self) suppA).

(** [np.allclose(a, b)] with the default tolerances. *)
Definition isclose (a b : C) : bool :=
  if Rle_dec (Cabs (a - b)%C) (1 / 10 ^ 8 + 1 / 10 ^ 5 * Cabs b)%R then true else false.

Definition allclose (a b : list C) : bool :=
  forallb (fun b => b) (zip_with isclose a b).

Definition eq (self M_OP : MajoranaOp) : result bool :=
  (check_1 <- cleanup self ;;
   check_2 <- cleanup M_OP ;;
   if negb (n_terms check_1 =? n_terms check_2)%nat then Ok false
   else
     let '(temp_mat_self, temp_mat_M_OP, _) := widen check_1 check_2 in
     let differences :=
       vsum (map vsum (zip_with (zip_with logical_xor) temp_mat_self temp_mat_M_OP)) in
     Ok ((differences =? 0)%Z && allclose (coeff_vec check_1) (coeff_vec check_2)))%result.

End Majorana.

(** ** Further methods of [PauliwordOp] *)

Module PauliOps.

Local Open Scope result_scope.

Import Pauli.

(** Exceptions other than [AssertionError], told apart by a number. *)
Definition IndexError : error := ValueError 20.
Definition ZeroDivisionError : error := ValueError 21.
Definition UnpackError : error := ValueError 22.

(** [__sub__]: the coefficients of a copy of [Pword] are multiplied
    by [-1], and the copy is added. *)
Definition __sub__ (self Pword : PauliwordOp) : result PauliwordOp :=
  let op_copy := mkPauliwordOp (symp_matrix Pword) (n_cols Pword)
                   (map (fun c => (c * RtoC (-1))%C) (coeff_vec Pword)) in
  add self op_copy.

(** [arr[k]] for an integer [k]: a negative index counts from the
    end, an [IndexError] out of range. *)
Definition np_index {A : Type} (d : A) (arr : list A) (k : Z) : result A :=
  let n := Z.of_nat (length arr) in
  if ((0 <=? k) && (k <? n))%Z then Ok (nth (Z.to_nat k) arr d)
  else if ((- n <=? k) && (k <? 0))%Z then Ok (nth (Z.to_nat (k + n)) arr d)
  else Raise IndexError.

(** [np.arange(start, stop, step)] on integers. *)
Definition arange (start stop step : Z) : result (list Z) :=
  if (step =? 0)%Z then Raise ZeroDivisionError
  else
    let len := if (0 <? step)%Z then ((stop - start + step - 1) / step)%Z
               else ((start - stop - step - 1) / (- step))%Z in
    Ok (map (fun i => (start + Z.of_nat i * step)%Z) (seq 0 (Z.to_nat len))).

(** What is written between the brackets of [self[...]]: an integer,
    or a slice [start:stop:step] with any part left out. *)
Inductive subscript : Type :=
| Int (key : Z)
| Slice (start stop step : option Z).

Definition __getitem__ (self : PauliwordOp) (key : subscript) : result PauliwordOp :=
  match key with
  | Int key =>
      let key := if (key <? 0)%Z then (key + Z.of_nat (n_terms self))%Z else key in
      assert (key <? Z.of_nat (n_terms self))%Z 7 ;;;
      symp_index <- np_index [] (symp_matrix self) key ;;
      coef_index <- np_index C0 (coeff_vec self) key ;;
      init_vec symp_index [coef_index]
  | Slice start stop step =>
      let start := match start with None => 0%Z | Some s => s end in
      let stop := match stop with None => Z.of_nat (n_terms self) | Some s => s end in
      let step := match step with None => 1%Z | Some s => s end in
      mask <- arange start stop step ;;
      symp_index <- map_result (np_index [] (symp_matrix self)) mask ;;
      coef_index <- map_result (np_index C0 (coeff_vec self)) mask ;;
      init (n_cols self) symp_index coef_index
  end.

(** [__iter__]: the list [[self[i] for i in range(self.n_terms)]]. *)
Definition __iter__ (self : PauliwordOp) : result (list PauliwordOp) :=
  map_result (fun i => __getitem__ self (Int (Z.of_nat i))) (seq 0 (n_terms self)).

(** A Python dictionary from Pauli strings to coefficients, its items
    in the order of insertion. *)
Definition dict : Type := list (list ascii * C).

Fixpoint string_eqb (a b : list ascii) : bool :=
  match a, b with
  | [], [] => true
  | x :: a', y :: b' => Ascii.eqb x y && string_eqb a' b'
  | _, _ => false
  end.

(** [d[k] = v]: a key already present keeps its place and takes the
    new value. *)
Fixpoint dict_set (k : list ascii) (v : C) (d : dict) : dict :=
  match d with
  | [] => [(k, v)]
  | (k', v') :: t =>
      if string_eqb k k' then (k', v) :: t else (k', v') :: dict_set k v t
  end.

(** The cached property [to_dictionary]. *)
Definition to_dictionary (self : PauliwordOp) : result dict :=
  op_to_convert <- cleanup self ;;
  Ok (fold_left (fun d p => dict_set (symplectic_to_string (fst p)) (snd p) d)
                (combine (symp_matrix op_to_convert) (coeff_vec op_to_convert))
                []).

(** [PauliwordOp(operator)] for a dictionary: the items are unzipped
    into the list of strings and the coefficients, which cannot be
    unpacked when the dictionary is empty. *)
Definition init_dict (operator : dict) : result PauliwordOp :=
  match operator with
  | [] => Raise UnpackError
  | _ => init_strings (map fst operator) (map snd operator)
  end.

(** [arr[mask]] for a matrix and a boolean matrix, which must have the
    shape of [arr]: the entries selected, row after row. *)
Definition mask_select (ncols : nat) (arr : matrix) (mcols : nat) (mask : list (list bool))
  : result (list Z) :=
  if (length arr =? length mask)%nat && (ncols =? mcols)%nat
  then Ok (select (concat arr) (concat mask))
  else Raise IndexError.

Definition qwc_single_Pword (self Pword : PauliwordOp) : result bool :=
  assert (n_terms self =? 1)%nat 9 ;;;
  assert (n_terms Pword =? 1)%nat 10 ;;;
  self_I <- broadcast2 (fun x z => negb (Z.lor x z =? 0)%Z)
              (n_qubits self) (X_block self) (Z_cols self) (Z_block self) ;;
  Pword_I <- broadcast2 (fun x z => negb (Z.lor x z =? 0)%Z)
               (n_qubits Pword) (X_block Pword) (Z_cols Pword) (Z_block Pword) ;;
  unique_non_I_locations <-
    broadcast2 andb (fst self_I) (snd self_I) (fst Pword_I) (snd Pword_I) ;;
  let loc := unique_non_I_locations in
  sX <- mask_select (n_qubits self) (X_block self) (fst loc) (snd loc) ;;
  pX <- mask_select (n_qubits Pword) (X_block Pword) (fst loc) (snd loc) ;;
  let same_Xs := map (fun v => negb (negb (v =? 0)%Z)) (zip_with Z.lxor sX pX) in
  sZ <- mask_select (Z_cols self) (Z_block self) (fst loc) (snd loc) ;;
  pZ <- mask_select (Z_cols Pword) (Z_block Pword) (fst loc) (snd loc) ;;
  let same_Zs := map (fun v => negb (negb (v =? 0)%Z)) (zip_with Z.lxor sZ pZ) in
  Ok (forallb (fun b => b) same_Xs && forallb (fun b => b) same_Zs).

(** The cached property [adjacency_matrix]. *)
Definition adjacency_matrix (self : PauliwordOp) : result (list (list bool)) :=
  commutes_termwise self self.

End PauliOps.

(** ** Further methods of [MajoranaOp] *)

Module MajoranaOps.

Local Open Scope result_scope.

Import Majorana BubbleSort.

(** [__sub__]: the coefficients of a copy of [M_OP] are multiplied by
    [-1], and the copy is added. *)
Definition __sub__ (self M_OP : MajoranaOp) : result MajoranaOp :=
  let op_copy := mkMajoranaOp (symp_matrix M_OP) (n_sites M_OP)
                   (map (fun c => (c * RtoC (-1))%C) (coeff_vec M_OP))
                   (phase_factors_included M_OP) in
  add self op_copy.

(** [commutator]: [(self * M_OP - M_OP * self).cleanup()]. *)
Definition commutator (self M_OP : MajoranaOp) : result MajoranaOp :=
  ab <- mul self M_OP ;;
  ba <- mul M_OP self ;;
  d <- __sub__ ab ba ;;
  cleanup d.

(** [anticommutator]: [(self * M_OP + M_OP * self).cleanup()]. *)
Definition anticommutator (self M_OP : MajoranaOp) : result MajoranaOp :=
  ab <- mul self M_OP ;;
  ba <- mul M_OP self ;;
  s <- add ab ba ;;
  cleanup s.

(** [commutes]: the commutator has no term. *)
Definition commutes (self M_OP : MajoranaOp) : result bool :=
  c <- commutator self M_OP ;;
  Ok (n_terms c =? 0)%nat.

(** The property [dagger]: the modes of every term in reverse order,
    the coefficients conjugated, handed to the constructor as a list of
    lists. *)
Definition dagger (self : MajoranaOp) : result MajoranaOp :=
  let new_terms := map (fun sym_vec => rev (active_modes sym_vec)) (symp_matrix self) in
  init (ListOfLists new_terms) (map Cconj (coeff_vec self)) true.

Definition adjacency_matrix (self : MajoranaOp) : list (list Z) :=
  commutes_termwise self self.

End MajoranaOps.

(** ** Sequences of rotations *)

Module PauliRotations.

Import Pauli PauliOps.
Local Open Scope result_scope.

(** The list handed to [recursive_rotate_by_Pword]: Pauli strings, or
    vectors in the symplectic representation. *)
Inductive rotation_list : Type :=
| Strings (l : list (list ascii))
| Vectors (l : list (list Z)).

(** [recursive_rotate_by_Pword].  [pauli_rot_list[0]] is looked at
    first, an [IndexError] on an empty list; [angles] is [None] or a
    list of angles, each a number or [None]. *)
Definition recursive_rotate_by_Pword (self : PauliwordOp) (pauli_rot_list : rotation_list)
  (angles : option (list (option R))) : result PauliwordOp :=
  pauli_rot_list <-
    match pauli_rot_list with
    | Strings [] => Raise IndexError
    | Vectors [] => Raise IndexError
    | Strings l => map_result (fun r => string_to_symplectic r (n_qubits self)) l
    | Vectors l => Ok l
    end ;;
  let angles :=
    match angles with
    | None => map (fun _ => None) pauli_rot_list
    | Some a => a
    end in
  assert (length angles =? length pauli_rot_list)%nat 13 ;;;
  fold_left
    (fun P_rotating pa =>
       P_rotating <- P_rotating ;;
       Pword_temp <- init_vec (fst pa) [C1] ;;
       rotated <- _rotate_by_single_Pword P_rotating Pword_temp (snd pa) ;;
       cleanup rotated)
    (combine pauli_rot_list angles) (Ok self).

End PauliRotations.

(** ** [majorana_rotations] *)

Module MajoranaRotations.

Import Majorana.
Local Open Scope result_scope.

(** [np.arange(start, stop, step)] on natural numbers, for a positive
    [step]. *)
Definition arange (start stop step : nat) : list nat :=
  map (fun i => (start + step * i)%nat) (seq 0 ((stop - start + step - 1) / step)).

(** The attributes [even_inds] and [odd_inds] that [MajoranaOp.__init__]
    sets. *)
Definition even_inds (M : MajoranaOp) : list nat := arange 0 (n_sites M) 2.
Definition odd_inds (M : MajoranaOp) : list nat := arange 1 (n_sites M) 2.

(** [m[:, inds]]. *)
Definition columns (m : matrix) (inds : list nat) : matrix :=
  map (fun row => take 0%Z row inds) m.

(** [np.logical_and(a, b).astype(int)] on two matrices of the same
    shape. *)
Definition logical_and (a b : matrix) : matrix :=
  zip_with (zip_with (fun x y => Z.b2z (negb (x =? 0)%Z && negb (y =? 0)%Z))) a b.

(** [np.where(v == k)[0]]. *)
Definition where_eq (v : list Z) (k : Z) : list nat :=
  Pauli.where_nonzero (map (fun x => Z.b2z (x =? k)%Z) v).

(** [np.intersect1d(a, b)] for increasing [a] and [b]. *)
Definition intersect1d (a b : list nat) : list nat :=
  filter (fun i => existsb (Nat.eqb i) b) a.

(** [np.delete(arr, idx, axis=0)] for indices within [arr]. *)
Definition delete {A : Type} (arr : list A) (idx : list nat) : list A :=
  map snd (filter (fun p => negb (existsb (Nat.eqb (fst p)) idx))
             (combine (seq 0 (length arr)) arr)).

(** [_delete_reduced_rows]: the set [maj_z_pair_indices] as the
    increasing list of its elements, [singles_operator] ([None] when no
    row is taken out) and [reduced_maj]. *)
Definition _delete_reduced_rows (maj_op : MajoranaOp)
  : result (list nat * option MajoranaOp * MajoranaOp) :=
  let z_term_check :=
    logical_and (columns (symp_matrix maj_op) (even_inds maj_op))
                (columns (symp_matrix maj_op) (odd_inds maj_op)) in
  let single_z_rows :=
    intersect1d (where_eq (sum_axis1 z_term_check) 1)
                (where_eq (sum_axis1 (symp_matrix maj_op)) 2) in
  let maj_z_pair_indices :=
    where_eq (sum_axis0 (n_sites maj_op) (take [] (symp_matrix maj_op) single_z_rows)) 1 in
  singles_operator <-
    (if (0 <? length single_z_rows)%nat
     then
       s <- init (Array2 (n_sites maj_op) (take [] (symp_matrix maj_op) single_z_rows))
              (take C0 (coeff_vec maj_op) single_z_rows) true ;;
       Ok (Some s)
     else Ok None) ;;
  reduced_maj <-
    init (Array2 (n_sites maj_op) (delete (symp_matrix maj_op) single_z_rows))
         (delete (coeff_vec maj_op) single_z_rows) true ;;
  Ok (maj_z_pair_indices, singles_operator, reduced_maj).

End MajoranaRotations.

(** ** [count1_in_int_bitstring] *)

Module Bitstring.

(** [count1_in_int_bitstring(i)] on a Python integer: [>>] and [&]
    are those of unbounded integers in two's complement, and [+] binds
    tighter than [&]. *)
Definition count1_in_int_bitstring (i : Z) : Z :=
  let i := (i - Z.land (Z.shiftr i 1) 0x55555555)%Z in
  let i := (Z.land i 0x33333333 + Z.land (Z.shiftr i 2) 0x33333333)%Z in
  Z.shiftr (Z.land (Z.land (i + Z.shiftr i 4) 0xF0F0F0F * 0x1010101) 0xffffffff) 24.

End Bitstring.

(** ** [symplectic_to_sparse_matrix] *)

Module SparseMatrix.

Import Bitstring.

(** A [csr_matrix] built from [(vals, (row_ind, col_ind))] with a
    shape: the shape and the entries stored, each with its row, its
    column and its value. *)
Record csr_matrix : Type := mk_csr {
  shape : Z * Z;
  data : list (Z * Z * C)
}.

(** [symplectic_to_sparse_matrix(symp_vec, coeff)]. *)
Definition symplectic_to_sparse_matrix (symp_vec : list Z) (coeff : C) : csr_matrix :=
  let n_qubits := (length symp_vec / 2)%nat in
  let X_block := firstn n_qubits symp_vec in
  let Z_block := skipn n_qubits symp_vec in
  let Y_number := vsum (zip_with Z.land X_block Z_block) in
  let global_phase := Pauli.Zpow (- Ci)%C Y_number in
  let binary_int_array := pow2_weights n_qubits in
  let x_int := wrap64 (dot X_block binary_int_array) in
  let z_int := wrap64 (dot Z_block binary_int_array) in
  let dimension := (2 ^ Z.of_nat n_qubits)%Z in
  let row_ind := map Z.of_nat (seq 0 (Z.to_nat dimension)) in
  let col_ind := map (fun r => Z.lxor r x_int) row_ind in
  let row_inds_and_Zint := map (fun r => Z.land r z_int) row_ind in
  let vals :=
    map (fun v => (global_phase
                   * Pauli.Zpow (- C1)%C (count1_in_int_bitstring v mod 2))%C)
        row_inds_and_Zint in
  let sparse_matrix := mk_csr (dimension, dimension)
                              (combine (combine row_ind col_ind) vals) in
  mk_csr (shape sparse_matrix)
         (map (fun e => (fst e, (coeff * snd e)%C)) (data sparse_matrix)).

End SparseMatrix.

(** ** The quantities the specification speaks of *)

Module Spec.

(** Number of set bits of a bit-vector. *)
Definition popcount (v : list Z) : nat :=
  length (filter (fun x => negb (x =? 0)%Z) v).

(** A row over [n] qubits: [2n] entries, each 0 or 1. *)
Definition pauli_row (n : nat) (v : list Z) : Prop :=
  length v = (2 * n)%nat /\ Forall (fun x => x = 0%Z \/ x = 1%Z) v.

Definition bits (v : list Z) : Prop := Forall (fun x => x = 0%Z \/ x = 1%Z) v.

Definition X_of (n : nat) (v : list Z) : list Z := firstn n v.
Definition Z_of (n : nat) (v : list Z) : list Z := skipn n v.
Definition band (a b : list Z) : list Z := zip_with Z.land a b.
Definition bxor (a b : list Z) : list Z := zip_with Z.lxor a b.

(** Number of Y positions ([X AND Z]) of a row. *)
Definition Y_number (n : nat) (v : list Z) : nat :=
  popcount (band (X_of n v) (Z_of n v)).

(** The coefficient of the product of the terms [(a, coeff_a)] and
    [(b, coeff_b)]:
    [coeff_a * coeff_b * (-1)^mismatch * (-i)^(Ya+Yb) * i^(Y of a XOR b)]. *)
Definition product_coeff (n : nat) (a : list Z) (coeff_a : C)
  (b : list Z) (coeff_b : C) : C :=
  (coeff_a * coeff_b
   * (- C1) ^ popcount (band (X_of n a) (Z_of n b))
   * (- Ci) ^ (Y_number n a + Y_number n b)
   * Ci ^ Y_number n (bxor a b))%C.

(** A well-formed Pauli operator over [n] qubits. *)
Definition pauli_wf (n : nat) (P : Pauli.PauliwordOp) : Prop :=
  Pauli.n_cols P = (2 * n)%nat
  /\ length (Pauli.coeff_vec P) = length (Pauli.symp_matrix P)
  /\ Forall (pauli_row n) (Pauli.symp_matrix P).

(** Entry [(i, j)] of a matrix. *)
Definition entry {A : Type} (m : list (list A)) (i j : nat) : option A :=
  match nth_error m i with
  | Some r => nth_error r j
  | None => None
  end.

(** Number of positions set in both of two bit-vectors. *)
Definition shared_count (a b : list Z) : nat :=
  popcount (zip_with Z.mul a b).

(** The reading of [commutes_termwise] claimed for Majorana
    operators: entry [(i,j)] is true exactly when
    [(sa*sb + o + 1) mod 2 == 0]. *)
Definition commutes_entry_claim (A B : Majorana.MajoranaOp) (i j : nat) : Prop :=
  forall rowA rowB e,
    nth_error (Majorana.symp_matrix A) i = Some rowA ->
    nth_error (Majorana.symp_matrix B) j = Some rowB ->
    entry (Majorana.commutes_termwise A B) i j = Some e ->
    let sites := Nat.min (Majorana.n_sites A) (Majorana.n_sites B) in
    let sa := Z.of_nat (popcount rowA) in
    let sb := Z.of_nat (popcount rowB) in
    let o := Z.of_nat (shared_count (firstn sites rowA) (firstn sites rowB)) in
    e <> 0%Z <-> ((sa * sb + o + 1) mod 2 = 0)%Z.

(** The Y count of a row, as [Y_count] computes it. *)
Definition row_Y (n : nat) (v : list Z) : Z :=
  vsum (zip_with Z.land (firstn n v) (skipn n v)).

(** The coefficient of a product row, in the order the code multiplies. *)
Definition code_coeff (n : nat) (b : list Z) (cb : C) (p : list Z * C) : C :=
  let a := fst p in
  (Pauli.Zpow (- C1) (vsum (zip_with Z.land (firstn n a) (skipn n b)))
   * Pauli.Zpow (- Ci) (row_Y n a + row_Y n b)
   * Pauli.Zpow Ci (row_Y n (zip_with Z.lxor a b))
   * snd p * cb)%C.

Definition bitsb (v : list Z) : bool := forallb Pauli.is_bit v.
Definition pauli_rowb (n : nat) (v : list Z) : bool :=
  (length v =? 2 * n)%nat && bitsb v.
Definition pauli_wfb (n : nat) (P : Pauli.PauliwordOp) : bool :=
  (Pauli.n_cols P =? 2 * n)%nat && (length (Pauli.coeff_vec P) =? length (Pauli.symp_matrix P))%nat
  && forallb (pauli_rowb n) (Pauli.symp_matrix P).

End Spec.


(** ** Notions used to describe [cleanup] *)

Module Shape.

Import Spec.

(** Keys in non-decreasing order. *)
Definition key_sorted {T : Type} (l : list (Z * T)) : Prop :=
  Sorted (fun x y => (fst x <= fst y)%Z) l.

(** The maximal runs of equal keys of a list. *)
Fixpoint groups {T : Type} (l : list (Z * T)) : list (list (Z * T)) :=
  match l with
  | [] => []
  | x :: t =>
      match groups t with
      | (y :: g) :: r =>
          if (fst x =? fst y)%Z then (x :: y :: g) :: r else [x] :: (y :: g) :: r
      | _ => [[x]]
      end
  end.

(** The key of a run. *)
Definition run_key {T : Type} (g : list (Z * T)) : Z :=
  match g with
  | [] => 0%Z
  | x :: _ => fst x
  end.

(** [[0, c1, c1+c2, ...]] shifted by [o]: the positions at which runs
    of lengths [cs] start. *)
Definition starts_from (o : nat) (cs : list nat) : list nat :=
  removelast (o :: cumsum_from o cs).

(** The rows and coefficients [cleanup] keeps, read off the runs of
    the sorted list of triples. *)
Definition merged (T : list (Z * (list Z * C))) : matrix * list C :=
  (map (fun g => hd [] (map (fun t => fst (snd t)) g)) (groups T),
   map (fun g => Csum (map (fun t => snd (snd t)) g)) (groups T)).

(** Sum of the coefficients of the triples of key [k]. *)
Definition ksum (k : Z) (T : list (Z * (list Z * C))) : C :=
  Csum (map (fun t => snd (snd t)) (filter (fun t => (fst t =? k)%Z) T)).

(** The integer a bit-vector denotes, most significant bit first. *)
Fixpoint binval (v : list Z) : Z :=
  match v with
  | [] => 0
  | x :: t => x * 2 ^ Z.of_nat (length t) + binval t
  end%Z.

Fixpoint row_eqb (a b : list Z) : bool :=
  match a, b with
  | [], [] => true
  | x :: a', y :: b' => (x =? y)%Z && row_eqb a' b'
  | _, _ => false
  end.

(** The coefficient of the bit-vector [r] in an operator: the sum of
    the coefficients of the rows equal to [r]. *)
Definition coeff_of (rows : matrix) (coeffs : list C) (r : list Z) : C :=
  Csum (map snd (filter (fun p => row_eqb (fst p) r) (combine rows coeffs))).

(** Rows of [ncols] bits. *)
Definition bit_rows (ncols : nat) (rows : matrix) : Prop :=
  Forall (fun r => length r = ncols /\ bits r) rows.

Definition row_key (ncols : nat) (r : list Z) : Z := wrap64 (dot r (pow2_weights ncols)).

(** What [cleanup] makes of the rows [rows] with coefficients
    [coeffs]: the distinct rows [R], each once, with the sums [Cs] of
    the coefficients of the rows equal to it. *)
Definition merged_spec (rows : matrix) (coeffs : list C) (R : matrix) (Cs : list C)
  : Prop :=
  length Cs = length R
  /\ NoDup R
  /\ (forall r, In r R <-> In r rows)
  /\ (forall j r c, nth_error R j = Some r -> nth_error Cs j = Some c ->
                    c = coeff_of rows coeffs r).

(** [abs(c) > zero_threshold] for each coefficient. *)
Definition mask_nonzero (Cs : list C) : list bool :=
  map (fun c => Cabs_gtb c (1 / 10 ^ 15)) Cs.

(** A well-formed Majorana operator: an even number of sites, one
    coefficient per row, rows as long as the number of sites. *)
Definition majorana_wf (M : Majorana.MajoranaOp) : Prop :=
  Nat.even (Majorana.n_sites M) = true
  /\ length (Majorana.coeff_vec M) = length (Majorana.symp_matrix M)
  /\ Forall (fun r => length r = Majorana.n_sites M) (Majorana.symp_matrix M).

Definition majorana_wfb (M : Majorana.MajoranaOp) : bool :=
  Nat.even (Majorana.n_sites M)
  && (length (Majorana.coeff_vec M) =? length (Majorana.symp_matrix M))%nat
  && forallb (fun r => (length r =? Majorana.n_sites M)%nat) (Majorana.symp_matrix M).

(** Two cleaned-up operators agree on the common support: their rows
    agree on the first [min(n_sites_1, n_sites_2)] columns and their
    coefficients are equal. *)
Definition agree_on_common_support (c1 c2 : Majorana.MajoranaOp) : Prop :=
  let sites := Nat.min (Majorana.n_sites c1) (Majorana.n_sites c2) in
  map (firstn sites) (Majorana.symp_matrix c1) = map (firstn sites) (Majorana.symp_matrix c2)
  /\ Majorana.coeff_vec c1 = Majorana.coeff_vec c2.

(** [X] on qubit 0 of 33 qubits. *)
Definition wide_X0 : list Z := 1%Z :: repeat 0%Z 65.
(** The identity on 33 qubits. *)
Definition wide_I : list Z := repeat 0%Z 66.
(** [Z] on qubit 32 of 33 qubits. *)
Definition wide_Z32 : list Z := repeat 0%Z 65 ++ [1%Z].

(** An operator as a list of terms: a bit-vector with its coefficient. *)
Definition terms : Type := list (list Z * C).

(** The coefficient of the bit-vector [r] in a list of terms. *)
Definition tcoeff (L : terms) (r : list Z) : C :=
  Csum (map snd (filter (fun p => row_eqb (fst p) r) L)).

(** Two lists of terms denote the same operator and show the same
    bit-vectors. *)
Definition same_operator (L L' : terms) : Prop :=
  forall r, (In r (map fst L) <-> In r (map fst L')) /\ tcoeff L r = tcoeff L' r.

(** The term [t] commutes with the term [q]:
    [(X_t . Z_q + Z_t . X_q) mod 2 == 0]. *)
Definition commutes_with (n : nat) (q t : list Z) : bool :=
  ((dot (X_of n t) (Z_of n q) + dot (Z_of n t) (X_of n q)) mod 2 =? 0)%Z.

(** The terms of [A] rotated by [Q] as the rule says: a term that
    commutes with [Q] is kept; an anticommuting term [t] becomes
    [cos(angle) t - i sin(angle) (t Q)], and [-i (t Q)] when no angle is
    given. *)
Definition rotated_terms (n : nat) (q : list Z) (angle : option R) (L : terms) : terms :=
  flat_map
    (fun p =>
       if commutes_with n q (fst p) then [p]
       else match angle with
            | None =>
                [(bxor (fst p) q, ((- Ci) * product_coeff n (fst p) (snd p) q C1)%C)]
            | Some theta =>
                [(fst p, (RtoC (cos theta) * snd p)%C);
                 (bxor (fst p) q,
                  ((- Ci) * RtoC (sin theta) * product_coeff n (fst p) (snd p) q C1)%C)]
            end) L.

(** The positions below [m] that are not yet marked used. *)
Definition free_positions (m : nat) (used : list nat) : list nat :=
  filter (fun i => negb (existsb (Nat.eqb i) used)) (seq 0 m).

End Shape.

(** ** Notions used to describe subscripts *)

Module Subscripts.

(** The one-term operator made of row [i] of an operator. *)
Definition term_at (A : Pauli.PauliwordOp) (i : nat) : Pauli.PauliwordOp :=
  Pauli.mkPauliwordOp [nth i (Pauli.symp_matrix A) []] (Pauli.n_cols A)
                      [nth i (Pauli.coeff_vec A) C0].

(** The integers [s, s+1, ..., e-1]. *)
Definition zrange (s e : Z) : list Z :=
  map (fun i => (s + Z.of_nat i)%Z) (seq 0 (Z.to_nat (e - s))).

(** The operator made of the rows of [A] at the positions [idx],
    each counted modulo the number of rows. *)
Definition rows_at (A : Pauli.PauliwordOp) (idx : list Z) : Pauli.PauliwordOp :=
  let n := Z.of_nat (Pauli.n_terms A) in
  Pauli.mkPauliwordOp
    (map (fun i => nth (Z.to_nat (i mod n)) (Pauli.symp_matrix A) []) idx)
    (Pauli.n_cols A)
    (map (fun i => nth (Z.to_nat (i mod n)) (Pauli.coeff_vec A) C0) idx).

End Subscripts.

(** ** Notions used to describe the strings of Pauli letters *)

Module Letters.

Import Pauli NumPy.

(** One of the letters I, X, Y, Z. *)
Definition valid_letter (x : ascii) : bool :=
  (Ascii.eqb x "I" || Ascii.eqb x "X" || Ascii.eqb x "Y" || Ascii.eqb x "Z")%char.

Definition xbit (c : ascii) : Z := (char_is "X" c + char_is "Y" c)%Z.
Definition zbit (c : ascii) : Z := (char_is "Z" c + char_is "Y" c)%Z.

(** The letter written for the bits [x] and [z] of a qubit. *)
Definition letter (x z : Z) : ascii :=
  let y := negb (Z.land x z =? 0)%Z in
  if negb (Z.lxor (Z.b2z y) z =? 0)%Z then "Z"%char
  else if negb (Z.lxor (Z.b2z y) x =? 0)%Z then "X"%char
  else if y then "Y"%char else "I"%char.

(** The vector of a string of valid letters: the X bits, then the Z
    bits. *)
Definition row_of_string (s : list ascii) : list Z := map xbit s ++ map zbit s.

(** Two letters clash when they differ and neither is I. *)
Definition clash (x y : ascii) : bool :=
  negb (Ascii.eqb x "I") && negb (Ascii.eqb y "I") && negb (Ascii.eqb x y).

(** The number of positions at which two strings clash. *)
Definition clashes (s t : list ascii) : nat :=
  length (filter (fun b : bool => b) (zip_with clash s t)).

(** The positions of a row that are not the identity: [X OR Z]. *)
Definition non_I (x z : list Z) : list bool :=
  zip_with (fun x z => negb (Z.lor x z =? 0)%Z) x z.

(** The entries of [u] and [v] selected by [mask] are pairwise
    equal. *)
Definition same_on (mask : list bool) (u v : list Z) : bool :=
  forallb (fun b : bool => b)
    (map (fun w => negb (negb (w =? 0)%Z))
         (zip_with Z.lxor (select u mask) (select v mask))).

End Letters.

(** ** Notions used to describe sums and products of operators *)

Module Algebra.

Import Spec Shape.

(** The terms of an operator: its rows with their coefficients. *)
Definition op_terms (P : Pauli.PauliwordOp) : terms :=
  combine (Pauli.symp_matrix P) (Pauli.coeff_vec P).

(** The products of every term of [LA] with every term of [LB], a
    term of [LA] on the left: the bit-vector [a XOR b] with the
    coefficient of the product. *)
Definition products (n : nat) (LA LB : terms) : terms :=
  flat_map
    (fun q =>
       map (fun p => (bxor (fst p) (fst q),
                      product_coeff n (fst p) (snd p) (fst q) (snd q))) LA)
    LB.

End Algebra.

(** ** Notions used to describe products of Majorana terms *)

Module Modes.

Import BubbleSort.

(** The number of pairs [(x, y)], [x] from [la] and [y] from [lb],
    with [x > y]. *)
Fixpoint cross (la lb : list Z) : nat :=
  match la with
  | [] => O
  | x :: t => (larger_before x lb + cross t lb)%nat
  end.

(** The sign of the product of the term [a] with the term [b]: one
    factor [-1] for every mode of [a] that has to move past a smaller
    mode of [b]. *)
Definition reorder_sign (a b : list Z) : Z :=
  if Nat.even (cross (Majorana.active_modes a) (Majorana.active_modes b))
  then 1%Z else (-1)%Z.

(** The number of pairs [(x, y)], [x] from [la] and [y] from [lb],
    with [P x y]. *)
Definition cnt (P : Z -> Z -> bool) (la lb : list Z) : nat :=
  fold_right (fun x acc => (length (filter (P x) lb) + acc)%nat) O la.

(** The modes of a row whose first entry is mode [o]. *)
Definition modes_from (o : nat) (v : list Z) : list Z :=
  map (fun p => Z.of_nat (snd p))
      (filter (fun p => negb (fst p =? 0)%Z) (combine v (seq o (length v)))).

(** The number of positions set in both of two rows. *)
Definition both (a b : list Z) : nat :=
  length (filter (fun t : bool => t)
            (zip_with (fun x y => negb (x =? 0)%Z && negb (y =? 0)%Z) a b)).

(** The row of the single mode [j] over [n] sites. *)
Definition gamma (n j : nat) : list Z :=
  map (fun i => if (i =? j)%nat then 1%Z else 0%Z) (seq 0 n).

(** The operator of the one term [c r] over [w] sites, as [cleanup]
    leaves it: without any term when [abs(c)] is not above the
    threshold. *)
Definition single (w : nat) (r : list Z) (c : C) : Majorana.MajoranaOp :=
  if Cabs_gtb c (1 / 10 ^ 15)
  then Majorana.mkMajoranaOp [r] w [c] true
  else Majorana.mkMajoranaOp [] w [] true.

(** A row brought to [w] columns by trailing zeros. *)
Definition padded (w : nat) (r : list Z) : list Z := r ++ repeat 0%Z (w - length r).

(** The number of sites the constructor gives to a list of lists of
    modes: the largest mode plus one, made even; 2 without any mode. *)
Definition sites_for (terms : list (list Z)) : nat :=
  match concat terms with
  | [] => 2%nat
  | x :: t =>
      let m := (fold_right Z.max x t + 1)%Z in
      Z.to_nat (if (m mod 2 =? 0)%Z then m else m + 1)%Z
  end.

(** The row over [n] sites that marks the modes of [term]. *)
Definition indicator (n : nat) (term : list Z) : list Z :=
  map (fun j => if existsb (Z.eqb (Z.of_nat j)) term then 1%Z else 0%Z) (seq 0 n).

(** The coefficient the constructor stores for the term [term] given
    with the coefficient [c]: the sign of the reordering, and the phase
    [i^(weight // 2)] when the phase is not yet included. *)
Definition stored_coeff (included : bool) (n : nat) (term : list Z) (c : C) : C :=
  let c' := (c * RtoC (IZR (snd (BubbleSort.bubble_sort_maj term))))%C in
  if included then c'
  else (c' * Majorana.Ci_pow (vsum (indicator n term) / 2))%C.

End Modes.

(** ** Notions used to describe operators over different numbers of sites *)

Module Widths.

Import Spec Shape Modes.

(** The terms of a Majorana operator: its rows with their
    coefficients. *)
Definition majorana_terms (M : Majorana.MajoranaOp) : terms :=
  combine (Majorana.symp_matrix M) (Majorana.coeff_vec M).

(** The terms [L] with every row brought to [w] columns by trailing
    zeros. *)
Definition padded_terms (w : nat) (L : terms) : terms :=
  map (fun p => (padded w (fst p), snd p)) L.

(** The products of every term of [LA] with every term of [LB] over
    [w] columns, a term of [LA] on the left and the terms of [LB] in
    their order for each of them: the modes that are in exactly one of
    the two rows, once both are brought to [w] columns by trailing
    zeros, with the product of the coefficients and of the sign of the
    reordering. *)
Definition padded_products (w : nat) (LA LB : terms) : terms :=
  flat_map
    (fun p =>
       map (fun q =>
              (zip_with Majorana.logical_xor (padded w (fst p)) (padded w (fst q)),
               (snd p * snd q * RtoC (IZR (reorder_sign (fst p) (fst q))))%C))
           LB)
    LA.

(** [R] is the operator over [w] sites that [cleanup] makes of the
    terms [L]: the distinct rows of [L], each once with the sum of the
    coefficients of the rows equal to it, without those whose sum has
    magnitude at most [1e-15]. *)
Definition cleaned_terms (w : nat) (L : terms) (R : Majorana.MajoranaOp) : Prop :=
  exists R0 Cs,
    merged_spec (map fst L) (map snd L) R0 Cs
    /\ R = Majorana.mkMajoranaOp (select R0 (mask_nonzero Cs)) w
             (select Cs (mask_nonzero Cs)) true.

(** The rows [r1] and [r2], both brought to [w] columns by trailing
    zeros, are nonzero at the same positions. *)
Definition same_support (w : nat) (r1 r2 : list Z) : Prop :=
  forall j, (j < w)%nat ->
            (nth j (padded w r1) 0%Z = 0%Z <-> nth j (padded w r2) 0%Z = 0%Z).

(** Two cleaned-up operators agree once the rows of both are brought
    to the larger number of sites by trailing zeros: the rows are then
    equal, and so are the coefficients. *)
Definition agree_after_padding (c1 c2 : Majorana.MajoranaOp) : Prop :=
  let w := Nat.max (Majorana.n_sites c1) (Majorana.n_sites c2) in
  map (padded w) (Majorana.symp_matrix c1) = map (padded w) (Majorana.symp_matrix c2)
  /\ Majorana.coeff_vec c1 = Majorana.coeff_vec c2.

End Widths.


(** ** Notions used to describe sequences of rotations *)

Module Sequences.

Import Spec Shape.

(** The terms [L] rotated by the words [qs] with the angles [angles],
    one rotation after the other, from left to right. *)
Definition rotated_in_turn (n : nat) (qs : list (list Z)) (angles : list (option R))
  (L : terms) : terms :=
  fold_left (fun L pa => rotated_terms n (fst pa) (snd pa) L) (combine qs angles) L.

(** The terms [L] with the coefficient negated on every term that
    anticommutes with [q]. *)
Definition negated_where_anticommuting (n : nat) (q : list Z) (L : terms) : terms :=
  map (fun p => (fst p, if commutes_with n q (fst p) then snd p else (- snd p)%C)) L.

End Sequences.

(** ** Notions used to describe the rows taken out by [majorana_rotations] *)

Module Pairs.

(** The modes [l] are the two modes [2i] and [2i+1] of one site. *)
Definition site_pair (l : list Z) : bool :=
  match l with
  | [j; k] => Z.even j && (k =? j + 1)%Z
  | _ => false
  end.

(** The row [r] is the product of the two modes of one site. *)
Definition pair_term (r : list Z) : bool := site_pair (Majorana.active_modes r).

End Pairs.

(** ** Notions used to describe the counting of bits *)

Module Fields.

(** The number of the [w] lowest bits of [i] that are set. *)
Definition low_bits_set (w : nat) (i : Z) : Z :=
  Z.of_nat (length (filter (fun k => Z.testbit i (Z.of_nat k)) (seq 0 w))).

(** The three steps of the count, for a mask [m]: pairs of bits,
    groups of four, and bytes. *)
Definition pairs (m x : Z) : Z := (x - Z.land (Z.shiftr x 1) m)%Z.
Definition quads (m x : Z) : Z := (Z.land x m + Z.land (Z.shiftr x 2) m)%Z.
Definition bytes (m x : Z) : Z := Z.land (x + Z.shiftr x 4) m.

(** What the three steps make of one byte [b]. *)
Definition byte_ok (b : Z) : bool :=
  let c := pairs 0x55 b in
  let d := quads 0x33 c in
  let e := bytes 0x0F d in
  ((0 <=? c) && (c <? 256) && (0 <=? d) && (d <? 256) && (d mod 16 <=? 4)
   && (d + Z.shiftr d 4 <? 192) && (0 <=? e) && (e <=? 8)
   && (e =? low_bits_set 8 b))%Z.

(** [P] holds of the [fuel] integers from [x] on. *)
Fixpoint all_from (fuel : nat) (x : Z) (P : Z -> bool) : bool :=
  match fuel with
  | O => true
  | S fuel' => P x && all_from fuel' (x + 1)%Z P
  end.

End Fields.

(** ** Notions used to describe the matrix of a Pauli word *)

Module Kronecker.

(** The Pauli matrix of the bits [(x, z)]: I, Z, X and Y. *)
Definition pauli_matrix (x z : Z) : list (list C) :=
  if (x =? 0)%Z
  then if (z =? 0)%Z then [[C1; C0]; [C0; C1]] else [[C1; C0]; [C0; (- C1)%C]]
  else if (z =? 0)%Z then [[C0; C1]; [C1; C0]] else [[C0; (- Ci)%C]; [Ci; C0]].

Definition entry2 (m : list (list C)) (r c : Z) : C :=
  nth (Z.to_nat c) (nth (Z.to_nat r) m []) C0.

(** Entry [(r, c)] of the Kronecker product of the Pauli matrices of
    the bits [(x_0, z_0)], [(x_1, z_1)], ..., the first one on the left:
    [(A (x) B)[r, c] = A[r / m, c / m] * B[r mod m, c mod m]] for a [B]
    of [m] rows. *)
Fixpoint kron_entry (xs zs : list Z) (r c : Z) : C :=
  match xs, zs with
  | x :: xs', z :: zs' =>
      let m := (2 ^ Z.of_nat (length xs'))%Z in
      (entry2 (pauli_matrix x z) (r / m) (c / m)
       * kron_entry xs' zs' (r mod m) (c mod m))%C
  | _, _ => C1
  end.

End Kronecker.

(** * Properties *)

(** ** Arithmetic of the coefficients *)

Module CplxFacts.

Lemma C_eq (a b : C) : fst a = fst b -> snd a = snd b -> a = b.
Proof. destruct a, b; simpl; intros -> ->; reflexivity. Qed.

(** Equations between coefficients, decided componentwise. *)
Ltac csolve :=
  apply C_eq;
  cbv [Cmul Cadd Csub Copp RtoC C0 C1 Ci fst snd];
  try ring; try lra.

Lemma Cmul_1_r (a : C) : (a * C1)%C = a.
Proof. csolve. Qed.

Lemma Cmul_1_l (a : C) : (C1 * a)%C = a.
Proof. csolve. Qed.

Lemma Cmul_comm (a b : C) : (a * b)%C = (b * a)%C.
Proof. csolve. Qed.

Lemma Cmul_assoc (a b c : C) : (a * (b * c))%C = (a * b * c)%C.
Proof. csolve. Qed.

Lemma Cadd_comm (a b : C) : (a + b)%C = (b + a)%C.
Proof. csolve. Qed.

Lemma Cadd_assoc (a b c : C) : (a + (b + c))%C = (a + b + c)%C.
Proof. csolve. Qed.

Lemma Cadd_0_l (a : C) : (C0 + a)%C = a.
Proof. csolve. Qed.

Lemma Cadd_0_r (a : C) : (a + C0)%C = a.
Proof. csolve. Qed.

Lemma Cmul_add_distr_r (a b c : C) : ((a + b) * c)%C = (a * c + b * c)%C.
Proof. csolve. Qed.

Lemma Cmul_add_distr_l (a b c : C) : (c * (a + b))%C = (c * a + c * b)%C.
Proof. csolve. Qed.

Lemma Cmul_0_l (a : C) : (C0 * a)%C = C0.
Proof. csolve. Qed.

Lemma Csum_app (l1 l2 : list C) : Csum (l1 ++ l2) = (Csum l1 + Csum l2)%C.
Proof.
  induction l1 as [|x l1 IH]; simpl.
  - now rewrite Cadd_0_l.
  - now rewrite IH, Cadd_assoc.
Qed.

Lemma Cabs_C0 : Cabs C0 = 0%R.
Proof.
  unfold Cabs, C0; simpl.
  replace (0 * 0 + 0 * 0)%R with 0%R by ring. apply sqrt_0.
Qed.

Lemma zero_threshold_pos : (0 < 1 / 10 ^ 15)%R.
Proof.
  apply Rdiv_lt_0_compat; [lra|]. apply pow_lt. lra.
Qed.

Lemma Cabs_gtb_C0 : Cabs_gtb C0 (1 / 10 ^ 15) = false.
Proof.
  unfold Cabs_gtb. destruct (Rlt_dec _ _) as [H|H]; [|reflexivity].
  rewrite Cabs_C0 in H. pose proof zero_threshold_pos. lra.
Qed.

Lemma Cabs_C1 : Cabs C1 = 1%R.
Proof.
  unfold Cabs, C1; simpl.
  replace (1 * 1 + 0 * 0)%R with 1%R by ring. apply sqrt_1.
Qed.

Lemma Cabs_gtb_C1 : Cabs_gtb C1 (1 / 10 ^ 15) = true.
Proof.
  unfold Cabs_gtb. destruct (Rlt_dec _ _) as [H|H]; [reflexivity|].
  exfalso. apply H. rewrite Cabs_C1.
  assert (Hp : (1 < 10 ^ 15)%R) by (apply Rlt_pow_R1; [lra|lia]).
  unfold Rdiv. rewrite Rmult_1_l. rewrite <- Rinv_1.
  apply Rinv_1_lt_contravar; [lra|exact Hp].
Qed.

End CplxFacts.
Import CplxFacts.


(** ** The bubble sort of Majorana modes *)

Module BubbleSortFacts.

Import BubbleSort.

Lemma list_set_app (pre : list Z) (j : nat) (x : Z) (l : list Z) :
  list_set (length pre + j) x (pre ++ l) = pre ++ list_set j x l.
Proof. induction pre as [|y pre IH]; simpl; [reflexivity|]. now rewrite IH. Qed.

Lemma nth_app_shift (pre l : list Z) (j : nat) :
  nth (length pre + j) (pre ++ l) 0%Z = nth j l 0%Z.
Proof. induction pre; simpl; auto. Qed.

Lemma nth_after (pre l : list Z) :
  nth (length pre) (pre ++ l) 0%Z = nth 0 l 0%Z.
Proof. rewrite <- (nth_app_shift pre l 0). f_equal. lia. Qed.

Lemma nth_after_S (pre l : list Z) :
  nth (S (length pre)) (pre ++ l) 0%Z = nth 1 l 0%Z.
Proof. rewrite <- (nth_app_shift pre l 1). f_equal. lia. Qed.

Lemma exchange_after (pre : list Z) (a b : Z) (t : list Z) :
  list_set (S (length pre)) a (list_set (length pre) b (pre ++ a :: b :: t))
  = pre ++ b :: a :: t.
Proof.
  pose proof (list_set_app pre 0 b (a :: b :: t)) as E0.
  rewrite Nat.add_0_r in E0. rewrite E0. cbn [list_set].
  pose proof (list_set_app pre 1 a (b :: b :: t)) as E1.
  rewrite Nat.add_1_r in E1. rewrite E1. reflexivity.
Qed.

(** The loop over the indices [length pre, ..., length pre + k - 1]
    acts on the part of the array after [pre] as [pass_from] does. *)
Lemma fold_pass (k : nat) :
  forall (pre l : list Z) (sw : bool) (c : nat),
    (k < length l)%nat ->
    fold_left compare_exchange (seq (length pre) k) (pre ++ l, sw, c)
    = (pre ++ fst (fst (pass_from k l)),
       sw || snd (fst (pass_from k l)),
       (c + snd (pass_from k l))%nat).
Proof.
  induction k as [|k IH]; intros pre l sw c Hk.
  - simpl. destruct l; simpl; now rewrite orb_false_r, Nat.add_0_r.
  - destruct l as [|a [|b t]]; simpl in Hk; try lia.
    cbn [seq fold_left pass_from]. unfold compare_exchange at 2.
    rewrite nth_after, nth_after_S. cbn [nth].
    destruct (a >? b)%Z.
    + rewrite exchange_after.
      specialize (IH (pre ++ [b]) (a :: t) true (S c)).
      rewrite length_app in IH. cbn [length] in IH.
      replace (length pre + 1)%nat with (S (length pre)) in IH by lia.
      rewrite <- app_assoc in IH. cbn [app] in IH.
      rewrite IH by (simpl; lia).
      destruct (pass_from k (a :: t)) as [[r s] c']. cbn [fst snd].
      rewrite <- app_assoc. cbn [app]. rewrite orb_true_r. f_equal. lia.
    + specialize (IH (pre ++ [a]) (b :: t) sw c).
      rewrite length_app in IH. cbn [length] in IH.
      replace (length pre + 1)%nat with (S (length pre)) in IH by lia.
      rewrite <- app_assoc in IH. cbn [app] in IH.
      rewrite IH by (simpl; lia).
      destruct (pass_from k (b :: t)) as [[r s] c']. cbn [fst snd].
      rewrite <- app_assoc. reflexivity.
Qed.

(** One run of the inner loop is one pass over the list. *)
Lemma inner_loop_pass_from (k : nat) (arr : list Z) :
  (k < length arr)%nat -> inner_loop k arr = pass_from k arr.
Proof.
  intros H. unfold inner_loop.
  generalize (fold_pass k [] arr false O H). cbn [app orb Nat.add length].
  intros ->. now destruct (pass_from k arr) as [[r s] c].
Qed.

Lemma larger_before_perm (a : Z) (l l' : list Z) :
  Permutation l l' -> larger_before a l = larger_before a l'.
Proof.
  induction 1; simpl; try lia.
Qed.

Lemma pass_from_perm (k : nat) :
  forall l, Permutation l (fst (fst (pass_from k l))).
Proof.
  induction k as [|k IH]; intros l; simpl.
  - destruct l; apply Permutation_refl.
  - destruct l as [|a [|b t]]; try apply Permutation_refl.
    destruct (a >? b)%Z.
    + specialize (IH (a :: t)).
      destruct (pass_from k (a :: t)) as [[r s] c]; simpl in *.
      eapply perm_trans; [apply perm_swap|]. now constructor.
    + specialize (IH (b :: t)).
      destruct (pass_from k (b :: t)) as [[r s] c]; simpl in *.
      now constructor.
Qed.

(** Every exchange of the inner loop removes exactly one inversion. *)
Lemma pass_from_inversions (k : nat) :
  forall l, inversions l
            = (snd (pass_from k l) + inversions (fst (fst (pass_from k l))))%nat.
Proof.
  induction k as [|k IH]; intros l; simpl.
  - destruct l; reflexivity.
  - destruct l as [|a [|b t]]; try reflexivity.
    destruct (a >? b)%Z eqn:Hab.
    + pose proof (IH (a :: t)) as E.
      pose proof (pass_from_perm k (a :: t)) as P.
      destruct (pass_from k (a :: t)) as [[r s] c]; simpl in *.
      rewrite <- (larger_before_perm b _ _ P). simpl.
      rewrite Hab.
      assert ((b >? a)%Z = false) as -> by lia. lia.
    + pose proof (IH (b :: t)) as E.
      pose proof (pass_from_perm k (b :: t)) as P.
      destruct (pass_from k (b :: t)) as [[r s] c]; simpl in *.
      rewrite <- (larger_before_perm a _ _ P). simpl.
      rewrite Hab. lia.
Qed.

Lemma pass_from_quiet (k : nat) :
  forall l, snd (fst (pass_from k l)) = false ->
            pass_from k l = (l, false, O) /\ ordered_upto k l.
Proof.
  induction k as [|k IH]; intros l; simpl.
  - destruct l; auto.
  - destruct l as [|a [|b t]]; auto.
    destruct (a >? b)%Z eqn:Hab.
    + destruct (pass_from k (a :: t)) as [[r s] c]; simpl. discriminate.
    + specialize (IH (b :: t)).
      destruct (pass_from k (b :: t)) as [[r s] c]; simpl in *.
      intros ->. destruct (IH eq_refl) as [E O]. inversion E; subst.
      split; [reflexivity|]. split; [lia|exact O].
Qed.

Lemma ordered_upto_sorted (l : list Z) :
  forall k, (length l <= S k)%nat -> ordered_upto k l -> Sorted Z.le l.
Proof.
  induction l as [|a t IH]; intros k Hk Ho; [constructor|].
  destruct t as [|b t']; [repeat constructor|].
  destruct k as [|k]; [simpl in Hk; lia|].
  destruct Ho as [Hab Ho].
  constructor; [apply (IH k); [simpl in *; lia|exact Ho]|constructor; exact Hab].
Qed.

(** A complete pass moves a largest element to the end. *)
Lemma pass_from_max (k : nat) :
  forall l, length l = S k ->
    exists r m, fst (fst (pass_from k l)) = r ++ [m] /\ Forall (fun x => (x <= m)%Z) r.
Proof.
  induction k as [|k IH]; intros l Hl.
  - destruct l as [|a [|b t]]; try discriminate. exists [], a. simpl. auto.
  - destruct l as [|a [|b t]]; try discriminate. simpl.
    destruct (a >? b)%Z eqn:Hab.
    + destruct (IH (a :: t)) as (r & m & E & F); [simpl in *; lia|].
      pose proof (pass_from_perm k (a :: t)) as P.
      destruct (pass_from k (a :: t)) as [[r0 s] c]; simpl in *. subst r0.
      exists (b :: r), m. split; [reflexivity|]. constructor; [|exact F].
      assert (a <= m)%Z; [|lia].
      assert (In a (r ++ [m])) as Hin
        by (eapply Permutation_in; [exact P|now left]).
      apply in_app_or in Hin. destruct Hin as [Hin|[<-|[]]]; [|lia].
      rewrite Forall_forall in F. now apply F.
    + destruct (IH (b :: t)) as (r & m & E & F); [simpl in *; lia|].
      pose proof (pass_from_perm k (b :: t)) as P.
      destruct (pass_from k (b :: t)) as [[r0 s] c]; simpl in *. subst r0.
      exists (a :: r), m. split; [reflexivity|]. constructor; [|exact F].
      assert (b <= m)%Z; [|lia].
      assert (In b (r ++ [m])) as Hin
        by (eapply Permutation_in; [exact P|now left]).
      apply in_app_or in Hin. destruct Hin as [Hin|[<-|[]]]; [|lia].
      rewrite Forall_forall in F. now apply F.
Qed.

(** A pass of [k] comparisons does not look beyond position [k]. *)
Lemma pass_from_app (k : nat) :
  forall p q, (k < length p)%nat ->
    pass_from k (p ++ q)
    = (fst (fst (pass_from k p)) ++ q, snd (fst (pass_from k p)), snd (pass_from k p)).
Proof.
  induction k as [|k IH]; intros p q Hk.
  - simpl. destruct p; [simpl in Hk; lia|]. reflexivity.
  - destruct p as [|a [|b t]]; simpl in Hk; try lia. simpl.
    destruct (a >? b)%Z.
    + specialize (IH (a :: t) q). simpl in IH. rewrite IH by (simpl; lia).
      destruct (pass_from k (a :: t)) as [[r s] c]; reflexivity.
    + specialize (IH (b :: t) q). simpl in IH. rewrite IH by (simpl; lia).
      destruct (pass_from k (b :: t)) as [[r s] c]; reflexivity.
Qed.

Lemma sorted_app (p q : list Z) :
  Sorted Z.le p -> Sorted Z.le q ->
  (forall x y, In x p -> In y q -> (x <= y)%Z) -> Sorted Z.le (p ++ q).
Proof.
  induction p as [|a t IH]; intros Sp Sq H; [exact Sq|].
  simpl. inversion Sp; subst. constructor.
  - apply IH; auto. intros; apply H; auto. now right.
  - destruct t as [|b t']; simpl.
    + destruct q; constructor. apply H; now left.
    + constructor. now inversion H3.
Qed.

Lemma sorted_no_inversions (l : list Z) : Sorted Z.le l -> inversions l = O.
Proof.
  intros S. apply Sorted_StronglySorted in S; [|intros x y z; apply Z.le_trans].
  induction S as [|a t St IH F]; [reflexivity|]. simpl. rewrite IH.
  clear IH St. induction F as [|b t Hb F IH]; [reflexivity|]. simpl.
  assert ((a >? b)%Z = false) as -> by lia. simpl. apply IH.
Qed.

(** The invariant of the outer loop: after [i] passes the last [i]
    positions hold, in order, elements that are no smaller than any
    element before them. *)
Lemma outer_loop_correct (n : nat) :
  forall passes i p q sc,
    length p = passes -> (passes + i = n)%nat ->
    Sorted Z.le q -> (forall x y, In x p -> In y q -> (x <= y)%Z) ->
    let out := outer_loop n i passes (p ++ q) sc in
    Sorted Z.le (fst out) /\ Permutation (p ++ q) (fst out)
    /\ (sc + inversions (p ++ q) = snd out + inversions (fst out))%nat.
Proof.
  induction passes as [|passes IH]; intros i p q sc Hp Hn Sq Hpq.
  - destruct p; [|discriminate]. simpl. auto.
  - cbn [outer_loop].
    replace (n - i - 1)%nat with passes by lia.
    rewrite inner_loop_pass_from by (rewrite length_app; lia).
    rewrite pass_from_app by lia.
    pose proof (pass_from_perm passes p) as P.
    pose proof (pass_from_inversions passes (p ++ q)) as I.
    rewrite pass_from_app in I by lia. cbn [fst snd] in I.
    pose proof (pass_from_quiet passes p) as Q.
    destruct (pass_from_max passes p Hp) as (r & m & E & F).
    destruct (pass_from passes p) as [[r0 s] c]; cbn [fst snd] in *. subst r0.
    destruct s.
    + rewrite <- app_assoc. cbn [app].
      assert (Hm : In m p)
        by (eapply Permutation_in; [apply Permutation_sym; exact P|];
            apply in_or_app; right; now left).
      destruct (IH (S i) r (m :: q) (sc + c)%nat) as (S1 & P1 & I1).
      * apply Permutation_length in P. rewrite length_app in P. simpl in P. lia.
      * lia.
      * constructor; [exact Sq|]. destruct q; constructor. apply Hpq; [exact Hm|now left].
      * intros x y Hx [<-|Hy]; [rewrite Forall_forall in F; now apply F|].
        apply Hpq; [|exact Hy].
        eapply Permutation_in; [apply Permutation_sym; exact P|].
        apply in_or_app; now left.
      * split; [exact S1|]. split.
        -- eapply perm_trans; [|exact P1].
           replace (r ++ m :: q) with ((r ++ [m]) ++ q)
             by (rewrite <- app_assoc; reflexivity).
           now apply Permutation_app_tail.
        -- rewrite <- app_assoc in I. cbn [app] in I. lia.
    + destruct (Q eq_refl) as [E O]. inversion E as [[E1 E2]]. cbn [fst snd].
      rewrite E1. split; [|split; [apply Permutation_refl|lia]].
      apply sorted_app; [|exact Sq|exact Hpq].
      apply (ordered_upto_sorted p passes); [lia|exact O].
Qed.

Lemma bubble_sort_count_correct (l : list Z) :
  Sorted Z.le (fst (bubble_sort_count l))
  /\ Permutation l (fst (bubble_sort_count l))
  /\ snd (bubble_sort_count l) = inversions l.
Proof.
  unfold bubble_sort_count.
  destruct (outer_loop_correct (length l) (length l) 0 l [] 0) as (S1 & P1 & I1);
    [reflexivity|lia|constructor|intros x y _ []|].
  rewrite app_nil_r in *. split; [exact S1|]. split; [exact P1|].
  rewrite (sorted_no_inversions _ S1) in I1. lia.
Qed.

End BubbleSortFacts.

(** C3.  For every list of mode indices, [bubble_sort_maj] returns the
    list sorted in ascending order (a sorted permutation of its input)
    together with the sign [+1] when the number of adjacent exchanges it
    performed is even and [-1] when it is odd; that number is the number
    of inversions of the input.  An input that is already sorted gets
    the sign [+1], and [[2,0,1]] is returned as [[0,1,2]] with the sign
    [+1] of its two exchanges. *)
Theorem bubble_sort_maj_canonical_order :
  (forall array : list Z,
      let swaps := snd (BubbleSort.bubble_sort_count array) in
      let out := BubbleSort.bubble_sort_maj array in
      Sorted Z.le (fst out) /\ Permutation array (fst out)
      /\ snd out = (if Nat.even swaps then 1 else -1)%Z
      /\ swaps = BubbleSort.inversions array
      /\ (Sorted Z.le array -> out = (array, 1%Z)))
  /\ BubbleSort.bubble_sort_count [2; 0; 1]%Z = ([0; 1; 2]%Z, 2%nat)
  /\ BubbleSort.bubble_sort_maj [2; 0; 1]%Z = ([0; 1; 2]%Z, 1%Z).
Proof.
  split; [|split; reflexivity].
  intros array swaps out.
  destruct (BubbleSortFacts.bubble_sort_count_correct array) as (S1 & P1 & I1).
  subst swaps out. unfold BubbleSort.bubble_sort_maj.
  destruct (BubbleSort.bubble_sort_count array) as [arr swap_counter] eqn:E.
  cbn [fst snd] in *.
  assert (Hsign : BubbleSort.sign_dict (swap_counter mod 2)
                  = (if Nat.even swap_counter then 1 else -1)%Z).
  { destruct (Nat.even swap_counter) eqn:Ev.
    - apply Nat.even_spec in Ev. destruct Ev as [k ->].
      rewrite Nat.mul_comm, Nat.Div0.mod_mul. reflexivity.
    - assert (Od : Nat.odd swap_counter = true)
        by (rewrite <- Nat.negb_even, Ev; reflexivity).
      apply Nat.odd_spec in Od. destruct Od as [k ->].
      replace (2 * k + 1)%nat with (1 + k * 2)%nat by lia.
      rewrite Nat.Div0.mod_add. reflexivity. }
  repeat split; auto.
  intros Hs. rewrite Hsign, I1.
  rewrite (BubbleSortFacts.sorted_no_inversions _ Hs). simpl. f_equal.
  (* a sorted permutation of a sorted list is that list *)
  clear - S1 P1 Hs.
  apply Sorted_StronglySorted in S1; [|intros x y z; apply Z.le_trans].
  apply Sorted_StronglySorted in Hs; [|intros x y z; apply Z.le_trans].
  revert arr S1 P1. induction Hs as [|a t St IH F]; intros arr S1 P1.
  - apply Permutation_nil in P1. now subst.
  - destruct S1 as [|b r Sr Fr].
    + apply Permutation_sym, Permutation_nil in P1. discriminate.
    + assert (a = b).
      { assert (In a (b :: r)) as [->|Ha]
          by (eapply Permutation_in; [exact P1|now left]); [reflexivity|].
        assert (In b (a :: t)) as [->|Hb]
          by (eapply Permutation_in; [apply Permutation_sym; exact P1|now left]);
          [reflexivity|].
        rewrite Forall_forall in F, Fr. specialize (F _ Hb). specialize (Fr _ Ha). lia. }
      subst b. f_equal. apply IH; [exact Sr|].
      now apply Permutation_cons_inv in P1.
Qed.

(** ** Construction of a Majorana operator from an empty array *)

(** C9.  A [MajoranaOp] built from an empty numpy array (of one or of
    two dimensions) and a list of one coefficient is the identity on two
    sites: [n_sites] is 2, the matrix is the single row [[0,0]], and the
    coefficient is the one supplied, whether or not the phase factors
    are declared included; the phase factor of the row of weight 0 is
    [i^0 = 1]. *)
Theorem majorana_init_empty_array_is_identity :
  (forall (ncols : nat) (c : C) (included : bool),
      Majorana.init (Majorana.Array2 ncols []) [c] included
      = Ok (Majorana.mkMajoranaOp [[0; 0]%Z] 2 [c] included))
  /\ (forall (c : C) (included : bool),
         Majorana.init (Majorana.Array1 []) [c] included
         = Ok (Majorana.mkMajoranaOp [[0; 0]%Z] 2 [c] included))
  /\ Majorana.Ci_pow (vsum [0; 0]%Z / 2) = C1.
Proof.
  assert (E : forall c : C, (c * Majorana.Ci_pow (vsum [0; 0]%Z / 2))%C = c)
    by (intros c; apply Cmul_1_r).
  split; [|split; [|reflexivity]].
  - intros ncols c [|]; unfold Majorana.init; cbn -[Majorana.Ci_pow vsum Cmul];
      [reflexivity|]. now rewrite E.
  - intros c [|]; unfold Majorana.init; cbn -[Majorana.Ci_pow vsum Cmul];
      [reflexivity|]. now rewrite E.
Qed.

(** ** The sector of a stabilizer *)

Module SectorFacts.

Lemma minus_one_pow_1 : Pauli.Zpow (- C1)%C 1 = RtoC (-1).
Proof. unfold Pauli.Zpow. simpl. csolve. Qed.

Lemma minus_one_pow_2 : Pauli.Zpow (- C1)%C 2 = C1.
Proof. unfold Pauli.Zpow. simpl. csolve. Qed.

Lemma minus_one_neq_one : RtoC (-1) <> C1.
Proof. unfold RtoC, C1. intros H. inversion H. lra. Qed.

Lemma sector_ZI_10 :
  exists op,
    Pauli.init_strings [["Z"; "I"]%char] [C1] = Ok op
    /\ Pauli.update_sector op [1; 0]%Z
       = Ok (Pauli.mkPauliwordOp [[0; 0; 1; 0]%Z] 4 [RtoC (-1)]).
Proof.
  eexists. split; [reflexivity|].
  unfold Pauli.update_sector. cbn -[Pauli.Zpow].
  now rewrite minus_one_pow_1.
Qed.

Lemma sector_ZZ :
  exists op,
    Pauli.init_strings [["Z"; "Z"]%char] [C1] = Ok op
    /\ Pauli.update_sector op [1; 1]%Z
       = Ok (Pauli.mkPauliwordOp [[0; 0; 1; 1]%Z] 4 [C1])
    /\ Pauli.update_sector op [1; 0]%Z
       = Ok (Pauli.mkPauliwordOp [[0; 0; 1; 1]%Z] 4 [RtoC (-1)]).
Proof.
  eexists. split; [reflexivity|]. split.
  - unfold Pauli.update_sector. cbn -[Pauli.Zpow].
    now rewrite minus_one_pow_2.
  - unfold Pauli.update_sector. cbn -[Pauli.Zpow].
    now rewrite minus_one_pow_1.
Qed.

End SectorFacts.

(** C5, as the code has it.  For the stabilizer [ZI] on two qubits and
    the reference state [[1,0]], [update_sector] sets the coefficient to
    [-1]: the reference state has a 1 where the stabilizer has its Z.
    For [ZZ] the coefficient becomes [+1] on [[1,1]] and [-1] on
    [[1,0]]. *)
Theorem update_sector_examples :
  (exists op,
      Pauli.init_strings [["Z"; "I"]%char] [C1] = Ok op
      /\ Pauli.update_sector op [1; 0]%Z
         = Ok (Pauli.mkPauliwordOp [[0; 0; 1; 0]%Z] 4 [RtoC (-1)]))
  /\ (exists op,
         Pauli.init_strings [["Z"; "Z"]%char] [C1] = Ok op
         /\ Pauli.update_sector op [1; 1]%Z
            = Ok (Pauli.mkPauliwordOp [[0; 0; 1; 1]%Z] 4 [C1])
         /\ Pauli.update_sector op [1; 0]%Z
            = Ok (Pauli.mkPauliwordOp [[0; 0; 1; 1]%Z] 4 [RtoC (-1)])).
Proof.
  split; [exact SectorFacts.sector_ZI_10|exact SectorFacts.sector_ZZ].
Qed.

(** The coefficient [+1] stated for [ZI] on the reference state
    [[1,0]] is not what [update_sector] assigns. *)
Lemma update_sector_ZI_not_plus_one :
  ~ (exists op op',
        Pauli.init_strings [["Z"; "I"]%char] [C1] = Ok op
        /\ Pauli.update_sector op [1; 0]%Z = Ok op'
        /\ Pauli.coeff_vec op' = [C1]).
Proof.
  intros (op & op' & H1 & H2 & H3).
  destruct SectorFacts.sector_ZI_10 as (op0 & E1 & E2).
  rewrite H1 in E1. inversion E1; subst op0.
  rewrite H2 in E2. inversion E2; subst op'.
  simpl in H3. inversion H3 as [H4].
  apply SectorFacts.minus_one_neq_one. unfold RtoC, C1. now rewrite H4.
Qed.

(** ** Commutation of Majorana terms *)

Module CommuteFacts.

Import Spec.

Lemma vsum_bits (v : list Z) : bits v -> vsum v = Z.of_nat (popcount v).
Proof.
  unfold bits, popcount, vsum.
  induction 1 as [|x t [->| ->] _ IH]; [reflexivity| |]; cbn [fold_right filter].
  - rewrite IH. reflexivity.
  - rewrite IH. cbn [Z.eqb negb length]. lia.
Qed.

Lemma bits_firstn (k : nat) (v : list Z) : bits v -> bits (firstn k v).
Proof.
  unfold bits. intros H. revert k.
  induction H as [|x t Hx _ IH]; intros [|k]; simpl; constructor; auto.
Qed.

Lemma bits_skipn (k : nat) (v : list Z) : bits v -> bits (skipn k v).
Proof.
  unfold bits. intros H. revert k.
  induction H as [|x t Hx Ht IH]; intros [|k]; simpl; auto.
Qed.

Lemma bits_zip_with (f : Z -> Z -> Z) (a : list Z) :
  (forall x y, (x = 0 \/ x = 1)%Z -> (y = 0 \/ y = 1)%Z -> (f x y = 0 \/ f x y = 1)%Z) ->
  forall b, bits a -> bits b -> bits (zip_with f a b).
Proof.
  intros Hf b Ha. revert b. unfold bits in *.
  induction Ha as [|x a Hx _ IH]; intros b Hb; [constructor|].
  destruct Hb as [|y b Hy Hb]; [constructor|]. simpl. constructor; auto.
Qed.

Lemma bits_mul (a b : list Z) : bits a -> bits b -> bits (zip_with Z.mul a b).
Proof. apply bits_zip_with. intros x y [->| ->] [->| ->]; auto. Qed.

Lemma bits_land (a b : list Z) : bits a -> bits b -> bits (zip_with Z.land a b).
Proof. apply bits_zip_with. intros x y [->| ->] [->| ->]; auto. Qed.

Lemma bits_lxor (a b : list Z) : bits a -> bits b -> bits (zip_with Z.lxor a b).
Proof. apply bits_zip_with. intros x y [->| ->] [->| ->]; auto. Qed.

Lemma dot_bits (a b : list Z) :
  bits a -> bits b -> dot a b = Z.of_nat (shared_count a b).
Proof.
  intros Ha Hb. unfold dot, shared_count. apply vsum_bits. now apply bits_mul.
Qed.

Lemma combine_map_r {A B : Type} (g : A -> B) (l : list A) :
  combine l (map g l) = map (fun x => (x, g x)) l.
Proof. induction l; simpl; congruence. Qed.

(** Entry [(i, j)] of [comm_flag], as the code computes it. *)
Lemma commutes_termwise_entry (A B : Majorana.MajoranaOp) (i j : nat)
  (rowA rowB : list Z) :
  nth_error (Majorana.symp_matrix A) i = Some rowA ->
  nth_error (Majorana.symp_matrix B) j = Some rowB ->
  let sites := Nat.min (Majorana.n_sites A) (Majorana.n_sites B) in
  entry (Majorana.commutes_termwise A B) i j
  = Some ((vsum rowA * vsum rowB
           + dot (firstn sites rowA) (firstn sites rowB) + 1) mod 2)%Z.
Proof.
  intros HA HB sites. unfold entry, Majorana.commutes_termwise, sum_axis1.
  rewrite !combine_map_r, !map_map.
  rewrite (nth_error_map _ i), HA. cbn [option_map]. cbv beta iota.
  rewrite map_map, (nth_error_map _ j), HB. cbn [option_map]. cbv beta iota.
  do 4 f_equal. subst sites.
  destruct (Nat.eqb_spec (Majorana.n_sites A) (Majorana.n_sites B)) as [E|E];
    cbn [negb]; [rewrite <- E, Nat.min_id|]; reflexivity.
Qed.

End CommuteFacts.

(** C4, as the code has it.  For Majorana operators [A] and [B] whose
    rows are bit-vectors, entry [(i,j)] of [commutes_termwise(A,B)] is
    the number [(sa*sb + o + 1) mod 2], where [sa] and [sb] are the
    numbers of set bits of term [i] of [A] and term [j] of [B] and [o]
    is their number of shared bits over the first
    [min(n_sites_A, n_sites_B)] positions; the entry is true (nonzero)
    if and only if that number is 1, that is, if and only if
    [sa*sb + o] is even. *)
Theorem majorana_commutes_termwise_entry
  (A B : Majorana.MajoranaOp) (i j : nat) (rowA rowB : list Z) :
  nth_error (Majorana.symp_matrix A) i = Some rowA ->
  nth_error (Majorana.symp_matrix B) j = Some rowB ->
  Spec.bits rowA -> Spec.bits rowB ->
  let sites := Nat.min (Majorana.n_sites A) (Majorana.n_sites B) in
  let sa := Z.of_nat (Spec.popcount rowA) in
  let sb := Z.of_nat (Spec.popcount rowB) in
  let o := Z.of_nat (Spec.shared_count (firstn sites rowA) (firstn sites rowB)) in
  exists e,
    Spec.entry (Majorana.commutes_termwise A B) i j = Some e
    /\ e = ((sa * sb + o + 1) mod 2)%Z
    /\ (e <> 0%Z <-> ((sa * sb + o + 1) mod 2 = 1)%Z)
    /\ (e <> 0%Z <-> ((sa * sb + o) mod 2 = 0)%Z).
Proof.
  intros HA HB bA bB sites sa sb o.
  eexists. split; [apply (CommuteFacts.commutes_termwise_entry A B i j rowA rowB HA HB)|].
  fold sites.
  rewrite (CommuteFacts.vsum_bits rowA bA), (CommuteFacts.vsum_bits rowB bB).
  rewrite (CommuteFacts.dot_bits (firstn sites rowA) (firstn sites rowB))
    by (apply CommuteFacts.bits_firstn; assumption).
  fold sa sb o. split; [reflexivity|].
  pose proof (Z.mod_pos_bound (sa * sb + o + 1) 2 ltac:(lia)).
  pose proof (Z.mod_pos_bound (sa * sb + o) 2 ltac:(lia)).
  rewrite (Z.add_mod (sa * sb + o) 1 2) in * by lia.
  change (1 mod 2)%Z with 1%Z in *.
  set (m := ((sa * sb + o) mod 2)%Z) in *.
  assert (m = 0 \/ m = 1)%Z as [-> | ->] by lia; cbn; split; lia.
Qed.

Lemma majorana_commutes_termwise_entry_witness :
  exists e,
    Spec.entry (Majorana.commutes_termwise
                  (Majorana.mkMajoranaOp [[1; 1; 0; 0]%Z] 4 [C1] true)
                  (Majorana.mkMajoranaOp [[0; 1; 1; 0]%Z] 4 [C1] true)) 0 0 = Some e
    /\ e = 0%Z.
Proof.
  destruct (majorana_commutes_termwise_entry
              (Majorana.mkMajoranaOp [[1; 1; 0; 0]%Z] 4 [C1] true)
              (Majorana.mkMajoranaOp [[0; 1; 1; 0]%Z] 4 [C1] true)
              0 0 [1; 1; 0; 0]%Z [0; 1; 1; 0]%Z eq_refl eq_refl)
    as (e & He & Hv & _).
  - repeat (apply Forall_cons; [lia|]); apply Forall_nil.
  - repeat (apply Forall_cons; [lia|]); apply Forall_nil.
  - exists e. split; [exact He|exact Hv].
Defined.

(** The identity term commutes with itself: its entry is 1, which is
    true, although [(sa*sb + o + 1) mod 2] is not 0. *)
Lemma majorana_commutes_claim_fails_on_identity :
  ~ Spec.commutes_entry_claim
      (Majorana.mkMajoranaOp [[0; 0]%Z] 2 [C1] true)
      (Majorana.mkMajoranaOp [[0; 0]%Z] 2 [C1] true) 0 0.
Proof.
  intros H. specialize (H [0; 0]%Z [0; 0]%Z 1%Z eq_refl eq_refl eq_refl).
  cbn in H. destruct H as [H _]. specialize (H ltac:(discriminate)). discriminate.
Qed.

(** ** Broadcasting *)

Module BroadcastFacts.

Lemma compatible_refl (a : nat) : compatible a a = true.
Proof. unfold compatible. now rewrite Nat.eqb_refl. Qed.

Lemma compatible_1_r (a : nat) : compatible a 1 = true.
Proof. unfold compatible. simpl. now rewrite !orb_true_r. Qed.

Lemma broadcast_dim_same (a : nat) : broadcast_dim a a = a.
Proof. unfold broadcast_dim. now destruct (a =? 1)%nat. Qed.

Lemma stretch_same_length {A B D : Type} (f : A -> B -> D) (a : list A) (b : list B) :
  length a = length b -> stretch f a b = zip_with f a b.
Proof. intros H. unfold stretch. now rewrite H, Nat.eqb_refl. Qed.

Lemma stretch_singleton_r {A B D : Type} (f : A -> B -> D) (a : list A) (y : B) :
  stretch f a [y] = map (fun x => f x y) a.
Proof.
  unfold stretch. destruct (Nat.eqb_spec (length a) (length [y])) as [E|E].
  - destruct a as [|x [|x' a]]; try discriminate. reflexivity.
  - destruct a as [|x [|x' a]]; reflexivity.
Qed.

Lemma zip_with_map_map {A B D E : Type} (f : B -> D -> E) (g : A -> B) (h : A -> D)
  (l : list A) :
  zip_with f (map g l) (map h l) = map (fun x => f (g x) (h x)) l.
Proof. induction l; simpl; congruence. Qed.

Lemma zip_with_map_l {A B D E : Type} (f : B -> D -> E) (g : A -> B)
  (l : list A) (c : list D) :
  zip_with f (map g l) c = map (fun p => f (g (fst p)) (snd p)) (combine l c).
Proof. revert c. induction l; intros [|y c]; simpl; congruence. Qed.

Lemma zip_with_length {A B D : Type} (f : A -> B -> D) (a : list A) (b : list B) :
  length (zip_with f a b) = Nat.min (length a) (length b).
Proof. revert b. induction a; intros [|y b]; simpl; auto. Qed.

Lemma bind_ok {A B : Type} (a : A) (k : A -> result B) : bind (Ok a) k = k a.
Proof. reflexivity. Qed.

End BroadcastFacts.

(** ** Multiplication of Pauli terms *)

Module MultiplyFacts.

Import Spec Pauli CommuteFacts BroadcastFacts.

Lemma forallb_is_bit (v : list Z) : bits v -> forallb is_bit v = true.
Proof.
  unfold bits. induction 1 as [|x t [->| ->] _ IH]; simpl; auto.
Qed.

Lemma forallb_rows_bits (m : matrix) :
  Forall bits m -> forallb (forallb is_bit) m = true.
Proof.
  induction 1 as [|r t Hr _ IH]; simpl; [reflexivity|].
  now rewrite (forallb_is_bit r Hr).
Qed.

Lemma init_ok (ncols : nat) (rows : matrix) (coeffs : list C) :
  length rows = length coeffs -> Forall bits rows ->
  init ncols rows coeffs = Ok (mkPauliwordOp rows ncols coeffs).
Proof.
  intros Hl Hb. unfold init. rewrite Hl, Nat.eqb_refl. cbn [assert bind].
  now rewrite (forallb_rows_bits rows Hb).
Qed.

Lemma n_qubits_even (n : nat) (P : PauliwordOp) :
  n_cols P = (2 * n)%nat -> n_qubits P = n /\ Z_cols P = n.
Proof.
  intros H. unfold Z_cols, n_qubits. rewrite H.
  rewrite Nat.mul_comm, Nat.div_mul by lia. lia.
Qed.


Lemma row_halves (n : nat) (v : list Z) :
  pauli_row n v -> length (firstn n v) = n /\ length (skipn n v) = n.
Proof.
  intros [Hl _]. rewrite length_firstn, length_skipn. lia.
Qed.

Lemma Y_count_ok (n : nat) (P : PauliwordOp) :
  n_cols P = (2 * n)%nat -> Forall (pauli_row n) (symp_matrix P) ->
  Y_count P = Ok (map (row_Y n) (symp_matrix P)).
Proof.
  intros Hc Hr. unfold Y_count, broadcast2.
  destruct (n_qubits_even n P Hc) as [-> ->].
  unfold X_block, Z_block. destruct (n_qubits_even n P Hc) as [-> _].
  rewrite !length_map, !compatible_refl. cbn [andb bind snd].
  rewrite stretch_same_length by (now rewrite !length_map).
  rewrite zip_with_map_map. unfold sum_axis1. rewrite map_map. f_equal.
  apply map_ext_in. intros a Ha. rewrite Forall_forall in Hr.
  destruct (row_halves n a (Hr a Ha)) as [H1 H2].
  rewrite stretch_same_length by lia. reflexivity.
Qed.

Lemma pauli_row_xor (n : nat) (a b : list Z) :
  pauli_row n a -> pauli_row n b -> pauli_row n (zip_with Z.lxor a b).
Proof.
  intros [La Ba] [Lb Bb]. split.
  - rewrite zip_with_length. lia.
  - now apply bits_lxor.
Qed.

Lemma multiply_single_Pword_eval (n : nat) (A : PauliwordOp) (b : list Z) (cb : C) :
  pauli_wf n A -> pauli_row n b ->
  _multiply_single_Pword A (mkPauliwordOp [b] (2 * n) [cb])
  = Ok (mkPauliwordOp (map (fun a => zip_with Z.lxor a b) (symp_matrix A)) (2 * n)
          (map (code_coeff n b cb) (combine (symp_matrix A) (coeff_vec A)))).
Proof.
  intros (Hc & Hl & Hr) Hb.
  set (B := mkPauliwordOp [b] (2 * n) [cb]).
  assert (HcB : n_cols B = (2 * n)%nat) by reflexivity.
  assert (HrB : Forall (pauli_row n) (symp_matrix B)) by (constructor; [exact Hb|constructor]).
  set (xr := map (fun a => zip_with Z.lxor a b) (symp_matrix A)).
  assert (Hxr : Forall (pauli_row n) xr).
  { unfold xr. apply Forall_forall. intros r Hin. apply in_map_iff in Hin.
    destruct Hin as (a & <- & Ha). rewrite Forall_forall in Hr.
    apply pauli_row_xor; auto. }
  assert (Hph : _multiply_single_Pword_phaseless A B
                = Ok (mkPauliwordOp xr (2 * n) (repeat C1 (n_terms A)))).
  { unfold _multiply_single_Pword_phaseless, broadcast2.
    rewrite Hc. cbn [n_cols symp_matrix B length].
    rewrite compatible_1_r, compatible_refl, broadcast_dim_same. cbn [andb bind fst snd].
    rewrite stretch_singleton_r.
    replace (map (fun x => stretch Z.lxor x b) (symp_matrix A)) with xr.
    - apply init_ok.
      + unfold xr, n_terms. now rewrite length_map, repeat_length.
      + eapply Forall_impl; [|exact Hxr]. now intros r [_ H].
    - unfold xr. apply map_ext_in. intros a Ha. rewrite Forall_forall in Hr.
      destruct (Hr a Ha) as [La _]. destruct Hb as [Lb _].
      rewrite stretch_same_length by lia. reflexivity. }
  set (Pph := mkPauliwordOp xr (2 * n) (repeat C1 (n_terms A))) in *.
  unfold _multiply_single_Pword. rewrite Hph. cbn [bind].
  cbn [n_terms symp_matrix B length Nat.eqb assert bind].
  rewrite (Y_count_ok n A Hc Hr), (Y_count_ok n B HcB HrB),
    (Y_count_ok n Pph eq_refl Hxr).
  cbn [bind symp_matrix n_cols coeff_vec B map].
  unfold broadcast2, X_block, Z_block.
  destruct (n_qubits_even n A Hc) as [-> _].
  destruct (n_qubits_even n B HcB) as [-> ->].
  cbn [symp_matrix B map length].
  rewrite !length_map, compatible_1_r, compatible_refl. cbn [andb bind snd].
  rewrite stretch_singleton_r.
  unfold broadcast1. rewrite !length_map. cbn [length].
  rewrite compatible_1_r. cbn [bind]. rewrite stretch_singleton_r.
  unfold sum_axis1. rewrite !map_map, !length_map.
  rewrite compatible_refl. cbn [bind].
  rewrite stretch_same_length by (now rewrite !length_map).
  rewrite zip_with_map_map.
  subst Pph. cbn [symp_matrix n_cols coeff_vec]. unfold xr.
  rewrite !map_map, !length_map, compatible_refl. cbn [bind].
  rewrite stretch_same_length by (now rewrite !length_map).
  rewrite zip_with_map_map.
  rewrite length_map, Hl, compatible_refl. cbn [bind].
  rewrite stretch_same_length by (now rewrite length_map).
  rewrite zip_with_map_l.
  rewrite length_map, compatible_1_r. cbn [bind].
  rewrite stretch_singleton_r, map_map.
  rewrite init_ok.
  - f_equal. f_equal. apply map_ext_in. intros [a ca] Hin.
    unfold code_coeff. cbn [fst snd].
    apply in_combine_l in Hin. rewrite Forall_forall in Hr.
    destruct (row_halves n a (Hr a Hin)) as [H1 _].
    destruct (row_halves n b Hb) as [_ H2].
    rewrite stretch_same_length by lia. reflexivity.
  - rewrite !length_map, length_combine. lia.
  - eapply Forall_impl; [|exact Hxr]. now intros r [_ H].
Qed.

Lemma row_Y_spec (n : nat) (v : list Z) :
  bits v -> row_Y n v = Z.of_nat (Y_number n v).
Proof.
  intros H. unfold row_Y, Y_number, band, X_of, Z_of.
  apply vsum_bits, bits_land; [now apply bits_firstn|now apply bits_skipn].
Qed.

Lemma Zpow_of_nat (z : C) (k : nat) : Zpow z (Z.of_nat k) = Cpow z k.
Proof. unfold Zpow. now rewrite Nat2Z.id. Qed.

Lemma code_coeff_spec (n : nat) (a b : list Z) (ca cb : C) :
  pauli_row n a -> pauli_row n b ->
  code_coeff n b cb (a, ca) = product_coeff n a ca b cb.
Proof.
  intros [La Ba] [Lb Bb]. unfold code_coeff, product_coeff. cbn [fst snd].
  rewrite (vsum_bits (zip_with Z.land (firstn n a) (skipn n b)))
    by (apply bits_land; [now apply bits_firstn|now apply bits_skipn]).
  rewrite !row_Y_spec by (try apply bits_lxor; assumption).
  rewrite <- Nat2Z.inj_add, !Zpow_of_nat.
  unfold band, bxor, X_of, Z_of.
  generalize (Cpow (- C1) (popcount (zip_with Z.land (firstn n a) (skipn n b)))).
  generalize (Cpow (- Ci) (Y_number n a + Y_number n b)).
  generalize (Cpow Ci (Y_number n (zip_with Z.lxor a b))).
  intros t f s. csolve.
Qed.

Lemma nth_error_combine {A B : Type} (l : list A) (c : list B) (i : nat) (a : A) (x : B) :
  nth_error l i = Some a -> nth_error c i = Some x ->
  nth_error (combine l c) i = Some (a, x).
Proof.
  revert c i. induction l as [|y l IH]; intros [|z c] [|i]; simpl; try discriminate.
  - now intros [= ->] [= ->].
  - apply IH.
Qed.

Lemma multiply_single_Pword_rows (n : nat) (A : PauliwordOp) (b : list Z) (coeff_b : C) :
  pauli_wf n A -> pauli_row n b ->
  exists R,
    _multiply_single_Pword A (mkPauliwordOp [b] (2 * n) [coeff_b]) = Ok R
    /\ n_terms R = n_terms A
    /\ forall i a coeff_a,
        nth_error (symp_matrix A) i = Some a ->
        nth_error (coeff_vec A) i = Some coeff_a ->
        nth_error (symp_matrix R) i = Some (bxor a b)
        /\ nth_error (coeff_vec R) i = Some (product_coeff n a coeff_a b coeff_b).
Proof.
  intros HA Hb. eexists. split; [apply multiply_single_Pword_eval; assumption|].
  cbn [symp_matrix coeff_vec]. split; [unfold n_terms; cbn; apply length_map|].
  intros i a ca Ha Hca. split.
  - now apply (map_nth_error (fun a0 => zip_with Z.lxor a0 b)).
  - erewrite map_nth_error; [|apply nth_error_combine; eassumption].
    f_equal. apply code_coeff_spec; [|exact Hb].
    destruct HA as (_ & _ & Hr). rewrite Forall_forall in Hr.
    apply Hr. eapply nth_error_In; eauto.
Qed.

Lemma mul_single (n : nat) (A : PauliwordOp) (b : list Z) (cb : C) :
  pauli_wf n A -> pauli_row n b ->
  mul A (mkPauliwordOp [b] (2 * n) [cb])
  = _multiply_single_Pword A (mkPauliwordOp [b] (2 * n) [cb]).
Proof.
  intros HA Hb. unfold mul.
  destruct HA as (Hc & Hl & Hr).
  destruct (n_qubits_even n A Hc) as [-> _].
  destruct (n_qubits_even n (mkPauliwordOp [b] (2 * n) [cb]) eq_refl) as [-> _].
  rewrite Nat.eqb_refl. cbn [assert bind symp_matrix coeff_vec combine map_result].
  unfold init_vec. destruct Hb as [Lb Bb]. rewrite Lb.
  rewrite init_ok by (try reflexivity; repeat constructor; exact Bb).
  cbn [bind].
  destruct (_multiply_single_Pword A _) as [P|e]; reflexivity.
Qed.


Lemma bitsb_spec (v : list Z) : bitsb v = true -> bits v.
Proof.
  unfold bitsb, bits, is_bit. rewrite forallb_forall, Forall_forall.
  intros H x Hx. specialize (H x Hx). lia.
Qed.

Lemma pauli_rowb_spec (n : nat) (v : list Z) : pauli_rowb n v = true -> pauli_row n v.
Proof.
  unfold pauli_rowb, pauli_row. rewrite andb_true_iff, Nat.eqb_eq.
  intros [H1 H2]. split; [exact H1|now apply bitsb_spec].
Qed.

Lemma pauli_wfb_spec (n : nat) (P : PauliwordOp) : pauli_wfb n P = true -> pauli_wf n P.
Proof.
  unfold pauli_wfb, pauli_wf. rewrite !andb_true_iff, !Nat.eqb_eq, forallb_forall.
  intros [[H1 H2] H3]. repeat split; auto.
  apply Forall_forall. intros r Hr. now apply pauli_rowb_spec, H3.
Qed.

Lemma X_times_Y :
  exists X Y,
    init_strings [["X"]%char] [C1] = Ok X
    /\ init_strings [["Y"]%char] [C1] = Ok Y
    /\ mul X Y = init_strings [["Z"]%char] [Ci]
    /\ mul Y X = init_strings [["Z"]%char] [(- Ci)%C].
Proof.
  exists (mkPauliwordOp [[1; 0]%Z] (2 * 1) [C1]), (mkPauliwordOp [[1; 1]%Z] (2 * 1) [C1]).
  split; [reflexivity|]. split; [reflexivity|].
  assert (Wx : pauli_wf 1 (mkPauliwordOp [[1; 0]%Z] (2 * 1) [C1]))
    by (apply pauli_wfb_spec; reflexivity).
  assert (Wy : pauli_wf 1 (mkPauliwordOp [[1; 1]%Z] (2 * 1) [C1]))
    by (apply pauli_wfb_spec; reflexivity).
  assert (Rx : pauli_row 1 [1; 0]%Z) by (apply pauli_rowb_spec; reflexivity).
  assert (Ry : pauli_row 1 [1; 1]%Z) by (apply pauli_rowb_spec; reflexivity).
  split.
  - rewrite (mul_single 1 _ _ _ Wx Ry), (multiply_single_Pword_eval 1 _ _ _ Wx Ry).
    cbn [symp_matrix coeff_vec map combine]. rewrite code_coeff_spec by assumption.
    cbv [init_strings]. cbn. do 3 f_equal.
    unfold product_coeff. cbn. csolve.
  - rewrite (mul_single 1 _ _ _ Wy Rx), (multiply_single_Pword_eval 1 _ _ _ Wy Rx).
    cbn [symp_matrix coeff_vec map combine]. rewrite code_coeff_spec by assumption.
    cbv [init_strings]. cbn. do 3 f_equal.
    unfold product_coeff. cbn. csolve.
Qed.

End MultiplyFacts.

(** C1.  For a well-formed operator [A] over [n] qubits and a single
    term [b] with coefficient [coeff_b], [_multiply_single_Pword]
    returns an operator with as many rows as [A]; its row [i] is the
    bit-vector [a XOR b] of row [a] of [A], and its coefficient is
    [coeff_a * coeff_b * (-1)^popcount(X_a AND Z_b) * (-i)^(Ya+Yb)
     * i^(Y-count of a XOR b)].
    On one qubit [X*Y] is [Z] with coefficient [1j] and [Y*X] is [Z]
    with coefficient [-1j]. *)
Theorem multiply_single_Pword_phase :
  (forall (n : nat) (A : Pauli.PauliwordOp) (b : list Z) (coeff_b : C),
      Spec.pauli_wf n A -> Spec.pauli_row n b ->
      exists R,
        Pauli._multiply_single_Pword A (Pauli.mkPauliwordOp [b] (2 * n) [coeff_b]) = Ok R
        /\ Pauli.n_terms R = Pauli.n_terms A
        /\ forall i a coeff_a,
            nth_error (Pauli.symp_matrix A) i = Some a ->
            nth_error (Pauli.coeff_vec A) i = Some coeff_a ->
            nth_error (Pauli.symp_matrix R) i = Some (Spec.bxor a b)
            /\ nth_error (Pauli.coeff_vec R) i
               = Some (Spec.product_coeff n a coeff_a b coeff_b))
  /\ (exists X Y,
         Pauli.init_strings [["X"]%char] [C1] = Ok X
         /\ Pauli.init_strings [["Y"]%char] [C1] = Ok Y
         /\ Pauli.mul X Y = Pauli.init_strings [["Z"]%char] [Ci]
         /\ Pauli.mul Y X = Pauli.init_strings [["Z"]%char] [(- Ci)%C]).
Proof.
  split.
  - intros n A b coeff_b HA Hb. now apply MultiplyFacts.multiply_single_Pword_rows.
  - exact MultiplyFacts.X_times_Y.
Qed.

Lemma multiply_single_Pword_phase_witness :
  exists R,
    Pauli._multiply_single_Pword
      (Pauli.mkPauliwordOp [[1; 0; 0; 1]; [0; 1; 1; 1]]%Z 4 [C1; Ci])
      (Pauli.mkPauliwordOp [[1; 1; 0; 1]%Z] 4 [C1]) = Ok R
    /\ nth_error (Pauli.symp_matrix R) 1 = Some [1; 0; 1; 0]%Z.
Proof.
  destruct (proj1 multiply_single_Pword_phase 2
              (Pauli.mkPauliwordOp [[1; 0; 0; 1]; [0; 1; 1; 1]]%Z 4 [C1; Ci])
              [1; 1; 0; 1]%Z C1) as (R & HR & _ & Hrow).
  - apply MultiplyFacts.pauli_wfb_spec. reflexivity.
  - apply MultiplyFacts.pauli_rowb_spec. reflexivity.
  - exists R. split; [exact HR|].
    exact (proj1 (Hrow 1%nat [0; 1; 1; 1]%Z Ci eq_refl eq_refl)).
Defined.

(** ** [cleanup]: sorting, runs of equal keys, and the integer key *)

Module CleanupFacts.

Import Spec Shape CommuteFacts BroadcastFacts MultiplyFacts.

Lemma insert_by_key_map {T U : Type} (g : T -> U) (x : Z * T) (l : list (Z * T)) :
  insert_by_key (fst x, g (snd x)) (map (fun p => (fst p, g (snd p))) l)
  = map (fun p => (fst p, g (snd p))) (insert_by_key x l).
Proof.
  induction l as [|y l IH]; simpl; [reflexivity|].
  destruct (fst x <=? fst y)%Z; simpl; [reflexivity|]. now rewrite IH.
Qed.

(** Sorting looks at the keys only. *)
Lemma sort_by_key_map {T U : Type} (g : T -> U) (l : list (Z * T)) :
  sort_by_key (map (fun p => (fst p, g (snd p))) l)
  = map (fun p => (fst p, g (snd p))) (sort_by_key l).
Proof.
  unfold sort_by_key. induction l as [|x l IH]; simpl; [reflexivity|].
  rewrite IH. apply (insert_by_key_map g x).
Qed.

Lemma insert_by_key_perm {T : Type} (x : Z * T) (l : list (Z * T)) :
  Permutation (x :: l) (insert_by_key x l).
Proof.
  induction l as [|y l IH]; simpl; [apply Permutation_refl|].
  destruct (fst x <=? fst y)%Z; [apply Permutation_refl|].
  eapply perm_trans; [apply perm_swap|]. now constructor.
Qed.

Lemma sort_by_key_perm {T : Type} (l : list (Z * T)) :
  Permutation l (sort_by_key l).
Proof.
  unfold sort_by_key. induction l as [|x l IH]; simpl; [constructor|].
  eapply perm_trans; [|apply insert_by_key_perm]. now constructor.
Qed.

Lemma insert_by_key_sorted {T : Type} (x : Z * T) (l : list (Z * T)) :
  key_sorted l -> key_sorted (insert_by_key x l).
Proof.
  unfold key_sorted. induction 1 as [|y l Hs IH Hy]; simpl.
  - repeat constructor.
  - destruct (fst x <=? fst y)%Z eqn:E.
    + constructor; [now constructor|]. constructor. lia.
    + constructor; [exact IH|].
      destruct l as [|z l]; simpl.
      * constructor. lia.
      * destruct (fst x <=? fst z)%Z; constructor; [lia|].
        now inversion Hy.
  Qed.

Lemma sort_by_key_sorted {T : Type} (l : list (Z * T)) : key_sorted (sort_by_key l).
Proof.
  unfold sort_by_key. induction l as [|x l IH]; simpl; [constructor|].
  now apply insert_by_key_sorted.
Qed.

Lemma sort_by_key_id {T : Type} (l : list (Z * T)) :
  key_sorted l -> sort_by_key l = l.
Proof.
  unfold key_sorted, sort_by_key. induction 1 as [|x l Hs IH Hx]; simpl; [reflexivity|].
  rewrite IH. destruct Hx as [|y l Hxy]; simpl; [reflexivity|].
  assert ((fst x <=? fst y)%Z = true) as -> by lia. reflexivity.
Qed.

Lemma key_sorted_map {T U : Type} (g : T -> U) (l : list (Z * T)) :
  key_sorted l -> key_sorted (map (fun p => (fst p, g (snd p))) l).
Proof.
  unfold key_sorted. induction 1 as [|x l Hs IH Hx]; simpl; constructor; auto.
  destruct Hx; simpl; constructor. assumption.
Qed.

Lemma combine_seq_nth {T : Type} (d : T) (k : list Z) :
  forall (l : list T) (s : nat), length l = length k ->
    combine k l = map (fun p => (fst p, nth (snd p - s) l d)) (combine k (seq s (length k))).
Proof.
  induction k as [|x k IH]; intros [|y l] s Hl; try discriminate; [reflexivity|].
  simpl. rewrite Nat.sub_diag. f_equal.
  rewrite (IH l (S s)) by (simpl in Hl; lia).
  apply map_ext_in. intros [a i] Hin. simpl.
  apply in_combine_r in Hin. apply in_seq in Hin.
  replace (i - s)%nat with (S (i - S s)) by lia. reflexivity.
Qed.

(** Fancy indexing by [argsort] is sorting along with the keys. *)
Lemma take_argsort {T : Type} (d : T) (keys : list Z) (l : list T) :
  length l = length keys ->
  take d l (argsort keys) = map snd (sort_by_key (combine keys l)).
Proof.
  intros Hl. unfold take, argsort.
  rewrite (combine_seq_nth d keys l 0 Hl).
  rewrite (sort_by_key_map (fun i => nth (i - 0) l d)).
  rewrite !map_map. apply map_ext. intros [a i]. simpl. now rewrite Nat.sub_0_r.
Qed.

Lemma combine_map_snd {A B D : Type} (g : B -> D) (k : list A) (l : list B) :
  combine k (map g l) = map (fun p => (fst p, g (snd p))) (combine k l).
Proof.
  revert l. induction k as [|x k IH]; intros [|y l]; simpl; try reflexivity.
  now rewrite IH.
Qed.

Lemma combine_self {A B : Type} (k : list A) (l : list B) :
  length l = length k ->
  combine k k = map (fun p => (fst p, fst p)) (combine k l).
Proof.
  revert l. induction k as [|x k IH]; intros [|y l] H; try discriminate; [reflexivity|].
  simpl. f_equal. apply IH. simpl in H. lia.
Qed.

Lemma sort_by_key_fst {T : Type} (l : list (Z * T)) :
  sort_by_key (map (fun p => (fst p, fst p)) l)
  = map (fun p => (fst p, fst p)) (sort_by_key l).
Proof.
  unfold sort_by_key. induction l as [|x l IH]; simpl; [reflexivity|].
  rewrite IH. clear IH. generalize (fold_right insert_by_key [] l). intros s.
  induction s as [|y s IH]; simpl; [reflexivity|].
  destruct (fst x <=? fst y)%Z; simpl; [reflexivity|]. now rewrite IH.
Qed.

(** The three sorted arrays of [cleanup], read off one sorted list of
    triples. *)
Lemma sorted_arrays (keys : list Z) (rows : matrix) (coeffs : list C) :
  length rows = length keys -> length coeffs = length keys ->
  let T := sort_by_key (combine keys (combine rows coeffs)) in
  take 0%Z keys (argsort keys) = map fst T
  /\ take [] rows (argsort keys) = map (fun t => fst (snd t)) T
  /\ take C0 coeffs (argsort keys) = map (fun t => snd (snd t)) T.
Proof.
  intros Hr Hc T. subst T.
  assert (Hrc : length (combine rows coeffs) = length keys)
    by (rewrite length_combine; lia).
  repeat split.
  - rewrite take_argsort by reflexivity.
    rewrite (combine_self keys (combine rows coeffs) Hrc), sort_by_key_fst, map_map.
    reflexivity.
  - rewrite take_argsort by exact Hr.
    replace rows with (map fst (combine rows coeffs)) at 1
      by (clear - Hr Hc; revert coeffs Hc; rewrite <- Hr; clear;
          induction rows; intros [|c cs] H; simpl in *; try discriminate;
          [reflexivity|f_equal; apply IHrows; lia]).
    rewrite combine_map_snd, (sort_by_key_map fst), map_map. reflexivity.
  - rewrite take_argsort by exact Hc.
    replace coeffs with (map snd (combine rows coeffs)) at 1
      by (clear - Hr Hc; revert coeffs Hc; rewrite <- Hr; clear;
          induction rows; intros [|c cs] H; simpl in *; try discriminate;
          [reflexivity|f_equal; apply IHrows; lia]).
    rewrite combine_map_snd, (sort_by_key_map snd), map_map. reflexivity.
Qed.

Lemma groups_nonempty {T : Type} (l : list (Z * T)) :
  Forall (fun g => g <> []) (groups l).
Proof.
  induction l as [|x t IH]; simpl; [constructor|].
  destruct (groups t) as [|[|y g] r]; try (repeat constructor; discriminate).
  inversion IH; subst.
  destruct (fst x =? fst y)%Z; repeat constructor; try discriminate; assumption.
Qed.

Lemma concat_groups {T : Type} (l : list (Z * T)) : concat (groups l) = l.
Proof.
  induction l as [|x t IH]; simpl; [reflexivity|].
  pose proof (groups_nonempty t) as N.
  destruct (groups t) as [|[|y g] r].
  - simpl in IH. now subst.
  - inversion N; congruence.
  - destruct (fst x =? fst y)%Z; simpl in *; now rewrite IH.
Qed.

Lemma run_lengths_groups {T : Type} (l : list (Z * T)) :
  run_lengths (map fst l) = map (fun g => (run_key g, length g)) (groups l).
Proof.
  induction l as [|x t IH]; simpl; [reflexivity|].
  rewrite IH. pose proof (groups_nonempty t) as N.
  destruct (groups t) as [|[|y g] r]; simpl.
  - reflexivity.
  - inversion N; congruence.
  - destruct (fst x =? fst y)%Z eqn:E; [|reflexivity].
    apply Z.eqb_eq in E. simpl. now rewrite E.
Qed.

Lemma starts_from_nil (o : nat) : starts_from o [] = [].
Proof. reflexivity. Qed.

Lemma starts_from_cons (o c : nat) (cs : list nat) :
  starts_from o (c :: cs) = o :: starts_from (o + c) cs.
Proof. reflexivity. Qed.

Lemma take_starts {A : Type} (d : A) (G : list (list A)) :
  Forall (fun g => g <> []) G ->
  forall pre, take d (pre ++ concat G) (starts_from (length pre) (map (@length _) G))
              = map (hd d) G.
Proof.
  induction 1 as [|g G Hg _ IH]; intros pre; [reflexivity|].
  cbn [map concat]. rewrite starts_from_cons. unfold take in *. cbn [map].
  f_equal.
  - destruct g as [|x g]; [congruence|]. simpl. now rewrite nth_middle.
  - rewrite app_assoc, <- length_app. apply IH.
Qed.

Lemma skipn_length_app {A : Type} (pre l : list A) : skipn (length pre) (pre ++ l) = l.
Proof. induction pre; simpl; auto. Qed.

Lemma firstn_length_app {A : Type} (g l : list A) : firstn (length g) (g ++ l) = g.
Proof. induction g; simpl; congruence. Qed.

Lemma reduceat_starts (G : list (list C)) :
  Forall (fun g => g <> []) G ->
  forall pre, reduceat (pre ++ concat G) (starts_from (length pre) (map (@length _) G))
              = map Csum G.
Proof.
  induction 1 as [|g G Hg HG IH]; intros pre; [reflexivity|].
  cbn [map concat]. rewrite starts_from_cons.
  specialize (IH (pre ++ g)). rewrite length_app, <- app_assoc in IH.
  cbn [reduceat]. rewrite IH. f_equal.
  destruct G as [|g2 G].
  - simpl. now rewrite skipn_length_app, app_nil_r.
  - cbn [map]. rewrite starts_from_cons.
    assert (length g <> 0)%nat by (destruct g; simpl; congruence).
    assert ((length pre <? length pre + length g)%nat = true) as ->
      by (apply Nat.ltb_lt; lia).
    rewrite skipn_length_app.
    replace (length pre + length g - length pre)%nat with (length g) by lia.
    now rewrite firstn_length_app.
Qed.

Lemma concat_map_map {A B : Type} (f : A -> B) (G : list (list A)) :
  concat (map (map f) G) = map f (concat G).
Proof. symmetry. apply concat_map. Qed.

Lemma key_sorted_fst {T : Type} (l : list (Z * T)) :
  key_sorted l -> key_sorted (map (fun k => (k, tt)) (map fst l)).
Proof.
  rewrite map_map. unfold key_sorted.
  induction 1 as [|x l Hs IH Hx]; simpl; constructor; auto.
  destruct Hx; simpl; constructor; assumption.
Qed.

Lemma merge_rows_merged (ncols : nat) (rows : matrix) (coeffs : list C) :
  length coeffs = length rows ->
  merge_rows ncols rows coeffs
  = merged (sort_by_key (combine (matvec64 rows (pow2_weights ncols))
                                 (combine rows coeffs))).
Proof.
  intros Hl. unfold merge_rows.
  set (keys := matvec64 rows (pow2_weights ncols)).
  assert (Hk : length rows = length keys) by (unfold keys, matvec64; now rewrite length_map).
  destruct (sorted_arrays keys rows coeffs Hk ltac:(lia)) as (E1 & E2 & E3).
  rewrite E1, E2, E3. clear E1 E2 E3.
  set (T := sort_by_key (combine keys (combine rows coeffs))).
  unfold unique_counts.
  rewrite (sort_by_key_id _ (key_sorted_fst T (sort_by_key_sorted _))).
  rewrite !map_map. cbn [fst].
  replace (map (fun x => fst x) T) with (map fst T) by reflexivity.
  rewrite run_lengths_groups, map_map. cbn [snd].
  change (removelast (0%nat :: cumsum (map (fun x => length x) (groups T))))
    with (starts_from (length (@nil (list Z))) (map (fun x => length x) (groups T))).
  unfold merged. f_equal.
  - rewrite <- (concat_groups T) at 1. rewrite <- concat_map_map.
    rewrite <- (map_map (map (fun t => fst (snd t))) (hd [])).
    rewrite <- (take_starts [] (map (map (fun t => fst (snd t))) (groups T))) with (pre := []).
    + cbn [app length]. rewrite !map_map.
      f_equal. f_equal. apply map_ext. intros g. now rewrite length_map.
    + apply Forall_forall. intros g Hg. apply in_map_iff in Hg.
      destruct Hg as (g0 & <- & Hg0).
      pose proof (groups_nonempty T) as N. rewrite Forall_forall in N.
      specialize (N g0 Hg0). destruct g0; simpl; congruence.
  - change (length (@nil (list Z))) with (length (@nil C)).
    rewrite <- (concat_groups T) at 1. rewrite <- concat_map_map.
    rewrite <- (map_map (map (fun t => snd (snd t))) Csum).
    rewrite <- (reduceat_starts (map (map (fun t => snd (snd t))) (groups T))) with (pre := []).
    + cbn [app length]. rewrite !map_map.
      f_equal. f_equal. apply map_ext. intros g. now rewrite length_map.
    + apply Forall_forall. intros g Hg. apply in_map_iff in Hg.
      destruct Hg as (g0 & <- & Hg0).
      pose proof (groups_nonempty T) as N. rewrite Forall_forall in N.
      specialize (N g0 Hg0). destruct g0; simpl; congruence.
Qed.

Lemma ksum_app (k : Z) (T1 T2 : list (Z * (list Z * C))) :
  ksum k (T1 ++ T2) = (ksum k T1 + ksum k T2)%C.
Proof. unfold ksum. now rewrite filter_app, map_app, Csum_app. Qed.

Lemma ksum_perm (k : Z) (T T' : list (Z * (list Z * C))) :
  Permutation T T' -> ksum k T = ksum k T'.
Proof.
  unfold ksum. induction 1 as [|x l l' _ IH|x y l|l l' l'' _ IH1 _ IH2]; simpl.
  - reflexivity.
  - destruct (fst x =? k)%Z; simpl; now rewrite IH.
  - destruct (fst x =? k)%Z, (fst y =? k)%Z; simpl; try reflexivity.
    rewrite !Cadd_assoc. f_equal. apply Cadd_comm.
  - now rewrite IH1.
Qed.

(** All keys of a run are the key of the run. *)
Lemma groups_uniform {T : Type} (l : list (Z * T)) :
  Forall (fun g => Forall (fun x => fst x = run_key g) g) (groups l).
Proof.
  induction l as [|x t IH]; simpl; [constructor|].
  destruct (groups t) as [|[|y g] r].
  - repeat constructor.
  - repeat constructor.
  - inversion IH as [|? ? Hg Hr]; subst. simpl in Hg.
    destruct (fst x =? fst y)%Z eqn:E.
    + apply Z.eqb_eq in E. constructor; [|exact Hr]. simpl.
      constructor; [reflexivity|]. rewrite E. exact Hg.
    + constructor; [repeat constructor|]. constructor; assumption.
Qed.

Lemma groups_head {T : Type} (x : Z * T) (t : list (Z * T)) :
  exists g r, groups (x :: t) = (x :: g) :: r.
Proof.
  simpl. destruct (groups t) as [|[|y g] r]; try (now exists [], []).
  destruct (fst x =? fst y)%Z; eexists _, _; reflexivity.
Qed.

(** In a list sorted by key the keys of the runs increase strictly. *)
Lemma groups_keys_increasing {T : Type} (l : list (Z * T)) :
  key_sorted l -> Sorted Z.lt (map run_key (groups l)).
Proof.
  unfold key_sorted. induction 1 as [|x t Hs IH Hx]; [constructor|].
  simpl. destruct t as [|y t].
  - simpl. repeat constructor.
  - destruct (groups_head y t) as (g & r & E). rewrite E in *.
    inversion Hx; subst.
    destruct (fst x =? fst y)%Z eqn:Exy.
    + simpl in *. inversion IH; subst. constructor; [assumption|].
      apply Z.eqb_eq in Exy. rewrite Exy. assumption.
    + simpl in *. constructor; [exact IH|]. constructor. simpl. lia.
Qed.

Lemma groups_keys_nodup {T : Type} (l : list (Z * T)) :
  key_sorted l -> NoDup (map run_key (groups l)).
Proof.
  intros H. apply groups_keys_increasing in H.
  apply Sorted_StronglySorted in H; [|intros a b c; apply Z.lt_trans].
  induction H as [|k ks Hs IH Hk]; constructor; [|exact IH].
  intros Hin. rewrite Forall_forall in Hk. specialize (Hk k Hin). lia.
Qed.

Lemma ksum_uniform (g : list (Z * (list Z * C))) (k : Z) :
  Forall (fun x => fst x = run_key g) g ->
  ksum k g = if (run_key g =? k)%Z then Csum (map (fun t => snd (snd t)) g) else C0.
Proof.
  generalize (run_key g). intros kg H. unfold ksum.
  induction H as [|x l Hx _ IH]; simpl.
  - now destruct (kg =? k)%Z.
  - rewrite Hx. destruct (kg =? k)%Z; simpl; [now rewrite IH|exact IH].
Qed.

(** The sum of a run is the sum over the whole list of the
    coefficients of its key. *)
Lemma run_sum (G : list (list (Z * (list Z * C)))) (g : list (Z * (list Z * C))) :
  Forall (fun g => Forall (fun x => fst x = run_key g) g) G ->
  NoDup (map run_key G) -> In g G ->
  Csum (map (fun t => snd (snd t)) g) = ksum (run_key g) (concat G).
Proof.
  intros U. induction U as [|g0 G Hg0 UG IH]; intros N Hin; [destruct Hin|].
  simpl. rewrite ksum_app, (ksum_uniform g0 _ Hg0).
  inversion N as [|? ? Hn N']; subst.
  destruct Hin as [->|Hin].
  - rewrite Z.eqb_refl.
    assert (ksum (run_key g) (concat G) = C0) as ->; [|now rewrite Cadd_0_r].
    clear - Hn UG. induction G as [|g1 G IH]; [reflexivity|].
    inversion UG; subst. simpl. rewrite ksum_app, ksum_uniform by assumption.
    destruct (run_key g1 =? run_key g)%Z eqn:E.
    + apply Z.eqb_eq in E. exfalso. apply Hn. left. exact E.
    + rewrite Cadd_0_l. apply IH; [assumption|]. intros H. apply Hn. now right.
  - destruct (run_key g0 =? run_key g)%Z eqn:E.
    + apply Z.eqb_eq in E. exfalso. apply Hn. rewrite E. now apply in_map.
    + rewrite Cadd_0_l. now apply IH.
Qed.

Lemma pow2_weights_S (m : nat) : pow2_weights (S m) = lshift1 m :: pow2_weights m.
Proof.
  unfold pow2_weights. rewrite seq_S, rev_app_distr. reflexivity.
Qed.

Lemma wrap64_mod (z : Z) : (wrap64 z mod 2 ^ 64 = z mod 2 ^ 64)%Z.
Proof.
  unfold wrap64.
  rewrite Zminus_mod_idemp_l.
  f_equal. lia.
Qed.

Lemma lshift1_mod (k : nat) :
  (k < 64)%nat -> (lshift1 k mod 2 ^ 64 = 2 ^ Z.of_nat k mod 2 ^ 64)%Z.
Proof.
  intros H. unfold lshift1. apply Nat.ltb_lt in H. rewrite H. apply wrap64_mod.
Qed.

Lemma dot_cons (x w : Z) (t W : list Z) : dot (x :: t) (w :: W) = (x * w + dot t W)%Z.
Proof. reflexivity. Qed.

Lemma dot_weights_mod (v : list Z) :
  (length v <= 64)%nat ->
  (dot v (pow2_weights (length v)) mod 2 ^ 64 = binval v mod 2 ^ 64)%Z.
Proof.
  induction v as [|x t IH]; intros H; [reflexivity|].
  cbn [length] in *. rewrite pow2_weights_S, dot_cons. cbn [binval].
  rewrite Z.add_mod, Z.mul_mod, lshift1_mod, IH by lia.
  rewrite <- Z.mul_mod, <- Z.add_mod by lia. reflexivity.
Qed.

Lemma binval_bound (v : list Z) :
  bits v -> (0 <= binval v < 2 ^ Z.of_nat (length v))%Z.
Proof.
  unfold bits. induction 1 as [|x t Hx _ IH]; cbn [binval length]; [simpl; lia|].
  rewrite Nat2Z.inj_succ, Z.pow_succ_r by lia.
  destruct Hx as [-> | ->]; lia.
Qed.

Lemma binval_inj (a : list Z) :
  bits a -> forall b, bits b -> length a = length b -> binval a = binval b -> a = b.
Proof.
  unfold bits at 1. induction 1 as [|x a Hx Ha IH]; intros b Hb Hl E.
  - destruct b; [reflexivity|discriminate].
  - destruct b as [|y b]; [discriminate|].
    inversion Hb as [|? ? Hy Hb']; subst.
    cbn [binval length] in *.
    assert (Hl' : length a = length b) by lia. rewrite Hl' in E.
    pose proof (binval_bound a Ha) as Ba. pose proof (binval_bound b Hb') as Bb.
    rewrite Hl' in Ba.
    assert (x = y /\ binval a = binval b) as [-> E'].
    { destruct Hx as [-> | ->], Hy as [-> | ->]; lia. }
    f_equal. now apply IH.
Qed.

(** The integer key of [cleanup] tells the rows of a matrix of at most
    64 columns apart. *)
Lemma row_key_inj (ncols : nat) (a b : list Z) :
  (ncols <= 64)%nat -> bits a -> bits b -> length a = ncols -> length b = ncols ->
  wrap64 (dot a (pow2_weights ncols)) = wrap64 (dot b (pow2_weights ncols)) -> a = b.
Proof.
  intros Hn Ha Hb La Lb E.
  apply (f_equal (fun z => z mod 2 ^ 64)%Z) in E.
  rewrite !wrap64_mod in E.
  pose proof (dot_weights_mod a ltac:(lia)) as Da.
  pose proof (dot_weights_mod b ltac:(lia)) as Db.
  rewrite La in Da. rewrite Lb in Db. rewrite Da, Db in E.
  pose proof (binval_bound a Ha) as Ba. pose proof (binval_bound b Hb) as Bb.
  assert (P : (2 ^ Z.of_nat ncols <= 2 ^ 64)%Z)
    by (apply Z.pow_le_mono_r; lia).
  rewrite La in Ba. rewrite Lb in Bb.
  rewrite !Z.mod_small in E by lia.
  apply binval_inj; auto. lia.
Qed.

Lemma row_eqb_eq (a b : list Z) : row_eqb a b = true <-> a = b.
Proof.
  revert b. induction a as [|x a IH]; intros [|y b]; simpl; split; try easy.
  - rewrite andb_true_iff, Z.eqb_eq, IH. now intros [-> ->].
  - intros [= -> ->]. rewrite Z.eqb_refl. now apply IH.
Qed.

Lemma filter_map_comm {A B : Type} (f : B -> bool) (h : A -> B) (l : list A) :
  filter f (map h l) = map h (filter (fun x => f (h x)) l).
Proof.
  induction l as [|x l IH]; simpl; [reflexivity|].
  destruct (f (h x)); simpl; now rewrite IH.
Qed.

Lemma in_combine_exists {A B : Type} (l : list A) (c : list B) (x : A) :
  length c = length l -> In x l -> exists y, In (x, y) (combine l c).
Proof.
  revert c. induction l as [|a l IH]; intros [|b c] Hl Hin; try discriminate;
    [destruct Hin|].
  destruct Hin as [->|Hin].
  - exists b. now left.
  - destruct (IH c ltac:(simpl in Hl; lia) Hin) as [y Hy]. exists y. now right.
Qed.

Lemma nth_error_map_inv {A B : Type} (f : A -> B) (l : list A) (j : nat) (y : B) :
  nth_error (map f l) j = Some y -> exists x, nth_error l j = Some x /\ y = f x.
Proof.
  rewrite nth_error_map. destruct (nth_error l j) as [x|]; simpl; [|discriminate].
  intros [= <-]. now exists x.
Qed.

(** What the row bookkeeping of [cleanup] computes on a matrix of at
    most 64 columns of bits. *)
Lemma merge_rows_spec (ncols : nat) (rows : matrix) (coeffs : list C) :
  (ncols <= 64)%nat -> bit_rows ncols rows -> length coeffs = length rows ->
  let out := merge_rows ncols rows coeffs in
  length (snd out) = length (fst out)
  /\ NoDup (fst out)
  /\ (forall r, In r (fst out) <-> In r rows)
  /\ (forall j r c, nth_error (fst out) j = Some r -> nth_error (snd out) j = Some c ->
                    c = coeff_of rows coeffs r).
Proof.
  intros Hn Hrows Hl out. subst out.
  rewrite (merge_rows_merged ncols rows coeffs Hl).
  set (RC := combine rows coeffs).
  assert (HL : combine (matvec64 rows (pow2_weights ncols)) RC
               = map (fun p => (row_key ncols (fst p), p)) RC).
  { unfold matvec64, RC. clear. revert coeffs.
    induction rows as [|r rows IH]; intros [|c cs]; simpl; try reflexivity.
    now rewrite IH. }
  rewrite HL. set (L := map (fun p => (row_key ncols (fst p), p)) RC).
  set (T := sort_by_key L).
  assert (HT : forall t, In t T -> fst t = row_key ncols (fst (snd t))
                                   /\ In (snd t) RC).
  { intros t Ht. apply (Permutation_in _ (Permutation_sym (sort_by_key_perm L))) in Ht.
    unfold L in Ht. apply in_map_iff in Ht. destruct Ht as (p & <- & Hp). auto. }
  assert (Hwf : forall r, In r rows -> length r = ncols /\ bits r)
    by (rewrite <- Forall_forall; exact Hrows).
  pose proof (groups_nonempty T) as GN. rewrite Forall_forall in GN.
  pose proof (groups_uniform T) as GU.
  pose proof (groups_keys_nodup T (sort_by_key_sorted L)) as GK.
  pose proof (concat_groups T) as GC.
  (* the head of a run *)
  assert (Hhead : forall g, In g (groups T) ->
            exists t0 g', g = t0 :: g' /\ In t0 T
                          /\ hd [] (map (fun t => fst (snd t)) g) = fst (snd t0)
                          /\ run_key g = row_key ncols (fst (snd t0))
                          /\ In (fst (snd t0)) rows).
  { intros g Hg. destruct g as [|t0 g']; [now destruct (GN [] Hg)|].
    exists t0, g'. assert (In t0 T) as Ht0.
    { rewrite <- GC. apply in_concat. exists (t0 :: g'). split; [exact Hg|now left]. }
    destruct (HT t0 Ht0) as [K I]. repeat split; auto.
    destruct (snd t0) as [r c] eqn:E. simpl. eapply in_combine_l. exact I. }
  unfold merged. cbn [fst snd]. split; [now rewrite !length_map|]. split; [|split].
  - apply (NoDup_map_inv (row_key ncols)). rewrite map_map.
    erewrite map_ext_in; [exact GK|].
    intros g Hg. destruct (Hhead g Hg) as (t0 & g' & -> & _ & E1 & E2 & _).
    now rewrite E1, E2.
  - intros r. split.
    + intros Hin. apply in_map_iff in Hin. destruct Hin as (g & <- & Hg).
      destruct (Hhead g Hg) as (t0 & g' & -> & _ & E1 & _ & I). now rewrite E1.
    + intros Hin. destruct (in_combine_exists rows coeffs r Hl Hin) as [c Hc].
      assert (Ht : In (row_key ncols r, (r, c)) T).
      { apply (Permutation_in _ (sort_by_key_perm L)). unfold L.
        apply in_map_iff. exists (r, c). split; [reflexivity|exact Hc]. }
      rewrite <- GC in Ht. apply in_concat in Ht. destruct Ht as (g & Hg & Htg).
      apply in_map_iff. exists g. split; [|exact Hg].
      destruct (Hhead g Hg) as (t0 & g' & E & _ & E1 & E2 & I).
      rewrite E1. rewrite Forall_forall in GU. specialize (GU g Hg).
      rewrite Forall_forall in GU. specialize (GU _ Htg). simpl in GU.
      rewrite E2 in GU. symmetry.
      destruct (Hwf r Hin) as [L1 B1]. destruct (Hwf _ I) as [L2 B2].
      apply (row_key_inj ncols); auto.
  - intros j r c Hr Hc.
    apply nth_error_map_inv in Hr. destruct Hr as (g & Hg & ->).
    apply nth_error_map_inv in Hc. destruct Hc as (g2 & Hg2 & ->).
    rewrite Hg in Hg2. inversion Hg2; subst g2. clear Hg2.
    apply nth_error_In in Hg.
    destruct (Hhead g Hg) as (t0 & g' & E & _ & E1 & E2 & I).
    rewrite (run_sum (groups T) g GU GK Hg), GC.
    rewrite <- (ksum_perm _ _ _ (sort_by_key_perm L)).
    unfold ksum, L, coeff_of. rewrite filter_map_comm, map_map. cbn [fst snd].
    fold RC. f_equal. f_equal. apply filter_ext_in.
    intros [r' c'] Hin. cbn [fst]. rewrite E2, E1.
    apply in_combine_l in Hin.
    destruct (Hwf r' Hin) as [L1 B1]. destruct (Hwf _ I) as [L2 B2].
    destruct (row_eqb r' (fst (snd t0))) eqn:Eq.
    + apply row_eqb_eq in Eq. rewrite Eq. apply Z.eqb_refl.
    + apply Z.eqb_neq. intros K. apply (row_key_inj ncols) in K; auto.
      apply row_eqb_eq in K. congruence.
Qed.

Lemma select_length {A B : Type} (l : list A) (l' : list B) :
  length l = length l' ->
  forall mask, length (select l mask) = length (select l' mask).
Proof.
  revert l'. induction l as [|x l IH]; intros [|y l'] H mask; try discriminate.
  - now destruct mask.
  - destruct mask as [|[|] mask]; simpl; auto.
Qed.

Lemma select_in {A : Type} (l : list A) (mask : list bool) (x : A) :
  In x (select l mask) -> In x l.
Proof.
  revert mask. induction l as [|y l IH]; intros [|[|] mask]; simpl; try tauto.
  - intros [->|H]; eauto.
  - eauto.
Qed.

Lemma pauli_bit_rows (n : nat) (rows : matrix) :
  Forall (pauli_row n) rows -> bit_rows (2 * n) rows.
Proof. intros H. eapply Forall_impl; [|exact H]. intros r [L B]. now split. Qed.

Lemma pauli_cleanup_spec (n : nat) (A : Pauli.PauliwordOp) :
  (2 * n <= 64)%nat -> pauli_wf n A ->
  exists R Cs,
    merged_spec (Pauli.symp_matrix A) (Pauli.coeff_vec A) R Cs
    /\ Forall bits R
    /\ Pauli.cleanup A = Ok (Pauli.mkPauliwordOp R (2 * n) Cs)
    /\ Pauli.cleanup_zeros A
       = Ok (Pauli.mkPauliwordOp (select R (mask_nonzero Cs)) (2 * n)
               (select Cs (mask_nonzero Cs))).
Proof.
  intros Hn (Hc & Hl & Hr).
  pose proof (merge_rows_spec (2 * n) (Pauli.symp_matrix A) (Pauli.coeff_vec A)
                Hn (pauli_bit_rows n _ Hr) Hl) as S.
  unfold Pauli.cleanup_zeros, Pauli.cleanup. rewrite Hc.
  destruct (merge_rows (2 * n) (Pauli.symp_matrix A) (Pauli.coeff_vec A)) as [R Cs].
  cbn [fst snd] in S. destruct S as (S1 & S2 & S3 & S4).
  assert (HB : Forall bits R).
  { apply Forall_forall. intros r Hin. apply S3 in Hin.
    rewrite Forall_forall in Hr. now destruct (Hr r Hin). }
  exists R, Cs. split; [repeat split; auto; apply S3|]. split; [exact HB|].
  rewrite init_ok by (auto; lia). split; [reflexivity|].
  cbn [bind Pauli.n_cols Pauli.symp_matrix Pauli.coeff_vec].
  apply init_ok.
  - apply select_length. lia.
  - apply Forall_forall. intros r Hin. apply select_in in Hin.
    rewrite Forall_forall in HB. now apply HB.
Qed.

Lemma majorana_init_array2 (n : nat) (rows : matrix) (coeffs : list C) :
  Nat.even n = true -> length rows = length coeffs ->
  Majorana.init (Majorana.Array2 n rows) coeffs true
  = Ok (Majorana.mkMajoranaOp rows n coeffs true).
Proof.
  intros He Hl. unfold Majorana.init.
  assert (G : ((length rows =? 0)%nat && (length coeffs =? 1)%nat) = false).
  { rewrite Hl. now destruct (length coeffs) as [|[|k]]. }
  rewrite G, He. cbn [assert bind]. apply Nat.eqb_eq in Hl. rewrite Hl. reflexivity.
Qed.

(** [MajoranaOp.cleanup] succeeds on every operator over an even
    number of sites. *)
Lemma majorana_cleanup_ok (M : Majorana.MajoranaOp) :
  Nat.even (Majorana.n_sites M) = true ->
  let out := merge_rows (Majorana.n_sites M) (Majorana.symp_matrix M)
               (Majorana.coeff_vec M) in
  Majorana.cleanup M
  = Ok (Majorana.mkMajoranaOp (select (fst out) (mask_nonzero (snd out)))
          (Majorana.n_sites M) (select (snd out) (mask_nonzero (snd out))) true).
Proof.
  intros He out. unfold Majorana.cleanup. subst out.
  destruct (merge_rows _ _ _) as [R Cs] eqn:E. cbn [fst snd].
  apply majorana_init_array2; [exact He|].
  apply select_length.
  unfold merge_rows in E. inversion E; subst.
  unfold take. now rewrite length_map, (* reduceat *)
    (ltac:(clear; intros arr idx; induction idx; simpl; congruence)
      : forall arr idx, length (reduceat arr idx) = length idx).
Qed.

Lemma majorana_cleanup_spec (M : Majorana.MajoranaOp) :
  (Majorana.n_sites M <= 64)%nat -> Nat.even (Majorana.n_sites M) = true ->
  bit_rows (Majorana.n_sites M) (Majorana.symp_matrix M) ->
  length (Majorana.coeff_vec M) = length (Majorana.symp_matrix M) ->
  exists R Cs,
    merged_spec (Majorana.symp_matrix M) (Majorana.coeff_vec M) R Cs
    /\ Majorana.cleanup M
       = Ok (Majorana.mkMajoranaOp (select R (mask_nonzero Cs)) (Majorana.n_sites M)
               (select Cs (mask_nonzero Cs)) true).
Proof.
  intros Hn He Hr Hl.
  pose proof (merge_rows_spec _ _ _ Hn Hr Hl) as S.
  rewrite (majorana_cleanup_ok M He).
  destruct (merge_rows _ _ _) as [R Cs]. cbn [fst snd] in *.
  exists R, Cs. split; [|reflexivity].
  destruct S as (S1 & S2 & S3 & S4). repeat split; auto; apply S3.
Qed.

(** Two equal rows with coefficients [1] and [-1]: [MajoranaOp.cleanup]
    returns the operator without rows. *)
Lemma majorana_cleanup_cancels :
  Majorana.cleanup (Majorana.mkMajoranaOp [[1; 0]; [1; 0]]%Z 2 [C1; (- C1)%C] true)
  = Ok (Majorana.mkMajoranaOp [] 2 [] true).
Proof.
  rewrite majorana_cleanup_ok by reflexivity.
  cbn [Majorana.n_sites Majorana.symp_matrix Majorana.coeff_vec].
  assert (E : forall a b : C, merge_rows 2 [[1; 0]; [1; 0]]%Z [a; b]
              = ([[1; 0]%Z], [(a + (b + C0))%C])).
  { intros a b. cbv -[Cadd C0]. reflexivity. }
  rewrite E. cbn [fst snd mask_nonzero map].
  replace (C1 + (- C1 + C0))%C with C0 by (symmetry; csolve).
  rewrite Cabs_gtb_C0. reflexivity.
Qed.

End CleanupFacts.

(** C7, as the code has it.  On an operator of at most 64 columns,
    [PauliwordOp.cleanup] keeps every distinct row exactly once, with
    the sum of the coefficients of the rows equal to it, and keeps it
    also when that sum is zero; [cleanup_zeros] then drops the rows
    whose summed coefficient has magnitude at most [1e-15].
    [MajoranaOp.cleanup] does both steps at once: it merges the rows in
    the same way and itself drops the rows whose summed coefficient has
    magnitude at most [1e-15]. *)
Theorem cleanup_merges_rows :
  (forall (n : nat) (A : Pauli.PauliwordOp),
      (2 * n <= 64)%nat -> Spec.pauli_wf n A ->
      exists R Cs,
        Shape.merged_spec (Pauli.symp_matrix A) (Pauli.coeff_vec A) R Cs
        /\ Pauli.cleanup A = Ok (Pauli.mkPauliwordOp R (2 * n) Cs)
        /\ Pauli.cleanup_zeros A
           = Ok (Pauli.mkPauliwordOp (select R (Shape.mask_nonzero Cs)) (2 * n)
                   (select Cs (Shape.mask_nonzero Cs))))
  /\ (forall M : Majorana.MajoranaOp,
         (Majorana.n_sites M <= 64)%nat -> Nat.even (Majorana.n_sites M) = true ->
         Shape.bit_rows (Majorana.n_sites M) (Majorana.symp_matrix M) ->
         length (Majorana.coeff_vec M) = length (Majorana.symp_matrix M) ->
         exists R Cs,
           Shape.merged_spec (Majorana.symp_matrix M) (Majorana.coeff_vec M) R Cs
           /\ Majorana.cleanup M
              = Ok (Majorana.mkMajoranaOp (select R (Shape.mask_nonzero Cs))
                      (Majorana.n_sites M) (select Cs (Shape.mask_nonzero Cs)) true)).
Proof.
  split.
  - intros n A Hn HA.
    destruct (CleanupFacts.pauli_cleanup_spec n A Hn HA) as (R & Cs & S & _ & E1 & E2).
    exists R, Cs. auto.
  - intros M Hn He Hr Hl. now apply CleanupFacts.majorana_cleanup_spec.
Qed.

Lemma cleanup_merges_rows_witness :
  exists R Cs,
    Shape.merged_spec [[1; 0]; [0; 1]; [1; 0]]%Z [C1; Ci; (- C1)%C] R Cs
    /\ Pauli.cleanup (Pauli.mkPauliwordOp [[1; 0]; [0; 1]; [1; 0]]%Z 2 [C1; Ci; (- C1)%C])
       = Ok (Pauli.mkPauliwordOp R 2 Cs).
Proof.
  destruct (proj1 cleanup_merges_rows 1
              (Pauli.mkPauliwordOp [[1; 0]; [0; 1]; [1; 0]]%Z 2 [C1; Ci; (- C1)%C]))
    as (R & Cs & S & E & _).
  - simpl. lia.
  - apply MultiplyFacts.pauli_wfb_spec. reflexivity.
  - exists R, Cs. split; [exact S|exact E].
Defined.

(** [MajoranaOp.cleanup] does not retain a row whose coefficients sum
    to zero: of two equal rows with coefficients [1] and [-1] nothing
    is left. *)
Lemma majorana_cleanup_drops_zero_row :
  ~ (forall M',
        Majorana.cleanup
          (Majorana.mkMajoranaOp [[1; 0]; [1; 0]]%Z 2 [C1; (- C1)%C] true) = Ok M' ->
        In [1; 0]%Z (Majorana.symp_matrix M')).
Proof.
  intros H. specialize (H _ CleanupFacts.majorana_cleanup_cancels). destruct H.
Qed.

(** ** Operands of different dimensions *)

Module DimensionFacts.

Import Spec Shape CleanupFacts.

Lemma majorana_wfb_spec (M : Majorana.MajoranaOp) : majorana_wfb M = true -> majorana_wf M.
Proof.
  unfold majorana_wfb, majorana_wf. rewrite !andb_true_iff, Nat.eqb_eq, forallb_forall.
  intros [[H1 H2] H3]. repeat split; auto.
  apply Forall_forall. intros r Hr. apply Nat.eqb_eq. now apply H3.
Qed.

Lemma pad_columns_id (w : nat) (m : matrix) :
  Forall (fun r => length r = w) m -> Majorana.pad_columns w m = m.
Proof.
  unfold Majorana.pad_columns. induction 1 as [|r m Hr _ IH]; simpl; [reflexivity|].
  rewrite IH, Hr, Nat.sub_diag. simpl. now rewrite app_nil_r.
Qed.

Lemma widen_spec (A B : Majorana.MajoranaOp) :
  majorana_wf A -> majorana_wf B ->
  let w := Nat.max (Majorana.n_sites A) (Majorana.n_sites B) in
  Majorana.widen A B
  = (Majorana.pad_columns w (Majorana.symp_matrix A),
     Majorana.pad_columns w (Majorana.symp_matrix B), w).
Proof.
  intros (_ & _ & HA) (_ & _ & HB) w. unfold Majorana.widen. subst w.
  destruct (Nat.eqb_spec (Majorana.n_sites A) (Majorana.n_sites B)) as [E|E]; cbn [negb].
  - rewrite <- E, Nat.max_id, !pad_columns_id; auto. now rewrite E.
  - destruct (Nat.ltb_spec (Majorana.n_sites A) (Majorana.n_sites B)) as [L|L].
    + rewrite Nat.max_r by lia. now rewrite (pad_columns_id _ _ HB).
    + rewrite Nat.max_l by lia. now rewrite (pad_columns_id _ _ HA).
Qed.

Lemma max_even (a b : nat) :
  Nat.even a = true -> Nat.even b = true -> Nat.even (Nat.max a b) = true.
Proof. intros Ha Hb. destruct (Nat.max_spec a b) as [[_ ->]|[_ ->]]; assumption. Qed.

Lemma reduceat_length (arr : list C) (idx : list nat) :
  length (reduceat arr idx) = length idx.
Proof. induction idx; simpl; congruence. Qed.

(** The rows [cleanup] keeps are rows of its argument. *)
Lemma merge_rows_subset (ncols : nat) (rows : matrix) (coeffs : list C) :
  length coeffs = length rows ->
  forall r, In r (fst (merge_rows ncols rows coeffs)) -> In r rows.
Proof.
  intros Hl r. rewrite (merge_rows_merged ncols rows coeffs Hl).
  set (L := combine _ _). unfold merged. cbn [fst]. intros Hin.
  apply in_map_iff in Hin. destruct Hin as (g & <- & Hg).
  pose proof (groups_nonempty (sort_by_key L)) as GN. rewrite Forall_forall in GN.
  destruct g as [|t0 g']; [now destruct (GN [] Hg)|]. simpl.
  assert (In t0 (sort_by_key L)) as Ht0.
  { rewrite <- (concat_groups (sort_by_key L)). apply in_concat.
    exists (t0 :: g'). split; [exact Hg|now left]. }
  apply (Permutation_in _ (Permutation_sym (sort_by_key_perm L))) in Ht0.
  unfold L in Ht0. destruct t0 as [k [r0 c0]]. apply in_combine_r in Ht0.
  simpl. eapply in_combine_l. exact Ht0.
Qed.

Lemma majorana_cleanup_rows (M : Majorana.MajoranaOp) :
  Nat.even (Majorana.n_sites M) = true ->
  length (Majorana.coeff_vec M) = length (Majorana.symp_matrix M) ->
  exists R,
    Majorana.cleanup M = Ok R
    /\ Majorana.n_sites R = Majorana.n_sites M
    /\ forall r, In r (Majorana.symp_matrix R) -> In r (Majorana.symp_matrix M).
Proof.
  intros He Hl. eexists. split; [apply majorana_cleanup_ok; exact He|].
  cbn [Majorana.n_sites Majorana.symp_matrix]. split; [reflexivity|].
  intros r Hr. apply select_in in Hr. eapply merge_rows_subset; eauto.
Qed.

(** The Pauli operations assert equal numbers of qubits. *)
Lemma pauli_mismatch_fails (P Q : Pauli.PauliwordOp) :
  Pauli.n_qubits P <> Pauli.n_qubits Q ->
  Pauli.add P Q = Raise (AssertionError 6)
  /\ Pauli.mul P Q = Raise (AssertionError 6)
  /\ Pauli.commutes_termwise P Q = Raise (AssertionError 6).
Proof.
  intros H. apply Nat.eqb_neq in H.
  unfold Pauli.add, Pauli.mul, Pauli.commutes_termwise. rewrite H. auto.
Qed.

End DimensionFacts.

(** ** Equality of Majorana operators *)

Module EqualityFacts.

Import Spec Shape Modes Widths CleanupFacts DimensionFacts.

Lemma isclose_refl (a : C) : Majorana.isclose a a = true.
Proof.
  unfold Majorana.isclose. destruct (Rle_dec _ _) as [H|H]; [reflexivity|].
  exfalso. apply H.
  replace (a - a)%C with C0 by (symmetry; csolve).
  rewrite Cabs_C0.
  assert (0 <= Cabs a)%R by apply sqrt_pos.
  assert (0 < 1 / 10 ^ 8)%R by (apply Rdiv_lt_0_compat; [lra|apply pow_lt; lra]).
  assert (0 < 1 / 10 ^ 5)%R by (apply Rdiv_lt_0_compat; [lra|apply pow_lt; lra]).
  nra.
Qed.

Lemma allclose_refl (cs : list C) : Majorana.allclose cs cs = true.
Proof.
  unfold Majorana.allclose. induction cs as [|c cs IH]; [reflexivity|].
  simpl. now rewrite isclose_refl.
Qed.

Lemma logical_xor_same (a : Z) : Majorana.logical_xor a a = 0%Z.
Proof. unfold Majorana.logical_xor. now destruct (negb (a =? 0)%Z). Qed.

Lemma no_differences (m : matrix) :
  vsum (map vsum (zip_with (zip_with Majorana.logical_xor) m m)) = 0%Z.
Proof.
  induction m as [|r m IH]; [reflexivity|]. cbn [zip_with map vsum fold_right].
  fold (vsum (map vsum (zip_with (zip_with Majorana.logical_xor) m m))).
  rewrite IH.
  assert (vsum (zip_with Majorana.logical_xor r r) = 0%Z) as ->; [|reflexivity].
  induction r as [|x r IHr]; [reflexivity|]. cbn [zip_with vsum fold_right].
  fold (vsum (zip_with Majorana.logical_xor r r)).
  now rewrite IHr, logical_xor_same.
Qed.

(** [cleanup] of a well-formed operator is a well-formed operator over
    the same number of sites. *)
Lemma majorana_cleanup_wf (M : Majorana.MajoranaOp) :
  majorana_wf M ->
  exists c, Majorana.cleanup M = Ok c
            /\ majorana_wf c /\ Majorana.n_sites c = Majorana.n_sites M.
Proof.
  intros (He & Hl & Hr).
  eexists. split; [apply majorana_cleanup_ok; exact He|].
  split; [|reflexivity]. unfold majorana_wf.
  cbn [Majorana.n_sites Majorana.symp_matrix Majorana.coeff_vec].
  split; [exact He|]. split.
  - apply select_length. unfold merge_rows. cbn [fst snd].
    unfold take. now rewrite length_map, reduceat_length.
  - apply Forall_forall. intros r Hin. apply select_in in Hin.
    apply merge_rows_subset in Hin; [|exact Hl].
    rewrite Forall_forall in Hr. now apply Hr.
Qed.

(** The matrix [pad_columns] builds: every row followed by zeros up
    to the width. *)
Lemma pad_columns_rows (w : nat) (m : matrix) :
  Majorana.pad_columns w m = map (padded w) m.
Proof. reflexivity. Qed.

Lemma padded_length (w : nat) (r : list Z) :
  (length r <= w)%nat -> length (padded w r) = w.
Proof. intros H. unfold padded. rewrite length_app, repeat_length. lia. Qed.

Lemma logical_xor_range (a b : Z) :
  Majorana.logical_xor a b = 0%Z \/ Majorana.logical_xor a b = 1%Z.
Proof. unfold Majorana.logical_xor. destruct (xorb _ _); auto. Qed.

Lemma logical_xor_zero (a b : Z) :
  Majorana.logical_xor a b = 0%Z <-> (a = 0%Z <-> b = 0%Z).
Proof.
  unfold Majorana.logical_xor.
  destruct (Z.eqb_spec a 0), (Z.eqb_spec b 0); cbn; split; intros H;
    try reflexivity; try discriminate; try tauto.
Qed.

Lemma vsum_cons (x : Z) (v : list Z) : vsum (x :: v) = (x + vsum v)%Z.
Proof. reflexivity. Qed.

Lemma vsum_xor_nonneg (r1 r2 : list Z) :
  (0 <= vsum (zip_with Majorana.logical_xor r1 r2))%Z.
Proof.
  revert r2. induction r1 as [|x r1 IH]; intros [|y r2]; cbn [zip_with];
    try (cbn; lia).
  rewrite vsum_cons. specialize (IH r2).
  destruct (logical_xor_range x y) as [-> | ->]; lia.
Qed.

(** Two rows of the same length show no difference exactly when they
    are nonzero at the same positions. *)
Lemma row_differences (r1 : list Z) :
  forall r2, length r1 = length r2 ->
    (vsum (zip_with Majorana.logical_xor r1 r2) = 0%Z
     <-> forall j, (j < length r1)%nat -> (nth j r1 0%Z = 0%Z <-> nth j r2 0%Z = 0%Z)).
Proof.
  induction r1 as [|x r1 IH]; intros [|y r2] L; try discriminate.
  - cbn. split; [intros _ j Hj; lia|reflexivity].
  - cbn [zip_with length]. rewrite vsum_cons.
    injection L as L. specialize (IH r2 L).
    pose proof (vsum_xor_nonneg r1 r2) as N.
    split.
    + intros H j Hj.
      assert (Majorana.logical_xor x y = 0%Z /\
              vsum (zip_with Majorana.logical_xor r1 r2) = 0%Z) as [H0 H1]
        by (destruct (logical_xor_range x y) as [E|E]; rewrite E in H; lia).
      destruct j as [|j]; cbn [nth].
      * now apply logical_xor_zero.
      * apply (proj1 IH H1). lia.
    + intros H.
      assert (Majorana.logical_xor x y = 0%Z) as ->
        by (apply logical_xor_zero; apply (H 0%nat); lia).
      rewrite (proj2 IH); [reflexivity|].
      intros j Hj. apply (H (S j)). lia.
Qed.

Lemma vsum_rows_nonneg (m1 m2 : matrix) :
  (0 <= vsum (map vsum (zip_with (zip_with Majorana.logical_xor) m1 m2)))%Z.
Proof.
  revert m2. induction m1 as [|r1 m1 IH]; intros [|r2 m2]; cbn [zip_with map];
    try (cbn; lia).
  rewrite vsum_cons. specialize (IH m2). pose proof (vsum_xor_nonneg r1 r2). lia.
Qed.

(** The number of differences [__eq__] counts between two matrices of
    as many rows, each brought to [w] columns by trailing zeros. *)
Lemma differences_padded (w : nat) (m1 : matrix) :
  forall m2, length m1 = length m2 ->
    Forall (fun r => (length r <= w)%nat) m1 ->
    Forall (fun r => (length r <= w)%nat) m2 ->
    (vsum (map vsum (zip_with (zip_with Majorana.logical_xor)
                       (map (padded w) m1) (map (padded w) m2))) = 0%Z
     <-> Forall2 (same_support w) m1 m2).
Proof.
  induction m1 as [|r1 m1 IH]; intros [|r2 m2] L H1 H2; try discriminate.
  - cbn. split; [constructor|reflexivity].
  - cbn [map zip_with]. rewrite vsum_cons.
    injection L as L. inversion H1 as [|? ? L1 H1']; subst.
    inversion H2 as [|? ? L2 H2']; subst.
    specialize (IH m2 L H1' H2').
    pose proof (vsum_xor_nonneg (padded w r1) (padded w r2)) as N1.
    pose proof (vsum_rows_nonneg (map (padded w) m1) (map (padded w) m2)) as N2.
    pose proof (row_differences (padded w r1) (padded w r2)) as RD.
    rewrite !padded_length in RD by assumption. specialize (RD eq_refl).
    split.
    + intros H. constructor.
      * unfold same_support. apply RD. lia.
      * apply IH. lia.
    + intros H. inversion H as [|? ? ? ? S1 S2]; subst.
      rewrite (proj2 RD S1), (proj2 IH S2). reflexivity.
Qed.

Lemma Forall2_same_length {A B : Type} (P : A -> B -> Prop) (l : list A) (l' : list B) :
  Forall2 P l l' -> length l = length l'.
Proof. induction 1; simpl; congruence. Qed.

Lemma rows_within (w : nat) (c : Majorana.MajoranaOp) :
  majorana_wf c -> (Majorana.n_sites c <= w)%nat ->
  Forall (fun r => (length r <= w)%nat) (Majorana.symp_matrix c).
Proof.
  intros (_ & _ & H) L. eapply Forall_impl; [|exact H]. cbn. intros r ->. exact L.
Qed.

(** [__eq__] on well-formed operators. *)
Lemma majorana_eq_padded (A B : Majorana.MajoranaOp) :
  majorana_wf A -> majorana_wf B ->
  exists c1 c2,
    Majorana.cleanup A = Ok c1 /\ Majorana.cleanup B = Ok c2
    /\ (Majorana.n_terms c1 <> Majorana.n_terms c2 -> Majorana.eq A B = Ok false)
    /\ (let w := Nat.max (Majorana.n_sites c1) (Majorana.n_sites c2) in
        exists b,
          Majorana.eq A B = Ok b
          /\ (b = true
              <-> Forall2 (same_support w) (Majorana.symp_matrix c1) (Majorana.symp_matrix c2)
                  /\ Majorana.allclose (Majorana.coeff_vec c1) (Majorana.coeff_vec c2)
                     = true))
    /\ (agree_after_padding c1 c2 -> Majorana.eq A B = Ok true).
Proof.
  intros HA HB.
  destruct (majorana_cleanup_wf A HA) as (c1 & E1 & W1 & N1).
  destruct (majorana_cleanup_wf B HB) as (c2 & E2 & W2 & N2).
  exists c1, c2. split; [exact E1|]. split; [exact E2|].
  set (w := Nat.max (Majorana.n_sites c1) (Majorana.n_sites c2)).
  assert (R1 : Forall (fun r => (length r <= w)%nat) (Majorana.symp_matrix c1))
    by (apply rows_within; [exact W1|unfold w; lia]).
  assert (R2 : Forall (fun r => (length r <= w)%nat) (Majorana.symp_matrix c2))
    by (apply rows_within; [exact W2|unfold w; lia]).
  assert (F : Majorana.n_terms c1 <> Majorana.n_terms c2 -> Majorana.eq A B = Ok false).
  { intros Hn. unfold Majorana.eq. rewrite E1, E2. cbn [bind].
    apply Nat.eqb_neq in Hn. now rewrite Hn. }
  assert (G : Majorana.n_terms c1 = Majorana.n_terms c2 ->
              Majorana.eq A B
              = Ok ((vsum (map vsum
                       (zip_with (zip_with Majorana.logical_xor)
                          (map (padded w) (Majorana.symp_matrix c1))
                          (map (padded w) (Majorana.symp_matrix c2)))) =? 0)%Z
                    && Majorana.allclose (Majorana.coeff_vec c1) (Majorana.coeff_vec c2))).
  { intros Hn. unfold Majorana.eq. rewrite E1, E2. cbn [bind].
    rewrite Hn, Nat.eqb_refl. cbn [negb].
    rewrite (widen_spec c1 c2 W1 W2). fold w. now rewrite !pad_columns_rows. }
  split; [exact F|]. split.
  - destruct (Nat.eq_dec (Majorana.n_terms c1) (Majorana.n_terms c2)) as [Hn|Hn].
    + eexists. split; [exact (G Hn)|].
      rewrite andb_true_iff, Z.eqb_eq.
      now rewrite (differences_padded w _ _ Hn R1 R2).
    + exists false. split; [exact (F Hn)|].
      split; [discriminate|].
      intros [S _]. exfalso. apply Hn. exact (Forall2_same_length _ _ _ S).
  - intros [Hp Hc]. fold w in Hp.
    assert (Hn : Majorana.n_terms c1 = Majorana.n_terms c2).
    { apply (f_equal (@length _)) in Hp. rewrite !length_map in Hp. exact Hp. }
    rewrite (G Hn), Hp, no_differences, Hc, allclose_refl. reflexivity.
Qed.

(** [cleanup] of an operator of one row with coefficient 1. *)
Lemma cleanup_one_row (w : nat) (r : list Z) :
  Nat.even w = true ->
  Majorana.cleanup (Majorana.mkMajoranaOp [r] w [C1] true)
  = Ok (Majorana.mkMajoranaOp [r] w [(C1 + C0)%C] true).
Proof.
  intros He. rewrite majorana_cleanup_ok by exact He.
  cbn [Majorana.n_sites Majorana.symp_matrix Majorana.coeff_vec].
  assert (E : merge_rows w [r] [C1] = ([r], [(C1 + C0)%C])).
  { unfold merge_rows, matvec64, argsort, sort_by_key, unique_counts, sort_by_key.
    cbn [map length seq combine fold_right insert_by_key fst snd].
    reflexivity. }
  rewrite E. cbn [fst snd mask_nonzero map].
  assert (K : Cabs_gtb (C1 + C0)%C (1 / 10 ^ 15) = true)
    by (rewrite Cadd_0_r; apply Cabs_gtb_C1).
  rewrite K. reflexivity.
Qed.

(** [γ0] over two sites against [γ0 γ2] over four sites, both with
    coefficient 1. *)
Lemma eq_gamma0_gamma0gamma2 :
  exists c1 c2,
    Majorana.cleanup (Majorana.mkMajoranaOp [[1; 0]%Z] 2 [C1] true) = Ok c1
    /\ Majorana.cleanup (Majorana.mkMajoranaOp [[1; 0; 1; 0]%Z] 4 [C1] true) = Ok c2
    /\ agree_on_common_support c1 c2
    /\ Majorana.eq (Majorana.mkMajoranaOp [[1; 0]%Z] 2 [C1] true)
                   (Majorana.mkMajoranaOp [[1; 0; 1; 0]%Z] 4 [C1] true) = Ok false.
Proof.
  pose proof (cleanup_one_row 2 [1; 0]%Z eq_refl) as E1.
  pose proof (cleanup_one_row 4 [1; 0; 1; 0]%Z eq_refl) as E2.
  eexists _, _. split; [exact E1|]. split; [exact E2|]. split.
  - split; reflexivity.
  - unfold Majorana.eq. rewrite E1, E2. cbn -[Majorana.allclose]. reflexivity.
Qed.

End EqualityFacts.

(** C10, as the code has it.  [MajoranaOp.__eq__] first applies
    [cleanup] to both operands.  Unequal numbers of terms after cleanup
    yield [False] at once.  Otherwise the rows of the narrower
    cleaned-up operator are brought to the larger number of sites by
    trailing zero columns, and the result is [True] exactly when every
    row of the one is nonzero at the same positions as the row with the
    same index of the other and the coefficients are close
    ([np.allclose]); in particular two operators over different numbers
    of sites compare equal whenever their cleaned-up rows are equal
    after that padding with trailing zeros and their cleaned-up
    coefficients are equal. *)
Theorem majorana_eq_pads_and_compares (A B : Majorana.MajoranaOp) :
  Shape.majorana_wf A -> Shape.majorana_wf B ->
  exists c1 c2,
    Majorana.cleanup A = Ok c1 /\ Majorana.cleanup B = Ok c2
    /\ (Majorana.n_terms c1 <> Majorana.n_terms c2 -> Majorana.eq A B = Ok false)
    /\ (let w := Nat.max (Majorana.n_sites c1) (Majorana.n_sites c2) in
        exists b,
          Majorana.eq A B = Ok b
          /\ (b = true
              <-> Forall2 (Widths.same_support w)
                    (Majorana.symp_matrix c1) (Majorana.symp_matrix c2)
                  /\ Majorana.allclose (Majorana.coeff_vec c1) (Majorana.coeff_vec c2)
                     = true))
    /\ (Widths.agree_after_padding c1 c2 -> Majorana.eq A B = Ok true).
Proof.
  intros HA HB. exact (EqualityFacts.majorana_eq_padded A B HA HB).
Qed.

(** [γ0] over two sites and [γ0] over four sites compare equal;
    [γ0] over two sites and [γ0 γ2] over four sites do not. *)
Lemma majorana_eq_pads_and_compares_witness :
  Majorana.eq (Majorana.mkMajoranaOp [[1; 0]%Z] 2 [C1] true)
              (Majorana.mkMajoranaOp [[1; 0; 0; 0]%Z] 4 [C1] true) = Ok true
  /\ Majorana.eq (Majorana.mkMajoranaOp [[1; 0]%Z] 2 [C1] true)
                 (Majorana.mkMajoranaOp [[1; 0; 1; 0]%Z] 4 [C1] true) = Ok false.
Proof.
  split.
  - destruct (majorana_eq_pads_and_compares
                (Majorana.mkMajoranaOp [[1; 0]%Z] 2 [C1] true)
                (Majorana.mkMajoranaOp [[1; 0; 0; 0]%Z] 4 [C1] true))
      as (c1 & c2 & E1 & E2 & _ & _ & H).
    + apply DimensionFacts.majorana_wfb_spec. reflexivity.
    + apply DimensionFacts.majorana_wfb_spec. reflexivity.
    + apply H.
      rewrite (EqualityFacts.cleanup_one_row 2 [1; 0]%Z eq_refl) in E1.
      rewrite (EqualityFacts.cleanup_one_row 4 [1; 0; 0; 0]%Z eq_refl) in E2.
      injection E1 as <-. injection E2 as <-. split; reflexivity.
  - destruct (majorana_eq_pads_and_compares
                (Majorana.mkMajoranaOp [[1; 0]%Z] 2 [C1] true)
                (Majorana.mkMajoranaOp [[1; 0; 1; 0]%Z] 4 [C1] true))
      as (c1 & c2 & E1 & E2 & _ & (b & Eb & Hb) & _).
    + apply DimensionFacts.majorana_wfb_spec. reflexivity.
    + apply DimensionFacts.majorana_wfb_spec. reflexivity.
    + rewrite (EqualityFacts.cleanup_one_row 2 [1; 0]%Z eq_refl) in E1.
      rewrite (EqualityFacts.cleanup_one_row 4 [1; 0; 1; 0]%Z eq_refl) in E2.
      injection E1 as <-. injection E2 as <-.
      rewrite Eb. destruct b; [|reflexivity].
      exfalso. destruct (proj1 Hb eq_refl) as [S _].
      inversion S as [|r1 r2 m1 m2 S1 S2]; subst.
      specialize (S1 2%nat ltac:(simpl; lia)). cbn in S1.
      destruct S1 as [S1 _]. specialize (S1 eq_refl). discriminate S1.
Defined.

(** Agreement on the common support is not enough: [γ0] over two
    sites and [γ0 γ2] over four sites agree on the two common columns
    and have the same coefficient, and yet compare unequal, because the
    wider operator has a bit outside the common columns. *)
Lemma majorana_eq_common_support_not_enough :
  ~ (forall c1 c2,
        Majorana.cleanup (Majorana.mkMajoranaOp [[1; 0]%Z] 2 [C1] true) = Ok c1 ->
        Majorana.cleanup (Majorana.mkMajoranaOp [[1; 0; 1; 0]%Z] 4 [C1] true) = Ok c2 ->
        Shape.agree_on_common_support c1 c2 ->
        Majorana.eq (Majorana.mkMajoranaOp [[1; 0]%Z] 2 [C1] true)
                    (Majorana.mkMajoranaOp [[1; 0; 1; 0]%Z] 4 [C1] true) = Ok true).
Proof.
  intros H.
  destruct EqualityFacts.eq_gamma0_gamma0gamma2
    as (c1 & c2 & E1 & E2 & Ag & F).
  specialize (H c1 c2 E1 E2 Ag). rewrite F in H. discriminate.
Qed.

(** ** The rotation search on stabilizers *)

Module SearchFacts.

Import Pauli.

Lemma C_eqb_refl (a : C) : C_eqb a a = true.
Proof.
  unfold C_eqb. destruct (Req_dec_T (fst a) (fst a)) as [_|H]; [|now destruct H].
  destruct (Req_dec_T (snd a) (snd a)) as [_|H]; [reflexivity|now destruct H].
Qed.

(** The rotation [Y] leaves the term [Y] as it is. *)
Lemma rotate_Y_by_Y (c : C) :
  _rotate_by_single_Pword (mkPauliwordOp [[1; 1]%Z] 2 [c])
                          (mkPauliwordOp [[1; 1]%Z] 2 [C1]) None
  = Ok (mkPauliwordOp [[1; 1]%Z] 2 [(c + C0)%C]).
Proof.
  unfold _rotate_by_single_Pword.
  cbn [n_terms symp_matrix length Nat.eqb assert bind coeff_vec nth].
  rewrite C_eqb_refl. cbn [negb].
  cbv -[Cadd Cmul Copp C0 C1 Ci RtoC]. reflexivity.
Qed.

(** The first call of the search on the stabilizer [Y]. *)
Lemma step_Y (c : C) :
  rotate_onto_sqp_step 1 (mkPauliwordOp [[1; 1]%Z] 2 [c]) (mkState [] [])
  = Ok (Some (mkPauliwordOp [[1; 1]%Z] 2 [(c + C0)%C]),
        mkState [["Y"%char]] [0; 1]%nat).
Proof.
  unfold rotate_onto_sqp_step.
  cbn -[_rotate_by_single_Pword getitem reduce_add map_result].
  rewrite rotate_Y_by_Y.
  cbv -[Cadd Cmul Copp C0 C1 Ci RtoC]. reflexivity.
Qed.

(** The second call: no position of the row is left to pivot on. *)
Lemma step_Y_again (c : C) :
  rotate_onto_sqp_step 1 (mkPauliwordOp [[1; 1]%Z] 2 [c]) (mkState [["Y"%char]] [0; 1]%nat)
  = Raise (ValueError 7).
Proof. reflexivity. Qed.

End SearchFacts.

(** C8 at the stabilizer [Y] on one qubit.  The first call of
    [_recursive_rotate_onto_sqp] picks the only row as pivot and builds
    the rotation [Y], which commutes with it: the row is left as it is,
    it is not a single-qubit [X] or [Z], and the recursive call receives
    a basis of the same size.  Both positions of the row are then marked
    used, so the second call finds no position to pivot on and raises
    from [np.argmin] of an empty array. *)
Theorem stabilizer_search_does_not_consume_Y :
  exists Y Y' st',
    Pauli.init_strings [["Y"%char]] [C1] = Ok Y
    /\ Pauli.rotate_onto_sqp_step 1 Y (Pauli.mkState [] []) = Ok (Some Y', st')
    /\ Pauli.symp_matrix Y' = Pauli.symp_matrix Y
    /\ Pauli.n_terms Y' = Pauli.n_terms Y
    /\ Pauli.rotate_onto_sqp_step 1 Y' st' = Raise (ValueError 7)
    /\ forall depth,
        Pauli._recursive_rotate_onto_sqp 1 (S (S depth)) (Some Y) (Pauli.mkState [] [])
        = Some (Raise (ValueError 7)).
Proof.
  exists (Pauli.mkPauliwordOp [[1; 1]%Z] 2 [C1]),
         (Pauli.mkPauliwordOp [[1; 1]%Z] 2 [(C1 + C0)%C]),
         (Pauli.mkState [["Y"%char]] [0; 1]%nat).
  split; [reflexivity|]. split; [apply SearchFacts.step_Y|].
  split; [reflexivity|]. split; [reflexivity|].
  split; [apply SearchFacts.step_Y_again|].
  intros depth. cbn [Pauli._recursive_rotate_onto_sqp].
  rewrite SearchFacts.step_Y. cbn [Pauli._recursive_rotate_onto_sqp].
  now rewrite SearchFacts.step_Y_again.
Qed.

(** ** Rotation of an operator on more than 32 qubits *)

Module WideFacts.

Import Pauli Shape SearchFacts.

Lemma wide_keys_collide :
  matvec64 [wide_X0; wide_I] (pow2_weights 66) = [0; 0]%Z.
Proof. vm_compute. reflexivity. Qed.

Lemma wide_commute :
  commutes_termwise (mkPauliwordOp [wide_X0; wide_I] 66 [C1; C1])
                    (mkPauliwordOp [wide_Z32] 66 [C1])
  = Ok [[true]; [true]].
Proof. vm_compute. reflexivity. Qed.

Lemma wide_rotation (c1 c2 : C) (angle : option R) :
  _rotate_by_single_Pword (mkPauliwordOp [wide_X0; wide_I] 66 [c1; c2])
                          (mkPauliwordOp [wide_Z32] 66 [C1]) angle
  = Ok (mkPauliwordOp [wide_X0] 66 [(c1 + (c2 + C0))%C]).
Proof.
  unfold _rotate_by_single_Pword.
  cbn [n_terms symp_matrix length Nat.eqb assert bind coeff_vec nth].
  rewrite C_eqb_refl. cbn [negb].
  destruct angle as [angle|].
  - cbv -[Cadd Cmul Copp C0 C1 Ci C_eqb RtoC cos sin]. reflexivity.
  - cbv -[Cadd Cmul Copp C0 C1 Ci C_eqb RtoC cos sin]. reflexivity.
Qed.

End WideFacts.

(** C2 on 33 qubits.  The operator [c1 X0 + c2 I] is rotated by [Z32],
    which commutes with both of its terms, so both rows should come
    back unchanged.  The sum that [_rotate_by_single_Pword] returns is
    cleaned up with an [int64] key whose weights for the first two of
    the 66 columns are [1 << 65 = 0] and [1 << 64 = 0]: the two rows get
    the same key, and the result is the single row [X0] with
    coefficient [c1 + c2].  The identity term is lost, with or without
    an angle. *)
Theorem rotation_merges_distinct_rows_on_33_qubits (c1 c2 : C) (angle : option R) :
  exists A Q,
    Pauli.init 66 [Shape.wide_X0; Shape.wide_I] [c1; c2] = Ok A
    /\ Pauli.init_vec Shape.wide_Z32 [C1] = Ok Q
    /\ Shape.wide_X0 <> Shape.wide_I
    /\ Pauli.commutes_termwise A Q = Ok [[true]; [true]]
    /\ matvec64 (Pauli.symp_matrix A) (pow2_weights 66) = [0; 0]%Z
    /\ Pauli._rotate_by_single_Pword A Q angle
       = Ok (Pauli.mkPauliwordOp [Shape.wide_X0] 66 [(c1 + (c2 + C0))%C]).
Proof.
  exists (Pauli.mkPauliwordOp [Shape.wide_X0; Shape.wide_I] 66 [c1; c2]),
         (Pauli.mkPauliwordOp [Shape.wide_Z32] 66 [C1]).
  split; [reflexivity|]. split; [reflexivity|]. split; [discriminate|].
  split; [vm_compute; reflexivity|]. split; [exact WideFacts.wide_keys_collide|].
  apply WideFacts.wide_rotation.
Qed.

(** ** Rotation by a single term *)

Module RotateFacts.

Import Spec Shape Pauli CommuteFacts BroadcastFacts MultiplyFacts CleanupFacts SearchFacts.

Lemma coeff_of_tcoeff (rows : matrix) (coeffs : list C) (r : list Z) :
  coeff_of rows coeffs r = tcoeff (combine rows coeffs) r.
Proof. reflexivity. Qed.

Lemma tcoeff_app (L1 L2 : terms) (r : list Z) :
  tcoeff (L1 ++ L2) r = (tcoeff L1 r + tcoeff L2 r)%C.
Proof. unfold tcoeff. now rewrite filter_app, map_app, Csum_app. Qed.

Lemma tcoeff_perm (L L' : terms) (r : list Z) :
  Permutation L L' -> tcoeff L r = tcoeff L' r.
Proof.
  unfold tcoeff. induction 1 as [|x l l' _ IH|x y l|l l' l'' _ IH1 _ IH2]; simpl.
  - reflexivity.
  - destruct (row_eqb (fst x) r); simpl; now rewrite IH.
  - destruct (row_eqb (fst x) r), (row_eqb (fst y) r); simpl; try reflexivity.
    rewrite !Cadd_assoc. f_equal. apply Cadd_comm.
  - now rewrite IH1.
Qed.

Lemma same_operator_refl (L : terms) : same_operator L L.
Proof. intros r. split; [tauto|reflexivity]. Qed.

Lemma same_operator_sym (L L' : terms) : same_operator L L' -> same_operator L' L.
Proof. intros H r. destruct (H r) as [H1 H2]. split; [tauto|congruence]. Qed.

Lemma same_operator_trans (L1 L2 L3 : terms) :
  same_operator L1 L2 -> same_operator L2 L3 -> same_operator L1 L3.
Proof.
  intros H H' r. destruct (H r) as [H1 H2], (H' r) as [H3 H4].
  split; [tauto|congruence].
Qed.

Lemma same_operator_app (L1 L1' L2 L2' : terms) :
  same_operator L1 L1' -> same_operator L2 L2' ->
  same_operator (L1 ++ L2) (L1' ++ L2').
Proof.
  intros H H' r. destruct (H r) as [H1 H2], (H' r) as [H3 H4].
  rewrite !map_app, !tcoeff_app, !in_app_iff, H2, H4. split; [tauto|reflexivity].
Qed.

Lemma same_operator_perm (L L' : terms) : Permutation L L' -> same_operator L L'.
Proof.
  intros P r. split; [|now apply tcoeff_perm].
  split; apply Permutation_in; [|apply Permutation_sym]; now apply Permutation_map.
Qed.

Lemma tcoeff_absent (L : terms) (r : list Z) : ~ In r (map fst L) -> tcoeff L r = C0.
Proof.
  unfold tcoeff. induction L as [|[t c] L IH]; intros H; [reflexivity|].
  simpl in *. destruct (row_eqb t r) eqn:E.
  - apply row_eqb_eq in E. tauto.
  - apply IH. tauto.
Qed.

Lemma tcoeff_once (R : matrix) :
  forall (Cs : list C) (j : nat) (r : list Z) (c : C),
    NoDup R -> nth_error R j = Some r -> nth_error Cs j = Some c ->
    tcoeff (combine R Cs) r = c.
Proof.
  induction R as [|r0 R IH]; intros Cs j r c N Hr Hc; [now destruct j|].
  destruct Cs as [|c0 Cs]; [now destruct j|].
  inversion N as [|? ? Hn N']; subst. unfold tcoeff. cbn [combine filter fst].
  destruct j as [|j]; simpl in Hr, Hc.
  - inversion Hr; inversion Hc; subst.
    rewrite (proj2 (row_eqb_eq r r) eq_refl). cbn [map snd Csum fold_right].
    fold (Csum (map snd (filter (fun p => row_eqb (fst p) r) (combine R Cs)))).
    fold (tcoeff (combine R Cs) r).
    rewrite tcoeff_absent; [apply Cadd_0_r|].
    intros H. apply Hn. apply in_map_iff in H. destruct H as ([t x] & <- & H).
    eapply in_combine_l. exact H.
  - destruct (row_eqb r0 r) eqn:E.
    + apply row_eqb_eq in E. subst. exfalso. apply Hn. eapply nth_error_In; eauto.
    + apply (IH Cs j r c N' Hr Hc).
Qed.

Lemma map_fst_combine {A B : Type} (l : list A) (l' : list B) :
  length l' = length l -> map fst (combine l l') = l.
Proof.
  revert l'. induction l as [|x l IH]; intros [|y l'] H; try discriminate; [reflexivity|].
  simpl. f_equal. apply IH. simpl in H. lia.
Qed.

Lemma map_snd_combine {A B : Type} (l : list A) (l' : list B) :
  length l' = length l -> map snd (combine l l') = l'.
Proof.
  revert l'. induction l as [|x l IH]; intros [|y l'] H; try discriminate; [reflexivity|].
  simpl. f_equal. apply IH. simpl in H. lia.
Qed.

(** The operator [cleanup] returns is the operator it was given. *)
Lemma merged_same_operator (rows : matrix) (coeffs : list C) (R : matrix) (Cs : list C) :
  length coeffs = length rows -> merged_spec rows coeffs R Cs ->
  same_operator (combine R Cs) (combine rows coeffs).
Proof.
  intros Hl (S1 & S2 & S3 & S4) r.
  rewrite (map_fst_combine R Cs S1), (map_fst_combine rows coeffs Hl).
  split; [apply S3|].
  destruct (in_dec (list_eq_dec Z.eq_dec) r R) as [Hin|Hin].
  - destruct (In_nth_error R r Hin) as [j Hj].
    assert (exists c, nth_error Cs j = Some c) as [c Hc].
    { destruct (nth_error Cs j) as [c|] eqn:E; [now exists c|].
      apply nth_error_None in E. assert (j < length R)%nat by (apply nth_error_Some; congruence).
      lia. }
    transitivity c; [exact (tcoeff_once R Cs j r c S2 Hj Hc)|apply (S4 j r c Hj Hc)].
  - rewrite tcoeff_absent by (now rewrite map_fst_combine).
    symmetry. apply tcoeff_absent. rewrite map_fst_combine by exact Hl.
    intros H. apply Hin. now apply S3.
Qed.

(** The description of a cleaned-up operator depends on the operator
    only. *)
Lemma merged_spec_same_operator (rows rows' : matrix) (coeffs coeffs' : list C)
  (R : matrix) (Cs : list C) :
  length coeffs = length rows -> length coeffs' = length rows' ->
  same_operator (combine rows coeffs) (combine rows' coeffs') ->
  merged_spec rows coeffs R Cs -> merged_spec rows' coeffs' R Cs.
Proof.
  intros Hl Hl' E (S1 & S2 & S3 & S4). repeat split; auto.
  - intros H. apply S3 in H. destruct (E r) as [[H1 _] _].
    rewrite !map_fst_combine in H1 by assumption. auto.
  - intros H. apply S3. destruct (E r) as [[_ H1] _].
    rewrite !map_fst_combine in H1 by assumption. auto.
  - intros j r c Hr Hc. rewrite (S4 j r c Hr Hc).
    rewrite !coeff_of_tcoeff. apply E.
Qed.

Lemma dot_app (a1 a2 b1 b2 : list Z) :
  length a1 = length b1 -> dot (a1 ++ a2) (b1 ++ b2) = (dot a1 b1 + dot a2 b2)%Z.
Proof.
  revert b1. unfold dot, vsum.
  induction a1 as [|x a1 IH]; intros [|y b1] H; try discriminate; [reflexivity|].
  simpl. rewrite IH by (simpl in H; lia). lia.
Qed.

Lemma select_map_filter {A : Type} (f : A -> bool) (l : list A) :
  select l (map f l) = filter f l.
Proof. induction l as [|x l IH]; simpl; [reflexivity|]. destruct (f x); now rewrite IH. Qed.

Lemma select_rows_filter (f : list Z -> bool) (rows : matrix) (coeffs : list C) :
  length coeffs = length rows ->
  select rows (map f rows) = map fst (filter (fun p => f (fst p)) (combine rows coeffs))
  /\ select coeffs (map f rows)
     = map snd (filter (fun p => f (fst p)) (combine rows coeffs)).
Proof.
  revert coeffs. induction rows as [|r rows IH]; intros [|c cs] H; try discriminate;
    [split; reflexivity|].
  destruct (IH cs ltac:(simpl in H; lia)) as [E1 E2]. simpl.
  destruct (f r); simpl; rewrite E1, E2; split; reflexivity.
Qed.

Lemma concat_map_singleton {A B : Type} (f : A -> B) (l : list A) :
  concat (map (fun x => [f x]) l) = map f l.
Proof. induction l; simpl; congruence. Qed.

Lemma combine_fst_snd {A B : Type} (l : list (A * B)) :
  combine (map fst l) (map snd l) = l.
Proof. induction l as [|[a b] l IH]; simpl; congruence. Qed.

Lemma combine_app {A B : Type} (l1 l2 : list A) (c1 c2 : list B) :
  length c1 = length l1 -> combine (l1 ++ l2) (c1 ++ c2) = combine l1 c1 ++ combine l2 c2.
Proof.
  revert c1. induction l1 as [|x l1 IH]; intros [|y c1] H; try discriminate; [reflexivity|].
  simpl. f_equal. apply IH. simpl in H. lia.
Qed.

Lemma double_eqb (n : nat) : (2 * n =? n + n)%nat = true.
Proof. apply Nat.eqb_eq. lia. Qed.

(** [commutes_termwise] against a single term. *)
Lemma commutes_termwise_single (n : nat) (A : PauliwordOp) (q : list Z) (cq : C) :
  pauli_wf n A -> pauli_row n q ->
  commutes_termwise A (mkPauliwordOp [q] (2 * n) [cq])
  = Ok (map (fun t => [commutes_with n q t]) (symp_matrix A)).
Proof.
  intros (Hc & Hl & Hr) Hq. unfold commutes_termwise.
  destruct (n_qubits_even n A Hc) as [-> _].
  destruct (n_qubits_even n (mkPauliwordOp [q] (2 * n) [cq]) eq_refl) as [E1 E2].
  rewrite E1, Nat.eqb_refl. cbn [assert bind].
  unfold matmul_T, X_block, Z_block. rewrite E1, E2, Hc, double_eqb.
  cbn [symp_matrix map zip_with bind]. rewrite map_map. f_equal.
  apply map_ext_in. intros t Ht. cbn [map]. f_equal. unfold commutes_with.
  rewrite Forall_forall in Hr. destruct (Hr t Ht) as [Lt _]. destruct Hq as [Lq _].
  rewrite <- (firstn_skipn n t) at 1. rewrite dot_app.
  - unfold X_of, Z_of. reflexivity.
  - rewrite length_firstn, length_skipn. lia.
Qed.

Lemma pauli_rows_filter (n : nat) (f : list Z * C -> bool) (rows : matrix) (coeffs : list C) :
  Forall (pauli_row n) rows ->
  Forall (pauli_row n) (map fst (filter f (combine rows coeffs))).
Proof.
  intros H. apply Forall_forall. intros r Hin. apply in_map_iff in Hin.
  destruct Hin as ([t c] & <- & Hp). apply filter_In in Hp. destruct Hp as [Hp _].
  apply in_combine_l in Hp. rewrite Forall_forall in H. now apply H.
Qed.

Lemma pauli_rows_bits (n : nat) (rows : matrix) :
  Forall (pauli_row n) rows -> Forall bits rows.
Proof. intros H. eapply Forall_impl; [|exact H]. now intros r [_ B]. Qed.

Lemma pauli_rows_xor (n : nat) (q : list Z) (rows : matrix) :
  pauli_row n q -> Forall (pauli_row n) rows ->
  Forall (pauli_row n) (map (fun a => zip_with Z.lxor a q) rows).
Proof.
  intros Hq H. apply Forall_forall. intros r Hin. apply in_map_iff in Hin.
  destruct Hin as (a & <- & Ha). rewrite Forall_forall in H.
  apply pauli_row_xor; auto.
Qed.

(** [__add__] of two well-formed operators is [cleanup] of the stacked
    operator. *)
Lemma add_eval (n : nat) (P Q : PauliwordOp) :
  pauli_wf n P -> pauli_wf n Q ->
  add P Q = cleanup (mkPauliwordOp (symp_matrix P ++ symp_matrix Q) (2 * n)
                       (coeff_vec P ++ coeff_vec Q))
  /\ pauli_wf n (mkPauliwordOp (symp_matrix P ++ symp_matrix Q) (2 * n)
                   (coeff_vec P ++ coeff_vec Q)).
Proof.
  intros (Hc & Hl & Hr) (Hc' & Hl' & Hr'). split.
  - unfold add, vstack.
    destruct (n_qubits_even n P Hc) as [-> _]. destruct (n_qubits_even n Q Hc') as [-> _].
    rewrite Nat.eqb_refl, Hc, Hc', Nat.eqb_refl. cbn [assert bind].
    rewrite init_ok; [reflexivity| |].
    + rewrite !length_app. lia.
    + apply Forall_app. split; eapply pauli_rows_bits; eassumption.
  - repeat split; cbn [n_cols coeff_vec symp_matrix].
    + rewrite !length_app. lia.
    + apply Forall_app. now split.
Qed.

Lemma multiply_by_constant_eval (n : nat) (P : PauliwordOp) (k : C) :
  pauli_wf n P ->
  multiply_by_constant P k
  = Ok (mkPauliwordOp (symp_matrix P) (2 * n) (map (fun c => (c * k)%C) (coeff_vec P))).
Proof.
  intros (Hc & Hl & Hr). unfold multiply_by_constant. rewrite Hc.
  apply init_ok; [now rewrite length_map|eapply pauli_rows_bits; eassumption].
Qed.

(** The two halves [_rotate_by_single_Pword] splits an operator in,
    and the product of the anticommuting half with [Q]. *)
Lemma rotate_parts (n : nat) (A : PauliwordOp) (q : list Z) :
  pauli_wf n A -> pauli_row n q ->
  let L := combine (symp_matrix A) (coeff_vec A) in
  let Lc := filter (fun p => commutes_with n q (fst p)) L in
  let La := filter (fun p => negb (commutes_with n q (fst p))) L in
  pauli_wf n (mkPauliwordOp (map fst Lc) (2 * n) (map snd Lc))
  /\ pauli_wf n (mkPauliwordOp (map fst La) (2 * n) (map snd La))
  /\ mul (mkPauliwordOp (map fst La) (2 * n) (map snd La))
         (mkPauliwordOp [q] (2 * n) [C1])
     = Ok (mkPauliwordOp (map (fun a => zip_with Z.lxor a q) (map fst La)) (2 * n)
             (map (code_coeff n q C1) La))
  /\ pauli_wf n (mkPauliwordOp (map (fun a => zip_with Z.lxor a q) (map fst La)) (2 * n)
                   (map (code_coeff n q C1) La)).
Proof.
  intros (Hc & Hl & Hr) Hq L Lc La.
  assert (Wc : pauli_wf n (mkPauliwordOp (map fst Lc) (2 * n) (map snd Lc))).
  { repeat split; cbn; [now rewrite !length_map|now apply pauli_rows_filter]. }
  assert (Wa : pauli_wf n (mkPauliwordOp (map fst La) (2 * n) (map snd La))).
  { repeat split; cbn; [now rewrite !length_map|now apply pauli_rows_filter]. }
  split; [exact Wc|]. split; [exact Wa|]. split.
  - rewrite (mul_single n _ q C1 Wa Hq), (multiply_single_Pword_eval n _ q C1 Wa Hq).
    cbn [symp_matrix coeff_vec]. now rewrite combine_fst_snd.
  - repeat split; cbn; [now rewrite !length_map|].
    apply pauli_rows_xor; [exact Hq|now apply pauli_rows_filter].
Qed.

(** [_rotate_by_single_Pword] as a composition of [cleanup]s. *)
Lemma rotate_eval (n : nat) (A : PauliwordOp) (q : list Z) (angle : option R) :
  pauli_wf n A -> pauli_row n q ->
  let L := combine (symp_matrix A) (coeff_vec A) in
  let Lc := filter (fun p => commutes_with n q (fst p)) L in
  let La := filter (fun p => negb (commutes_with n q (fst p))) L in
  let xrows := map (fun a => zip_with Z.lxor a q) (map fst La) in
  _rotate_by_single_Pword A (mkPauliwordOp [q] (2 * n) [C1]) angle
  = match angle with
    | None =>
        cleanup (mkPauliwordOp (map fst Lc ++ xrows) (2 * n)
                   (map snd Lc
                    ++ map (fun c => (c * (- Ci))%C) (map (code_coeff n q C1) La)))
    | Some theta =>
        (part <- cleanup
                   (mkPauliwordOp (map fst La ++ xrows) (2 * n)
                      (map (fun c => (c * RtoC (cos theta))%C) (map snd La)
                       ++ map (fun c => (c * ((- Ci) * RtoC (sin theta)))%C)
                              (map (code_coeff n q C1) La))) ;;
         add (mkPauliwordOp (map fst Lc) (2 * n) (map snd Lc)) part)%result
    end.
Proof.
  intros HA Hq L Lc La xrows.
  destruct (rotate_parts n A q HA Hq) as (Wc & Wa & Em & Wx).
  fold L in Wc, Wa, Em, Wx. fold Lc in Wc. fold La in Wa, Em, Wx. fold xrows in Em, Wx.
  pose proof HA as (Hc & Hl & Hr).
  unfold _rotate_by_single_Pword.
  cbn [n_terms symp_matrix length Nat.eqb assert bind coeff_vec nth].
  rewrite C_eqb_refl. cbn [negb].
  rewrite (commutes_termwise_single n A q C1 HA Hq). cbn [bind].
  rewrite concat_map_singleton, map_map.
  destruct (select_rows_filter (commutes_with n q) _ _ Hl) as [-> ->].
  destruct (select_rows_filter (fun t => negb (commutes_with n q t)) _ _ Hl) as [-> ->].
  fold L. fold Lc. fold La. rewrite Hc.
  rewrite !init_ok; try (now rewrite !length_map);
    try (eapply pauli_rows_bits; apply pauli_rows_filter; exact Hr).
  cbn [bind]. rewrite Em. cbn [bind].
  assert (Wscale : forall (rows : matrix) (cs : list C) (k : C),
             pauli_wf n (mkPauliwordOp rows (2 * n) cs) ->
             pauli_wf n (mkPauliwordOp rows (2 * n) (map (fun c => (c * k)%C) cs))).
  { intros rows cs k (W1 & W2 & W3). repeat split; cbn in *; [now rewrite length_map|exact W3]. }
  destruct angle as [theta|].
  - rewrite (multiply_by_constant_eval n _ _ Wa), (multiply_by_constant_eval n _ _ Wx).
    cbn [bind symp_matrix coeff_vec].
    destruct (add_eval n _ _ (Wscale _ _ (RtoC (cos theta)) Wa)
                (Wscale _ _ ((- Ci) * RtoC (sin theta))%C Wx)) as [-> _].
    reflexivity.
  - rewrite (multiply_by_constant_eval n _ _ Wx). cbn [bind symp_matrix coeff_vec].
    destruct (add_eval n _ _ Wc (Wscale _ _ (- Ci)%C Wx)) as [-> _].
    reflexivity.
Qed.

Lemma flat_map_split1 {A : Type} (b : A -> bool) (g : A -> A) (L : list A) :
  Permutation (flat_map (fun p => if b p then [p] else [g p]) L)
              (filter b L ++ map g (filter (fun p => negb (b p)) L)).
Proof.
  induction L as [|x L IH]; simpl; [constructor|].
  destruct (b x); simpl.
  - now constructor.
  - apply Permutation_cons_app. exact IH.
Qed.

Lemma flat_map_split2 {A : Type} (b : A -> bool) (g1 g2 : A -> A) (L : list A) :
  Permutation (flat_map (fun p => if b p then [p] else [g1 p; g2 p]) L)
              (filter b L ++ (map g1 (filter (fun p => negb (b p)) L)
                              ++ map g2 (filter (fun p => negb (b p)) L))).
Proof.
  induction L as [|x L IH]; simpl; [constructor|].
  destruct (b x); simpl.
  - now constructor.
  - apply Permutation_cons_app. simpl.
    rewrite app_assoc. apply Permutation_cons_app. rewrite <- app_assoc. exact IH.
Qed.

Lemma combine_map_map {A B D : Type} (f : A -> B) (g : A -> D) (l : list A) :
  combine (map f l) (map g l) = map (fun p => (f p, g p)) l.
Proof. induction l; simpl; congruence. Qed.

Lemma cleaned_rows (n : nat) (rows : matrix) (coeffs : list C) (R : matrix) (Cs : list C) :
  Forall (pauli_row n) rows -> merged_spec rows coeffs R Cs ->
  pauli_wf n (mkPauliwordOp R (2 * n) Cs).
Proof.
  intros Hr (S1 & S2 & S3 & S4). repeat split; cbn; [exact S1|].
  apply Forall_forall. intros r Hin. apply S3 in Hin.
  rewrite Forall_forall in Hr. now apply Hr.
Qed.

(** Rotation of an operator of at most 32 qubits by a single term of
    coefficient 1. *)
Lemma rotate_spec (n : nat) (A : PauliwordOp) (q : list Z) (angle : option R) :
  (2 * n <= 64)%nat -> pauli_wf n A -> pauli_row n q ->
  let T := rotated_terms n q angle (combine (symp_matrix A) (coeff_vec A)) in
  exists R Cs,
    _rotate_by_single_Pword A (mkPauliwordOp [q] (2 * n) [C1]) angle
    = Ok (mkPauliwordOp R (2 * n) Cs)
    /\ merged_spec (map fst T) (map snd T) R Cs.
Proof.
  intros Hn HA Hq T.
  rewrite (rotate_eval n A q angle HA Hq).
  destruct (rotate_parts n A q HA Hq) as (Wc & Wa & _ & Wx).
  pose proof HA as (Hc & Hl & Hr).
  set (L := combine (symp_matrix A) (coeff_vec A)) in *.
  set (Lc := filter (fun p => commutes_with n q (fst p)) L) in *.
  set (La := filter (fun p => negb (commutes_with n q (fst p))) L) in *.
  assert (HLa : forall p, In p La -> pauli_row n (fst p)).
  { intros [t c] Hp. apply filter_In in Hp. destruct Hp as [Hp _].
    apply in_combine_l in Hp. rewrite Forall_forall in Hr. now apply Hr. }
  assert (Wscale : forall (rows : matrix) (cs : list C) (k : C),
             pauli_wf n (mkPauliwordOp rows (2 * n) cs) ->
             pauli_wf n (mkPauliwordOp rows (2 * n) (map (fun c => (c * k)%C) cs))).
  { intros rows cs k (W1 & W2 & W3). repeat split; cbn in *; [now rewrite length_map|exact W3]. }
  destruct angle as [theta|].
  - (* with an angle *)
    destruct (add_eval n _ _ (Wscale _ _ (RtoC (cos theta)) Wa)
                (Wscale _ _ ((- Ci) * RtoC (sin theta))%C Wx)) as [_ W1].
    cbn [symp_matrix coeff_vec] in W1.
    destruct (pauli_cleanup_spec n _ Hn W1) as (R1 & Cs1 & S1 & _ & E1 & _).
    cbn [symp_matrix coeff_vec] in S1.
    rewrite E1. cbn [bind].
    pose proof W1 as (_ & Hl1 & Hr1). cbn [symp_matrix coeff_vec] in Hl1, Hr1.
    pose proof (cleaned_rows n _ _ R1 Cs1 Hr1 S1) as Wp.
    destruct (add_eval n _ _ Wc Wp) as [-> W2]. cbn [symp_matrix coeff_vec] in W2 |- *.
    destruct (pauli_cleanup_spec n _ Hn W2) as (R & Cs & S2 & _ & E2 & _).
    cbn [symp_matrix coeff_vec] in S2.
    exists R, Cs. split; [exact E2|].
    pose proof W2 as (_ & Hl2 & _). cbn [symp_matrix coeff_vec] in Hl2.
    refine (merged_spec_same_operator _ _ _ _ R Cs Hl2 _ _ S2);
      [now rewrite !length_map|].
    rewrite combine_fst_snd.
    pose proof S1 as (S1l & _).
    rewrite combine_app by (now rewrite !length_map).
    rewrite combine_fst_snd.
    eapply same_operator_trans.
    + apply same_operator_app; [apply same_operator_refl|].
      apply (merged_same_operator _ _ R1 Cs1 Hl1 S1).
    + rewrite combine_app by (now rewrite !length_map).
      rewrite !map_map, !combine_map_map.
      apply same_operator_sym, same_operator_perm.
      unfold T, rotated_terms. fold L.
      eapply perm_trans; [apply flat_map_split2|].
      fold Lc. fold La. apply Permutation_app_head.
      apply Permutation_app.
      * erewrite map_ext; [apply Permutation_refl|].
        intros [t c]. cbn [fst snd]. f_equal. apply Cmul_comm.
      * erewrite map_ext_in; [apply Permutation_refl|].
        intros [t c] Hp. cbn [fst snd]. f_equal.
        rewrite (code_coeff_spec n t q c C1 (HLa _ Hp) Hq). apply Cmul_comm.
  - (* Clifford *)
    destruct (add_eval n _ _ Wc (Wscale _ _ (- Ci)%C Wx)) as [_ W1].
    cbn [symp_matrix coeff_vec] in W1.
    destruct (pauli_cleanup_spec n _ Hn W1) as (R & Cs & S1 & _ & E1 & _).
    cbn [symp_matrix coeff_vec] in S1.
    exists R, Cs. split; [exact E1|].
    pose proof W1 as (_ & Hl1 & _). cbn [symp_matrix coeff_vec] in Hl1.
    refine (merged_spec_same_operator _ _ _ _ R Cs Hl1 _ _ S1);
      [now rewrite !length_map|].
    rewrite combine_fst_snd.
    rewrite combine_app by (now rewrite !length_map).
    rewrite combine_fst_snd, !map_map, combine_map_map.
    apply same_operator_sym, same_operator_perm.
    unfold T, rotated_terms. fold L.
    eapply perm_trans; [apply flat_map_split1|].
    fold Lc. fold La. apply Permutation_app_head.
    erewrite map_ext_in; [apply Permutation_refl|].
    intros [t c] Hp. cbn [fst snd]. f_equal.
    rewrite (code_coeff_spec n t q c C1 (HLa _ Hp) Hq). apply Cmul_comm.
Qed.

End RotateFacts.

(** Rotation of an operator of at most 32 qubits.  For a well-formed
    operator [A] over [n <= 32] qubits, a single term [Q] of coefficient
    1 and any angle, [_rotate_by_single_Pword] returns the cleaned-up
    form of the terms of [A] rotated one by one: a row that commutes
    with [Q] is kept with its coefficient, an anticommuting row [t] with
    coefficient [c] contributes [cos(angle) c] on [t] and
    [-i sin(angle)] times the coefficient of [t Q] on [t XOR Q], and
    only [-i] times the coefficient of [t Q] on [t XOR Q] when no angle
    is given. *)
Theorem rotation_by_single_term_up_to_32_qubits
  (n : nat) (A : Pauli.PauliwordOp) (q : list Z) (angle : option R) :
  (2 * n <= 64)%nat -> Spec.pauli_wf n A -> Spec.pauli_row n q ->
  let T := Shape.rotated_terms n q angle
             (combine (Pauli.symp_matrix A) (Pauli.coeff_vec A)) in
  exists R Cs,
    Pauli._rotate_by_single_Pword A (Pauli.mkPauliwordOp [q] (2 * n) [C1]) angle
    = Ok (Pauli.mkPauliwordOp R (2 * n) Cs)
    /\ Shape.merged_spec (map fst T) (map snd T) R Cs.
Proof.
  intros Hn HA Hq. now apply RotateFacts.rotate_spec.
Qed.

Lemma rotation_by_single_term_up_to_32_qubits_witness :
  exists R Cs,
    Pauli._rotate_by_single_Pword
      (Pauli.mkPauliwordOp [[1; 0; 0; 0]; [0; 0; 0; 1]]%Z 4 [C1; Ci])
      (Pauli.mkPauliwordOp [[0; 0; 1; 0]%Z] (2 * 2) [C1]) None
    = Ok (Pauli.mkPauliwordOp R (2 * 2) Cs)
    /\ NoDup R.
Proof.
  destruct (rotation_by_single_term_up_to_32_qubits 2
              (Pauli.mkPauliwordOp [[1; 0; 0; 0]; [0; 0; 0; 1]]%Z 4 [C1; Ci])
              [0; 0; 1; 0]%Z None) as (R & Cs & E & S).
  - simpl. lia.
  - apply MultiplyFacts.pauli_wfb_spec. reflexivity.
  - apply MultiplyFacts.pauli_rowb_spec. reflexivity.
  - exists R, Cs. split; [exact E|]. exact (proj1 (proj2 S)).
Defined.

(** ** The end of the rotation search *)

Module TerminationFacts.

Import Spec Shape Pauli CommuteFacts BroadcastFacts MultiplyFacts CleanupFacts DimensionFacts SearchFacts RotateFacts.

(** [cleanup] of a well-formed operator, whatever its width. *)
Lemma pauli_cleanup_wf (n : nat) (P : PauliwordOp) :
  pauli_wf n P -> exists R, cleanup P = Ok R /\ pauli_wf n R.
Proof.
  intros (Hc & Hl & Hr). unfold cleanup. rewrite Hc.
  pose proof (merge_rows_subset (2 * n) (symp_matrix P) (coeff_vec P) Hl) as Hs.
  assert (Hlen : length (fst (merge_rows (2 * n) (symp_matrix P) (coeff_vec P)))
                 = length (snd (merge_rows (2 * n) (symp_matrix P) (coeff_vec P)))).
  { unfold merge_rows. cbn [fst snd]. unfold take.
    now rewrite length_map, reduceat_length. }
  destruct (merge_rows (2 * n) (symp_matrix P) (coeff_vec P)) as [R Cs].
  cbn [fst snd] in *.
  assert (HR : Forall (pauli_row n) R).
  { apply Forall_forall. intros r Hin. rewrite Forall_forall in Hr. auto. }
  eexists. split; [apply init_ok; [exact Hlen|eapply pauli_rows_bits; exact HR]|].
  repeat split; cbn; auto.
Qed.

Lemma add_wf (n : nat) (P Q : PauliwordOp) :
  pauli_wf n P -> pauli_wf n Q -> exists R, add P Q = Ok R /\ pauli_wf n R.
Proof.
  intros HP HQ. destruct (add_eval n P Q HP HQ) as [-> W]. now apply pauli_cleanup_wf.
Qed.

Lemma reduce_add_wf (n : nat) (l : list PauliwordOp) (b : PauliwordOp) :
  Forall (pauli_wf n) l -> reduce_add l = Ok b -> pauli_wf n b.
Proof.
  intros Hl. unfold reduce_add. destruct l as [|x t]; [discriminate|].
  inversion Hl as [|? ? Hx Ht]; subst. clear Hl. revert x Hx.
  induction Ht as [|y t Hy _ IH]; intros x Hx; simpl.
  - now intros [= <-].
  - destruct (add_wf n x y Hx Hy) as (R & -> & WR). apply (IH R WR).
Qed.

Lemma getitem_wf (n : nat) (P b : PauliwordOp) (i : nat) :
  pauli_wf n P -> getitem P i = Ok b -> pauli_wf n b.
Proof.
  intros (Hc & Hl & Hr). unfold getitem.
  destruct (Nat.ltb_spec i (n_terms P)) as [Hi|Hi]; [|discriminate].
  cbn [assert bind]. unfold init_vec.
  assert (Hrow : pauli_row n (nth i (symp_matrix P) [])).
  { rewrite Forall_forall in Hr. apply Hr. now apply nth_In. }
  destruct Hrow as [L B]. rewrite L.
  rewrite init_ok by (auto; repeat constructor; exact B).
  intros [= <-]. repeat split; cbn; auto. constructor; [now split|constructor].
Qed.

Lemma map_result_wf (n : nat) (P : PauliwordOp) (idx : list nat) :
  pauli_wf n P ->
  forall l, map_result (getitem P) idx = Ok l -> Forall (pauli_wf n) l.
Proof.
  intros HP. induction idx as [|i idx IH]; cbn [map_result]; intros l.
  - intros [= <-]. constructor.
  - destruct (getitem P i) as [b|e] eqn:E; [|discriminate]. cbn [bind].
    destruct (map_result (getitem P) idx) as [r|e]; [|discriminate]. cbn [bind].
    intros [= <-]. constructor; [eapply getitem_wf; eauto|now apply IH].
Qed.

Lemma set_at_spec (i : nat) (v : list Z) :
  forall v', set_at i 1%Z v = Ok v' -> bits v -> length v' = length v /\ bits v'.
Proof.
  revert i. induction v as [|x v IH]; intros i v'; [destruct i; discriminate|].
  destruct i as [|i]; simpl.
  - intros [= <-] B. inversion B; subst. split; [reflexivity|].
    constructor; auto.
  - destruct (set_at i 1 v) as [r|e] eqn:E; [|discriminate]. cbn [bind].
    intros [= <-] B. inversion B; subst.
    destruct (IH i r E) as [L B']; [assumption|]. split; [simpl; lia|].
    constructor; auto.
Qed.

Lemma argmin_from_bound (v : list Z) :
  forall bi b i, (bi < i)%nat -> (argmin_from bi b i v < i + length v)%nat.
Proof.
  induction v as [|x v IH]; intros bi b i H; simpl; [lia|].
  destruct (x <? b)%Z.
  - specialize (IH i x (S i)). lia.
  - specialize (IH bi b (S i)). lia.
Qed.

Lemma argmin_bound (v : list Z) (k : nat) : argmin v = Ok k -> (k < length v)%nat.
Proof.
  destruct v as [|x v]; [discriminate|]. simpl. intros [= <-].
  pose proof (argmin_from_bound v 0 x 1). lia.
Qed.

Lemma where_nonzero_bound (v : list Z) (i : nat) :
  In i (where_nonzero v) -> (i < length v)%nat.
Proof.
  unfold where_nonzero. intros H. apply in_map_iff in H.
  destruct H as ([x j] & <- & H). apply filter_In in H. destruct H as [H _].
  apply in_combine_r in H. apply in_seq in H. simpl. lia.
Qed.

Lemma free_positions_shrink (m : nat) (used extra : list nat) (p : nat) :
  (p < m)%nat -> ~ In p used -> In p extra ->
  (length (free_positions m (used ++ extra)) < length (free_positions m used))%nat.
Proof.
  intros Hp Hu He. unfold free_positions.
  assert (Hin : In p (seq 0 m)) by (apply in_seq; lia).
  induction (seq 0 m) as [|i s IH]; [destruct Hin|].
  assert (Hle : forall s',
             (length (filter (fun i => negb (existsb (Nat.eqb i) (used ++ extra))) s')
              <= length (filter (fun i => negb (existsb (Nat.eqb i) used)) s'))%nat).
  { intros s'. induction s' as [|j s' IHs]; simpl; [lia|].
    rewrite existsb_app. destruct (existsb (Nat.eqb j) used); simpl; [exact IHs|].
    destruct (existsb (Nat.eqb j) extra); simpl; lia. }
  simpl. destruct Hin as [->|Hin].
  - rewrite existsb_app.
    assert (existsb (Nat.eqb p) used = false) as ->.
    { apply not_true_is_false. intros H. apply existsb_exists in H.
      destruct H as (x & Hx & E). apply Nat.eqb_eq in E. now subst. }
    assert (existsb (Nat.eqb p) extra = true) as ->.
    { apply existsb_exists. exists p. split; [exact He|apply Nat.eqb_refl]. }
    simpl. specialize (Hle s). lia.
  - specialize (IH Hin). rewrite existsb_app.
    destruct (existsb (Nat.eqb i) used); simpl; [exact IH|].
    destruct (existsb (Nat.eqb i) extra); simpl; lia.
Qed.

Lemma take_argsort_in (keys : list Z) (rows : matrix) (r : list Z) :
  length rows = length keys -> In r (take [] rows (argsort keys)) -> In r rows.
Proof.
  intros Hl Hin. rewrite (take_argsort [] keys rows Hl) in Hin.
  apply in_map_iff in Hin. destruct Hin as ([k r'] & <- & H).
  apply (Permutation_in _ (Permutation_sym (sort_by_key_perm _))) in H.
  eapply in_combine_r. exact H.
Qed.

(** A call of the search that goes on to a recursive call has marked a
    position that was free, and hands on a well-formed basis. *)
Lemma step_progress (n : nat) (b b' : PauliwordOp) (st st' : search_state) :
  pauli_wf n b ->
  rotate_onto_sqp_step n b st = Ok (Some b', st') ->
  pauli_wf n b'
  /\ (length (free_positions (2 * n) (used_indices st'))
      < length (free_positions (2 * n) (used_indices st)))%nat.
Proof.
  intros Hb. pose proof Hb as (Hc & Hl & Hr). unfold rotate_onto_sqp_step.
  destruct (take [] (symp_matrix b) (argsort (sum_axis1 (symp_matrix b))))
    as [|pivot_row rest] eqn:Et; [discriminate|].
  assert (Hpr : pauli_row n pivot_row).
  { rewrite Forall_forall in Hr. apply Hr.
    apply (take_argsort_in (sum_axis1 (symp_matrix b))).
    - unfold sum_axis1. now rewrite length_map.
    - rewrite Et. now left. }
  set (non_I := setdiff1d (where_nonzero pivot_row) (used_indices st)).
  destruct (argmin _) as [k|e] eqn:Ek; [|discriminate]. cbn [bind].
  apply argmin_bound in Ek. unfold take in Ek. rewrite length_map in Ek.
  assert (Hpp : In (nth k non_I 0%nat) non_I) by (now apply nth_In).
  set (pivot_point := nth k non_I 0%nat) in *.
  unfold non_I, setdiff1d in Hpp. apply filter_In in Hpp. destruct Hpp as [Hw Hu].
  apply where_nonzero_bound in Hw. destruct Hpr as [Lp Bp]. rewrite Lp in Hw.
  assert (Hnu : ~ In pivot_point (used_indices st)).
  { intros H. apply negb_true_iff in Hu.
    assert (existsb (Nat.eqb pivot_point) (used_indices st) = true); [|congruence].
    apply existsb_exists. exists pivot_point. split; [exact H|apply Nat.eqb_refl]. }
  unfold update_sets, np_mod. destruct n as [|n']; [lia|]. set (n := S n') in *.
  destruct (set_at (pivot_point mod n) 1 pivot_row) as [v1|e] eqn:E1; [|discriminate].
  cbn [bind].
  destruct (set_at (pivot_point mod n + n) 1 v1) as [v2|e] eqn:E2; [|discriminate].
  cbn [bind].
  destruct (set_at_spec _ _ _ E1 Bp) as [L1 B1].
  destruct (set_at_spec _ _ _ E2 B1) as [L2 B2].
  unfold init_vec. rewrite init_ok by (auto; repeat constructor; exact B2).
  cbn [bind fst snd]. rewrite L2, L1, Lp.
  assert (Hq : pauli_row n v2) by (split; [lia|exact B2]).
  rewrite (rotate_eval n b v2 None Hb Hq).
  match goal with
  | |- context [cleanup ?P] =>
      assert (WP : pauli_wf n P)
  end.
  { repeat split; cbn [n_cols coeff_vec symp_matrix].
    - rewrite !length_app, !length_map. reflexivity.
    - apply Forall_app. split; [now apply pauli_rows_filter|].
      apply pauli_rows_xor; [exact Hq|now apply pauli_rows_filter]. }
  destruct (pauli_cleanup_wf n _ WP) as (rotated & -> & Wr). cbn [bind].
  destruct (map_result (getitem rotated) _) as [l|e] eqn:El; cbn [bind].
  - destruct (reduce_add l) as [nb|e] eqn:Er; intros [= <- <-].
    split.
    + eapply reduce_add_wf; [|exact Er]. eapply map_result_wf; eauto.
    + cbn [used_indices].
      apply (free_positions_shrink (2 * n) _ _ pivot_point); [lia|exact Hnu|].
      assert (pivot_point mod n < n)%nat by (apply Nat.mod_upper_bound; lia).
      destruct (Nat.lt_ge_cases pivot_point n) as [Hlt|Hge].
      * assert (Hm : (pivot_point mod n = pivot_point)%nat) by (apply Nat.mod_small; lia).
        left. exact Hm.
      * assert (Hm : (pivot_point mod n + n = pivot_point)%nat).
        { replace pivot_point with ((pivot_point - n) + 1 * n)%nat at 1 by lia.
          rewrite Nat.Div0.mod_add, Nat.mod_small by lia. lia. }
        right. left. exact Hm.
  - discriminate.
Qed.

(** The search of [stabilizer_rotations] ends: on a well-formed basis
    over [n] qubits it has returned or raised after at most [2n + 1]
    nested calls. *)
Lemma search_ends (n : nat) :
  forall depth b st,
    pauli_wf n b ->
    (length (free_positions (2 * n) (used_indices st)) < depth)%nat ->
    exists r, _recursive_rotate_onto_sqp n depth (Some b) st = Some r.
Proof.
  induction depth as [|depth IH]; intros b st Hb Hd; [lia|].
  cbn [_recursive_rotate_onto_sqp].
  destruct (rotate_onto_sqp_step n b st) as [[[b'|] st']|e] eqn:E.
  - destruct (step_progress n b b' st st' Hb E) as [Hb' Hf].
    apply IH; [exact Hb'|lia].
  - destruct depth; eexists; reflexivity.
  - eexists; reflexivity.
Qed.

End TerminationFacts.

(** The search of [stabilizer_rotations] ends.  Started on a
    well-formed basis over [n] qubits with nothing marked used,
    [_recursive_rotate_onto_sqp] has returned or raised after at most
    [2n + 1] nested calls: every call that goes on to a recursive call
    marks a position of the [2n] columns that was not marked before. *)
Theorem stabilizer_search_ends (n : nat) (basis : Pauli.PauliwordOp) :
  Spec.pauli_wf n basis ->
  exists r,
    Pauli._recursive_rotate_onto_sqp n (S (2 * n)) (Some basis) (Pauli.mkState [] [])
    = Some r.
Proof.
  intros Hb. apply TerminationFacts.search_ends; [exact Hb|].
  cbn [Pauli.used_indices]. unfold Shape.free_positions.
  pose proof (filter_length_le
                (fun i => negb (existsb (Nat.eqb i) [])) (seq 0 (2 * n))) as H.
  rewrite length_seq in H. lia.
Qed.

Lemma stabilizer_search_ends_witness :
  exists r,
    Pauli._recursive_rotate_onto_sqp 2 (S (2 * 2))
      (Some (Pauli.mkPauliwordOp [[0; 0; 1; 1]; [1; 1; 0; 0]]%Z 4 [C1; C1]))
      (Pauli.mkState [] [])
    = Some r.
Proof.
  apply (stabilizer_search_ends 2
           (Pauli.mkPauliwordOp [[0; 0; 1; 1]; [1; 1; 0; 0]]%Z 4 [C1; C1])).
  apply MultiplyFacts.pauli_wfb_spec. reflexivity.
Defined.

(** ** Subscripts of a [PauliwordOp] *)

Module SubscriptFacts.

Import Pauli PauliOps Spec Subscripts BroadcastFacts MultiplyFacts.

Lemma np_index_eval {A : Type} (d : A) (arr : list A) (k : Z) :
  let n := Z.of_nat (length arr) in
  np_index d arr k
  = if ((- n <=? k) && (k <? n))%Z then Ok (nth (Z.to_nat (k mod n)) arr d)
    else Raise IndexError.
Proof.
  intros n. unfold np_index. fold n.
  destruct (Z.leb_spec 0 k), (Z.ltb_spec k n), (Z.leb_spec (- n) k), (Z.ltb_spec k 0);
    cbn [andb]; try lia; try reflexivity.
  - now rewrite Z.mod_small by lia.
  - replace (k mod n)%Z with (k + n)%Z; [reflexivity|].
    symmetry. rewrite <- (Z.mod_add k 1 n) by lia. rewrite Z.mul_1_l.
    apply Z.mod_small. lia.
Qed.

Lemma nth_bits (n : nat) (rows : matrix) (i : nat) :
  Forall (pauli_row n) rows -> (i < length rows)%nat -> pauli_row n (nth i rows []).
Proof.
  intros F Hi. rewrite Forall_forall in F. apply F, nth_In, Hi.
Qed.

Lemma getitem_integer_eval (nq : nat) (A : PauliwordOp) (k : Z) :
  pauli_wf nq A ->
  let n := Z.of_nat (n_terms A) in
  __getitem__ A (Int k)
  = if (k <? - (2 * n))%Z then Raise IndexError
    else if (k <? n)%Z then Ok (term_at A (Z.to_nat (k mod n)))
         else Raise (AssertionError 7).
Proof.
  intros (Hc & Hl & Hr) n. unfold __getitem__, n_terms in *. fold n.
  set (key := if (k <? 0)%Z then (k + n)%Z else k).
  assert (Hn : (0 <= n)%Z) by (unfold n; lia).
  destruct (Z.ltb_spec k (- (2 * n))) as [H1|H1].
  - (* below -2n *)
    assert ((key <? n)%Z = true) as -> by (apply Z.ltb_lt; unfold key;
      destruct (Z.ltb_spec k 0); lia).
    cbn [assert bind]. rewrite np_index_eval. fold n.
    assert (((- n <=? key) && (key <? n))%Z = false) as ->.
    { apply andb_false_iff. left. apply Z.leb_gt. unfold key.
      destruct (Z.ltb_spec k 0); lia. }
    reflexivity.
  - destruct (Z.ltb_spec k n) as [H2|H2].
    + assert ((key <? n)%Z = true) as -> by (apply Z.ltb_lt; unfold key;
        destruct (Z.ltb_spec k 0); lia).
      cbn [assert bind]. rewrite !np_index_eval. rewrite Hl. fold n.
      assert (((- n <=? key) && (key <? n))%Z = true) as ->.
      { apply andb_true_iff. split; [apply Z.leb_le|apply Z.ltb_lt]; unfold key;
          destruct (Z.ltb_spec k 0); lia. }
      cbn [bind].
      assert (Hm : (key mod n = k mod n)%Z).
      { unfold key. destruct (Z.ltb_spec k 0); [|reflexivity].
        rewrite <- (Z.mod_add k 1 n) by lia. now rewrite Z.mul_1_l. }
      rewrite Hm.
      assert (Hi : (Z.to_nat (k mod n) < length (symp_matrix A))%nat).
      { pose proof (Z.mod_pos_bound k n ltac:(lia)). unfold n in *. lia. }
      pose proof (nth_bits nq _ _ Hr Hi) as [Lr Br].
      unfold init_vec. rewrite init_ok by (auto; repeat constructor; exact Br).
      unfold term_at. rewrite Lr, Hc. reflexivity.
    + assert ((key <? n)%Z = false) as -> by (apply Z.ltb_ge; unfold key;
        destruct (Z.ltb_spec k 0); lia).
      reflexivity.
Qed.


Lemma map_result_ok {A B : Type} (f : A -> result B) (g : A -> B) (l : list A) :
  (forall x, In x l -> f x = Ok (g x)) -> map_result f l = Ok (map g l).
Proof.
  induction l as [|x l IH]; intros H; [reflexivity|].
  cbn [map_result map]. rewrite (H x) by now left. cbn [bind].
  rewrite IH by (intros y Hy; apply H; now right). reflexivity.
Qed.

Lemma map_result_raise {A B : Type} (f : A -> result B) (e : error) (l : list A) :
  (forall x, In x l -> (exists y, f x = Ok y) \/ f x = Raise e) ->
  (exists x, In x l /\ f x = Raise e) ->
  map_result f l = Raise e.
Proof.
  induction l as [|x l IH]; intros H (x0 & Hin & Hx0); [destruct Hin|].
  cbn [map_result]. destruct (H x (or_introl eq_refl)) as [[y Hy]|Hr].
  - rewrite Hy. cbn [bind]. rewrite IH; [reflexivity| |].
    + intros z Hz. apply H. now right.
    + destruct Hin as [->|Hin]; [congruence|]. now exists x0.
  - now rewrite Hr.
Qed.

Lemma arange_step_1 (s e : Z) : arange s e 1 = Ok (zrange s e).
Proof.
  unfold arange, zrange. cbn [Z.eqb Z.ltb Z.compare].
  rewrite Z.div_1_r. replace (e - s + 1 - 1)%Z with (e - s)%Z by lia.
  f_equal. apply map_ext. intros i. now rewrite Z.mul_1_r.
Qed.

Lemma in_zrange (s e i : Z) : In i (zrange s e) <-> (s <= i < e)%Z.
Proof.
  unfold zrange. rewrite in_map_iff. split.
  - intros (k & <- & Hk). apply in_seq in Hk. lia.
  - intros H. exists (Z.to_nat (i - s)). split; [lia|]. apply in_seq. lia.
Qed.

Lemma getitem_slice_eval (nq : nat) (A : PauliwordOp) (start stop : option Z) :
  pauli_wf nq A ->
  let n := Z.of_nat (n_terms A) in
  let s := match start with None => 0%Z | Some s => s end in
  let e := match stop with None => n | Some e => e end in
  __getitem__ A (Slice start stop None)
  = if ((s <? e) && negb ((- n <=? s) && (e <=? n)))%Z then Raise IndexError
    else Ok (rows_at A (zrange s e)).
Proof.
  intros (Hc & Hl & Hr) n s e. unfold __getitem__. fold n s e.
  rewrite arange_step_1. cbn [bind].
  assert (Hn : n = Z.of_nat (length (symp_matrix A))) by reflexivity.
  assert (Hn' : n = Z.of_nat (length (coeff_vec A))) by (rewrite Hl; reflexivity).
  destruct ((s <? e) && negb ((- n <=? s) && (e <=? n)))%Z eqn:E.
  - apply andb_true_iff in E. destruct E as [E1 E2]. apply Z.ltb_lt in E1.
    apply negb_true_iff, andb_false_iff in E2.
    rewrite (map_result_raise _ IndexError); [reflexivity| |].
    + intros i _. rewrite np_index_eval. rewrite <- Hn.
      destruct ((- n <=? i) && (i <? n))%Z; eauto.
    + destruct E2 as [E2|E2]; [apply Z.leb_gt in E2|apply Z.leb_gt in E2].
      * exists s. split; [apply in_zrange; lia|].
        rewrite np_index_eval, <- Hn.
        assert (((- n <=? s) && (s <? n))%Z = false) as ->; [|reflexivity].
        apply andb_false_iff. left. apply Z.leb_gt. lia.
      * exists (e - 1)%Z. split; [apply in_zrange; lia|].
        rewrite np_index_eval, <- Hn.
        assert (((- n <=? e - 1) && (e - 1 <? n))%Z = false) as ->; [|reflexivity].
        apply andb_false_iff. right. apply Z.ltb_ge. lia.
  - assert (R : forall i, In i (zrange s e) -> (- n <= i < n)%Z).
    { intros i Hi. apply in_zrange in Hi.
      apply andb_false_iff in E. destruct E as [E|E].
      - apply Z.ltb_ge in E. lia.
      - apply negb_false_iff, andb_true_iff in E. destruct E as [E1 E2].
        apply Z.leb_le in E1. apply Z.leb_le in E2. lia. }
    rewrite (map_result_ok _ (fun i => nth (Z.to_nat (i mod n)) (symp_matrix A) [])).
    2:{ intros i Hi. rewrite np_index_eval, <- Hn.
        assert (((- n <=? i) && (i <? n))%Z = true) as ->; [|reflexivity].
        specialize (R i Hi). apply andb_true_iff. split; [apply Z.leb_le|apply Z.ltb_lt]; lia. }
    cbn [bind].
    rewrite (map_result_ok _ (fun i => nth (Z.to_nat (i mod n)) (coeff_vec A) C0)).
    2:{ intros i Hi. rewrite np_index_eval, <- Hn'.
        assert (((- n <=? i) && (i <? n))%Z = true) as ->; [|reflexivity].
        specialize (R i Hi). apply andb_true_iff. split; [apply Z.leb_le|apply Z.ltb_lt]; lia. }
    cbn [bind]. rewrite init_ok.
    + reflexivity.
    + now rewrite !length_map.
    + apply Forall_forall. intros r Hr'. apply in_map_iff in Hr'.
      destruct Hr' as (i & <- & Hi). specialize (R i Hi).
      assert (Hlt : (Z.to_nat (i mod n) < length (symp_matrix A))%nat).
      { pose proof (Z.mod_pos_bound i n ltac:(lia)). lia. }
      apply (nth_bits nq _ _ Hr Hlt).
Qed.

End SubscriptFacts.

(** Integer subscripts.  On an operator of [n] terms, [self[k]] is
    the one-term operator of row [k mod n] for every [-2n <= k < n]: an
    index in [[-2n, -n)] is brought into range twice, once by
    [__getitem__] and once more by numpy.  [k >= n] fails the assertion and
    [k < -2n] is an [IndexError]. *)
Theorem getitem_integer_subscript (nq : nat) (A : Pauli.PauliwordOp) (k : Z) :
  Spec.pauli_wf nq A ->
  let n := Z.of_nat (Pauli.n_terms A) in
  PauliOps.__getitem__ A (PauliOps.Int k)
  = if (k <? - (2 * n))%Z then Raise PauliOps.IndexError
    else if (k <? n)%Z then Ok (Subscripts.term_at A (Z.to_nat (k mod n)))
         else Raise (AssertionError 7).
Proof.
  intros HA. exact (SubscriptFacts.getitem_integer_eval nq A k HA).
Qed.

Lemma getitem_integer_subscript_witness :
  PauliOps.__getitem__
    (Pauli.mkPauliwordOp [[1; 0; 0; 0]; [0; 0; 0; 1]; [1; 1; 1; 1]]%Z 4 [C1; Ci; C1])
    (PauliOps.Int (-5))
  = Ok (Pauli.mkPauliwordOp [[0; 0; 0; 1]%Z] 4 [Ci]).
Proof.
  apply (getitem_integer_subscript 2
           (Pauli.mkPauliwordOp [[1; 0; 0; 0]; [0; 0; 0; 1]; [1; 1; 1; 1]]%Z 4 [C1; Ci; C1])
           (-5)%Z).
  apply MultiplyFacts.pauli_wfb_spec. reflexivity.
Defined.

(** Slice subscripts without a step.  With [s] the start (0 when left
    out) and [e] the stop ([n], the number of terms, when left out),
    [self[s:e]] holds the rows at the positions [s, s+1, ..., e-1], each
    counted modulo [n], when [-n <= s] and [e <= n], or when [s >= e]
    (no row at all); any other slice is an [IndexError].  A negative start
    is not brought into range first, so [self[-1:]] holds the last row
    followed by all the rows. *)
Theorem getitem_slice_subscript (nq : nat) (A : Pauli.PauliwordOp)
  (start stop : option Z) :
  Spec.pauli_wf nq A ->
  let n := Z.of_nat (Pauli.n_terms A) in
  let s := match start with None => 0%Z | Some s => s end in
  let e := match stop with None => n | Some e => e end in
  PauliOps.__getitem__ A (PauliOps.Slice start stop None)
  = if ((s <? e) && negb ((- n <=? s) && (e <=? n)))%Z then Raise PauliOps.IndexError
    else Ok (Subscripts.rows_at A (Subscripts.zrange s e)).
Proof.
  intros HA. exact (SubscriptFacts.getitem_slice_eval nq A start stop HA).
Qed.

Lemma getitem_slice_subscript_witness :
  PauliOps.__getitem__
    (Pauli.mkPauliwordOp [[1; 0; 0; 0]; [0; 0; 0; 1]]%Z 4 [C1; Ci])
    (PauliOps.Slice (Some (-1)%Z) None None)
  = Ok (Pauli.mkPauliwordOp [[0; 0; 0; 1]; [1; 0; 0; 0]; [0; 0; 0; 1]]%Z 4 [Ci; C1; Ci]).
Proof.
  apply (getitem_slice_subscript 2
           (Pauli.mkPauliwordOp [[1; 0; 0; 0]; [0; 0; 0; 1]]%Z 4 [C1; Ci])
           (Some (-1)%Z) None).
  apply MultiplyFacts.pauli_wfb_spec. reflexivity.
Defined.

(** ** Strings of Pauli letters *)

Module StringFacts.

Import Pauli Spec Letters BroadcastFacts MultiplyFacts CommuteFacts.

Lemma valid_letter_cases (c : ascii) :
  valid_letter c = true -> c = "I"%char \/ c = "X"%char \/ c = "Y"%char \/ c = "Z"%char.
Proof.
  unfold valid_letter. rewrite !orb_true_iff, !Ascii.eqb_eq. tauto.
Qed.

Lemma letter_bits (c : ascii) : valid_letter c = true -> letter (xbit c) (zbit c) = c.
Proof.
  intros H. destruct (valid_letter_cases c H) as [ -> | [ -> | [ -> | -> ] ] ]; reflexivity.
Qed.

Lemma bits_of_letter (c : ascii) :
  valid_letter c = true -> (xbit c = 0 \/ xbit c = 1)%Z /\ (zbit c = 0 \/ zbit c = 1)%Z.
Proof.
  intros H. destruct (valid_letter_cases c H) as [ -> | [ -> | [ -> | -> ] ] ]; cbv; auto.
Qed.

Lemma letter_valid (x z : Z) :
  (x = 0 \/ x = 1)%Z -> (z = 0 \/ z = 1)%Z ->
  valid_letter (letter x z) = true /\ xbit (letter x z) = x /\ zbit (letter x z) = z.
Proof.
  intros [ -> | -> ] [ -> | -> ]; cbv; auto.
Qed.

Lemma string_to_symplectic_eval (s : list ascii) (n : nat) :
  string_to_symplectic s n
  = if (length s =? n)%nat
    then if forallb valid_letter s then Ok (map xbit s ++ map zbit s)
         else Raise (AssertionError 4)
    else Raise (AssertionError 3).
Proof.
  unfold string_to_symplectic.
  destruct (length s =? n)%nat; [|reflexivity]. cbn [assert bind].
  change (forallb _ s) with (forallb valid_letter s).
  destruct (forallb valid_letter s); [|reflexivity]. cbn [assert bind].
  rewrite !zip_with_map_map. reflexivity.
Qed.

Lemma symplectic_to_string_eval (xs zs : list Z) :
  length xs = length zs ->
  symplectic_to_string (xs ++ zs) = zip_with letter xs zs.
Proof.
  intros L. unfold symplectic_to_string.
  rewrite length_app, <- L.
  replace ((length xs + length xs) / 2)%nat with (length xs)
    by (replace (length xs + length xs)%nat with (length xs * 2)%nat by lia;
        now rewrite Nat.div_mul).
  rewrite CleanupFacts.firstn_length_app, CleanupFacts.skipn_length_app.
  revert zs L. induction xs as [|x xs IH]; intros [|z zs] L; try discriminate.
  { reflexivity. }
  injection L as L. cbn [zip_with combine]. rewrite IH by exact L.
  reflexivity.
Qed.

Lemma zip_letter_map (s : list ascii) :
  forallb valid_letter s = true -> zip_with letter (map xbit s) (map zbit s) = s.
Proof.
  induction s as [|c s IH]; intros H; [reflexivity|].
  cbn [forallb] in H. apply andb_true_iff in H. destruct H as [Hc Hs].
  cbn [map zip_with]. rewrite letter_bits by exact Hc. now rewrite IH.
Qed.

Lemma map_bits_letters (xs : list Z) :
  forall zs, length xs = length zs -> bits xs -> bits zs ->
  forallb valid_letter (zip_with letter xs zs) = true
  /\ map xbit (zip_with letter xs zs) = xs
  /\ map zbit (zip_with letter xs zs) = zs.
Proof.
  induction xs as [|x xs IH]; intros [|z zs] L Bx Bz; try discriminate.
  { auto. }
  injection L as L. inversion Bx; inversion Bz; subst.
  destruct (IH zs L) as (V & X & Z'); auto.
  destruct (letter_valid x z) as (V1 & X1 & Z1); auto.
  cbn [zip_with forallb map]. rewrite V1, V, X1, X, Z1, Z'. auto.
Qed.

(** The vector of a valid string is a row of bits that reads back as
    the string. *)
Lemma string_round_trip (s : list ascii) (n : nat) (v : list Z) :
  string_to_symplectic s n = Ok v -> pauli_row n v /\ symplectic_to_string v = s.
Proof.
  rewrite string_to_symplectic_eval.
  destruct (Nat.eqb_spec (length s) n) as [L|]; [|discriminate].
  destruct (forallb valid_letter s) eqn:V; [|discriminate].
  intros E. injection E as <-. split.
  - split.
    + rewrite length_app, !length_map. lia.
    + unfold bits. apply Forall_app.
      rewrite forallb_forall in V.
      split; apply Forall_forall; intros b Hb; apply in_map_iff in Hb;
        destruct Hb as (c & <- & Hc); apply (bits_of_letter c (V c Hc)).
  - rewrite symplectic_to_string_eval by now rewrite !length_map.
    now apply zip_letter_map.
Qed.

(** The string of a row of bits is valid and converts back to the
    row. *)
Lemma row_round_trip (n : nat) (v : list Z) :
  pauli_row n v ->
  length (symplectic_to_string v) = n
  /\ string_to_symplectic (symplectic_to_string v) n = Ok v.
Proof.
  intros [L B].
  assert (Hv : v = firstn n v ++ skipn n v) by now rewrite firstn_skipn.
  assert (Lx : length (firstn n v) = n) by (rewrite length_firstn; lia).
  assert (Lz : length (skipn n v) = n) by (rewrite length_skipn; lia).
  rewrite Hv at 1 2.
  rewrite symplectic_to_string_eval by lia.
  destruct (map_bits_letters (firstn n v) (skipn n v)) as (V & X & Z');
    [lia|now apply bits_firstn|now apply bits_skipn|].
  assert (Ls : length (zip_with letter (firstn n v) (skipn n v)) = n).
  { rewrite <- (length_map xbit), X. exact Lx. }
  split; [exact Ls|].
  rewrite string_to_symplectic_eval, Ls, Nat.eqb_refl, V, X, Z'.
  now rewrite <- Hv.
Qed.

Lemma string_accepted (s : list ascii) (n : nat) :
  (exists v, string_to_symplectic s n = Ok v)
  <-> length s = n
      /\ Forall (fun c => In c ["I"; "X"; "Y"; "Z"]%char) s.
Proof.
  rewrite string_to_symplectic_eval. split.
  - intros [v E]. destruct (Nat.eqb_spec (length s) n) as [L|]; [|discriminate].
    destruct (forallb valid_letter s) eqn:V; [|discriminate].
    split; [exact L|]. rewrite forallb_forall in V. apply Forall_forall.
    intros c Hc. destruct (valid_letter_cases c (V c Hc)) as [ -> | [ -> | [ -> | -> ] ] ];
      cbn; auto.
  - intros [L F]. rewrite L, Nat.eqb_refl.
    assert (forallb valid_letter s = true) as ->; [|eauto].
    apply forallb_forall. intros c Hc. rewrite Forall_forall in F.
    destruct (F c Hc) as [<-|[<-|[<-|[<-|[]]]]]; reflexivity.
Qed.

End StringFacts.

(** Strings and vectors.  [string_to_symplectic] accepts exactly the
    strings of [n] letters among I, X, Y, Z; the vector it returns has
    [2n] entries 0 or 1 and [symplectic_to_string] reads it back as the
    string; and the string of any vector of [2n] bits converts back to
    that vector. *)
Theorem pauli_string_round_trip (n : nat) :
  (forall s, (exists v, Pauli.string_to_symplectic s n = Ok v)
             <-> length s = n /\ Forall (fun c => In c ["I"; "X"; "Y"; "Z"]%char) s)
  /\ (forall s v, Pauli.string_to_symplectic s n = Ok v ->
                  Spec.pauli_row n v /\ Pauli.symplectic_to_string v = s)
  /\ (forall v, Spec.pauli_row n v ->
                Pauli.string_to_symplectic (Pauli.symplectic_to_string v) n = Ok v).
Proof.
  split; [intros s; apply StringFacts.string_accepted|].
  split; [intros s v; apply StringFacts.string_round_trip|].
  intros v Hv. apply (StringFacts.row_round_trip n v Hv).
Qed.

Lemma pauli_string_round_trip_witness :
  Pauli.string_to_symplectic
    (Pauli.symplectic_to_string [1; 0; 1; 0; 0; 1; 1; 0]%Z) 4
  = Ok [1; 0; 1; 0; 0; 1; 1; 0]%Z.
Proof.
  apply (proj2 (proj2 (pauli_string_round_trip 4))).
  apply MultiplyFacts.pauli_rowb_spec. reflexivity.
Defined.

(** ** [cleanup] applied to its own output *)

Module CleanupOnceFacts.

Import Spec Shape CplxFacts CleanupFacts.

Lemma keys_of_rows (ncols : nat) (rows : matrix) :
  matvec64 rows (pow2_weights ncols) = map (row_key ncols) rows.
Proof. reflexivity. Qed.

Lemma combine_keys_in (k : list Z -> Z) (rows : matrix) :
  forall (coeffs : list C) (t : Z * (list Z * C)),
    In t (combine (map k rows) (combine rows coeffs)) -> fst t = k (fst (snd t)).
Proof.
  induction rows as [|r rows IH]; intros [|c cs] t H; simpl in H; try contradiction.
  destruct H as [<-|H]; [reflexivity|]. now apply (IH cs).
Qed.

Lemma head_keys (k : list Z -> Z) (G : list (list (Z * (list Z * C)))) :
  Forall (fun g => g <> []) G ->
  (forall g t, In g G -> In t g -> fst t = k (fst (snd t))) ->
  map k (map (fun g => hd [] (map (fun t => fst (snd t)) g)) G) = map run_key G.
Proof.
  intros N H. rewrite map_map. apply map_ext_in. intros g Hg.
  rewrite Forall_forall in N. specialize (N g Hg).
  destruct g as [|t g]; [congruence|]. simpl. symmetry. apply (H _ _ Hg). now left.
Qed.

(** The rows [cleanup] keeps come with strictly increasing keys. *)
Lemma merge_rows_keys (ncols : nat) (rows : matrix) (coeffs : list C) :
  length coeffs = length rows ->
  Sorted Z.lt (map (row_key ncols) (fst (merge_rows ncols rows coeffs))).
Proof.
  intros Hl. rewrite (merge_rows_merged ncols rows coeffs Hl), keys_of_rows.
  set (L := combine _ _). unfold merged. cbn [fst].
  rewrite head_keys.
  - apply groups_keys_increasing, sort_by_key_sorted.
  - apply groups_nonempty.
  - intros g t Hg Ht.
    assert (In t (sort_by_key L)) as Hin
      by (rewrite <- (concat_groups (sort_by_key L)); apply in_concat; eauto).
    apply (Permutation_in _ (Permutation_sym (sort_by_key_perm L))) in Hin.
    now apply (combine_keys_in _ rows coeffs).
Qed.

Lemma sorted_lt_nodup (l : list Z) : Sorted Z.lt l -> NoDup l.
Proof.
  intros H. apply Sorted_StronglySorted in H; [|intros a b c; apply Z.lt_trans].
  induction H as [|k ks Hs IH Hk]; constructor; [|exact IH].
  intros Hin. rewrite Forall_forall in Hk. specialize (Hk k Hin). lia.
Qed.

Lemma nodup_map_inv {A B : Type} (f : A -> B) (l : list A) : NoDup (map f l) -> NoDup l.
Proof.
  induction l as [|x l IH]; intros H; [constructor|].
  simpl in H. inversion H; subst. constructor; [|now apply IH].
  intros Hin. apply H2. now apply in_map.
Qed.

(** The rows [cleanup] keeps are pairwise distinct, whatever the
    number of columns. *)
Lemma merge_rows_nodup (ncols : nat) (rows : matrix) (coeffs : list C) :
  length coeffs = length rows -> NoDup (fst (merge_rows ncols rows coeffs)).
Proof.
  intros Hl. eapply nodup_map_inv, sorted_lt_nodup, merge_rows_keys, Hl.
Qed.

Lemma merge_rows_lengths (ncols : nat) (rows : matrix) (coeffs : list C) :
  length (snd (merge_rows ncols rows coeffs)) = length (fst (merge_rows ncols rows coeffs)).
Proof.
  unfold merge_rows. cbn [fst snd]. unfold take.
  now rewrite DimensionFacts.reduceat_length, length_map.
Qed.

Lemma groups_strict {T : Type} (l : list (Z * T)) :
  Sorted Z.lt (map fst l) -> groups l = map (fun t => [t]) l.
Proof.
  induction l as [|x t IH]; intros H; [reflexivity|].
  simpl in H. inversion H as [|? ? Hs Hx]; subst. cbn [groups map].
  rewrite (IH Hs). destruct t as [|y t]; [reflexivity|].
  cbn [map]. simpl in Hx. inversion Hx; subst.
  assert ((fst x =? fst y)%Z = false) as -> by lia. reflexivity.
Qed.

Lemma sorted_lt_le {T : Type} (l : list (Z * T)) :
  Sorted Z.lt (map fst l) -> key_sorted l.
Proof.
  unfold key_sorted. induction l as [|x t IH]; intros H; [constructor|].
  simpl in H. inversion H as [|? ? Hs Hx]; subst. constructor; [now apply IH|].
  destruct t; simpl in *; constructor. inversion Hx; subst. lia.
Qed.

Lemma map_fst_combine3 (keys : list Z) (rows : matrix) :
  forall coeffs : list C,
    length keys = length rows -> length coeffs = length rows ->
    map fst (combine keys (combine rows coeffs)) = keys
    /\ map (fun t => fst (snd t)) (combine keys (combine rows coeffs)) = rows
    /\ map (fun t => snd (snd t)) (combine keys (combine rows coeffs)) = coeffs.
Proof.
  revert keys. induction rows as [|r rows IH]; intros [|k ks] [|c cs] H1 H2;
    simpl in *; try discriminate; auto.
  destruct (IH ks cs) as (A & B & D); try lia. rewrite A, B, D. auto.
Qed.

(** Rows that come with strictly increasing keys are left as they
    are. *)
Lemma merge_rows_fixed (ncols : nat) (R : matrix) (Cs : list C) :
  length Cs = length R -> Sorted Z.lt (map (row_key ncols) R) ->
  merge_rows ncols R Cs = (R, Cs).
Proof.
  intros Hl Hs. rewrite (merge_rows_merged ncols R Cs Hl), keys_of_rows.
  set (L := combine _ _).
  destruct (map_fst_combine3 (map (row_key ncols) R) R Cs
              ltac:(now rewrite length_map) Hl) as (E1 & E2 & E3).
  fold L in E1, E2, E3.
  assert (SL : Sorted Z.lt (map fst L)) by now rewrite E1.
  rewrite (sort_by_key_id L (sorted_lt_le L SL)).
  unfold merged. rewrite (groups_strict L SL), !map_map. cbn [map hd Csum fold_right].
  assert (E4 : map (fun t : Z * (list Z * C) => (snd (snd t) + C0)%C) L = Cs).
  { rewrite <- E3. apply map_ext. intros t. apply Cadd_0_r. }
  cbn [map hd Csum fold_right] in *.
  now rewrite E2, E4.
Qed.

Lemma sorted_lt_select (k : list Z -> Z) (R : matrix) :
  forall mask : list bool,
    Sorted Z.lt (map k R) -> Sorted Z.lt (map k (select R mask)).
Proof.
  intros mask H. apply Sorted_StronglySorted in H; [|intros a b c; apply Z.lt_trans].
  apply StronglySorted_Sorted.
  revert mask. induction R as [|r R IH]; intros [|b mask]; simpl; try constructor.
  simpl in H. inversion H; subst. destruct b; [|now apply IH].
  simpl. constructor; [now apply IH|].
  rewrite Forall_forall in *. intros x Hx. apply H3.
  apply in_map_iff in Hx. destruct Hx as (y & <- & Hy). apply in_map.
  eapply select_in. exact Hy.
Qed.

Lemma select_kept {A : Type} (f : A -> bool) (l : list A) :
  Forall (fun x => f x = true) l -> select l (map f l) = l.
Proof.
  induction 1 as [|x l Hx Hl IH]; [reflexivity|]. cbn [map select]. now rewrite Hx, IH.
Qed.

Lemma select_pass {A : Type} (f : A -> bool) (l : list A) :
  Forall (fun x => f x = true) (select l (map f l)).
Proof.
  induction l as [|x l IH]; [constructor|]. cbn [map select].
  destruct (f x) eqn:E; [constructor; assumption|assumption].
Qed.

Lemma select_rows_kept {A B : Type} (f : B -> bool) (R : list A) (Cs : list B) :
  length Cs = length R ->
  Forall (fun x => f x = true) Cs -> select R (map f Cs) = R.
Proof.
  revert Cs. induction R as [|r R IH]; intros [|c Cs] L F; simpl in *; try discriminate;
    [reflexivity|].
  inversion F; subst. rewrite H1. f_equal. apply IH; [lia|assumption].
Qed.

(** [PauliwordOp.cleanup] leaves its own result as it is. *)
Lemma pauli_cleanup_idempotent (A P : Pauli.PauliwordOp) :
  length (Pauli.coeff_vec A) = length (Pauli.symp_matrix A) ->
  Pauli.cleanup A = Ok P -> Pauli.cleanup P = Ok P.
Proof.
  intros Hl E. unfold Pauli.cleanup in E.
  pose proof (merge_rows_keys (Pauli.n_cols A) _ _ Hl) as K.
  pose proof (merge_rows_lengths (Pauli.n_cols A) (Pauli.symp_matrix A) (Pauli.coeff_vec A)) as L.
  destruct (merge_rows _ _ _) as [R Cs]. cbn [fst snd] in *.
  assert (HP : P = Pauli.mkPauliwordOp R (Pauli.n_cols A) Cs).
  { unfold Pauli.init in E.
    destruct (length R =? length Cs)%nat; [|discriminate]. cbn [assert bind] in E.
    destruct (forallb (forallb Pauli.is_bit) R); [|discriminate]. cbn [assert bind] in E.
    now injection E as <-. }
  rewrite <- E. subst P. unfold Pauli.cleanup.
  cbn [Pauli.n_cols Pauli.symp_matrix Pauli.coeff_vec].
  now rewrite (merge_rows_fixed _ R Cs L K).
Qed.

(** [MajoranaOp.cleanup] leaves its own result as it is. *)
Lemma majorana_cleanup_idempotent (M P : Majorana.MajoranaOp) :
  Nat.even (Majorana.n_sites M) = true ->
  length (Majorana.coeff_vec M) = length (Majorana.symp_matrix M) ->
  Majorana.cleanup M = Ok P -> Majorana.cleanup P = Ok P.
Proof.
  intros He Hl E. rewrite (majorana_cleanup_ok M He) in E.
  pose proof (merge_rows_keys (Majorana.n_sites M) _ _ Hl) as K.
  pose proof (merge_rows_lengths (Majorana.n_sites M) (Majorana.symp_matrix M)
                (Majorana.coeff_vec M)) as L.
  destruct (merge_rows _ _ _) as [R Cs]. cbn [fst snd] in *.
  injection E as <-.
  rewrite majorana_cleanup_ok by exact He.
  cbn [Majorana.n_sites Majorana.symp_matrix Majorana.coeff_vec].
  rewrite merge_rows_fixed.
  - cbn [fst snd]. unfold mask_nonzero.
    rewrite (select_kept _ _ (select_pass _ Cs)).
    rewrite select_rows_kept; [reflexivity| |apply select_pass].
    apply select_length. exact L.
  - apply select_length. exact L.
  - now apply sorted_lt_select.
Qed.

End CleanupOnceFacts.

(** [cleanup] is idempotent, in both classes and for any number of
    columns: applied to its own result it returns that result. *)
Theorem cleanup_is_idempotent :
  (forall A P : Pauli.PauliwordOp,
      length (Pauli.coeff_vec A) = length (Pauli.symp_matrix A) ->
      Pauli.cleanup A = Ok P -> Pauli.cleanup P = Ok P)
  /\ (forall M P : Majorana.MajoranaOp,
         Nat.even (Majorana.n_sites M) = true ->
         length (Majorana.coeff_vec M) = length (Majorana.symp_matrix M) ->
         Majorana.cleanup M = Ok P -> Majorana.cleanup P = Ok P).
Proof.
  split.
  - apply CleanupOnceFacts.pauli_cleanup_idempotent.
  - apply CleanupOnceFacts.majorana_cleanup_idempotent.
Qed.

Lemma cleanup_is_idempotent_witness :
  exists P,
    Pauli.cleanup (Pauli.mkPauliwordOp [[1; 0]; [0; 1]; [1; 0]]%Z 2 [C1; Ci; C1]) = Ok P
    /\ Pauli.cleanup P = Ok P.
Proof.
  assert (W : Spec.pauli_wf 1 (Pauli.mkPauliwordOp [[1; 0]; [0; 1]; [1; 0]]%Z 2 [C1; Ci; C1]))
    by (apply MultiplyFacts.pauli_wfb_spec; reflexivity).
  destruct (TerminationFacts.pauli_cleanup_wf 1 _ W) as (P & E & _).
  exists P. split; [exact E|].
  exact (proj1 cleanup_is_idempotent
           (Pauli.mkPauliwordOp [[1; 0]; [0; 1]; [1; 0]]%Z 2 [C1; Ci; C1]) P eq_refl E).
Defined.

(** ** Dictionaries of Pauli strings *)

Module DictionaryFacts.

Import Pauli PauliOps Spec Shape Letters BroadcastFacts MultiplyFacts CleanupFacts.
Import StringFacts CleanupOnceFacts SubscriptFacts.

Lemma string_eqb_eq (a b : list ascii) : string_eqb a b = true <-> a = b.
Proof.
  revert b. induction a as [|x a IH]; intros [|y b]; simpl; split; try congruence.
  - intros H. apply andb_true_iff in H. destruct H as [H1 H2].
    apply Ascii.eqb_eq in H1. apply IH in H2. congruence.
  - intros H. injection H as -> ->. apply andb_true_iff. split.
    + apply Ascii.eqb_refl.
    + now apply IH.
Qed.

Lemma dict_set_fresh (k : list ascii) (v : C) (d : dict) :
  ~ In k (map fst d) -> dict_set k v d = d ++ [(k, v)].
Proof.
  induction d as [|[k' v'] d IH]; intros H; [reflexivity|].
  cbn [dict_set app]. simpl in H.
  destruct (string_eqb k k') eqn:E.
  - apply string_eqb_eq in E. subst. tauto.
  - rewrite IH by tauto. reflexivity.
Qed.

Lemma fold_dict_set (s : list Z -> list ascii) (l : list (list Z * C)) :
  forall d0 : dict,
    NoDup (map fst d0 ++ map (fun p => s (fst p)) l) ->
    fold_left (fun d p => dict_set (s (fst p)) (snd p) d) l d0
    = d0 ++ map (fun p => (s (fst p), snd p)) l.
Proof.
  induction l as [|p l IH]; intros d0 H; [now rewrite app_nil_r|].
  cbn [fold_left map]. rewrite dict_set_fresh.
  - rewrite IH.
    + now rewrite <- app_assoc.
    + rewrite map_app. cbn [map fst app]. rewrite <- app_assoc. exact H.
  - cbn [map] in H. apply NoDup_remove_2 in H. intros Hin. apply H.
    apply in_or_app. now left.
Qed.

Lemma to_string_inj (n : nat) (a b : list Z) :
  pauli_row n a -> pauli_row n b ->
  symplectic_to_string a = symplectic_to_string b -> a = b.
Proof.
  intros Ha Hb E.
  destruct (row_round_trip n a Ha) as [_ Ea].
  destruct (row_round_trip n b Hb) as [_ Eb].
  rewrite E in Ea. congruence.
Qed.

Lemma nodup_strings (n : nat) (R : matrix) :
  Forall (pauli_row n) R -> NoDup R -> NoDup (map symplectic_to_string R).
Proof.
  induction R as [|r R IH]; intros F N; [constructor|].
  inversion F; inversion N; subst. cbn [map]. constructor; [|now apply IH].
  intros Hin. apply in_map_iff in Hin. destruct Hin as (r' & E & Hr').
  rewrite Forall_forall in H2.
  apply (to_string_inj n r' r (H2 r' Hr') H1) in E. congruence.
Qed.

Lemma strings_back (n : nat) (R : matrix) :
  Forall (pauli_row n) R ->
  map_result (fun s => string_to_symplectic s n) (map symplectic_to_string R) = Ok R.
Proof.
  induction 1 as [|r R Hr HR IH]; [reflexivity|].
  cbn [map map_result]. destruct (row_round_trip n r Hr) as [_ ->].
  cbn [bind]. rewrite IH. reflexivity.
Qed.

Lemma merge_rows_nonempty (ncols : nat) (rows : matrix) (coeffs : list C) :
  length coeffs = length rows -> rows <> [] ->
  fst (merge_rows ncols rows coeffs) <> [].
Proof.
  intros Hl Hne. rewrite (merge_rows_merged ncols rows coeffs Hl).
  set (L := combine _ _).
  assert (HL : L <> []).
  { unfold L. destruct rows as [|r rows]; [congruence|].
    destruct coeffs; [discriminate|]. discriminate. }
  pose proof (sort_by_key_perm L) as P.
  destruct (sort_by_key L) as [|x t] eqn:E.
  - apply Permutation_sym, Permutation_nil in P. congruence.
  - destruct (groups_head x t) as (g & r & G). unfold merged. rewrite G. discriminate.
Qed.

(** What [cleanup] returns on a well-formed operator of any width. *)
Lemma pauli_cleanup_rows (n : nat) (A : PauliwordOp) :
  pauli_wf n A ->
  exists R Cs,
    cleanup A = Ok (mkPauliwordOp R (2 * n) Cs)
    /\ length Cs = length R /\ NoDup R /\ Forall (pauli_row n) R
    /\ (symp_matrix A <> [] -> R <> []).
Proof.
  intros (Hc & Hl & Hr). unfold cleanup.
  pose proof (merge_rows_nodup (n_cols A) _ _ Hl) as N.
  pose proof (merge_rows_lengths (n_cols A) (symp_matrix A) (coeff_vec A)) as L.
  pose proof (DimensionFacts.merge_rows_subset (n_cols A) _ _ Hl) as S.
  pose proof (merge_rows_nonempty (n_cols A) _ _ Hl) as NE.
  destruct (merge_rows _ _ _) as [R Cs]. cbn [fst snd] in *.
  assert (F : Forall (pauli_row n) R).
  { apply Forall_forall. intros r Hin. rewrite Forall_forall in Hr. apply Hr, S, Hin. }
  exists R, Cs. rewrite Hc. repeat split; auto.
  apply init_ok; [lia|]. eapply Forall_impl; [|exact F]. now intros r [_ B].
Qed.

Lemma combine_map_l {A B D : Type} (f : A -> D) (l : list A) (l' : list B) :
  map (fun p => (f (fst p), snd p)) (combine l l') = combine (map f l) l'.
Proof.
  revert l'. induction l as [|x l IH]; intros [|y l']; simpl; auto. now rewrite IH.
Qed.

(** The dictionary of an operator, and the operator built from it. *)
Lemma dictionary_back (n : nat) (A : PauliwordOp) :
  pauli_wf n A -> symp_matrix A <> [] ->
  exists P d,
    cleanup A = Ok P /\ to_dictionary A = Ok d
    /\ length d = n_terms P /\ init_dict d = Ok P.
Proof.
  intros HA Hne.
  destruct (pauli_cleanup_rows n A HA) as (R & Cs & E & L & N & F & NE).
  specialize (NE Hne).
  exists (mkPauliwordOp R (2 * n) Cs).
  unfold to_dictionary. rewrite E. cbn [bind symp_matrix coeff_vec].
  rewrite (fold_dict_set symplectic_to_string).
  2:{ cbn [map app]. rewrite <- (map_map fst symplectic_to_string).
      rewrite RotateFacts.map_fst_combine by lia. now apply (nodup_strings n). }
  cbn [app]. rewrite combine_map_l.
  eexists. split; [reflexivity|]. split; [reflexivity|]. split.
  - rewrite length_combine, length_map. unfold n_terms. cbn [symp_matrix]. lia.
  - unfold init_dict.
    rewrite RotateFacts.map_fst_combine by (rewrite length_map; lia).
    rewrite RotateFacts.map_snd_combine by (rewrite length_map; lia).
    destruct R as [|r0 R']; [congruence|].
    destruct Cs as [|c0 Cs']; [discriminate|].
    cbn [combine map]. unfold init_strings.
    change (symplectic_to_string r0 :: map symplectic_to_string R')
      with (map symplectic_to_string (r0 :: R')).
    inversion F; subst.
    destruct (row_round_trip n r0 H1) as [Ln _]. rewrite Ln.
    rewrite (strings_back n (r0 :: R') F). cbn [bind].
    apply init_ok; [cbn; cbn in L; lia|].
    eapply Forall_impl; [|exact F]. now intros r [_ B].
Qed.

Lemma dictionary_of_nothing (n : nat) (A : PauliwordOp) :
  pauli_wf n A -> symp_matrix A = [] ->
  to_dictionary A = Ok [] /\ init_dict [] = Raise UnpackError.
Proof.
  intros (Hc & Hl & Hr) Hn. split; [|reflexivity].
  unfold to_dictionary, cleanup. rewrite Hn in *.
  destruct (coeff_vec A); [|discriminate]. reflexivity.
Qed.

End DictionaryFacts.

(** The dictionary of an operator.  For a well-formed operator with
    at least one term, [to_dictionary] has one item for every row of
    [cleanup] (no key is written twice, whatever the number of qubits),
    and the constructor builds from that dictionary the operator
    [cleanup] returns.  For an operator without terms the dictionary
    is empty, and the constructor cannot unpack an empty dictionary. *)
Theorem dictionary_round_trip (n : nat) (A : Pauli.PauliwordOp) :
  Spec.pauli_wf n A ->
  (Pauli.symp_matrix A <> [] ->
   exists P d,
     Pauli.cleanup A = Ok P /\ PauliOps.to_dictionary A = Ok d
     /\ length d = Pauli.n_terms P /\ PauliOps.init_dict d = Ok P)
  /\ (Pauli.symp_matrix A = [] ->
      PauliOps.to_dictionary A = Ok []
      /\ PauliOps.init_dict [] = Raise PauliOps.UnpackError).
Proof.
  intros HA. split.
  - intros Hne. exact (DictionaryFacts.dictionary_back n A HA Hne).
  - intros Hn. exact (DictionaryFacts.dictionary_of_nothing n A HA Hn).
Qed.

Lemma dictionary_round_trip_witness :
  exists P d,
    Pauli.cleanup (Pauli.mkPauliwordOp [[1; 0]; [0; 1]; [1; 0]]%Z 2 [C1; Ci; C1]) = Ok P
    /\ PauliOps.to_dictionary (Pauli.mkPauliwordOp [[1; 0]; [0; 1]; [1; 0]]%Z 2 [C1; Ci; C1])
       = Ok d
    /\ length d = Pauli.n_terms P /\ PauliOps.init_dict d = Ok P.
Proof.
  assert (W : Spec.pauli_wf 1 (Pauli.mkPauliwordOp [[1; 0]; [0; 1]; [1; 0]]%Z 2 [C1; Ci; C1]))
    by (apply MultiplyFacts.pauli_wfb_spec; reflexivity).
  apply (proj1 (dictionary_round_trip 1 _ W)). discriminate.
Defined.

(** ** Products of operators *)

Module ProductFacts.

Import Pauli PauliOps Spec Shape Algebra Subscripts.
Import BroadcastFacts MultiplyFacts CleanupFacts RotateFacts TerminationFacts.
Import SubscriptFacts.

(** The sum of two operators of at most 32 qubits. *)
Lemma add_spec (n : nat) (P Q : PauliwordOp) :
  (2 * n <= 64)%nat -> pauli_wf n P -> pauli_wf n Q ->
  exists R,
    add P Q = Ok R /\ pauli_wf n R /\ NoDup (symp_matrix R)
    /\ same_operator (op_terms R) (op_terms P ++ op_terms Q).
Proof.
  intros Hn HP HQ. destruct (add_eval n P Q HP HQ) as [E W].
  destruct (pauli_cleanup_spec n _ Hn W) as (R & Cs & M & B & EC & _).
  cbn [symp_matrix coeff_vec] in M.
  exists (mkPauliwordOp R (2 * n) Cs). rewrite E, EC. split; [reflexivity|].
  destruct HP as (Hc & Hl & Hr), HQ as (Hc' & Hl' & Hr').
  split; [|split].
  - apply (cleaned_rows n _ _ _ _ (proj2 (proj2 W)) M).
  - apply M.
  - unfold op_terms. cbn [symp_matrix coeff_vec].
    rewrite <- combine_app by lia.
    apply merged_same_operator; [rewrite !length_app; lia|exact M].
Qed.

Lemma fold_add_spec (n : nat) (t : list PauliwordOp) :
  (2 * n <= 64)%nat -> Forall (pauli_wf n) t ->
  forall x, pauli_wf n x ->
    exists R,
      fold_left (fun acc y => bind acc (fun a => add a y)) t (Ok x) = Ok R
      /\ pauli_wf n R
      /\ same_operator (op_terms R) (op_terms x ++ flat_map op_terms t).
Proof.
  intros Hn Ht. induction Ht as [|y t Hy _ IH]; intros x Hx.
  - exists x. cbn [fold_left flat_map]. rewrite app_nil_r.
    split; [reflexivity|]. split; [exact Hx|]. apply same_operator_refl.
  - cbn [fold_left bind flat_map].
    destruct (add_spec n x y Hn Hx Hy) as (R1 & E1 & W1 & _ & S1). rewrite E1.
    destruct (IH R1 W1) as (R & E & W & S). exists R. split; [exact E|]. split; [exact W|].
    eapply same_operator_trans; [exact S|].
    rewrite app_assoc. apply same_operator_app; [exact S1|apply same_operator_refl].
Qed.

Lemma reduce_add_spec (n : nat) (l : list PauliwordOp) :
  (2 * n <= 64)%nat -> Forall (pauli_wf n) l -> l <> [] ->
  exists R,
    reduce_add l = Ok R /\ pauli_wf n R
    /\ same_operator (op_terms R) (flat_map op_terms l).
Proof.
  intros Hn Hl Hne. destruct l as [|x t]; [congruence|].
  inversion Hl; subst. apply (fold_add_spec n t Hn H2 x H1).
Qed.

Lemma product_row (n : nat) (A : PauliwordOp) (b : list Z) (cb : C) :
  pauli_wf n A -> pauli_row n b ->
  exists P,
    bind (init_vec b [cb]) (_multiply_single_Pword A) = Ok P
    /\ pauli_wf n P
    /\ op_terms P = products n (op_terms A) [(b, cb)].
Proof.
  intros HA Hb. pose proof Hb as [Lb Bb]. unfold init_vec. rewrite Lb.
  rewrite init_ok by (try reflexivity; repeat constructor; exact Bb).
  cbn [bind]. rewrite (multiply_single_Pword_eval n A b cb HA Hb).
  eexists. split; [reflexivity|].
  destruct HA as (Hc & Hl & Hr). split.
  - repeat split; cbn [n_cols coeff_vec symp_matrix].
    + rewrite !length_map, length_combine. lia.
    + apply pauli_rows_xor; assumption.
  - unfold op_terms, products. cbn [symp_matrix coeff_vec flat_map fst snd].
    rewrite app_nil_r.
    rewrite <- (map_fst_combine (symp_matrix A) (coeff_vec A) Hl) at 1.
    rewrite map_map, combine_map_map. apply map_ext_in.
    intros [a ca] Hin. cbn [fst snd]. f_equal.
    apply code_coeff_spec; [|exact Hb].
    rewrite Forall_forall in Hr. apply Hr. eapply in_combine_l. exact Hin.
Qed.

Lemma products_cons (n : nat) (LA : terms) (q : list Z * C) (LB : terms) :
  products n LA (q :: LB) = products n LA [q] ++ products n LA LB.
Proof. unfold products. cbn [flat_map]. now rewrite app_nil_r. Qed.

Lemma product_rows (n : nat) (A : PauliwordOp) (LB : terms) :
  pauli_wf n A -> Forall (fun q => pauli_row n (fst q)) LB ->
  exists l,
    map_result (fun '(Pvec_single, coeff_single) =>
                  bind (init_vec Pvec_single [coeff_single]) (_multiply_single_Pword A)) LB
    = Ok l
    /\ Forall (pauli_wf n) l /\ length l = length LB
    /\ flat_map op_terms l = products n (op_terms A) LB.
Proof.
  intros HA. induction 1 as [|[b cb] LB Hq _ IH].
  - exists []. repeat split; auto.
  - destruct IH as (l & E & W & L & F).
    destruct (product_row n A b cb HA Hq) as (P & EP & WP & FP).
    exists (P :: l). cbn [map_result]. rewrite EP. cbn [bind]. rewrite E. cbn [bind].
    repeat split; auto.
    + cbn [length]. lia.
    + cbn [flat_map]. now rewrite FP, F, <- products_cons.
Qed.

(** The product of two operators of at most 32 qubits. *)
Lemma mul_spec (n : nat) (A B : PauliwordOp) :
  (2 * n <= 64)%nat -> pauli_wf n A -> pauli_wf n B -> symp_matrix B <> [] ->
  exists P,
    mul A B = Ok P /\ pauli_wf n P
    /\ same_operator (op_terms P) (products n (op_terms A) (op_terms B)).
Proof.
  intros Hn HA HB Hne. unfold mul.
  pose proof HA as (Hc & Hl & Hr). pose proof HB as (Hc' & Hl' & Hr').
  destruct (n_qubits_even n A Hc) as [-> _]. destruct (n_qubits_even n B Hc') as [-> _].
  rewrite Nat.eqb_refl. cbn [assert bind].
  destruct (product_rows n A (op_terms B) HA) as (l & E & W & L & F).
  { apply Forall_forall. intros [b cb] Hin. cbn [fst].
    rewrite Forall_forall in Hr'. apply Hr'. eapply in_combine_l. exact Hin. }
  match goal with
  | |- context [map_result ?f ?L] =>
      replace (map_result f L) with (@Ok (list PauliwordOp) l) by (symmetry; exact E)
  end.
  cbn [bind].
  destruct (reduce_add_spec n l Hn W) as (R & ER & WR & SR).
  { intros ->. cbn [length] in L. unfold op_terms in L. rewrite length_combine in L.
    destruct (symp_matrix B); [congruence|]. destruct (coeff_vec B); [discriminate|].
    discriminate. }
  exists R. rewrite F in SR. auto.
Qed.

(** Multiplying by an operator without terms. *)
Lemma mul_nothing (n : nat) (A B : PauliwordOp) :
  pauli_wf n A -> pauli_wf n B -> symp_matrix B = [] ->
  mul A B = Raise (ValueError 3).
Proof.
  intros (Hc & Hl & Hr) (Hc' & Hl' & Hr') Hn. unfold mul.
  destruct (n_qubits_even n A Hc) as [-> _]. destruct (n_qubits_even n B Hc') as [-> _].
  rewrite Nat.eqb_refl, Hn. reflexivity.
Qed.

End ProductFacts.

(** The product of two operators of at most 32 qubits.  When the
    right factor has no term, [__mul__] raises (its [reduce] has nothing
    to add up).  Otherwise it returns a well-formed operator that
    denotes the sum of the products of every term of the left factor
    with every term of the right factor: the same bit-vectors occur, and
    every bit-vector has the sum of the coefficients of the products
    that fall on it. *)
Theorem mul_is_the_sum_of_products (n : nat) (A B : Pauli.PauliwordOp) :
  (2 * n <= 64)%nat -> Spec.pauli_wf n A -> Spec.pauli_wf n B ->
  (Pauli.symp_matrix B = [] -> Pauli.mul A B = Raise (ValueError 3))
  /\ (Pauli.symp_matrix B <> [] ->
      exists P,
        Pauli.mul A B = Ok P /\ Spec.pauli_wf n P
        /\ Shape.same_operator (Algebra.op_terms P)
             (Algebra.products n (Algebra.op_terms A) (Algebra.op_terms B))).
Proof.
  intros Hn HA HB. split.
  - intros He. exact (ProductFacts.mul_nothing n A B HA HB He).
  - intros Hne. exact (ProductFacts.mul_spec n A B Hn HA HB Hne).
Qed.

Lemma mul_is_the_sum_of_products_witness :
  exists P,
    Pauli.mul (Pauli.mkPauliwordOp [[1; 0]; [0; 1]]%Z 2 [C1; Ci])
              (Pauli.mkPauliwordOp [[1; 1]; [0; 1]]%Z 2 [C1; C1]) = Ok P
    /\ Spec.pauli_wf 1 P.
Proof.
  assert (WA : Spec.pauli_wf 1 (Pauli.mkPauliwordOp [[1; 0]; [0; 1]]%Z 2 [C1; Ci]))
    by (apply MultiplyFacts.pauli_wfb_spec; reflexivity).
  assert (WB : Spec.pauli_wf 1 (Pauli.mkPauliwordOp [[1; 1]; [0; 1]]%Z 2 [C1; C1]))
    by (apply MultiplyFacts.pauli_wfb_spec; reflexivity).
  destruct (proj2 (mul_is_the_sum_of_products 1 _ _ ltac:(simpl; lia) WA WB)
              ltac:(discriminate)) as (P & E & W & _).
  exists P. split; [exact E|exact W].
Defined.

(** ** Multiplying twice by a Pauli word *)

Module InvolutionFacts.

Import Pauli PauliOps Spec Shape Algebra Subscripts.
Import CplxFacts CommuteFacts BroadcastFacts MultiplyFacts CleanupFacts RotateFacts.
Local Open Scope C_scope.

Lemma Cpow_add (z : C) (a b : nat) : z ^ (a + b) = z ^ a * z ^ b.
Proof.
  induction a as [|a IH]; cbn [Nat.add Cpow].
  - now rewrite Cmul_1_l.
  - now rewrite IH, Cmul_assoc.
Qed.

Lemma minus_i_times_i (k : nat) : (- Ci) ^ k * Ci ^ k = C1.
Proof.
  induction k as [|k IH]; cbn [Cpow]; [apply Cmul_1_l|].
  transitivity ((- Ci) * Ci * ((- Ci) ^ k * Ci ^ k)).
  - generalize ((- Ci) ^ k), (Ci ^ k). intros u v. csolve.
  - rewrite IH. csolve.
Qed.

Lemma minus_i_squared (k : nat) : (- Ci) ^ k * (- Ci) ^ k = (- C1) ^ k.
Proof.
  induction k as [|k IH]; cbn [Cpow]; [apply Cmul_1_l|].
  rewrite <- IH. generalize ((- Ci) ^ k). intros u. csolve.
Qed.

Lemma minus_one_even (k : nat) : Nat.even k = true -> (- C1) ^ k = C1.
Proof.
  intros H. apply Nat.even_spec in H. destruct H as [m ->].
  induction m as [|m IH]; [reflexivity|].
  replace (2 * S m)%nat with (S (S (2 * m))) by lia. cbn [Cpow].
  rewrite IH. csolve.
Qed.

Lemma popcount_cons (b : Z) (t : list Z) :
  popcount (b :: t) = ((if (b =? 0)%Z then 0 else 1) + popcount t)%nat.
Proof. unfold popcount. cbn [filter]. now destruct (b =? 0)%Z. Qed.

(** The three counts of the phase of [(a q) q] add up to an even
    number. *)
Lemma parity3 (x : list Z) :
  forall y z, bits x -> bits y -> bits z ->
    length x = length y -> length y = length z ->
    Nat.even (popcount (band x z) + popcount (band (bxor x y) z)
              + popcount (band y z)) = true.
Proof.
  unfold band, bxor.
  induction x as [|a x IH]; intros [|b y] [|c z] Bx By Bz L1 L2; try discriminate.
  { reflexivity. }
  inversion Bx; inversion By; inversion Bz; subst.
  cbn [zip_with]. rewrite !popcount_cons.
  specialize (IH y z H2 H6 H10 ltac:(simpl in L1; lia) ltac:(simpl in L2; lia)).
  set (p := popcount (zip_with Z.land x z)) in *.
  set (q := popcount (zip_with Z.land (zip_with Z.lxor x y) z)) in *.
  set (r := popcount (zip_with Z.land y z)) in *.
  assert (E : forall k : nat, Nat.even (k + (p + q + r)) = Nat.even k)
    by (intros k; rewrite Nat.even_add, IH; now destruct (Nat.even k)).
  destruct H1 as [-> | ->], H5 as [-> | ->], H9 as [-> | ->]; cbn [Z.land Z.lxor Z.eqb Pos.land Pos.lxor];
    match goal with
    | |- Nat.even (?a + p + (?b + q) + (?c + r)) = true =>
        replace (a + p + (b + q) + (c + r))%nat with ((a + b + c) + (p + q + r))%nat by lia
    end; rewrite E; reflexivity.
Qed.

Lemma firstn_zip_with {A B D : Type} (f : A -> B -> D) (k : nat) :
  forall (a : list A) (b : list B),
    firstn k (zip_with f a b) = zip_with f (firstn k a) (firstn k b).
Proof.
  induction k as [|k IH]; intros [|x a] [|y b]; simpl; try reflexivity.
  now rewrite IH.
Qed.

Lemma skipn_zip_with {A B D : Type} (f : A -> B -> D) (k : nat) :
  forall (a : list A) (b : list B),
    skipn k (zip_with f a b) = zip_with f (skipn k a) (skipn k b).
Proof.
  induction k as [|k IH]; intros [|x a] [|y b]; simpl; try reflexivity.
  - now destruct (skipn k a).
  - apply IH.
Qed.

Lemma bxor_back (a : list Z) : forall q, length a = length q -> bxor (bxor a q) q = a.
Proof.
  unfold bxor. induction a as [|x a IH]; intros [|y q] L; try discriminate; [reflexivity|].
  cbn [zip_with]. rewrite IH by (simpl in L; lia).
  now rewrite Z.lxor_assoc, Z.lxor_nilpotent, Z.lxor_0_r.
Qed.

Lemma bxor_self (q : list Z) : bxor q q = repeat 0%Z (length q).
Proof.
  unfold bxor. induction q as [|y q IH]; [reflexivity|].
  cbn [zip_with length repeat]. now rewrite IH, Z.lxor_nilpotent.
Qed.

Lemma regroup (ca A1 D B G A2 F E : C) :
  ca * C1 * A1 * (D * B) * G * C1 * A2 * (F * B) * E
  = ca * (A1 * A2 * (B * B)) * (D * E) * (F * G).
Proof. csolve. Qed.

(** The coefficient of [(a q) q] is the coefficient of [a]. *)
Lemma product_coeff_back (n : nat) (a q : list Z) (ca : C) :
  pauli_row n a -> pauli_row n q ->
  product_coeff n (bxor a q) (product_coeff n a ca q C1) q C1 = ca.
Proof.
  intros [La Ba] [Lq Bq]. unfold product_coeff.
  rewrite (bxor_back a q) by lia.
  rewrite !Cpow_add, regroup, !minus_i_times_i, minus_i_squared.
  rewrite <- !Cpow_add.
  rewrite minus_one_even; [csolve|].
  unfold Y_number, X_of, Z_of, bxor. rewrite firstn_zip_with.
  apply (parity3 (firstn n a) (firstn n q) (skipn n q)).
  - now apply bits_firstn.
  - now apply bits_firstn.
  - now apply bits_skipn.
  - rewrite !length_firstn. lia.
  - rewrite length_firstn, length_skipn. lia.
Qed.

Lemma map_combine_id {A B : Type} (l : list A) (l' : list B) (f : A * B -> B) :
  length l' = length l ->
  (forall p, In p (combine l l') -> f p = snd p) ->
  map f (combine l l') = l'.
Proof.
  revert l'. induction l as [|x l IH]; intros [|y l'] L H; try discriminate; [reflexivity|].
  cbn [combine map]. rewrite (H (x, y)) by now left. cbn [snd]. f_equal.
  apply IH; [simpl in L; lia|]. intros p Hp. apply H. now right.
Qed.

(** Multiplying twice on the right by the same Pauli word gives the
    operator back. *)
Lemma mul_twice (n : nat) (A : PauliwordOp) (q : list Z) :
  pauli_wf n A -> pauli_row n q ->
  let Q := mkPauliwordOp [q] (2 * n) [C1] in
  exists P, mul A Q = Ok P /\ n_terms P = n_terms A /\ mul P Q = Ok A.
Proof.
  intros HA Hq Q. subst Q. pose proof HA as (Hc & Hl & Hr).
  rewrite (mul_single n A q C1 HA Hq), (multiply_single_Pword_eval n A q C1 HA Hq).
  eexists. split; [reflexivity|].
  split; [unfold n_terms; cbn [symp_matrix]; now rewrite length_map|].
  match goal with |- mul ?P _ = _ => set (P1 := P) end.
  assert (W1 : pauli_wf n P1).
  { repeat split; cbn [n_cols coeff_vec symp_matrix P1].
    - rewrite !length_map, length_combine. lia.
    - now apply pauli_rows_xor. }
  rewrite (mul_single n P1 q C1 W1 Hq), (multiply_single_Pword_eval n P1 q C1 W1 Hq).
  unfold P1. cbn [symp_matrix coeff_vec]. destruct A as [rows nc coeffs].
  cbn [symp_matrix coeff_vec n_cols] in *. subst nc. f_equal.
  assert (Hrows : map (fun a => zip_with Z.lxor a q) (map (fun a => zip_with Z.lxor a q) rows)
                  = rows).
  { rewrite map_map. rewrite <- (map_id rows) at 2. apply map_ext_in. intros a Ha.
    rewrite Forall_forall in Hr. destruct (Hr a Ha) as [La _]. destruct Hq as [Lq _].
    apply (bxor_back a q). lia. }
  rewrite Hrows. f_equal.
  rewrite <- (map_fst_combine rows coeffs Hl) at 1.
  rewrite map_map, combine_map_map, map_map.
  apply map_combine_id; [exact Hl|].
  intros [a ca] Hin. cbn [fst snd].
  assert (Ha : pauli_row n a).
  { rewrite Forall_forall in Hr. apply Hr. eapply in_combine_l. exact Hin. }
  rewrite (code_coeff_spec n a q ca C1 Ha Hq).
  rewrite (code_coeff_spec n (zip_with Z.lxor a q) q _ C1 (pauli_row_xor n a q Ha Hq) Hq).
  apply (product_coeff_back n a q ca Ha Hq).
Qed.

End InvolutionFacts.

(** Multiplying twice by the same Pauli word.  For a well-formed
    operator [A] over fewer than 50 qubits and a single Pauli word [Q]
    with coefficient 1, [A * Q] has the rows of [A] in their order, each
    multiplied by [Q], and [(A * Q) * Q] is [A] itself, row by row and
    coefficient by coefficient: the phases of the two products cancel.
    The bound keeps every exponent of [-i] and [i], a number of [Y]
    positions of two rows, below 100: up to there numpy computes a
    complex power by repeated multiplication, and the phases are the
    exact units [1], [-1], [i] and [-i]. *)
Theorem multiplying_twice_by_a_pauli_word (n : nat) (A : Pauli.PauliwordOp) (q : list Z) :
  (2 * n < 100)%nat ->
  Spec.pauli_wf n A -> Spec.pauli_row n q ->
  let Q := Pauli.mkPauliwordOp [q] (2 * n) [C1] in
  exists P,
    Pauli.mul A Q = Ok P /\ Pauli.n_terms P = Pauli.n_terms A /\ Pauli.mul P Q = Ok A.
Proof.
  intros _ HA Hq. exact (InvolutionFacts.mul_twice n A q HA Hq).
Qed.

Lemma multiplying_twice_by_a_pauli_word_witness :
  exists P,
    Pauli.mul (Pauli.mkPauliwordOp [[1; 0; 0; 1]; [0; 1; 1; 1]]%Z (2 * 2) [C1; Ci])
              (Pauli.mkPauliwordOp [[1; 1; 0; 1]%Z] (2 * 2) [C1]) = Ok P
    /\ Pauli.mul P (Pauli.mkPauliwordOp [[1; 1; 0; 1]%Z] (2 * 2) [C1])
       = Ok (Pauli.mkPauliwordOp [[1; 0; 0; 1]; [0; 1; 1; 1]]%Z (2 * 2) [C1; Ci]).
Proof.
  assert (W : Spec.pauli_wf 2
                (Pauli.mkPauliwordOp [[1; 0; 0; 1]; [0; 1; 1; 1]]%Z (2 * 2) [C1; Ci]))
    by (apply MultiplyFacts.pauli_wfb_spec; reflexivity).
  assert (Wq : Spec.pauli_row 2 [1; 1; 0; 1]%Z)
    by (apply MultiplyFacts.pauli_rowb_spec; reflexivity).
  destruct (multiplying_twice_by_a_pauli_word 2 _ _ ltac:(simpl; lia) W Wq)
    as (P & E1 & _ & E2).
  exists P. split; [exact E1|exact E2].
Defined.

(** ** An operator as the sum of its terms *)

Module SumFacts.

Import Pauli PauliOps Spec Shape Algebra Subscripts.
Import CplxFacts CommuteFacts BroadcastFacts MultiplyFacts CleanupFacts RotateFacts.
Import SubscriptFacts ProductFacts.
Local Open Scope C_scope.

Lemma iter_eval (nq : nat) (A : PauliwordOp) :
  pauli_wf nq A -> __iter__ A = Ok (map (term_at A) (seq 0 (n_terms A))).
Proof.
  intros HA. unfold __iter__. apply map_result_ok. intros i Hi. apply in_seq in Hi.
  rewrite (getitem_integer_eval nq A (Z.of_nat i) HA).
  assert ((Z.of_nat i <? - (2 * Z.of_nat (n_terms A)))%Z = false) as -> by lia.
  assert ((Z.of_nat i <? Z.of_nat (n_terms A))%Z = true) as -> by lia.
  rewrite Z.mod_small by lia. now rewrite Nat2Z.id.
Qed.

Lemma combine_by_index {A B : Type} (d : A) (d' : B) (l : list A) :
  forall l' : list B, length l' = length l ->
    map (fun i => (nth i l d, nth i l' d')) (seq 0 (length l)) = combine l l'.
Proof.
  induction l as [|x l IH]; intros [|y l'] L; try discriminate; [reflexivity|].
  cbn [length seq map nth combine]. f_equal.
  rewrite <- seq_shift, map_map. cbn [nth]. apply IH. simpl in L. lia.
Qed.

Lemma items_terms (A : PauliwordOp) :
  length (coeff_vec A) = length (symp_matrix A) ->
  flat_map op_terms (map (term_at A) (seq 0 (n_terms A))) = op_terms A.
Proof.
  intros Hl. rewrite flat_map_concat_map, map_map. unfold op_terms, term_at.
  cbn [symp_matrix coeff_vec combine].
  rewrite <- (combine_by_index [] C0 (symp_matrix A) (coeff_vec A) Hl).
  unfold n_terms. generalize (seq 0 (length (symp_matrix A))). intros l.
  induction l as [|i l IH]; [reflexivity|]. cbn [map concat app]. now rewrite IH.
Qed.

Lemma term_at_wf (nq : nat) (A : PauliwordOp) (i : nat) :
  pauli_wf nq A -> (i < n_terms A)%nat -> pauli_wf nq (term_at A i).
Proof.
  intros (Hc & Hl & Hr) Hi. repeat split; cbn [term_at n_cols coeff_vec symp_matrix]; auto.
  constructor; [|constructor]. apply (nth_bits nq _ _ Hr Hi).
Qed.

(** The items of an operator add up to the operator. *)
Lemma items_sum (nq : nat) (A : PauliwordOp) :
  (2 * nq <= 64)%nat -> pauli_wf nq A -> symp_matrix A <> [] ->
  exists R,
    reduce_add (map (term_at A) (seq 0 (n_terms A))) = Ok R
    /\ pauli_wf nq R
    /\ same_operator (op_terms R) (op_terms A).
Proof.
  intros Hn HA Hne.
  destruct (reduce_add_spec nq (map (term_at A) (seq 0 (n_terms A))) Hn) as (R & E & W & S).
  - apply Forall_forall. intros P HP. apply in_map_iff in HP.
    destruct HP as (i & <- & Hi). apply in_seq in Hi. apply term_at_wf; [exact HA|lia].
  - unfold n_terms. destruct (symp_matrix A); [congruence|]. discriminate.
  - exists R. rewrite items_terms in S by apply HA. auto.
Qed.

Lemma Csum_scale (k : C) (l : list C) : Csum (map (fun c => c * k) l) = Csum l * k.
Proof.
  induction l as [|c l IH]; cbn [map Csum fold_right].
  - now rewrite Cmul_0_l.
  - fold (Csum (map (fun c => c * k) l)). fold (Csum l). rewrite IH.
    generalize (Csum l). intros t. csolve.
Qed.

Lemma tcoeff_scale (k : C) (rows : matrix) :
  forall (coeffs : list C) (r : list Z),
    tcoeff (combine rows (map (fun c => c * k) coeffs)) r
    = tcoeff (combine rows coeffs) r * k.
Proof.
  unfold tcoeff. induction rows as [|a rows IH]; intros [|c coeffs] r;
    cbn [map combine filter Csum fold_right]; try (now rewrite Cmul_0_l).
  cbn [fst]. destruct (row_eqb a r).
  - cbn [map snd Csum fold_right].
    fold (Csum (map snd (filter (fun p => row_eqb (fst p) r)
                           (combine rows (map (fun c => c * k) coeffs))))).
    fold (Csum (map snd (filter (fun p => row_eqb (fst p) r) (combine rows coeffs)))).
    rewrite IH.
    generalize (Csum (map snd (filter (fun p => row_eqb (fst p) r) (combine rows coeffs)))).
    intros t. csolve.
  - apply IH.
Qed.

Lemma tcoeff_zero (rows : matrix) :
  forall (coeffs : list C) (r : list Z),
    Forall (fun c => c = C0) coeffs -> tcoeff (combine rows coeffs) r = C0.
Proof.
  unfold tcoeff. induction rows as [|a rows IH]; intros [|c coeffs] r F;
    cbn [combine filter map Csum fold_right]; try reflexivity.
  inversion F; subst. cbn [fst]. destruct (row_eqb a r).
  - cbn [map snd Csum fold_right].
    fold (Csum (map snd (filter (fun p => row_eqb (fst p) r) (combine rows coeffs)))).
    rewrite IH by assumption. apply Cadd_0_l.
  - now apply IH.
Qed.

Lemma select_none {A : Type} (l : list A) (cs : list C) :
  Forall (fun c => c = C0) cs -> select l (mask_nonzero cs) = [].
Proof.
  revert cs. induction l as [|x l IH]; intros [|c cs] F; try reflexivity.
  inversion F; subst. cbn [mask_nonzero map select]. rewrite Cabs_gtb_C0.
  now apply IH.
Qed.

Lemma all_coefficients (R : matrix) (Cs : list C) (P : C -> Prop) :
  length Cs = length R ->
  (forall j r c, nth_error R j = Some r -> nth_error Cs j = Some c -> P c) ->
  Forall P Cs.
Proof.
  intros L H. apply Forall_forall. intros c Hc.
  apply In_nth_error in Hc. destruct Hc as [j Hj].
  destruct (nth_error R j) as [r|] eqn:E.
  - exact (H j r c E Hj).
  - apply nth_error_None in E. apply nth_error_Some_lt in Hj || idtac.
    assert (j < length Cs)%nat by (apply nth_error_Some; congruence). lia.
Qed.

(** An operator minus itself. *)
Lemma sub_self (n : nat) (A : PauliwordOp) :
  (2 * n <= 64)%nat -> pauli_wf n A ->
  exists R,
    __sub__ A A = Ok R
    /\ pauli_wf n R
    /\ (forall r, In r (symp_matrix R) <-> In r (symp_matrix A))
    /\ Forall (fun c => c = C0) (coeff_vec R)
    /\ cleanup_zeros R = Ok (mkPauliwordOp [] (2 * n) []).
Proof.
  intros Hn HA. pose proof HA as (Hc & Hl & Hr). unfold __sub__.
  set (N := mkPauliwordOp (symp_matrix A) (n_cols A)
              (map (fun c => c * RtoC (-1)) (coeff_vec A))).
  assert (WN : pauli_wf n N)
    by (repeat split; cbn [N n_cols coeff_vec symp_matrix]; auto; now rewrite length_map).
  destruct (add_spec n A N Hn HA WN) as (R & E & WR & ND & S).
  exists R. split; [exact E|]. split; [exact WR|].
  pose proof WR as (Hc' & Hl' & Hr').
  assert (Z0 : Forall (fun c => c = C0) (coeff_vec R)).
  { apply (all_coefficients (symp_matrix R)); [exact Hl'|].
    intros j r c Hj Hcj.
    rewrite <- (tcoeff_once _ _ j r c ND Hj Hcj).
    fold (op_terms R). rewrite (proj2 (S r)), tcoeff_app.
    unfold op_terms, N. cbn [symp_matrix coeff_vec]. rewrite tcoeff_scale.
    generalize (tcoeff (combine (symp_matrix A) (coeff_vec A)) r). intros t. csolve. }
  split; [|split; [exact Z0|]].
  - intros r. destruct (S r) as [S1 _]. unfold op_terms in S1.
    rewrite map_app in S1. unfold N in S1. cbn [symp_matrix coeff_vec] in S1.
    rewrite !map_fst_combine in S1 by (rewrite ?length_map; lia).
    rewrite S1, in_app_iff. tauto.
  - destruct (pauli_cleanup_spec n R Hn WR) as (R' & Cs' & M & _ & _ & EZ).
    rewrite EZ. destruct M as (M1 & M2 & M3 & M4).
    assert (Z' : Forall (fun c => c = C0) Cs').
    { apply (all_coefficients R'); [exact M1|].
      intros j r c Hj Hcj. rewrite (M4 j r c Hj Hcj), coeff_of_tcoeff.
      now apply tcoeff_zero. }
    now rewrite !select_none.
Qed.

End SumFacts.

(** Iterating over an operator.  [__iter__] yields, in order, the
    one-term operators of the rows; for an operator of at most 32 qubits
    with at least one term, adding these items up with [+] gives a
    well-formed operator that denotes the operator iterated over. *)
Theorem iter_items_sum_to_operator (nq : nat) (A : Pauli.PauliwordOp) :
  Spec.pauli_wf nq A ->
  PauliOps.__iter__ A = Ok (map (Subscripts.term_at A) (seq 0 (Pauli.n_terms A)))
  /\ ((2 * nq <= 64)%nat -> Pauli.symp_matrix A <> [] ->
      exists R,
        Pauli.reduce_add (map (Subscripts.term_at A) (seq 0 (Pauli.n_terms A))) = Ok R
        /\ Spec.pauli_wf nq R
        /\ Shape.same_operator (Algebra.op_terms R) (Algebra.op_terms A)).
Proof.
  intros HA. split.
  - exact (SumFacts.iter_eval nq A HA).
  - intros Hn Hne. exact (SumFacts.items_sum nq A Hn HA Hne).
Qed.

Lemma iter_items_sum_to_operator_witness :
  PauliOps.__iter__ (Pauli.mkPauliwordOp [[1; 0]; [0; 1]]%Z 2 [C1; Ci])
  = Ok [Pauli.mkPauliwordOp [[1; 0]%Z] 2 [C1]; Pauli.mkPauliwordOp [[0; 1]%Z] 2 [Ci]].
Proof.
  assert (W : Spec.pauli_wf 1 (Pauli.mkPauliwordOp [[1; 0]; [0; 1]]%Z 2 [C1; Ci]))
    by (apply MultiplyFacts.pauli_wfb_spec; reflexivity).
  apply (proj1 (iter_items_sum_to_operator 1 _ W)).
Defined.

(** An operator minus itself.  For a well-formed operator of at most
    32 qubits whose rows are pairwise distinct, [A - A] keeps the rows
    of [A], every one with the coefficient 0, and [cleanup_zeros] then
    leaves no term.  With distinct rows every sum [cleanup] forms is
    that of a coefficient [c] and of [-c]. *)
Theorem pauli_sub_self (n : nat) (A : Pauli.PauliwordOp) :
  (2 * n <= 64)%nat -> Spec.pauli_wf n A -> NoDup (Pauli.symp_matrix A) ->
  exists R,
    PauliOps.__sub__ A A = Ok R
    /\ Spec.pauli_wf n R
    /\ (forall r, In r (Pauli.symp_matrix R) <-> In r (Pauli.symp_matrix A))
    /\ Forall (fun c => c = C0) (Pauli.coeff_vec R)
    /\ Pauli.cleanup_zeros R = Ok (Pauli.mkPauliwordOp [] (2 * n) []).
Proof.
  intros Hn HA _. exact (SumFacts.sub_self n A Hn HA).
Qed.

Lemma pauli_sub_self_witness :
  exists R,
    PauliOps.__sub__ (Pauli.mkPauliwordOp [[1; 0]; [0; 1]]%Z 2 [C1; Ci])
                     (Pauli.mkPauliwordOp [[1; 0]; [0; 1]]%Z 2 [C1; Ci]) = Ok R
    /\ Pauli.cleanup_zeros R = Ok (Pauli.mkPauliwordOp [] (2 * 1) []).
Proof.
  assert (W : Spec.pauli_wf 1 (Pauli.mkPauliwordOp [[1; 0]; [0; 1]]%Z 2 [C1; Ci]))
    by (apply MultiplyFacts.pauli_wfb_spec; reflexivity).
  assert (D : NoDup [[1; 0]; [0; 1]]%Z).
  { apply NoDup_cons; [|apply NoDup_cons; [|apply NoDup_nil]].
    - intros [H|[]]. discriminate H.
    - intros []. }
  destruct (pauli_sub_self 1 _ ltac:(simpl; lia) W D) as (R & E & _ & _ & _ & Z0).
  exists R. split; [exact E|exact Z0].
Defined.

(** ** Commutation read off the letters *)

Module LetterFacts.

Import Pauli PauliOps Spec Shape Letters.
Import CplxFacts CommuteFacts BroadcastFacts MultiplyFacts CleanupFacts RotateFacts.
Import StringFacts SubscriptFacts.

Lemma commutes_termwise_eval (n : nat) (A B : PauliwordOp) :
  pauli_wf n A -> pauli_wf n B ->
  commutes_termwise A B
  = Ok (map (fun a => map (fun b => commutes_with n b a) (symp_matrix B)) (symp_matrix A)).
Proof.
  intros (Hc & Hl & Hr) (Hc' & Hl' & Hr'). unfold commutes_termwise.
  destruct (n_qubits_even n A Hc) as [-> _].
  destruct (n_qubits_even n B Hc') as [E1 E2].
  rewrite E1, Nat.eqb_refl. cbn [assert bind].
  unfold matmul_T, X_block, Z_block. rewrite E1, E2, Hc, double_eqb.
  cbn [bind]. rewrite zip_with_map_map, !map_map. f_equal.
  apply map_ext_in. intros a Ha. rewrite !map_map. apply map_ext_in. intros b Hb.
  unfold commutes_with.
  rewrite Forall_forall in Hr, Hr'. destruct (Hr a Ha) as [La _]. destruct (Hr' b Hb) as [Lb _].
  rewrite <- (firstn_skipn n a) at 1. rewrite dot_app.
  - reflexivity.
  - rewrite length_firstn, length_skipn. lia.
Qed.

Lemma dot_comm (a : list Z) : forall b, dot a b = dot b a.
Proof.
  unfold dot, vsum. induction a as [|x a IH]; intros [|y b]; simpl; try reflexivity.
  rewrite IH. lia.
Qed.

Lemma commutes_with_sym (n : nat) (a b : list Z) :
  commutes_with n a b = commutes_with n b a.
Proof.
  unfold commutes_with, X_of, Z_of.
  rewrite (dot_comm (firstn n b)), (dot_comm (skipn n b)). f_equal. f_equal. lia.
Qed.

Lemma commutes_with_self (n : nat) (a : list Z) : commutes_with n a a = true.
Proof.
  unfold commutes_with, X_of, Z_of. rewrite (dot_comm (skipn n a)).
  apply Z.eqb_eq.
  replace (dot (firstn n a) (skipn n a) + dot (firstn n a) (skipn n a))%Z
    with (dot (firstn n a) (skipn n a) * 2)%Z by lia.
  apply Z.mod_mul. lia.
Qed.

Lemma firstn_exact {A : Type} (k : nat) (a b : list A) :
  length a = k -> firstn k (a ++ b) = a.
Proof. intros <-. apply firstn_length_app. Qed.

Lemma skipn_exact {A : Type} (k : nat) (a b : list A) :
  length a = k -> skipn k (a ++ b) = b.
Proof. intros <-. apply skipn_length_app. Qed.

Lemma dot_cons2 (x y : Z) (a b : list Z) : dot (x :: a) (y :: b) = (x * y + dot a b)%Z.
Proof. reflexivity. Qed.

Lemma clash_parity (c d : ascii) :
  valid_letter c = true -> valid_letter d = true ->
  Z.even (xbit c * zbit d + zbit c * xbit d) = negb (clash c d).
Proof.
  intros Hc Hd.
  destruct (valid_letter_cases c Hc) as [ -> | [ -> | [ -> | -> ] ] ];
    destruct (valid_letter_cases d Hd) as [ -> | [ -> | [ -> | -> ] ] ]; reflexivity.
Qed.

Lemma clashes_cons (c d : ascii) (s t : list ascii) :
  clashes (c :: s) (d :: t) = ((if clash c d then 1 else 0) + clashes s t)%nat.
Proof. unfold clashes. cbn [zip_with filter]. now destruct (clash c d). Qed.

(** Two strings commute when they clash at an even number of
    positions. *)
Lemma commutes_with_letters (s : list ascii) :
  forall t, length s = length t ->
    forallb valid_letter s = true -> forallb valid_letter t = true ->
    commutes_with (length s) (row_of_string t) (row_of_string s) = Nat.even (clashes s t).
Proof.
  intros t L Vs Vt. unfold commutes_with, X_of, Z_of, row_of_string.
  rewrite !(firstn_exact (length s)), !(skipn_exact (length s))
    by (rewrite length_map; lia).
  transitivity (Z.even (dot (map xbit s) (map zbit t) + dot (map zbit s) (map xbit t))).
  { rewrite Zeven_mod. reflexivity. }
  revert t L Vs Vt. induction s as [|c s IH]; intros [|d t] L Vs Vt; try discriminate.
  { reflexivity. }
  cbn [forallb] in Vs, Vt. apply andb_true_iff in Vs, Vt.
  destruct Vs as [Vc Vs], Vt as [Vd Vt].
  cbn [map]. rewrite !dot_cons2, clashes_cons.
  replace (xbit c * zbit d + dot (map xbit s) (map zbit t)
           + (zbit c * xbit d + dot (map zbit s) (map xbit t)))%Z
    with ((xbit c * zbit d + zbit c * xbit d)
          + (dot (map xbit s) (map zbit t) + dot (map zbit s) (map xbit t)))%Z by lia.
  rewrite Z.even_add, Nat.even_add, (clash_parity c d Vc Vd).
  rewrite (IH t) by (auto; simpl in L; lia).
  now destruct (clash c d).
Qed.

(** What [PauliwordOp(operator_list, coeff_vec)] returns. *)
Lemma init_strings_inv (l : list (list ascii)) (cs : list C) (A : PauliwordOp) :
  init_strings l cs = Ok A ->
  exists n,
    A = mkPauliwordOp (map row_of_string l) (2 * n) cs
    /\ Forall (fun s => length s = n /\ forallb valid_letter s = true) l
    /\ length l = length cs /\ l <> [].
Proof.
  unfold init_strings. destruct l as [|s0 l']; [discriminate|].
  set (l := s0 :: l'). set (n := length s0). intros E. exists n.
  assert (G : forall m : list (list ascii),
             (exists rows, map_result (fun s => string_to_symplectic s n) m = Ok rows) ->
             map_result (fun s => string_to_symplectic s n) m = Ok (map row_of_string m)
             /\ Forall (fun s => length s = n /\ forallb valid_letter s = true) m).
  { induction m as [|s m IHm]; intros [rows Hrows]; [split; [reflexivity|constructor]|].
    cbn [map_result] in *. rewrite string_to_symplectic_eval in *.
    destruct (Nat.eqb_spec (length s) n) as [Ls|]; [|discriminate].
    destruct (forallb valid_letter s) eqn:V; [|discriminate]. cbn [bind] in *.
    destruct (map_result _ m) as [r|e] eqn:Em; [|discriminate].
    destruct (IHm (ex_intro _ r eq_refl)) as [IH1 IH2].
    assert (r = map row_of_string m) as -> by congruence.
    split; [reflexivity|]. constructor; auto. }
  destruct (map_result _ l) as [rows|e] eqn:Er; [|discriminate].
  destruct (G l (ex_intro _ rows Er)) as [G1 G2].
  rewrite Er in G1. injection G1 as ->. cbn [bind] in E.
  unfold init in E.
  change (row_of_string s0 :: map row_of_string l') with (map row_of_string l) in E.
  destruct (length (map row_of_string l) =? length cs)%nat eqn:Lc;
    cbn [assert bind] in E; [|discriminate].
  apply Nat.eqb_eq in Lc.
  destruct (forallb _ _); cbn [assert bind] in E; [|discriminate]. injection E as <-.
  rewrite length_map in Lc. repeat split; auto. discriminate.
Qed.

Lemma row_of_string_row (n : nat) (s : list ascii) :
  length s = n -> forallb valid_letter s = true -> pauli_row n (row_of_string s).
Proof.
  intros L V.
  assert (E : string_to_symplectic s n = Ok (row_of_string s)).
  { rewrite string_to_symplectic_eval, L, Nat.eqb_refl, V. reflexivity. }
  apply (string_round_trip s n _ E).
Qed.

Lemma init_strings_wf (l : list (list ascii)) (cs : list C) (A : PauliwordOp) :
  init_strings l cs = Ok A ->
  exists n,
    pauli_wf n A /\ symp_matrix A = map row_of_string l
    /\ Forall (fun s => length s = n /\ forallb valid_letter s = true) l.
Proof.
  intros E. destruct (init_strings_inv l cs A E) as (n & -> & F & L & Hne).
  exists n. split; [|split; [reflexivity|exact F]].
  repeat split; cbn [n_cols coeff_vec symp_matrix].
  - rewrite length_map. lia.
  - apply Forall_forall. intros r Hr. apply in_map_iff in Hr.
    destruct Hr as (s & <- & Hs). rewrite Forall_forall in F.
    destruct (F s Hs). now apply row_of_string_row.
Qed.

Lemma entry_map2 {A B D : Type} (f : A -> B -> D) (la : list A) (lb : list B) (i j : nat) :
  entry (map (fun a => map (f a) lb) la) i j
  = match nth_error la i, nth_error lb j with
    | Some a, Some b => Some (f a b)
    | _, _ => None
    end.
Proof.
  unfold entry. rewrite nth_error_map. destruct (nth_error la i) as [a|]; [|reflexivity].
  cbn [option_map]. rewrite nth_error_map. now destruct (nth_error lb j).
Qed.

(** [commutes_termwise] of two operators built from strings. *)
Lemma commutes_termwise_strings (lA lB : list (list ascii)) (cA cB : list C)
  (A B : PauliwordOp) :
  init_strings lA cA = Ok A -> init_strings lB cB = Ok B ->
  commutes_termwise A B
  = if (n_qubits A =? n_qubits B)%nat
    then Ok (map (fun s => map (fun t => Nat.even (clashes s t)) lB) lA)
    else Raise (AssertionError 6).
Proof.
  intros EA EB.
  destruct (init_strings_wf _ _ _ EA) as (nA & WA & RA & FA).
  destruct (init_strings_wf _ _ _ EB) as (nB & WB & RB & FB).
  destruct (n_qubits_even nA A (proj1 WA)) as [QA _].
  destruct (n_qubits_even nB B (proj1 WB)) as [QB _].
  destruct (Nat.eqb_spec (n_qubits A) (n_qubits B)) as [E|E].
  - assert (H : nB = nA) by congruence. rewrite H in WB, FB.
    rewrite (commutes_termwise_eval nA A B WA WB), RA, RB, map_map. f_equal.
    apply map_ext_in. intros s Hs. rewrite map_map. apply map_ext_in. intros t Ht.
    rewrite Forall_forall in FA, FB.
    destruct (FA s Hs) as [Ls Vs]. destruct (FB t Ht) as [Lt Vt].
    rewrite <- Ls. apply commutes_with_letters; auto. lia.
  - unfold commutes_termwise. apply Nat.eqb_neq in E. now rewrite E.
Qed.

(** The adjacency matrix is symmetric and its diagonal is true. *)
Lemma pauli_adjacency (n : nat) (A : PauliwordOp) :
  pauli_wf n A ->
  exists M,
    adjacency_matrix A = Ok M
    /\ (forall i j, entry M i j = entry M j i)
    /\ (forall i, (i < n_terms A)%nat -> entry M i i = Some true).
Proof.
  intros HA. unfold adjacency_matrix. rewrite (commutes_termwise_eval n A A HA HA).
  eexists. split; [reflexivity|]. split.
  - intros i j. rewrite !(entry_map2 (fun a b => commutes_with n b a)).
    destruct (nth_error (symp_matrix A) i), (nth_error (symp_matrix A) j); try reflexivity.
    now rewrite commutes_with_sym.
  - intros i Hi. rewrite (entry_map2 (fun a b => commutes_with n b a)).
    destruct (nth_error (symp_matrix A) i) as [r|] eqn:E.
    + now rewrite commutes_with_self.
    + apply nth_error_None in E. unfold n_terms in Hi. lia.
Qed.

End LetterFacts.

(** [commutes_termwise] read on the strings.  For two operators
    built from lists of strings, [commutes_termwise] fails its assertion
    when the numbers of qubits differ; otherwise its entry for the string
    [s] of the first and the string [t] of the second is true exactly
    when the number of positions at which [s] and [t] hold different
    letters, neither of them I, is even. *)
Theorem commutes_termwise_by_letters (lA lB : list (list ascii)) (cA cB : list C)
  (A B : Pauli.PauliwordOp) :
  Pauli.init_strings lA cA = Ok A -> Pauli.init_strings lB cB = Ok B ->
  Pauli.commutes_termwise A B
  = if (Pauli.n_qubits A =? Pauli.n_qubits B)%nat
    then Ok (map (fun s => map (fun t => Nat.even (Letters.clashes s t)) lB) lA)
    else Raise (AssertionError 6).
Proof.
  intros EA EB. exact (LetterFacts.commutes_termwise_strings lA lB cA cB A B EA EB).
Qed.

Lemma commutes_termwise_by_letters_witness :
  exists A B,
    Pauli.init_strings [["X"; "Y"; "X"; "Z"]; ["Y"; "Y"; "I"; "I"]]%char [C1; C1] = Ok A
    /\ Pauli.init_strings
         [["Y"; "Y"; "Z"; "Z"]; ["X"; "I"; "X"; "Z"]; ["X"; "Z"; "Z"; "I"]]%char
         [C1; C1; C1] = Ok B
    /\ Pauli.commutes_termwise A B
       = Ok [[true; true; true]; [true; false; true]].
Proof.
  eexists. eexists. split; [reflexivity|]. split; [reflexivity|].
  apply (commutes_termwise_by_letters
           [["X"; "Y"; "X"; "Z"]; ["Y"; "Y"; "I"; "I"]]%char
           [["Y"; "Y"; "Z"; "Z"]; ["X"; "I"; "X"; "Z"]; ["X"; "Z"; "Z"; "I"]]%char
           [C1; C1] [C1; C1; C1] _ _ eq_refl eq_refl).
Defined.

(** The adjacency matrix of a well-formed operator is symmetric, and
    every term commutes with itself: the diagonal is true. *)
Theorem pauli_adjacency_matrix_symmetric (n : nat) (A : Pauli.PauliwordOp) :
  Spec.pauli_wf n A ->
  exists M,
    PauliOps.adjacency_matrix A = Ok M
    /\ (forall i j, Spec.entry M i j = Spec.entry M j i)
    /\ (forall i, (i < Pauli.n_terms A)%nat -> Spec.entry M i i = Some true).
Proof.
  intros HA. exact (LetterFacts.pauli_adjacency n A HA).
Qed.

Lemma pauli_adjacency_matrix_symmetric_witness :
  exists M,
    PauliOps.adjacency_matrix
      (Pauli.mkPauliwordOp [[1; 0; 0; 1]; [0; 1; 1; 1]]%Z 4 [C1; Ci]) = Ok M
    /\ Spec.entry M 0 1 = Spec.entry M 1 0.
Proof.
  assert (W : Spec.pauli_wf 2 (Pauli.mkPauliwordOp [[1; 0; 0; 1]; [0; 1; 1; 1]]%Z 4 [C1; Ci]))
    by (apply MultiplyFacts.pauli_wfb_spec; reflexivity).
  destruct (pauli_adjacency_matrix_symmetric 2 _ W) as (M & E & S & _).
  exists M. split; [exact E|apply S].
Defined.

(** ** Qubit-wise commutation *)

Module QubitwiseFacts.

Import Pauli PauliOps Spec Shape Letters.
Import CplxFacts CommuteFacts BroadcastFacts MultiplyFacts CleanupFacts RotateFacts.
Import StringFacts SubscriptFacts LetterFacts.

Lemma broadcast2_rows {A B D : Type} (f : A -> B -> D) (n : nat) (u : list A) (v : list B) :
  length u = n -> length v = n ->
  broadcast2 f n [u] n [v] = Ok (n, [zip_with f u v]).
Proof.
  intros Lu Lv. unfold broadcast2. cbn [length].
  rewrite !compatible_refl, broadcast_dim_same. cbn [andb].
  rewrite stretch_same_length by reflexivity. cbn [zip_with].
  rewrite stretch_same_length by lia. reflexivity.
Qed.

Lemma mask_select_row (n : nat) (u : list Z) (mask : list bool) :
  mask_select n [u] n [mask] = Ok (select u mask).
Proof.
  unfold mask_select. cbn [length concat]. rewrite !Nat.eqb_refl, !app_nil_r. reflexivity.
Qed.

Lemma qwc_eval (n : nat) (a b : list Z) (ca cb : C) :
  pauli_row n a -> pauli_row n b ->
  let mask := zip_with andb (non_I (firstn n a) (skipn n a))
                            (non_I (firstn n b) (skipn n b)) in
  qwc_single_Pword (mkPauliwordOp [a] (2 * n) [ca]) (mkPauliwordOp [b] (2 * n) [cb])
  = Ok (same_on mask (firstn n a) (firstn n b) && same_on mask (skipn n a) (skipn n b)).
Proof.
  intros Ha Hb mask. unfold qwc_single_Pword.
  destruct (n_qubits_even n (mkPauliwordOp [a] (2 * n) [ca]) eq_refl) as [E1 E2].
  destruct (n_qubits_even n (mkPauliwordOp [b] (2 * n) [cb]) eq_refl) as [E3 E4].
  destruct (row_halves n a Ha) as [La1 La2]. destruct (row_halves n b Hb) as [Lb1 Lb2].
  unfold n_terms, X_block, Z_block. rewrite E1, E2, E3, E4.
  cbn [symp_matrix length Nat.eqb assert bind map].
  rewrite !broadcast2_rows by assumption. cbn [bind fst snd].
  rewrite broadcast2_rows
    by (rewrite zip_with_length; lia).
  cbn [bind fst snd]. rewrite !mask_select_row. cbn [bind]. reflexivity.
Qed.

Lemma same_on_cons (m : bool) (mask : list bool) (x y : Z) (u v : list Z) :
  same_on (m :: mask) (x :: u) (y :: v)
  = (if m then (Z.lxor x y =? 0)%Z else true) && same_on mask u v.
Proof.
  unfold same_on. cbn [select]. destruct m; [|reflexivity].
  cbn [zip_with map forallb]. now rewrite negb_involutive.
Qed.

Lemma agree_letters (c d : ascii) :
  valid_letter c = true -> valid_letter d = true ->
  let m := negb (Z.lor (xbit c) (zbit c) =? 0)%Z && negb (Z.lor (xbit d) (zbit d) =? 0)%Z in
  (if m then (Z.lxor (xbit c) (xbit d) =? 0)%Z else true)
  && (if m then (Z.lxor (zbit c) (zbit d) =? 0)%Z else true)
  = negb (clash c d).
Proof.
  intros Hc Hd.
  destruct (valid_letter_cases c Hc) as [ -> | [ -> | [ -> | -> ] ] ];
    destruct (valid_letter_cases d Hd) as [ -> | [ -> | [ -> | -> ] ] ]; reflexivity.
Qed.

Lemma qwc_letters (s : list ascii) :
  forall t, length s = length t ->
    forallb valid_letter s = true -> forallb valid_letter t = true ->
    let mask := zip_with andb (non_I (map xbit s) (map zbit s))
                              (non_I (map xbit t) (map zbit t)) in
    same_on mask (map xbit s) (map xbit t) && same_on mask (map zbit s) (map zbit t)
    = (clashes s t =? 0)%nat.
Proof.
  induction s as [|c s IH]; intros [|d t] L Vs Vt; try discriminate.
  { reflexivity. }
  cbn [forallb] in Vs, Vt. apply andb_true_iff in Vs, Vt.
  destruct Vs as [Vc Vs], Vt as [Vd Vt].
  specialize (IH t ltac:(simpl in L; lia) Vs Vt). cbn zeta in IH |- *.
  unfold non_I in *. cbn [map zip_with]. rewrite !same_on_cons, clashes_cons.
  pose proof (agree_letters c d Vc Vd) as AG. cbn zeta in AG.
  set (m := negb (Z.lor (xbit c) (zbit c) =? 0)%Z && negb (Z.lor (xbit d) (zbit d) =? 0)%Z) in *.
  set (hx := if m then (Z.lxor (xbit c) (xbit d) =? 0)%Z else true) in *.
  set (hz := if m then (Z.lxor (zbit c) (zbit d) =? 0)%Z else true) in *.
  match goal with
  | |- hx && ?FX && (hz && ?FZ) = _ =>
      transitivity ((hx && hz) && (FX && FZ)); [now destruct hx, hz, FX, FZ|]
  end.
  rewrite IH, AG. destruct (clash c d); reflexivity.
Qed.

(** Qubit-wise commutation of two strings: no position at which they
    clash. *)
Lemma qwc_strings (s t : list ascii) (c d : C) (A B : PauliwordOp) :
  init_strings [s] [c] = Ok A -> init_strings [t] [d] = Ok B -> length s = length t ->
  qwc_single_Pword A B = Ok (clashes s t =? 0)%nat
  /\ commutes A B = Ok (Nat.even (clashes s t)).
Proof.
  intros EA EB L.
  destruct (init_strings_inv _ _ _ EA) as (n & -> & FA & _ & _).
  destruct (init_strings_inv _ _ _ EB) as (n' & -> & FB & _ & _).
  inversion FA as [|? ? [Ls Vs] _]; subst. inversion FB as [|? ? [Lt Vt] _]; subst.
  rewrite <- L. cbn [map].
  pose proof (row_of_string_row _ s eq_refl Vs) as Hs.
  pose proof (row_of_string_row _ t (eq_sym L) Vt) as Ht.
  split.
  - rewrite (qwc_eval (length s) _ _ c d Hs Ht). cbn zeta. unfold row_of_string.
    rewrite !(firstn_exact (length s)), !(skipn_exact (length s))
      by (rewrite length_map; lia).
    f_equal. now apply qwc_letters.
  - unfold commutes.
    rewrite (commutes_termwise_eval (length s)).
    + cbn [bind symp_matrix map forallb]. rewrite !andb_true_r. f_equal.
      now apply commutes_with_letters.
    + repeat split; cbn [n_cols coeff_vec symp_matrix]; auto.
    + repeat split; cbn [n_cols coeff_vec symp_matrix]; auto.
Qed.

End QubitwiseFacts.

(** Qubit-wise commutation.  For two one-term operators built from
    strings [s] and [t] of the same length, [qwc_single_Pword] is true
    exactly when no position holds two different letters other than I,
    and [commutes] is true exactly when the number of such positions is
    even; so two terms that commute qubit-wise commute. *)
Theorem qubitwise_commutation_by_letters (s t : list ascii) (c d : C)
  (A B : Pauli.PauliwordOp) :
  Pauli.init_strings [s] [c] = Ok A -> Pauli.init_strings [t] [d] = Ok B ->
  length s = length t ->
  PauliOps.qwc_single_Pword A B = Ok (Letters.clashes s t =? 0)%nat
  /\ Pauli.commutes A B = Ok (Nat.even (Letters.clashes s t)).
Proof.
  intros EA EB L. exact (QubitwiseFacts.qwc_strings s t c d A B EA EB L).
Qed.

Lemma qubitwise_commutation_by_letters_witness :
  exists A B,
    Pauli.init_strings [["X"; "Y"; "I"]]%char [C1] = Ok A
    /\ Pauli.init_strings [["X"; "I"; "Z"]]%char [Ci] = Ok B
    /\ PauliOps.qwc_single_Pword A B = Ok true.
Proof.
  eexists. eexists. split; [reflexivity|]. split; [reflexivity|].
  apply (proj1 (qubitwise_commutation_by_letters
                  ["X"; "Y"; "I"]%char ["X"; "I"; "Z"]%char C1 Ci _ _
                  eq_refl eq_refl eq_refl)).
Defined.

(** ** Modes of a Majorana term *)

Module ModeFacts.

Import BubbleSort Majorana MajoranaOps Spec Shape Modes.
Import CplxFacts BubbleSortFacts CommuteFacts BroadcastFacts CleanupFacts.

Lemma larger_before_app (a : Z) (l1 l2 : list Z) :
  larger_before a (l1 ++ l2) = (larger_before a l1 + larger_before a l2)%nat.
Proof. induction l1 as [|b l1 IH]; simpl; [reflexivity|]. rewrite IH. lia. Qed.

Lemma inversions_app (l1 l2 : list Z) :
  inversions (l1 ++ l2) = (inversions l1 + cross l1 l2 + inversions l2)%nat.
Proof.
  induction l1 as [|a l1 IH]; simpl; [reflexivity|].
  rewrite larger_before_app, IH. lia.
Qed.

(** The modes of a row come in increasing order. *)
Lemma active_modes_from (v : list Z) :
  forall o : nat,
    StronglySorted Z.lt
      (map (fun p => Z.of_nat (snd p))
           (filter (fun p => negb (fst p =? 0)%Z) (combine v (seq o (length v)))))
    /\ Forall (fun k => (Z.of_nat o <= k)%Z)
         (map (fun p => Z.of_nat (snd p))
              (filter (fun p => negb (fst p =? 0)%Z) (combine v (seq o (length v))))).
Proof.
  induction v as [|x v IH]; intros o; cbn [length seq combine filter map].
  - split; constructor.
  - destruct (IH (S o)) as [St F]. cbn [fst].
    assert (F' : Forall (fun k => (Z.of_nat o < k)%Z)
                   (map (fun p => Z.of_nat (snd p))
                      (filter (fun p => negb (fst p =? 0)%Z)
                         (combine v (seq (S o) (length v))))))
      by (eapply Forall_impl; [|exact F]; cbn; intros; lia).
    destruct (negb (x =? 0)%Z); cbn [map snd].
    + split; constructor; auto; [lia|].
      eapply Forall_impl; [|exact F']. cbn. intros; lia.
    + split; [exact St|]. eapply Forall_impl; [|exact F']. cbn. intros; lia.
Qed.

Lemma active_modes_increasing (v : list Z) : StronglySorted Z.lt (active_modes v).
Proof. apply (active_modes_from v 0). Qed.

Lemma active_modes_sorted (v : list Z) : Sorted Z.le (active_modes v).
Proof.
  apply StronglySorted_Sorted.
  pose proof (active_modes_increasing v) as H.
  induction H as [|a l Hs IH F]; constructor; auto.
  eapply Forall_impl; [|exact F]. cbn. intros; lia.
Qed.

Lemma sign_dict_parity (k : nat) :
  sign_dict (k mod 2) = if Nat.even k then 1%Z else (-1)%Z.
Proof.
  destruct (Nat.even k) eqn:E.
  - apply Nat.even_spec in E. destruct E as [m ->].
    rewrite Nat.mul_comm, Nat.Div0.mod_mul. reflexivity.
  - assert (O : Nat.odd k = true) by (rewrite <- Nat.negb_even, E; reflexivity).
    apply Nat.odd_spec in O. destruct O as [m ->].
    replace (2 * m + 1)%nat with (1 + m * 2)%nat by lia.
    rewrite Nat.Div0.mod_add. reflexivity.
Qed.

(** The sign [__mul__] takes from [bubble_sort_maj]. *)
Lemma product_sign (a b : list Z) :
  snd (bubble_sort_maj (active_modes a ++ active_modes b)) = reorder_sign a b.
Proof.
  unfold bubble_sort_maj, reorder_sign.
  destruct (bubble_sort_count_correct (active_modes a ++ active_modes b)) as (_ & _ & I).
  destruct (bubble_sort_count _) as [arr cnt]. cbn [snd] in *. subst cnt.
  rewrite sign_dict_parity, inversions_app.
  rewrite !(sorted_no_inversions _ (active_modes_sorted _)).
  now rewrite Nat.add_0_l, Nat.add_0_r.
Qed.

End ModeFacts.

(** ** Pairs of modes out of order *)

Module PairFacts.

Import BubbleSort Majorana MajoranaOps Spec Shape Modes.
Import CplxFacts BubbleSortFacts CommuteFacts BroadcastFacts CleanupFacts ModeFacts.

Lemma cnt_cons_l (P : Z -> Z -> bool) (x : Z) (la lb : list Z) :
  cnt P (x :: la) lb = (length (filter (P x) lb) + cnt P la lb)%nat.
Proof. reflexivity. Qed.

Lemma cnt_nil_r (P : Z -> Z -> bool) (la : list Z) : cnt P la [] = O.
Proof. induction la as [|x la IH]; [reflexivity|]. now rewrite cnt_cons_l, IH. Qed.

Lemma cnt_cons_r (P : Z -> Z -> bool) (la : list Z) (y : Z) (lb : list Z) :
  cnt P la (y :: lb) = (length (filter (fun x => P x y) la) + cnt P la lb)%nat.
Proof.
  induction la as [|x la IH]; [reflexivity|].
  rewrite !cnt_cons_l, IH. cbn [filter]. destruct (P x y); cbn [length]; lia.
Qed.

Lemma cnt_swap (P : Z -> Z -> bool) (la lb : list Z) :
  cnt P la lb = cnt (fun y x => P x y) lb la.
Proof.
  induction la as [|x la IH].
  - now rewrite cnt_nil_r.
  - rewrite cnt_cons_l, IH, (cnt_cons_r (fun y x => P x y)). reflexivity.
Qed.

Lemma cross_cnt (la lb : list Z) : cross la lb = cnt Z.gtb la lb.
Proof.
  induction la as [|x la IH]; [reflexivity|]. rewrite cnt_cons_l. cbn [cross].
  rewrite IH. f_equal.
  clear. induction lb as [|y lb IH]; [reflexivity|]. cbn [larger_before filter].
  rewrite IH. destruct (x >? y)%Z; cbn [length]; lia.
Qed.

Lemma three_ways (x : Z) (lb : list Z) :
  (length (filter (Z.gtb x) lb) + length (filter (fun y => (y >? x)%Z) lb)
   + length (filter (Z.eqb x) lb) = length lb)%nat.
Proof.
  induction lb as [|y lb IH]; [reflexivity|]. cbn [filter length].
  destruct (Z.gtb_spec x y), (Z.gtb_spec y x), (Z.eqb_spec x y); cbn [length]; lia.
Qed.

(** Of the pairs of a mode of [la] and a mode of [lb], those in
    which the first is larger, those in which the second is larger,
    and those of equal modes. *)
Lemma pairs_split (la lb : list Z) :
  (cross la lb + cross lb la + cnt Z.eqb la lb = length la * length lb)%nat.
Proof.
  rewrite !cross_cnt, (cnt_swap Z.gtb lb la).
  induction la as [|x la IH]; [reflexivity|]. rewrite !cnt_cons_l. cbn [length].
  pose proof (three_ways x lb). lia.
Qed.

Lemma modes_from_cons (o : nat) (x : Z) (v : list Z) :
  modes_from o (x :: v)
  = (if negb (x =? 0)%Z then [Z.of_nat o] else []) ++ modes_from (S o) v.
Proof.
  unfold modes_from. cbn [length seq combine filter fst].
  now destruct (negb (x =? 0)%Z).
Qed.

Lemma modes_from_bound (o : nat) (v : list Z) :
  Forall (fun k => (Z.of_nat o <= k)%Z) (modes_from o v).
Proof. apply (active_modes_from v o). Qed.

Lemma filter_none (f : Z -> bool) (l : list Z) :
  Forall (fun k => f k = false) l -> filter f l = [].
Proof. induction 1 as [|k l Hk _ IH]; [reflexivity|]. cbn [filter]. now rewrite Hk. Qed.

Lemma cnt_eq_above (o : nat) (la lb : list Z) :
  Forall (fun k => (Z.of_nat (S o) <= k)%Z) la ->
  cnt Z.eqb la (Z.of_nat o :: lb) = cnt Z.eqb la lb.
Proof.
  intros F. rewrite cnt_cons_r, filter_none; [reflexivity|].
  eapply Forall_impl; [|exact F]. cbn. intros k Hk. apply Z.eqb_neq. lia.
Qed.

Lemma common_modes_from (a : list Z) :
  forall (b : list Z) (o : nat),
    cnt Z.eqb (modes_from o a) (modes_from o b) = both a b.
Proof.
  induction a as [|x a IH]; intros b o.
  - reflexivity.
  - destruct b as [|y b].
    + unfold both. cbn [zip_with filter length]. change (modes_from o []) with (@nil Z).
      apply cnt_nil_r.
    + rewrite !modes_from_cons. unfold both. cbn [zip_with filter].
      fold (both a b). specialize (IH b (S o)).
      pose proof (modes_from_bound (S o) a) as Fa.
      pose proof (modes_from_bound (S o) b) as Fb.
      assert (N : filter (Z.eqb (Z.of_nat o)) (modes_from (S o) b) = []).
      { apply filter_none. eapply Forall_impl; [|exact Fb]. cbn. intros k Hk.
        apply Z.eqb_neq. lia. }
      destruct (negb (x =? 0)%Z), (negb (y =? 0)%Z); cbn [app andb].
      * rewrite cnt_cons_l. cbn [filter]. rewrite Z.eqb_refl, N. cbn [length].
        rewrite cnt_eq_above by exact Fa. now rewrite IH.
      * rewrite cnt_cons_l, N. cbn [length]. now rewrite IH.
      * rewrite cnt_eq_above by exact Fa. exact IH.
      * exact IH.
Qed.

Lemma both_bits (a : list Z) :
  forall b, bits a -> bits b -> Z.of_nat (both a b) = dot a b.
Proof.
  unfold both, dot, vsum.
  induction a as [|x a IH]; intros [|y b] Ba Bb; try reflexivity.
  inversion Ba; inversion Bb; subst. cbn [zip_with filter fold_right].
  rewrite <- (IH b) by assumption.
  destruct H1 as [-> | ->], H5 as [-> | ->]; cbn [Z.eqb negb andb length]; lia.
Qed.

Lemma modes_count (a : list Z) : bits a -> Z.of_nat (length (active_modes a)) = vsum a.
Proof.
  intros B. rewrite (vsum_bits a B). f_equal. unfold active_modes, popcount.
  rewrite length_map.
  generalize 0%nat. induction a as [|x a IH]; intros o; [reflexivity|].
  inversion B; subst. cbn [length seq combine filter fst].
  destruct (negb (x =? 0)%Z); cbn [length]; rewrite (IH H2 (S o)); reflexivity.
Qed.

(** The two orders of a product have the same sign exactly when
    [sa * sb + o] is even. *)
Lemma signs_agree (a b : list Z) :
  bits a -> bits b ->
  Z.eqb (reorder_sign a b) (reorder_sign b a)
  = Z.even (vsum a * vsum b + dot a b).
Proof.
  intros Ba Bb. unfold reorder_sign.
  pose proof (pairs_split (active_modes a) (active_modes b)) as P.
  change (active_modes a) with (modes_from 0 a) in P at 3.
  change (active_modes b) with (modes_from 0 b) in P at 3.
  rewrite common_modes_from in P.
  rewrite <- (modes_count a Ba), <- (modes_count b Bb), <- (both_bits a b Ba Bb).
  rewrite <- Nat2Z.inj_mul, <- Nat2Z.inj_add, <- P.
  set (p := cross (active_modes a) (active_modes b)) in *.
  set (q := cross (active_modes b) (active_modes a)) in *.
  replace (Z.of_nat (p + q + both a b + both a b)) with (Z.of_nat (p + q) + 2 * Z.of_nat (both a b))%Z
    by lia.
  rewrite Z.even_add_mul_2, Nat2Z.inj_add, Z.even_add.
  assert (E : forall k, Z.even (Z.of_nat k) = Nat.even k).
  { intros k. rewrite <- Nat.negb_odd, <- Z.negb_odd. f_equal.
    induction k as [|k IH]; [reflexivity|].
    rewrite Nat2Z.inj_succ, Z.odd_succ, Nat.odd_succ, <- Z.negb_odd, IH.
    now rewrite Nat.negb_odd. }
  rewrite !E. destruct (Nat.even p), (Nat.even q); reflexivity.
Qed.

End PairFacts.

(** ** Majorana operators of one term *)

Module SingleTermFacts.

Import BubbleSort Majorana MajoranaOps Spec Shape Modes.
Import CplxFacts BubbleSortFacts CommuteFacts BroadcastFacts CleanupFacts DimensionFacts.
Import CleanupOnceFacts ModeFacts PairFacts.
Local Open Scope C_scope.

Lemma modes_from_zeros (k o : nat) : modes_from o (repeat 0%Z k) = [].
Proof.
  revert o. induction k as [|k IH]; intros o; [reflexivity|].
  cbn [repeat]. rewrite modes_from_cons. cbn [Z.eqb negb app]. apply IH.
Qed.

Lemma modes_from_pad (a : list Z) (k : nat) :
  forall o, modes_from o (a ++ repeat 0%Z k) = modes_from o a.
Proof.
  induction a as [|x a IH]; intros o.
  - cbn [app]. now rewrite modes_from_zeros.
  - cbn [app]. rewrite !modes_from_cons. now rewrite IH.
Qed.

Lemma active_modes_padded (w : nat) (a : list Z) :
  active_modes (padded w a) = active_modes a.
Proof. apply (modes_from_pad a (w - length a) 0). Qed.

Lemma logical_xor_comm (u : list Z) :
  forall v, zip_with logical_xor u v = zip_with logical_xor v u.
Proof.
  induction u as [|x u IH]; intros [|y v]; try reflexivity.
  cbn [zip_with]. rewrite IH. f_equal. unfold logical_xor. now rewrite xorb_comm.
Qed.

Lemma merge_rows_single (w : nat) (x : list Z) (c : C) :
  merge_rows w [x] [c] = ([x], [c]).
Proof. apply merge_rows_fixed; [reflexivity|]. repeat constructor. Qed.

Lemma merge_rows_pair (w : nat) (x : list Z) (u v : C) :
  merge_rows w [x; x] [u; v] = ([x], [u + (v + C0)]).
Proof.
  unfold merge_rows, matvec64, argsort, sort_by_key, unique_counts, sort_by_key.
  cbn [map length seq combine fold_right insert_by_key fst snd].
  rewrite !Z.leb_refl. cbn [map snd take nth fst fold_right insert_by_key].
  rewrite !Z.leb_refl. cbn [map fst run_lengths]. rewrite Z.eqb_refl.
  reflexivity.
Qed.

Lemma merge_rows_none (w : nat) : merge_rows w [] [] = ([], []).
Proof. reflexivity. Qed.

Lemma cleanup_single (w : nat) (x : list Z) (c : C) :
  Nat.even w = true ->
  cleanup (mkMajoranaOp [x] w [c] true) = Ok (single w x c).
Proof.
  intros He. rewrite (majorana_cleanup_ok (mkMajoranaOp [x] w [c] true) He).
  cbn [n_sites symp_matrix coeff_vec]. rewrite merge_rows_single. cbn [fst snd].
  unfold single, mask_nonzero. cbn [map select].
  now destruct (Cabs_gtb c (1 / 10 ^ 15)).
Qed.

Lemma cleanup_pair (w : nat) (x : list Z) (u v : C) :
  Nat.even w = true ->
  cleanup (mkMajoranaOp [x; x] w [u; v] true) = Ok (single w x (u + (v + C0))).
Proof.
  intros He. rewrite (majorana_cleanup_ok (mkMajoranaOp [x; x] w [u; v] true) He).
  cbn [n_sites symp_matrix coeff_vec]. rewrite merge_rows_pair. cbn [fst snd].
  unfold single, mask_nonzero. cbn [map select].
  now destruct (Cabs_gtb (u + (v + C0)) (1 / 10 ^ 15)).
Qed.

Lemma cleanup_none (w : nat) :
  Nat.even w = true ->
  cleanup (mkMajoranaOp [] w [] true) = Ok (mkMajoranaOp [] w [] true).
Proof. intros He. now rewrite (majorana_cleanup_ok (mkMajoranaOp [] w [] true) He). Qed.

Lemma cleanup_of_single (w : nat) (x : list Z) (c : C) :
  Nat.even w = true -> cleanup (single w x c) = Ok (single w x c).
Proof.
  intros He. unfold single at 1. destruct (Cabs_gtb c (1 / 10 ^ 15)) eqn:E.
  - rewrite cleanup_single by exact He. reflexivity.
  - rewrite cleanup_none by exact He. unfold single. now rewrite E.
Qed.

(** The product of two one-term operators. *)
Lemma mul_single_terms (nA nB : nat) (a b : list Z) (ca cb : C) (fA fB : bool) :
  Nat.even nA = true -> Nat.even nB = true -> length a = nA -> length b = nB ->
  let w := Nat.max nA nB in
  mul (mkMajoranaOp [a] nA [ca] fA) (mkMajoranaOp [b] nB [cb] fB)
  = Ok (single w (zip_with logical_xor (padded w a) (padded w b))
          (ca * cb * RtoC (IZR (reorder_sign a b)))).
Proof.
  intros EA EB La Lb w. unfold mul.
  rewrite widen_spec
    by (repeat split; cbn [n_sites coeff_vec symp_matrix]; auto).
  cbn [n_sites symp_matrix coeff_vec]. fold w.
  unfold pad_columns. cbn [map combine flat_map app fst snd].
  fold (padded w a) (padded w b).
  rewrite !active_modes_padded, product_sign.
  rewrite majorana_init_array2 by (try reflexivity; now apply max_even).
  cbn [bind]. apply cleanup_single. now apply max_even.
Qed.

Lemma single_sites (w : nat) (x : list Z) (c : C) : n_sites (single w x c) = w.
Proof. unfold single. now destruct (Cabs_gtb c (1 / 10 ^ 15)). Qed.

Lemma single_wf (w : nat) (x : list Z) (c : C) :
  Nat.even w = true -> length x = w -> majorana_wf (single w x c).
Proof.
  intros He L. unfold single.
  destruct (Cabs_gtb c (1 / 10 ^ 15)); repeat split; cbn; auto.
Qed.

(** The sum of two one-term operators on the same row, both kept or
    both dropped by [cleanup]. *)
Lemma add_singles (w : nat) (x : list Z) (c d d' : C) (f : bool) :
  Nat.even w = true -> length x = w ->
  Cabs_gtb c (1 / 10 ^ 15) = Cabs_gtb d (1 / 10 ^ 15) ->
  let Q := mkMajoranaOp (symp_matrix (single w x d)) w
             (map (fun _ => d') (coeff_vec (single w x d))) f in
  add (single w x c) Q
  = Ok (if Cabs_gtb c (1 / 10 ^ 15) then single w x (c + (d' + C0))
        else mkMajoranaOp [] w [] true).
Proof.
  intros He L E Q. unfold add.
  assert (WQ : majorana_wf Q).
  { subst Q. unfold single. destruct (Cabs_gtb d (1 / 10 ^ 15)); repeat split; cbn; auto. }
  rewrite (widen_spec _ _ (single_wf w x c He L) WQ).
  subst Q. cbn [n_sites]. rewrite single_sites, Nat.max_id.
  rewrite !pad_columns_id.
  2:{ cbn [symp_matrix]. unfold single. destruct (Cabs_gtb d (1 / 10 ^ 15)); cbn; auto. }
  2:{ unfold single. destruct (Cabs_gtb c (1 / 10 ^ 15)); cbn; auto. }
  cbn [symp_matrix coeff_vec]. unfold single at 1 2 3 4. rewrite <- E.
  destruct (Cabs_gtb c (1 / 10 ^ 15)); cbn [symp_matrix coeff_vec app map].
  - rewrite majorana_init_array2 by (try reflexivity; exact He). cbn [bind].
    now apply cleanup_pair.
  - rewrite majorana_init_array2 by (try reflexivity; exact He). cbn [bind].
    now apply cleanup_none.
Qed.

End SingleTermFacts.

(** ** Sums and products of operators over different numbers of sites *)

Module WidthFacts.

Import BubbleSort Majorana Spec Shape Modes Widths.
Import CommuteFacts BroadcastFacts CleanupFacts DimensionFacts EqualityFacts.
Import ModeFacts SingleTermFacts.
Local Open Scope C_scope.

Lemma bits_padded (w : nat) (r : list Z) : bits r -> bits (padded w r).
Proof.
  intros H. unfold padded, bits. apply Forall_app. split; [exact H|].
  apply Forall_forall. intros x Hx. apply repeat_spec in Hx. now left.
Qed.

Lemma combine_map_fst {A B D : Type} (g : A -> D) (l : list A) (c : list B) :
  combine (map g l) c = map (fun p => (g (fst p), snd p)) (combine l c).
Proof.
  revert c. induction l as [|x l IH]; intros [|y c]; simpl; try reflexivity.
  now rewrite IH.
Qed.

Lemma map_fst_combine_eq {A B : Type} (l : list A) (c : list B) :
  length c = length l -> map fst (combine l c) = l.
Proof.
  revert c. induction l as [|x l IH]; intros [|y c] H; simpl; try discriminate;
    [reflexivity|]. now rewrite IH by (simpl in H; lia).
Qed.

Lemma map_snd_combine_eq {A B : Type} (l : list A) (c : list B) :
  length c = length l -> map snd (combine l c) = c.
Proof.
  revert c. induction l as [|x l IH]; intros [|y c] H; simpl; try discriminate;
    [reflexivity|]. now rewrite IH by (simpl in H; lia).
Qed.

(** The rows and the coefficients of the terms of a sum. *)
Lemma padded_sum_rows (w : nat) (A B : MajoranaOp) :
  majorana_wf A -> majorana_wf B ->
  map fst (padded_terms w (majorana_terms A ++ majorana_terms B))
  = map (padded w) (symp_matrix A) ++ map (padded w) (symp_matrix B)
  /\ map snd (padded_terms w (majorana_terms A ++ majorana_terms B))
     = coeff_vec A ++ coeff_vec B.
Proof.
  intros (_ & LA & _) (_ & LB & _). unfold padded_terms, majorana_terms.
  rewrite !map_map. cbn [fst snd]. rewrite !map_app. split.
  - rewrite <- !(map_map fst (padded w)).
    now rewrite !map_fst_combine_eq by assumption.
  - now rewrite !map_snd_combine_eq by assumption.
Qed.

Lemma rows_of_width (w : nat) (M : MajoranaOp) :
  majorana_wf M -> (n_sites M <= w)%nat ->
  Forall (fun r => length r = w) (map (padded w) (symp_matrix M)).
Proof.
  intros (_ & _ & H) L. apply Forall_forall. intros r Hr.
  apply in_map_iff in Hr. destruct Hr as (a & <- & Ha).
  rewrite Forall_forall in H. apply padded_length. now rewrite (H a Ha).
Qed.

(** [cleanup], with the rows it keeps and, up to 64 columns, the
    terms it merges. *)
Lemma majorana_cleanup_terms (M : MajoranaOp) :
  Nat.even (n_sites M) = true ->
  length (coeff_vec M) = length (symp_matrix M) ->
  exists R,
    cleanup M = Ok R
    /\ n_sites R = n_sites M
    /\ (forall r, In r (symp_matrix R) -> In r (symp_matrix M))
    /\ ((n_sites M <= 64)%nat -> bit_rows (n_sites M) (symp_matrix M) ->
        exists R0 Cs,
          merged_spec (symp_matrix M) (coeff_vec M) R0 Cs
          /\ R = mkMajoranaOp (select R0 (mask_nonzero Cs)) (n_sites M)
                   (select Cs (mask_nonzero Cs)) true).
Proof.
  intros He Hl. destruct (majorana_cleanup_rows M He Hl) as (R & E & N & I).
  exists R. repeat (split; [assumption|]).
  intros Hn Hb. destruct (majorana_cleanup_spec M Hn He Hb Hl) as (R0 & Cs & S & E').
  exists R0, Cs. split; [exact S|]. rewrite E in E'. now injection E'.
Qed.

(** Addition of Majorana operators over any two numbers of sites. *)
Lemma majorana_add_padded (A B : MajoranaOp) :
  majorana_wf A -> majorana_wf B ->
  let w := Nat.max (n_sites A) (n_sites B) in
  exists R,
    add A B = Ok R
    /\ n_sites R = w
    /\ (forall r, In r (symp_matrix R) ->
                  exists a, In a (symp_matrix A ++ symp_matrix B) /\ r = padded w a)
    /\ ((w <= 64)%nat ->
        Forall bits (symp_matrix A) -> Forall bits (symp_matrix B) ->
        cleaned_terms w (padded_terms w (majorana_terms A ++ majorana_terms B)) R).
Proof.
  intros HA HB w. unfold add. rewrite (widen_spec A B HA HB). fold w.
  rewrite !pad_columns_rows.
  destruct (padded_sum_rows w A B HA HB) as [ER EC].
  pose proof (rows_of_width w A HA ltac:(unfold w; lia)) as WA.
  pose proof (rows_of_width w B HB ltac:(unfold w; lia)) as WB.
  pose proof HA as (EA & LA & _). pose proof HB as (EB & LB & _).
  assert (Ew : Nat.even w = true) by (apply max_even; assumption).
  assert (Ll : length (map (padded w) (symp_matrix A) ++ map (padded w) (symp_matrix B))
               = length (coeff_vec A ++ coeff_vec B))
    by (rewrite !length_app, !length_map; lia).
  rewrite majorana_init_array2 by assumption. cbn [bind].
  match goal with
  | |- exists R, cleanup ?M = Ok R /\ _ =>
      destruct (majorana_cleanup_terms M Ew (eq_sym Ll)) as (R & E & N & I & S)
  end.
  cbn [n_sites symp_matrix coeff_vec] in *.
  exists R. split; [exact E|]. split; [exact N|]. split.
  - intros r Hr. apply I in Hr. rewrite <- map_app in Hr.
    apply in_map_iff in Hr. destruct Hr as (a & <- & Ha). now exists a.
  - intros Hw BA BB. unfold cleaned_terms. rewrite ER, EC. apply S; [exact Hw|].
    apply Forall_app. split; apply Forall_forall; intros r Hr.
    + split; [rewrite Forall_forall in WA; now apply WA|].
      apply in_map_iff in Hr. destruct Hr as (a & <- & Ha).
      apply bits_padded. rewrite Forall_forall in BA. now apply BA.
    + split; [rewrite Forall_forall in WB; now apply WB|].
      apply in_map_iff in Hr. destruct Hr as (a & <- & Ha).
      apply bits_padded. rewrite Forall_forall in BB. now apply BB.
Qed.

Lemma bits_logical_xor (u : list Z) : forall v, bits (zip_with logical_xor u v).
Proof.
  induction u as [|x u IH]; intros [|y v]; cbn [zip_with]; try constructor.
  - unfold logical_xor. destruct (xorb _ _); auto.
  - apply IH.
Qed.

(** The products [__mul__] forms, read as terms. *)
Lemma products_padded (w : nat) (A B : MajoranaOp) :
  flat_map
    (fun '(vec1, c1) =>
       map (fun '(vec2, c2) =>
              (zip_with logical_xor vec1 vec2,
               c1 * c2
               * RtoC (IZR (snd (bubble_sort_maj (active_modes vec1 ++ active_modes vec2))))))
           (combine (map (padded w) (symp_matrix B)) (coeff_vec B)))
    (combine (map (padded w) (symp_matrix A)) (coeff_vec A))
  = padded_products w (majorana_terms A) (majorana_terms B).
Proof.
  unfold padded_products, majorana_terms. rewrite !combine_map_fst.
  rewrite flat_map_concat_map, map_map, <- flat_map_concat_map.
  apply flat_map_ext. intros [a ca]. cbn [fst snd]. rewrite map_map.
  apply map_ext. intros [b cb]. cbn [fst snd].
  now rewrite !active_modes_padded, product_sign.
Qed.

Lemma padded_products_rows (w : nat) (LA LB : terms) (r : list Z) :
  In r (map fst (padded_products w LA LB)) ->
  exists a b, In a (map fst LA) /\ In b (map fst LB)
              /\ r = zip_with logical_xor (padded w a) (padded w b).
Proof.
  intros H. apply in_map_iff in H. destruct H as ([r' c] & E & H). cbn in E. subst r'.
  unfold padded_products in H. apply in_flat_map in H. destruct H as (p & Hp & H).
  apply in_map_iff in H. destruct H as (q & E & Hq). injection E as E _.
  exists (fst p), (fst q). repeat split; [now apply in_map|now apply in_map|now symmetry].
Qed.

(** Multiplication of Majorana operators over any two numbers of
    sites. *)
Lemma majorana_mul_padded (A B : MajoranaOp) :
  majorana_wf A -> majorana_wf B ->
  let w := Nat.max (n_sites A) (n_sites B) in
  exists R,
    mul A B = Ok R
    /\ n_sites R = w
    /\ (forall r, In r (symp_matrix R) ->
                  exists a b, In a (symp_matrix A) /\ In b (symp_matrix B)
                              /\ r = zip_with logical_xor (padded w a) (padded w b))
    /\ ((w <= 64)%nat ->
        cleaned_terms w (padded_products w (majorana_terms A) (majorana_terms B)) R).
Proof.
  intros HA HB w. unfold mul. rewrite (widen_spec A B HA HB). fold w.
  rewrite !pad_columns_rows, products_padded.
  pose proof HA as (EA & LA & RA). pose proof HB as (EB & LB & RB).
  assert (Ew : Nat.even w = true) by (apply max_even; assumption).
  set (L := padded_products w (majorana_terms A) (majorana_terms B)).
  assert (Ll : length (map fst L) = length (map snd L)) by now rewrite !length_map.
  rewrite majorana_init_array2 by assumption. cbn [bind].
  destruct (majorana_cleanup_terms (mkMajoranaOp (map fst L) w (map snd L) true)
              Ew (eq_sym Ll)) as (R & E & N & I & S).
  cbn [n_sites symp_matrix coeff_vec] in *.
  assert (Rows : forall r, In r (map fst L) ->
                 exists a b, In a (symp_matrix A) /\ In b (symp_matrix B)
                             /\ r = zip_with logical_xor (padded w a) (padded w b)).
  { intros r Hr. apply padded_products_rows in Hr.
    destruct Hr as (a & b & Ha & Hb & Er). unfold majorana_terms in Ha, Hb.
    rewrite map_fst_combine_eq in Ha, Hb by assumption. now exists a, b. }
  exists R. split; [exact E|]. split; [exact N|]. split.
  - intros r Hr. apply Rows. now apply I.
  - intros Hw. apply S; [exact Hw|].
    apply Forall_forall. intros r Hr. destruct (Rows r Hr) as (a & b & Ha & Hb & ->).
    split; [|apply bits_logical_xor].
    rewrite Forall_forall in RA, RB.
    rewrite zip_with_length, !padded_length; [lia| |].
    + rewrite (RB b Hb). unfold w. lia.
    + rewrite (RA a Ha). unfold w. lia.
Qed.

(** The product of [γ0] over two sites with [γ2] over four sites. *)
Lemma gamma0_times_gamma2 :
  mul (mkMajoranaOp [[1; 0]%Z] 2 [C1] true) (mkMajoranaOp [[0; 0; 1; 0]%Z] 4 [C1] true)
  = Ok (mkMajoranaOp [[1; 0; 1; 0]%Z] 4 [C1 * C1 * RtoC 1] true).
Proof.
  rewrite (mul_single_terms 2 4 [1; 0]%Z [0; 0; 1; 0]%Z C1 C1 true true)
    by reflexivity.
  cbn [Nat.max]. unfold single.
  replace (reorder_sign [1; 0]%Z [0; 0; 1; 0]%Z) with 1%Z by reflexivity.
  replace (Cabs_gtb (C1 * C1 * RtoC 1) (1 / 10 ^ 15)) with true; [reflexivity|].
  replace (C1 * C1 * RtoC 1) with C1 by (symmetry; csolve).
  symmetry. apply Cabs_gtb_C1.
Qed.

End WidthFacts.

(** C6, as the code has it.  Addition and multiplication of
    [MajoranaOp]s over different numbers of sites both succeed and
    return an operator over the larger number of sites.  The rows of
    both operands are brought to that number of columns by trailing
    zeros: every row of the sum is such a padded row of one of the
    operands, every row of the product marks the modes that are in
    exactly one of a padded row of the first and a padded row of the
    second operand; up to 64 sites the sum is what [cleanup] makes of
    the padded terms of both operands, and the product what it makes of
    the products of their padded terms.  [MajoranaOp.commutes_termwise]
    does not fail either: for operands over different numbers of sites
    it counts the shared modes over the common columns.  The
    [PauliwordOp] operations assert equal numbers of qubits instead:
    addition, multiplication and the termwise commutation test all fail
    on operands over different numbers of qubits. *)
Theorem dimension_mismatch_behaviour :
  (forall A B : Majorana.MajoranaOp,
      Shape.majorana_wf A -> Shape.majorana_wf B ->
      let w := Nat.max (Majorana.n_sites A) (Majorana.n_sites B) in
      let s := Nat.min (Majorana.n_sites A) (Majorana.n_sites B) in
      (exists R,
          Majorana.add A B = Ok R
          /\ Majorana.n_sites R = w
          /\ (forall r, In r (Majorana.symp_matrix R) ->
                        exists a, In a (Majorana.symp_matrix A ++ Majorana.symp_matrix B)
                                  /\ r = Modes.padded w a)
          /\ ((w <= 64)%nat ->
              Forall Spec.bits (Majorana.symp_matrix A) ->
              Forall Spec.bits (Majorana.symp_matrix B) ->
              Widths.cleaned_terms w
                (Widths.padded_terms w
                   (Widths.majorana_terms A ++ Widths.majorana_terms B)) R))
      /\ (exists R,
             Majorana.mul A B = Ok R
             /\ Majorana.n_sites R = w
             /\ (forall r, In r (Majorana.symp_matrix R) ->
                           exists a b,
                             In a (Majorana.symp_matrix A) /\ In b (Majorana.symp_matrix B)
                             /\ r = zip_with Majorana.logical_xor
                                      (Modes.padded w a) (Modes.padded w b))
             /\ ((w <= 64)%nat ->
                 Widths.cleaned_terms w
                   (Widths.padded_products w
                      (Widths.majorana_terms A) (Widths.majorana_terms B)) R))
      /\ (forall i j rowA rowB,
             nth_error (Majorana.symp_matrix A) i = Some rowA ->
             nth_error (Majorana.symp_matrix B) j = Some rowB ->
             Spec.entry (Majorana.commutes_termwise A B) i j
             = Some ((vsum rowA * vsum rowB
                      + dot (firstn s rowA) (firstn s rowB) + 1) mod 2)%Z))
  /\ (forall P Q : Pauli.PauliwordOp,
         Pauli.n_qubits P <> Pauli.n_qubits Q ->
         Pauli.add P Q = Raise (AssertionError 6)
         /\ Pauli.mul P Q = Raise (AssertionError 6)
         /\ Pauli.commutes_termwise P Q = Raise (AssertionError 6)).
Proof.
  split.
  - intros A B HA HB w s. split; [|split].
    + now apply WidthFacts.majorana_add_padded.
    + now apply WidthFacts.majorana_mul_padded.
    + intros i j rowA rowB Hi Hj.
      exact (CommuteFacts.commutes_termwise_entry A B i j rowA rowB Hi Hj).
  - exact DimensionFacts.pauli_mismatch_fails.
Qed.

(** Every row of the sum of [γ0] over two sites and [γ3] over four
    sites is [1 0 0 0] or [0 0 0 1]; the product of [γ0] over two sites
    with [γ2] over four sites is over four sites and its rows are
    [1 0 1 0]; the sum of the Pauli operators [X] and [XX] raises. *)
Lemma dimension_mismatch_behaviour_witness :
  (exists R,
      Majorana.add (Majorana.mkMajoranaOp [[1; 0]%Z] 2 [C1] true)
                   (Majorana.mkMajoranaOp [[0; 0; 0; 1]%Z] 4 [C1] true) = Ok R
      /\ Majorana.n_sites R = 4%nat
      /\ forall r, In r (Majorana.symp_matrix R) ->
                   r = [1; 0; 0; 0]%Z \/ r = [0; 0; 0; 1]%Z)
  /\ (exists R,
         Majorana.mul (Majorana.mkMajoranaOp [[1; 0]%Z] 2 [C1] true)
                      (Majorana.mkMajoranaOp [[0; 0; 1; 0]%Z] 4 [C1] true) = Ok R
         /\ Majorana.n_sites R = 4%nat
         /\ forall r, In r (Majorana.symp_matrix R) -> r = [1; 0; 1; 0]%Z)
  /\ Pauli.add (Pauli.mkPauliwordOp [[1; 0]%Z] 2 [C1])
               (Pauli.mkPauliwordOp [[1; 1; 0; 0]%Z] 4 [C1])
     = Raise (AssertionError 6).
Proof.
  split; [|split].
  - destruct (proj1 dimension_mismatch_behaviour
                (Majorana.mkMajoranaOp [[1; 0]%Z] 2 [C1] true)
                (Majorana.mkMajoranaOp [[0; 0; 0; 1]%Z] 4 [C1] true))
      as ((R & E & N & I & _) & _).
    + apply DimensionFacts.majorana_wfb_spec. reflexivity.
    + apply DimensionFacts.majorana_wfb_spec. reflexivity.
    + exists R. split; [exact E|]. split; [exact N|].
      intros r Hr. destruct (I r Hr) as (a & Ha & ->).
      destruct Ha as [<-|[<-|[]]]; [left|right]; reflexivity.
  - destruct (proj1 dimension_mismatch_behaviour
                (Majorana.mkMajoranaOp [[1; 0]%Z] 2 [C1] true)
                (Majorana.mkMajoranaOp [[0; 0; 1; 0]%Z] 4 [C1] true))
      as (_ & (R & E & N & I & _) & _).
    + apply DimensionFacts.majorana_wfb_spec. reflexivity.
    + apply DimensionFacts.majorana_wfb_spec. reflexivity.
    + exists R. split; [exact E|]. split; [exact N|].
      intros r Hr. destruct (I r Hr) as (a & b & Ha & Hb & ->).
      destruct Ha as [<-|[]]. destruct Hb as [<-|[]]. reflexivity.
  - apply (proj2 dimension_mismatch_behaviour
             (Pauli.mkPauliwordOp [[1; 0]%Z] 2 [C1])
             (Pauli.mkPauliwordOp [[1; 1; 0; 0]%Z] 4 [C1])).
    vm_compute. discriminate.
Defined.

(** Addition does not succeed for every pair of operators over
    different dimensions, and multiplication does not fail for every
    such pair: the sum of the Pauli operators [X] and [XX] raises, and
    the product of the Majorana operators [γ0] over two sites and [γ2]
    over four sites is computed. *)
Lemma dimension_claim_fails :
  (~ exists R,
        Pauli.add (Pauli.mkPauliwordOp [[1; 0]%Z] 2 [C1])
                  (Pauli.mkPauliwordOp [[1; 1; 0; 0]%Z] 4 [C1]) = Ok R)
  /\ (~ exists e,
          Majorana.mul (Majorana.mkMajoranaOp [[1; 0]%Z] 2 [C1] true)
                       (Majorana.mkMajoranaOp [[0; 0; 1; 0]%Z] 4 [C1] true) = Raise e).
Proof.
  split.
  - intros [R H].
    destruct (DimensionFacts.pauli_mismatch_fails
                (Pauli.mkPauliwordOp [[1; 0]%Z] 2 [C1])
                (Pauli.mkPauliwordOp [[1; 1; 0; 0]%Z] 4 [C1])) as (E & _);
      [vm_compute; discriminate|].
    rewrite E in H. discriminate.
  - intros [e H]. rewrite WidthFacts.gamma0_times_gamma2 in H. discriminate.
Qed.

(** ** Commutators of Majorana terms *)

Module CommutatorFacts.

Import BubbleSort Majorana MajoranaOps Spec Shape Modes.
Import CplxFacts BubbleSortFacts CommuteFacts BroadcastFacts CleanupFacts DimensionFacts.
Import CleanupOnceFacts ModeFacts PairFacts SingleTermFacts.
Local Open Scope C_scope.

Lemma reorder_sign_cases (a b : list Z) :
  reorder_sign a b = 1%Z \/ reorder_sign a b = (-1)%Z.
Proof. unfold reorder_sign. destruct (Nat.even _); auto. Qed.

Lemma Cabs_opp (c : C) : Cabs (c * RtoC (-1)) = Cabs c.
Proof.
  unfold Cabs. f_equal. destruct c as [x y]. cbv [Cmul RtoC fst snd]. ring.
Qed.

Lemma Cabs_sign (c : C) (s : Z) :
  s = 1%Z \/ s = (-1)%Z -> Cabs (c * RtoC (IZR s)) = Cabs c.
Proof.
  intros [-> | ->]; [|apply Cabs_opp].
  replace (c * RtoC 1) with c; [reflexivity|]. csolve.
Qed.

Lemma Cabs_gtb_sign (c : C) (s : Z) (t : R) :
  s = 1%Z \/ s = (-1)%Z -> Cabs_gtb (c * RtoC (IZR s)) t = Cabs_gtb c t.
Proof. intros H. unfold Cabs_gtb. now rewrite (Cabs_sign c s H). Qed.

Lemma Cabs_double (c : C) : Cabs (c + c) = (2 * Cabs c)%R.
Proof.
  unfold Cabs. destruct c as [x y]. cbv [Cadd fst snd].
  replace ((x + x) * (x + x) + (y + y) * (y + y))%R
    with ((2 * 2) * (x * x + y * y))%R by ring.
  rewrite sqrt_mult_alt by lra. rewrite sqrt_square by lra. reflexivity.
Qed.

Lemma Cabs_gtb_double (c : C) (t : R) :
  Cabs_gtb c t = true -> Cabs_gtb (c + c) t = true.
Proof.
  unfold Cabs_gtb. rewrite Cabs_double.
  destruct (Rlt_dec t (Cabs c)) as [H|]; [|discriminate]. intros _.
  destruct (Rlt_dec t (2 * Cabs c)) as [|H']; [reflexivity|].
  exfalso. apply H'. assert (0 <= Cabs c)%R by apply sqrt_pos. lra.
Qed.

Lemma negate_single (w : nat) (x : list Z) (d : C) :
  map (fun c => c * RtoC (-1)) (coeff_vec (single w x d))
  = map (fun _ => d * RtoC (-1)) (coeff_vec (single w x d)).
Proof. unfold single. now destruct (Cabs_gtb d (1 / 10 ^ 15)). Qed.

Lemma same_single (w : nat) (x : list Z) (d : C) (f : bool) :
  mkMajoranaOp (symp_matrix (single w x d)) w
    (map (fun c => c) (coeff_vec (single w x d))) true
  = single w x d.
Proof. unfold single. now destruct (Cabs_gtb d (1 / 10 ^ 15)). Qed.

Lemma n_terms_single (w : nat) (x : list Z) (c : C) :
  n_terms (single w x c) = if Cabs_gtb c (1 / 10 ^ 15) then 1%nat else 0%nat.
Proof. unfold single. now destruct (Cabs_gtb c (1 / 10 ^ 15)). Qed.

Lemma phase_of_single (w : nat) (x : list Z) (c : C) :
  phase_factors_included (single w x c) = true.
Proof. unfold single. now destruct (Cabs_gtb c (1 / 10 ^ 15)). Qed.

Section TwoTerms.

Variables (nA nB : nat) (a b : list Z) (ca cb : C) (fA fB : bool).
Hypothesis (EA : Nat.even nA = true) (EB : Nat.even nB = true).
Hypothesis (La : length a = nA) (Lb : length b = nB).

Lemma two_products :
  let w := Nat.max nA nB in
  let x := zip_with logical_xor (padded w a) (padded w b) in
  let c1 := ca * cb * RtoC (IZR (reorder_sign a b)) in
  let c2 := cb * ca * RtoC (IZR (reorder_sign b a)) in
  mul (mkMajoranaOp [a] nA [ca] fA) (mkMajoranaOp [b] nB [cb] fB) = Ok (single w x c1)
  /\ mul (mkMajoranaOp [b] nB [cb] fB) (mkMajoranaOp [a] nA [ca] fA) = Ok (single w x c2)
  /\ Cabs_gtb c1 (1 / 10 ^ 15) = Cabs_gtb (ca * cb) (1 / 10 ^ 15)
  /\ Cabs_gtb c2 (1 / 10 ^ 15) = Cabs_gtb (ca * cb) (1 / 10 ^ 15)
  /\ Nat.even w = true /\ length x = w.
Proof.
  intros w x c1 c2.
  split; [apply (mul_single_terms nA nB a b ca cb fA fB EA EB La Lb)|].
  split.
  { rewrite (mul_single_terms nB nA b a cb ca fB fA EB EA Lb La).
    cbv zeta. rewrite (Nat.max_comm nB nA). fold w.
    now rewrite (logical_xor_comm (padded w b) (padded w a)). }
  split; [apply Cabs_gtb_sign, reorder_sign_cases|].
  split; [unfold c2; rewrite (Cmul_comm cb ca); apply Cabs_gtb_sign, reorder_sign_cases|].
  split; [now apply max_even|].
  unfold x, padded. rewrite zip_with_length, !length_app, !repeat_length.
  unfold w. lia.
Qed.

(** The commutator of two one-term operators. *)
Lemma commutator_single_terms :
  let w := Nat.max nA nB in
  let x := zip_with logical_xor (padded w a) (padded w b) in
  let c1 := ca * cb * RtoC (IZR (reorder_sign a b)) in
  let c2 := cb * ca * RtoC (IZR (reorder_sign b a)) in
  commutator (mkMajoranaOp [a] nA [ca] fA) (mkMajoranaOp [b] nB [cb] fB)
  = Ok (if Cabs_gtb (ca * cb) (1 / 10 ^ 15)
        then single w x (c1 + (c2 * RtoC (-1) + C0))
        else mkMajoranaOp [] w [] true).
Proof.
  intros w x c1 c2.
  destruct two_products as (E1 & E2 & G1 & G2 & Ew & Lx). fold w x c1 c2 in E1, E2, G1, G2, Ew, Lx.
  unfold commutator. rewrite E1, E2. cbn [bind]. unfold __sub__.
  rewrite single_sites, negate_single.
  rewrite (add_singles w x c1 c2 (c2 * RtoC (-1)) _ Ew Lx) by congruence.
  cbn [bind]. rewrite G1. destruct (Cabs_gtb (ca * cb) (1 / 10 ^ 15)).
  - now apply cleanup_of_single.
  - now apply cleanup_none.
Qed.

(** The anticommutator of two one-term operators. *)
Lemma anticommutator_single_terms :
  let w := Nat.max nA nB in
  let x := zip_with logical_xor (padded w a) (padded w b) in
  let c1 := ca * cb * RtoC (IZR (reorder_sign a b)) in
  let c2 := cb * ca * RtoC (IZR (reorder_sign b a)) in
  anticommutator (mkMajoranaOp [a] nA [ca] fA) (mkMajoranaOp [b] nB [cb] fB)
  = Ok (if Cabs_gtb (ca * cb) (1 / 10 ^ 15)
        then single w x (c1 + (c2 + C0))
        else mkMajoranaOp [] w [] true).
Proof.
  intros w x c1 c2.
  destruct two_products as (E1 & E2 & G1 & G2 & Ew & Lx). fold w x c1 c2 in E1, E2, G1, G2, Ew, Lx.
  unfold anticommutator. rewrite E1, E2. cbn [bind].
  pose proof (add_singles w x c1 c2 c2 true Ew Lx ltac:(congruence)) as H.
  cbv zeta in H.
  replace (map (fun _ : C => c2) (coeff_vec (single w x c2)))
    with (map (fun c : C => c) (coeff_vec (single w x c2))) in H
    by (unfold single; now destruct (Cabs_gtb c2 (1 / 10 ^ 15))).
  rewrite same_single in H by exact true. rewrite H.
  cbn [bind]. rewrite G1. destruct (Cabs_gtb (ca * cb) (1 / 10 ^ 15)).
  - now apply cleanup_of_single.
  - now apply cleanup_none.
Qed.

Lemma commutes_single_terms :
  commutes (mkMajoranaOp [a] nA [ca] fA) (mkMajoranaOp [b] nB [cb] fB)
  = Ok (negb (Cabs_gtb (ca * cb) (1 / 10 ^ 15))
        || Z.eqb (reorder_sign a b) (reorder_sign b a)).
Proof.
  unfold commutes. rewrite commutator_single_terms. cbn [bind].
  destruct (Cabs_gtb (ca * cb) (1 / 10 ^ 15)) eqn:G; [|reflexivity].
  cbn [negb orb]. rewrite n_terms_single. f_equal.
  destruct (reorder_sign_cases a b) as [-> | ->], (reorder_sign_cases b a) as [-> | ->];
    cbn [Z.eqb Pos.eqb].
  - replace (ca * cb * RtoC 1 + (cb * ca * RtoC 1 * RtoC (-1) + C0)) with C0 by csolve.
    now rewrite Cabs_gtb_C0.
  - replace (ca * cb * RtoC 1 + (cb * ca * RtoC (-1) * RtoC (-1) + C0))
      with (ca * cb * RtoC 1 + ca * cb * RtoC 1) by csolve.
    rewrite Cabs_gtb_double; [reflexivity|].
    rewrite (Cabs_gtb_sign _ 1%Z) by auto. exact G.
  - replace (ca * cb * RtoC (-1) + (cb * ca * RtoC 1 * RtoC (-1) + C0))
      with (ca * cb * RtoC (-1) + ca * cb * RtoC (-1)) by csolve.
    rewrite Cabs_gtb_double; [reflexivity|].
    rewrite (Cabs_gtb_sign _ (-1)%Z) by auto. exact G.
  - replace (ca * cb * RtoC (-1) + (cb * ca * RtoC (-1) * RtoC (-1) + C0)) with C0 by csolve.
    now rewrite Cabs_gtb_C0.
Qed.

End TwoTerms.

Lemma dot_firstn (a : list Z) :
  forall (b : list Z) (m : nat),
    (Nat.min (length a) (length b) <= m)%nat -> dot (firstn m a) (firstn m b) = dot a b.
Proof.
  unfold dot, vsum.
  induction a as [|x a IH]; intros b m H.
  - now destruct m.
  - destruct b as [|y b].
    + destruct m; reflexivity.
    + destruct m as [|m]; [simpl in H; lia|].
      cbn [firstn zip_with fold_right]. rewrite IH by (simpl in H; lia). reflexivity.
Qed.

Lemma parity_flag (v : Z) : (((v + 1) mod 2 =? 1) = Z.even v)%Z.
Proof.
  rewrite <- Z.negb_odd, <- (Z.even_succ v), Zeven_mod. unfold Z.succ.
  pose proof (Z.mod_pos_bound (v + 1) 2 ltac:(lia)).
  destruct (Z.eqb_spec ((v + 1) mod 2) 1), (Z.eqb_spec ((v + 1) mod 2) 0); cbn; lia.
Qed.

(** The entry of [commutes_termwise] for two one-term operators. *)
Lemma termwise_single_terms (nA nB : nat) (a b : list Z) (ca cb : C) (fA fB : bool) :
  length a = nA -> length b = nB ->
  commutes_termwise (mkMajoranaOp [a] nA [ca] fA) (mkMajoranaOp [b] nB [cb] fB)
  = [[((vsum a * vsum b + dot a b + 1) mod 2)%Z]].
Proof.
  intros La Lb. unfold commutes_termwise.
  cbn [n_sites symp_matrix sum_axis1 map combine].
  rewrite dot_firstn; [reflexivity|].
  rewrite La, Lb. destruct (Nat.eqb_spec nA nB); cbn [negb]; lia.
Qed.

End CommutatorFacts.

(** [commutes] against [commutes_termwise].  For two one-term
    operators on rows of bits [a] and [b], over any two even numbers of
    sites, [commutes_termwise] has the single entry
    [e = (sa*sb + o + 1) mod 2], and [commutes], which goes through the
    two products and their difference, returns true exactly when [e] is
    1, provided the product of the two coefficients is above the
    threshold of [cleanup]; below it the products are dropped and
    [commutes] returns true whatever the terms. *)
Theorem majorana_commutes_agrees_with_termwise
  (nA nB : nat) (a b : list Z) (ca cb : C) (fA fB : bool) :
  Nat.even nA = true -> Nat.even nB = true -> length a = nA -> length b = nB ->
  Spec.bits a -> Spec.bits b ->
  let A := Majorana.mkMajoranaOp [a] nA [ca] fA in
  let B := Majorana.mkMajoranaOp [b] nB [cb] fB in
  exists e,
    Majorana.commutes_termwise A B = [[e]]
    /\ MajoranaOps.commutes A B
       = Ok (negb (Cabs_gtb (ca * cb) (1 / 10 ^ 15)) || (e =? 1)%Z).
Proof.
  intros EA EB La Lb Ba Bb A B. subst A B.
  exists ((vsum a * vsum b + dot a b + 1) mod 2)%Z. split.
  - now apply CommutatorFacts.termwise_single_terms.
  - rewrite (CommutatorFacts.commutes_single_terms nA nB a b ca cb fA fB EA EB La Lb).
    now rewrite (PairFacts.signs_agree a b Ba Bb), CommutatorFacts.parity_flag.
Qed.

Lemma majorana_commutes_agrees_with_termwise_witness :
  exists e,
    Majorana.commutes_termwise
      (Majorana.mkMajoranaOp [[1; 1; 0; 0]%Z] 4 [C1] true)
      (Majorana.mkMajoranaOp [[0; 1]%Z] 2 [Ci] true) = [[e]]
    /\ MajoranaOps.commutes
         (Majorana.mkMajoranaOp [[1; 1; 0; 0]%Z] 4 [C1] true)
         (Majorana.mkMajoranaOp [[0; 1]%Z] 2 [Ci] true)
       = Ok (negb (Cabs_gtb (C1 * Ci) (1 / 10 ^ 15)) || (e =? 1)%Z).
Proof.
  apply (majorana_commutes_agrees_with_termwise 4 2 [1; 1; 0; 0]%Z [0; 1]%Z C1 Ci true true);
    try reflexivity; apply MultiplyFacts.bitsb_spec; reflexivity.
Defined.

(** ** The Majorana modes *)

Module GammaFacts.

Import BubbleSort Majorana MajoranaOps Spec Shape Modes.
Import CplxFacts BubbleSortFacts CommuteFacts BroadcastFacts CleanupFacts DimensionFacts.
Import CleanupOnceFacts ModeFacts PairFacts SingleTermFacts CommutatorFacts.
Local Open Scope C_scope.

Lemma gamma_length (n j : nat) : length (gamma n j) = n.
Proof. unfold gamma. now rewrite length_map, length_seq. Qed.

Lemma modes_from_gamma (j m : nat) :
  forall o,
    modes_from o (map (fun i => if (i =? j)%nat then 1%Z else 0%Z) (seq o m))
    = if ((o <=? j) && (j <? o + m))%nat then [Z.of_nat j] else [].
Proof.
  induction m as [|m IH]; intros o.
  - cbn [seq map]. destruct (Nat.leb_spec o j), (Nat.ltb_spec j (o + 0)); cbn; try lia;
      reflexivity.
  - cbn [seq map]. rewrite modes_from_cons, IH.
    destruct (Nat.eqb_spec o j) as [->|Hne].
    + cbn [Z.eqb negb app].
      destruct (Nat.leb_spec (S j) j), (Nat.leb_spec j j), (Nat.ltb_spec j (j + S m));
        cbn [andb]; try lia; reflexivity.
    + cbn [Z.eqb negb app].
      destruct (Nat.leb_spec (S o) j), (Nat.leb_spec o j), (Nat.ltb_spec j (S o + m)),
        (Nat.ltb_spec j (o + S m)); cbn [andb]; try lia; reflexivity.
Qed.

Lemma active_modes_gamma (n j : nat) : (j < n)%nat -> active_modes (gamma n j) = [Z.of_nat j].
Proof.
  intros H. change (active_modes (gamma n j)) with (modes_from 0 (gamma n j)).
  unfold gamma. rewrite modes_from_gamma.
  destruct (Nat.leb_spec 0 j), (Nat.ltb_spec j (0 + n)); cbn [andb]; try lia; reflexivity.
Qed.

Lemma reorder_sign_gamma (n j k : nat) :
  (j < n)%nat -> (k < n)%nat ->
  reorder_sign (gamma n j) (gamma n k) = if (k <? j)%nat then (-1)%Z else 1%Z.
Proof.
  intros Hj Hk. unfold reorder_sign. rewrite !active_modes_gamma by assumption.
  cbn [cross larger_before].
  destruct (Z.gtb_spec (Z.of_nat j) (Z.of_nat k)), (Nat.ltb_spec k j); try lia; reflexivity.
Qed.

Lemma padded_full (n : nat) (r : list Z) : length r = n -> padded n r = r.
Proof. intros L. unfold padded. rewrite L, Nat.sub_diag. apply app_nil_r. Qed.

Lemma xor_self (r : list Z) : zip_with logical_xor r r = repeat 0%Z (length r).
Proof.
  induction r as [|x r IH]; [reflexivity|]. cbn [zip_with length repeat].
  rewrite IH. f_equal. unfold logical_xor. now rewrite xorb_nilpotent.
Qed.

Lemma Cabs_gtb_one_one : Cabs_gtb (C1 * C1) (1 / 10 ^ 15) = true.
Proof. replace (C1 * C1) with C1 by csolve. apply Cabs_gtb_C1. Qed.

Lemma Cabs_gtb_two : Cabs_gtb (RtoC 2) (1 / 10 ^ 15) = true.
Proof.
  replace (RtoC 2) with (C1 + C1) by csolve. apply Cabs_gtb_double, Cabs_gtb_C1.
Qed.

(** The anticommutator of two modes. *)
Lemma anticommutator_gamma (n j k : nat) :
  Nat.even n = true -> (j < n)%nat -> (k < n)%nat ->
  anticommutator (mkMajoranaOp [gamma n j] n [C1] true) (mkMajoranaOp [gamma n k] n [C1] true)
  = Ok (if (j =? k)%nat then mkMajoranaOp [repeat 0%Z n] n [RtoC 2] true
        else mkMajoranaOp [] n [] true).
Proof.
  intros He Hj Hk.
  rewrite (anticommutator_single_terms n n (gamma n j) (gamma n k) C1 C1 true true He He
             (gamma_length n j) (gamma_length n k)).
  rewrite Cabs_gtb_one_one, Nat.max_id, !padded_full by apply gamma_length.
  rewrite !reorder_sign_gamma by assumption. f_equal.
  destruct (Nat.eqb_spec j k) as [->|Hne].
  - rewrite Nat.ltb_irrefl, xor_self, gamma_length.
    replace (C1 * C1 * RtoC 1 + (C1 * C1 * RtoC 1 + C0)) with (RtoC 2) by csolve.
    unfold single. now rewrite Cabs_gtb_two.
  - destruct (Nat.ltb_spec k j), (Nat.ltb_spec j k); try lia.
    + replace (C1 * C1 * RtoC (-1) + (C1 * C1 * RtoC 1 + C0)) with C0 by csolve.
      unfold single. now rewrite Cabs_gtb_C0.
    + replace (C1 * C1 * RtoC 1 + (C1 * C1 * RtoC (-1) + C0)) with C0 by csolve.
      unfold single. now rewrite Cabs_gtb_C0.
Qed.

End GammaFacts.

(** The defining relation of the Majorana modes.  Over an even
    number [n] of sites, the anticommutator of the modes [j] and [k] is
    twice the identity when [j = k] and the operator without terms
    otherwise: [{gamma_j, gamma_k} = 2 delta_jk I]. *)
Theorem majorana_anticommutation_relation (n j k : nat) :
  Nat.even n = true -> (j < n)%nat -> (k < n)%nat ->
  MajoranaOps.anticommutator
    (Majorana.mkMajoranaOp [Modes.gamma n j] n [C1] true)
    (Majorana.mkMajoranaOp [Modes.gamma n k] n [C1] true)
  = Ok (if (j =? k)%nat
        then Majorana.mkMajoranaOp [repeat 0%Z n] n [RtoC 2] true
        else Majorana.mkMajoranaOp [] n [] true).
Proof.
  intros He Hj Hk. exact (GammaFacts.anticommutator_gamma n j k He Hj Hk).
Qed.

Lemma majorana_anticommutation_relation_witness :
  MajoranaOps.anticommutator
    (Majorana.mkMajoranaOp [[0; 1; 0; 0]%Z] 4 [C1] true)
    (Majorana.mkMajoranaOp [[0; 0; 0; 1]%Z] 4 [C1] true)
  = Ok (Majorana.mkMajoranaOp [] 4 [] true).
Proof.
  apply (majorana_anticommutation_relation 4 1 3); [reflexivity|lia|lia].
Defined.

(** ** Construction of a Majorana operator from lists of modes *)

Module ConstructorFacts.

Import BubbleSort Majorana MajoranaOps Spec Shape Modes.
Import CplxFacts BubbleSortFacts CommuteFacts BroadcastFacts CleanupFacts DimensionFacts.
Local Open Scope C_scope.

Lemma nth_set_one (r : list Z) (k j : nat) :
  (k < length r)%nat ->
  nth j (firstn k r ++ 1%Z :: skipn (S k) r) 0%Z
  = if (j =? k)%nat then 1%Z else nth j r 0%Z.
Proof.
  revert k j. induction r as [|x r IH]; intros k j H; [simpl in H; lia|].
  destruct k as [|k].
  - cbn [firstn skipn app]. destruct j; reflexivity.
  - cbn [firstn skipn app]. destruct j as [|j]; [reflexivity|].
    cbn [nth]. rewrite IH by (simpl in H; lia). reflexivity.
Qed.

Lemma length_set_one (r : list Z) (k : nat) :
  (k < length r)%nat -> length (firstn k r ++ 1%Z :: skipn (S k) r) = length r.
Proof.
  intros H. rewrite length_app, length_firstn. cbn [length]. rewrite length_skipn. lia.
Qed.

(** Writing 1 at the modes of a term. *)
Lemma mark_ok (n : nat) (term : list Z) :
  forall row,
    length row = n -> Forall (fun k => (0 <= k < Z.of_nat n)%Z) term ->
    exists row',
      mark n row term = Ok row' /\ length row' = n
      /\ forall j, (j < n)%nat ->
           nth j row' 0%Z
           = if existsb (Z.eqb (Z.of_nat j)) term then 1%Z else nth j row 0%Z.
Proof.
  unfold mark. induction term as [|k term IH]; intros row L F.
  - exists row. cbn [fold_left existsb]. auto.
  - apply Forall_cons_iff in F. destruct F as [Hk F']. cbn [fold_left bind].
    assert ((k <? 0)%Z = false) as -> by lia.
    assert (((0 <=? k) && (k <? Z.of_nat n))%Z = true) as ->
      by (apply andb_true_iff; split; lia).
    assert (Hk' : (Z.to_nat k < length row)%nat) by lia.
    destruct (IH (firstn (Z.to_nat k) row ++ 1%Z :: skipn (S (Z.to_nat k)) row))
      as (row' & E & L' & N).
    + rewrite length_set_one by exact Hk'. exact L.
    + exact F'.
    + exists row'. split; [exact E|]. split; [exact L'|].
      intros j Hj. rewrite (N j Hj). cbn [existsb].
      rewrite nth_set_one by exact Hk'.
      destruct (existsb (Z.eqb (Z.of_nat j)) term); [now rewrite orb_true_r|].
      rewrite orb_false_r.
      destruct (Z.eqb_spec (Z.of_nat j) k), (Nat.eqb_spec j (Z.to_nat k)); try lia;
        reflexivity.
Qed.

Lemma indicator_length (n : nat) (term : list Z) : length (indicator n term) = n.
Proof. unfold indicator. now rewrite length_map, length_seq. Qed.

Lemma nth_indicator (n : nat) (term : list Z) (j : nat) :
  (j < n)%nat ->
  nth j (indicator n term) 0%Z = if existsb (Z.eqb (Z.of_nat j)) term then 1%Z else 0%Z.
Proof.
  intros Hj. unfold indicator.
  set (f := fun j => if existsb (Z.eqb (Z.of_nat j)) term then 1%Z else 0%Z).
  rewrite (nth_indep _ 0%Z (f O)) by (rewrite length_map, length_seq; exact Hj).
  rewrite (map_nth f), seq_nth by exact Hj. reflexivity.
Qed.

Lemma mark_indicator (n : nat) (term : list Z) :
  Forall (fun k => (0 <= k < Z.of_nat n)%Z) term ->
  mark n (repeat 0%Z n) term = Ok (indicator n term).
Proof.
  intros F. destruct (mark_ok n term (repeat 0%Z n) (repeat_length _ _) F)
    as (row' & E & L & N).
  rewrite E. f_equal. apply (nth_ext _ _ 0%Z 0%Z).
  - now rewrite indicator_length.
  - intros j Hj. rewrite L in Hj. rewrite (N j Hj), nth_indicator by exact Hj.
    destruct (existsb _ term); [reflexivity|]. apply nth_repeat.
Qed.

Lemma existsb_perm (f : Z -> bool) (l l' : list Z) :
  Permutation l l' -> existsb f l = existsb f l'.
Proof.
  induction 1 as [|x l l' _ IH|x y l|l l' l'' _ IH1 _ IH2]; cbn [existsb].
  - reflexivity.
  - now rewrite IH.
  - now destruct (f x), (f y).
  - now rewrite IH1.
Qed.

Lemma indicator_perm (n : nat) (l l' : list Z) :
  Permutation l l' -> indicator n l = indicator n l'.
Proof.
  intros P. unfold indicator. apply map_ext. intros j.
  now rewrite (existsb_perm _ l l' P).
Qed.

Lemma sorted_term (term : list Z) :
  Permutation term (fst (bubble_sort_maj term)).
Proof.
  unfold bubble_sort_maj.
  destruct (bubble_sort_count_correct term) as (_ & P & _).
  destruct (bubble_sort_count term) as [arr cnt]. exact P.
Qed.

Lemma scale_at_app (pre : list C) (c : C) (cs : list C) (x : C) :
  scale_at (length pre) x (pre ++ c :: cs) = Ok ((pre ++ [c * x]) ++ cs).
Proof.
  unfold scale_at. rewrite length_app. cbn [length].
  assert ((length pre <? length pre + S (length cs))%nat = true) as -> by (apply Nat.ltb_lt; lia).
  rewrite firstn_length_app.
  replace (nth (length pre) (pre ++ c :: cs) C0) with c
    by (rewrite app_nth2, Nat.sub_diag by lia; reflexivity).
  replace (skipn (S (length pre)) (pre ++ c :: cs)) with cs.
  - now rewrite <- app_assoc.
  - change (pre ++ c :: cs) with (pre ++ [c] ++ cs). rewrite app_assoc.
    replace (S (length pre)) with (length (pre ++ [c])) by (rewrite length_app; simpl; lia).
    now rewrite skipn_length_app.
Qed.

Lemma scale_at_short (pre : list C) (x : C) :
  scale_at (length pre) x pre = Raise (ValueError 10).
Proof. unfold scale_at. now rewrite Nat.ltb_irrefl. Qed.

(** The loop of the constructor over valid terms that have their
    coefficients. *)
Lemma fill_terms_ok (n : nat) (terms : list (list Z)) :
  Forall (Forall (fun k => (0 <= k < Z.of_nat n)%Z)) terms ->
  forall (pre cs rest : list C),
    length cs = length terms ->
    fill_terms n (length pre) terms (pre ++ cs ++ rest)
    = Ok (map (indicator n) terms,
          pre ++ zip_with (fun t c => c * RtoC (IZR (snd (bubble_sort_maj t)))) terms cs
              ++ rest).
Proof.
  induction 1 as [|term terms Ht _ IH]; intros pre cs rest L.
  - destruct cs; [reflexivity|discriminate].
  - destruct cs as [|c cs]; [discriminate|]. cbn [fill_terms].
    pose proof (sorted_term term) as P.
    destruct (bubble_sort_maj term) as [ordered sign] eqn:E. cbn [fst snd] in *.
    rewrite mark_indicator
      by (eapply Permutation_Forall; [exact P|exact Ht]).
    cbn [bind]. cbn [app]. rewrite scale_at_app. cbn [bind].
    replace (S (length pre)) with (length (pre ++ [c * RtoC (IZR sign)]))
      by (rewrite length_app; simpl; lia).
    rewrite (IH (pre ++ [c * RtoC (IZR sign)]) cs rest) by (simpl in L; lia).
    cbn [bind fst snd map zip_with]. rewrite E. cbn [snd].
    rewrite <- (indicator_perm n _ _ P), <- !app_assoc. reflexivity.
Qed.

(** The loop runs out of coefficients. *)
Lemma fill_terms_short (n : nat) (terms : list (list Z)) :
  Forall (Forall (fun k => (0 <= k < Z.of_nat n)%Z)) terms ->
  forall (pre cs : list C),
    (length cs < length terms)%nat ->
    fill_terms n (length pre) terms (pre ++ cs) = Raise (ValueError 10).
Proof.
  induction 1 as [|term terms Ht _ IH]; intros pre cs L; [simpl in L; lia|].
  cbn [fill_terms]. pose proof (sorted_term term) as P.
  destruct (bubble_sort_maj term) as [ordered sign] eqn:E. cbn [fst snd] in *.
  rewrite mark_indicator by (eapply Permutation_Forall; [exact P|exact Ht]).
  cbn [bind]. destruct cs as [|c cs].
  - rewrite app_nil_r, scale_at_short. reflexivity.
  - rewrite scale_at_app. cbn [bind].
    replace (S (length pre)) with (length (pre ++ [c * RtoC (IZR sign)]))
      by (rewrite length_app; simpl; lia).
    rewrite (IH (pre ++ [c * RtoC (IZR sign)]) cs) by (simpl in L; lia).
    reflexivity.
Qed.

Lemma even_of_nat (k : nat) : Z.even (Z.of_nat k) = Nat.even k.
Proof.
  rewrite <- Nat.negb_odd, <- Z.negb_odd. f_equal.
  induction k as [|k IH]; [reflexivity|].
  rewrite Nat2Z.inj_succ, Z.odd_succ, Nat.odd_succ, <- Z.negb_odd, IH.
  now rewrite Nat.negb_odd.
Qed.

Lemma max_bound (x : Z) (t : list Z) :
  Forall (fun k => (k <= fold_right Z.max x t)%Z) (x :: t).
Proof.
  induction t as [|y t IH]; cbn [fold_right].
  - repeat constructor. lia.
  - inversion IH; subst. constructor; [lia|]. constructor; [lia|].
    eapply Forall_impl; [|exact H2]. cbn. intros; lia.
Qed.

(** The number of sites is even and exceeds every mode. *)
Lemma sites_for_spec (terms : list (list Z)) :
  Forall (Forall (fun k => (0 <= k)%Z)) terms ->
  Nat.even (sites_for terms) = true
  /\ Forall (Forall (fun k => (0 <= k < Z.of_nat (sites_for terms))%Z)) terms.
Proof.
  intros F. unfold sites_for.
  assert (FC : Forall (fun k => (0 <= k)%Z) (concat terms)).
  { apply Forall_forall. intros k Hk. apply in_concat in Hk.
    destruct Hk as (t & Ht & Hk). rewrite Forall_forall in F.
    specialize (F t Ht). rewrite Forall_forall in F. auto. }
  assert (IN : forall P : Z -> Prop, Forall P (concat terms) -> Forall (Forall P) terms).
  { intros P HP. apply Forall_forall. intros t Ht. apply Forall_forall. intros k Hk.
    rewrite Forall_forall in HP. apply HP, in_concat. eauto. }
  destruct (concat terms) as [|x t] eqn:E.
  - split; [reflexivity|]. apply IN. constructor.
  - pose proof (max_bound x t) as B.
    set (M := fold_right Z.max x t) in *.
    assert (M0 : (0 <= M)%Z).
    { inversion FC; inversion B; subst. lia. }
    cbv zeta. set (m := (M + 1)%Z).
    assert (Hn : (M < (if (m mod 2 =? 0)%Z then m else m + 1))%Z
                 /\ Z.even (if (m mod 2 =? 0)%Z then m else m + 1)%Z = true).
    { destruct (Z.eqb_spec (m mod 2) 0) as [H0|H0].
      - split; [unfold m; lia|]. rewrite Zeven_mod, H0. reflexivity.
      - split; [unfold m; lia|]. rewrite Zeven_mod.
        pose proof (Z.mod_pos_bound m 2 ltac:(lia)).
        replace ((m + 1) mod 2)%Z with 0%Z; [reflexivity|].
        rewrite Z.add_mod by lia. replace (m mod 2)%Z with 1%Z by lia. reflexivity. }
    destruct Hn as [Hlt Hev]. set (v := if (m mod 2 =? 0)%Z then m else (m + 1)%Z) in *.
    split.
    + rewrite <- (Z2Nat.id v) in Hev by lia. now rewrite even_of_nat in Hev.
    + apply IN. apply Forall_forall. intros k Hk.
      rewrite Forall_forall in FC, B. specialize (FC k Hk). specialize (B k Hk). lia.
Qed.

Lemma phases (included : bool) (n : nat) (terms : list (list Z)) :
  forall cs : list C,
    length cs = length terms ->
    (if included
     then zip_with (fun t c => c * RtoC (IZR (snd (bubble_sort_maj t)))) terms cs
     else zip_with (fun c s => c * Ci_pow (s / 2))
            (zip_with (fun t c => c * RtoC (IZR (snd (bubble_sort_maj t)))) terms cs)
            (sum_axis1 (map (indicator n) terms)))
    = zip_with (stored_coeff included n) terms cs.
Proof.
  unfold stored_coeff. destruct included.
  - intros cs _. reflexivity.
  - induction terms as [|t terms IH]; intros [|c cs] L; try discriminate; [reflexivity|].
    cbn [zip_with map sum_axis1]. f_equal. apply IH. simpl in L. lia.
Qed.

(** The constructor on a list of lists of modes. *)
Lemma init_lists (terms : list (list Z)) (coeffs : list C) (included : bool) :
  Forall (Forall (fun k => (0 <= k)%Z)) terms ->
  let n := sites_for terms in
  init (ListOfLists terms) coeffs included
  = if (length coeffs <? length terms)%nat then Raise (ValueError 10)
    else if (length terms <? length coeffs)%nat then Raise (AssertionError 12)
    else Ok (mkMajoranaOp (map (indicator n) terms) n
               (zip_with (stored_coeff included n) terms coeffs) included).
Proof.
  intros F n. destruct (sites_for_spec terms F) as [He Hb]. fold n in He, Hb.
  unfold init. fold (sites_for terms). fold n.
  destruct (Nat.ltb_spec (length coeffs) (length terms)) as [H1|H1].
  - pose proof (fill_terms_short n terms Hb [] coeffs H1) as E.
    cbn [length app] in E. rewrite E. reflexivity.
  - pose proof (fill_terms_ok n terms Hb [] (firstn (length terms) coeffs)
                  (skipn (length terms) coeffs) ltac:(rewrite length_firstn; lia)) as E.
    cbn [length app] in E. rewrite firstn_skipn in E. rewrite E.
    cbn [bind fst snd app].
    destruct (Nat.ltb_spec (length terms) (length coeffs)) as [H2|H2].
    + rewrite length_map, length_app, zip_with_length, length_firstn, length_skipn.
      assert ((length terms =? Nat.min (length terms) (Nat.min (length terms) (length coeffs))
               + (length coeffs - length terms))%nat = false) as ->
        by (apply Nat.eqb_neq; lia).
      reflexivity.
    + assert (L : length coeffs = length terms) by lia.
      assert (F1 : firstn (length terms) coeffs = coeffs)
        by (rewrite <- L; apply firstn_all).
      assert (F2 : skipn (length terms) coeffs = [])
        by (rewrite <- L; apply skipn_all).
      rewrite F1, F2, !app_nil_r.
      rewrite length_map, zip_with_length, L, Nat.min_id, Nat.eqb_refl.
      cbn [assert bind]. rewrite (phases included n terms coeffs L). reflexivity.
Qed.

End ConstructorFacts.

(** The constructor on a list of lists of modes, none of them
    negative.  The number of sites is even and exceeds every mode.
    With fewer coefficients than terms the constructor raises an
    [IndexError], with more it fails its assertion; otherwise row [i]
    has a 1 exactly at the modes of term [i] (a mode listed twice is
    marked once), and its coefficient is the one given, times the sign
    of the reordering of the term and, when the phase factors are not
    included, times [i^(weight // 2)]. *)
Theorem majorana_constructor_from_lists (terms : list (list Z)) (coeffs : list C)
  (included : bool) :
  Forall (Forall (fun k => (0 <= k)%Z)) terms ->
  let n := Modes.sites_for terms in
  Nat.even n = true
  /\ Forall (Forall (fun k => (0 <= k < Z.of_nat n)%Z)) terms
  /\ Majorana.init (Majorana.ListOfLists terms) coeffs included
     = if (length coeffs <? length terms)%nat then Raise (ValueError 10)
       else if (length terms <? length coeffs)%nat then Raise (AssertionError 12)
       else Ok (Majorana.mkMajoranaOp (map (Modes.indicator n) terms) n
                  (zip_with (Modes.stored_coeff included n) terms coeffs) included).
Proof.
  intros F n. destruct (ConstructorFacts.sites_for_spec terms F) as [He Hb].
  split; [exact He|]. split; [exact Hb|].
  exact (ConstructorFacts.init_lists terms coeffs included F).
Qed.

Lemma majorana_constructor_from_lists_witness :
  exists cs,
    Majorana.init (Majorana.ListOfLists [[2; 0]; [1; 1]]%Z) [C1; Ci] true
    = Ok (Majorana.mkMajoranaOp [[1; 0; 1; 0]; [0; 1; 0; 0]]%Z 4 cs true).
Proof.
  eexists.
  apply (proj2 (proj2 (majorana_constructor_from_lists [[2; 0]; [1; 1]]%Z [C1; Ci] true
                         ltac:(repeat constructor; discriminate)))).
Defined.

(** ** The dagger *)

Module DaggerFacts.

Import BubbleSort Majorana MajoranaOps Spec Shape Modes.
Import CplxFacts BubbleSortFacts CommuteFacts BroadcastFacts CleanupFacts DimensionFacts.
Import ModeFacts PairFacts ConstructorFacts.
Local Open Scope C_scope.

Lemma in_modes_from (v : list Z) :
  forall (o : nat) (k : Z),
    In k (modes_from o v)
    <-> exists j, k = Z.of_nat (o + j) /\ (j < length v)%nat /\ nth j v 0%Z <> 0%Z.
Proof.
  induction v as [|x v IH]; intros o k.
  - split; [intros []|intros (j & _ & H & _); simpl in H; lia].
  - rewrite modes_from_cons, in_app_iff, IH. split.
    + intros [H|(j & -> & Hj & Hn)].
      * destruct (Z.eqb_spec x 0); cbn [negb] in H; [destruct H|].
        destruct H as [<-|[]]. exists O. rewrite Nat.add_0_r. cbn; split; [reflexivity|].
        split; [lia|assumption].
      * exists (S j). cbn [length nth]. split; [f_equal; lia|]. split; [lia|assumption].
    + intros (j & -> & Hj & Hn). destruct j as [|j].
      * left. cbn [nth] in Hn. apply Z.eqb_neq in Hn. rewrite Hn. cbn [negb].
        left. f_equal. lia.
      * right. exists j. cbn [length nth] in *. split; [f_equal; lia|]. split; [lia|assumption].
Qed.

Lemma in_active_modes (v : list Z) (k : Z) :
  In k (active_modes v)
  <-> exists j, k = Z.of_nat j /\ (j < length v)%nat /\ nth j v 0%Z <> 0%Z.
Proof. apply (in_modes_from v 0 k). Qed.

Lemma sorted_unique (l1 : list Z) :
  forall l2, StronglySorted Z.lt l1 -> StronglySorted Z.lt l2 ->
    (forall k, In k l1 <-> In k l2) -> l1 = l2.
Proof.
  induction l1 as [|a l1 IH]; intros l2 S1 S2 H.
  - destruct l2 as [|b l2]; [reflexivity|]. destruct (proj2 (H b) (or_introl eq_refl)).
  - destruct l2 as [|b l2]; [destruct (proj1 (H a) (or_introl eq_refl))|].
    inversion S1 as [|? ? S1' F1]; inversion S2 as [|? ? S2' F2]; subst.
    rewrite Forall_forall in F1, F2.
    assert (a = b).
    { destruct (proj1 (H a) (or_introl eq_refl)) as [E|E]; [congruence|].
      destruct (proj2 (H b) (or_introl eq_refl)) as [E'|E']; [congruence|].
      specialize (F1 b E'). specialize (F2 a E). lia. }
    subst b. f_equal. apply IH; auto.
    intros k. split; intros Hk.
    + destruct (proj1 (H k) (or_intror Hk)) as [E|E]; [|exact E].
      specialize (F1 k Hk). lia.
    + destruct (proj2 (H k) (or_intror Hk)) as [E|E]; [|exact E].
      specialize (F2 k Hk). lia.
Qed.

Lemma existsb_in (j : nat) (t : list Z) :
  existsb (Z.eqb (Z.of_nat j)) t = true <-> In (Z.of_nat j) t.
Proof.
  rewrite existsb_exists. split.
  - intros (x & Hx & E). apply Z.eqb_eq in E. now subst.
  - intros H. exists (Z.of_nat j). split; [exact H|apply Z.eqb_refl].
Qed.

(** The modes of the row that marks the modes of an increasing
    list. *)
Lemma active_indicator (n : nat) (L : list Z) :
  StronglySorted Z.lt L -> Forall (fun k => (0 <= k < Z.of_nat n)%Z) L ->
  active_modes (indicator n (rev L)) = L.
Proof.
  intros S F. apply sorted_unique; [apply active_modes_increasing|exact S|].
  intros k. rewrite in_active_modes, indicator_length. split.
  - intros (j & -> & Hj & Hn). rewrite nth_indicator in Hn by exact Hj.
    destruct (existsb _ _) eqn:E; [|congruence].
    apply existsb_in in E. exact (proj2 (in_rev L (Z.of_nat j)) E).
  - intros Hk. rewrite Forall_forall in F. specialize (F k Hk).
    exists (Z.to_nat k). split; [lia|]. split; [lia|].
    rewrite nth_indicator by lia.
    assert (existsb (Z.eqb (Z.of_nat (Z.to_nat k))) (rev L) = true) as ->; [|discriminate].
    apply existsb_in. rewrite Z2Nat.id by lia. exact (proj1 (in_rev L k) Hk).
Qed.

Lemma active_modes_valid (v : list Z) : Forall (fun k => (0 <= k)%Z) (active_modes v).
Proof.
  apply Forall_forall. intros k Hk. apply in_active_modes in Hk.
  destruct Hk as (j & -> & _). lia.
Qed.

Lemma reversed_valid (rows : matrix) :
  Forall (Forall (fun k => (0 <= k)%Z)) (map (fun r => rev (active_modes r)) rows).
Proof.
  apply Forall_forall. intros t Ht. apply in_map_iff in Ht. destruct Ht as (r & <- & _).
  apply Forall_rev, active_modes_valid.
Qed.

(** [dagger] on an operator with as many coefficients as rows. *)
Lemma dagger_eval (M : MajoranaOp) :
  length (coeff_vec M) = length (symp_matrix M) ->
  let T := map (fun r => rev (active_modes r)) (symp_matrix M) in
  let n := sites_for T in
  dagger M
  = Ok (mkMajoranaOp (map (indicator n) T) n
          (zip_with (stored_coeff true n) T (map Cconj (coeff_vec M))) true).
Proof.
  intros L T n. unfold dagger. fold T.
  rewrite (init_lists T _ true (reversed_valid _)). fold n.
  rewrite length_map. unfold T at 1 2. rewrite length_map, L, Nat.ltb_irrefl.
  reflexivity.
Qed.

Lemma reversed_again (rows : matrix) :
  let T := map (fun r => rev (active_modes r)) rows in
  map (fun r => rev (active_modes r)) (map (indicator (sites_for T)) T) = T.
Proof.
  intros T. destruct (sites_for_spec T (reversed_valid rows)) as [_ B]. fold T in B.
  rewrite map_map. unfold T at 2 3. rewrite !map_map. apply map_ext_in.
  intros r Hr. f_equal. apply active_indicator; [apply active_modes_increasing|].
  rewrite Forall_forall in B.
  specialize (B (rev (active_modes r))
                ltac:(unfold T; apply in_map_iff; exists r; split; [reflexivity|exact Hr])).
  apply Forall_rev in B. now rewrite rev_involutive in B.
Qed.

Lemma modes_kept (rows : matrix) :
  let T := map (fun r => rev (active_modes r)) rows in
  map active_modes (map (indicator (sites_for T)) T) = map active_modes rows.
Proof.
  intros T. destruct (sites_for_spec T (reversed_valid rows)) as [_ B]. fold T in B.
  rewrite map_map. unfold T at 2. rewrite !map_map. apply map_ext_in.
  intros r Hr. apply active_indicator; [apply active_modes_increasing|].
  rewrite Forall_forall in B.
  specialize (B (rev (active_modes r))
                ltac:(unfold T; apply in_map_iff; exists r; split; [reflexivity|exact Hr])).
  apply Forall_rev in B. now rewrite rev_involutive in B.
Qed.

Lemma sign_cases (t : list Z) :
  snd (bubble_sort_maj t) = 1%Z \/ snd (bubble_sort_maj t) = (-1)%Z.
Proof.
  unfold bubble_sort_maj. destruct (bubble_sort_count t) as [arr cnt]. cbn [snd].
  rewrite sign_dict_parity. destruct (Nat.even cnt); auto.
Qed.

Lemma conj_back (c : C) (s : Z) :
  s = 1%Z \/ s = (-1)%Z ->
  Cconj (Cconj c * RtoC (IZR s)) * RtoC (IZR s) = c.
Proof.
  intros [-> | ->]; destruct c as [x y]; apply C_eq; cbv [Cconj Cmul RtoC fst snd]; ring.
Qed.

Lemma coefficients_back (n : nat) (T : list (list Z)) :
  forall cs : list C,
    length cs = length T ->
    zip_with (stored_coeff true n) T
      (map Cconj (zip_with (stored_coeff true n) T (map Cconj cs))) = cs.
Proof.
  unfold stored_coeff.
  induction T as [|t T IH]; intros [|c cs] L; try discriminate; [reflexivity|].
  cbn [map zip_with]. rewrite IH by (simpl in L; lia). f_equal.
  apply conj_back, sign_cases.
Qed.

(** The dagger of the dagger. *)
Lemma dagger_twice (M : MajoranaOp) :
  length (coeff_vec M) = length (symp_matrix M) ->
  exists D,
    dagger M = Ok D
    /\ majorana_wf D
    /\ map active_modes (symp_matrix D) = map active_modes (symp_matrix M)
    /\ dagger D = Ok (mkMajoranaOp (symp_matrix D) (n_sites D) (coeff_vec M) true).
Proof.
  intros L. rewrite (dagger_eval M L).
  set (T := map (fun r => rev (active_modes r)) (symp_matrix M)).
  set (n := sites_for T).
  destruct (sites_for_spec T (reversed_valid _)) as [He B]. fold n in He, B.
  assert (LT : length T = length (symp_matrix M)) by (unfold T; now rewrite length_map).
  eexists. split; [reflexivity|].
  assert (LD : length (zip_with (stored_coeff true n) T (map Cconj (coeff_vec M)))
               = length (map (indicator n) T)).
  { rewrite zip_with_length, !length_map. lia. }
  split; [|split].
  - repeat split; cbn [n_sites coeff_vec symp_matrix]; auto.
    apply Forall_forall. intros r Hr. apply in_map_iff in Hr. destruct Hr as (t & <- & _).
    apply indicator_length.
  - cbn [symp_matrix]. apply (modes_kept (symp_matrix M)).
  - rewrite dagger_eval by exact LD. cbn [symp_matrix coeff_vec n_sites].
    pose proof (reversed_again (symp_matrix M)) as R. cbv zeta in R. fold T n in R.
    rewrite R. fold n. rewrite coefficients_back by (rewrite LT; exact L).
    reflexivity.
Qed.

End DaggerFacts.

(** ** Signs of reversed terms and the adjacency matrix *)

Module SelfFacts.

Import BubbleSort Majorana MajoranaOps Spec Shape Modes.
Import CplxFacts BubbleSortFacts CommuteFacts BroadcastFacts CleanupFacts DimensionFacts.
Import RotateFacts SumFacts ModeFacts PairFacts ConstructorFacts DaggerFacts.
Import SingleTermFacts CommutatorFacts.
Local Open Scope C_scope.

(** *** The sign of a reversed term *)

Lemma cross_all_larger (l : list Z) (a : Z) :
  Forall (fun x => (a < x)%Z) l -> cross l [a] = length l.
Proof.
  induction 1 as [|x l Hx _ IH]; [reflexivity|]. cbn [cross larger_before length].
  rewrite IH. assert ((x >? a)%Z = true) as -> by lia. lia.
Qed.

Lemma inversions_rev (L : list Z) :
  StronglySorted Z.lt L -> (2 * inversions (rev L) = length L * (length L - 1))%nat.
Proof.
  induction 1 as [|a L S IH F]; [reflexivity|].
  cbn [rev length]. rewrite inversions_app. cbn [inversions larger_before].
  rewrite cross_all_larger by (apply Forall_rev; exact F).
  rewrite length_rev. nia.
Qed.

Lemma reversed_sign (r : list Z) :
  let k := length (active_modes r) in
  snd (bubble_sort_maj (rev (active_modes r)))
  = if Nat.even (k * (k - 1) / 2) then 1%Z else (-1)%Z.
Proof.
  intros k. unfold bubble_sort_maj.
  destruct (bubble_sort_count_correct (rev (active_modes r))) as (_ & _ & I).
  destruct (bubble_sort_count _) as [arr cnt]. cbn [snd] in *. subst cnt.
  rewrite sign_dict_parity.
  pose proof (inversions_rev _ (active_modes_increasing r)) as H. fold k in H.
  replace (k * (k - 1) / 2)%nat with (inversions (rev (active_modes r))); [reflexivity|].
  rewrite <- H, Nat.mul_comm, Nat.div_mul by lia. reflexivity.
Qed.

(** The coefficients of the dagger. *)
Lemma dagger_coefficients (M : MajoranaOp) :
  length (coeff_vec M) = length (symp_matrix M) ->
  exists D,
    dagger M = Ok D
    /\ coeff_vec D
       = zip_with
           (fun r c =>
              let k := length (active_modes r) in
              Cconj c * RtoC (IZR (if Nat.even (k * (k - 1) / 2) then 1 else -1)))
           (symp_matrix M) (coeff_vec M).
Proof.
  intros L. rewrite (dagger_eval M L). eexists. split; [reflexivity|].
  cbn [coeff_vec]. unfold stored_coeff.
  generalize (sites_for (map (fun r => rev (active_modes r)) (symp_matrix M))).
  intros n. clear L. generalize (coeff_vec M).
  induction (symp_matrix M) as [|r rows IH]; intros [|c cs]; try reflexivity.
  cbn [map zip_with]. rewrite IH. f_equal. cbv zeta. now rewrite <- reversed_sign.
Qed.

(** *** The adjacency matrix *)

Lemma dot_sym (a : list Z) : forall b, dot a b = dot b a.
Proof.
  unfold dot, vsum. induction a as [|x a IH]; intros [|y b]; simpl; try reflexivity.
  rewrite IH. lia.
Qed.

Lemma dot_self_bits (r : list Z) : bits r -> dot r r = vsum r.
Proof.
  unfold dot, vsum. induction 1 as [|x r Hx _ IH]; [reflexivity|].
  cbn [zip_with fold_right]. rewrite IH. destruct Hx as [-> | ->]; lia.
Qed.

Lemma adjacency_entries (M : MajoranaOp) (i j : nat) (ri rj : list Z) :
  nth_error (symp_matrix M) i = Some ri -> nth_error (symp_matrix M) j = Some rj ->
  entry (adjacency_matrix M) i j = entry (adjacency_matrix M) j i
  /\ (bits ri -> length ri = n_sites M -> entry (adjacency_matrix M) i i = Some 1%Z).
Proof.
  intros Hi Hj. unfold adjacency_matrix.
  rewrite (commutes_termwise_entry M M i j ri rj Hi Hj).
  rewrite (commutes_termwise_entry M M j i rj ri Hj Hi).
  rewrite (commutes_termwise_entry M M i i ri ri Hi Hi).
  cbv zeta. rewrite Nat.min_id. split.
  - f_equal. f_equal. rewrite (dot_sym (firstn (n_sites M) ri)). f_equal. f_equal. lia.
  - intros B L. rewrite <- L, firstn_all, (dot_self_bits ri B). f_equal.
    replace (vsum ri * vsum ri + vsum ri + 1)%Z with (1 + (vsum ri * (vsum ri + 1)))%Z by lia.
    assert (E : Z.even (vsum ri * (vsum ri + 1)) = true).
    { rewrite Z.even_mul, Z.even_add. cbn. now destruct (Z.even (vsum ri)). }
    rewrite Zeven_mod in E. apply Z.eqb_eq in E.
    rewrite Z.add_mod, E by lia. reflexivity.
Qed.

End SelfFacts.

(** The dagger.  For a well-formed operator, [dagger] returns a
    well-formed operator whose rows mark the same modes (its number of
    sites is the one the constructor derives from the modes in use, so
    unused trailing sites are lost), whose coefficients are the
    conjugates times [(-1)^(k(k-1)/2)] for a term of [k] modes, and
    whose own dagger has the same rows and the coefficients of the
    operator started from. *)
Theorem majorana_dagger_twice (M : Majorana.MajoranaOp) :
  Shape.majorana_wf M ->
  exists D,
    MajoranaOps.dagger M = Ok D
    /\ Shape.majorana_wf D
    /\ map Majorana.active_modes (Majorana.symp_matrix D)
       = map Majorana.active_modes (Majorana.symp_matrix M)
    /\ Majorana.coeff_vec D
       = zip_with
           (fun r c =>
              let k := length (Majorana.active_modes r) in
              (Cconj c * RtoC (IZR (if Nat.even (k * (k - 1) / 2) then 1 else -1)))%C)
           (Majorana.symp_matrix M) (Majorana.coeff_vec M)
    /\ MajoranaOps.dagger D
       = Ok (Majorana.mkMajoranaOp (Majorana.symp_matrix D) (Majorana.n_sites D)
               (Majorana.coeff_vec M) true).
Proof.
  intros (_ & L & _). destruct (DaggerFacts.dagger_twice M L) as (D & E & W & A & T).
  destruct (SelfFacts.dagger_coefficients M L) as (D' & E' & Cf).
  assert (D' = D) by congruence. subst D'.
  exists D. auto.
Qed.

Lemma majorana_dagger_twice_witness :
  exists D,
    MajoranaOps.dagger (Majorana.mkMajoranaOp [[1; 1; 0; 0]; [0; 1; 0; 0]]%Z 4 [Ci; C1] true)
    = Ok D
    /\ MajoranaOps.dagger D
       = Ok (Majorana.mkMajoranaOp (Majorana.symp_matrix D) (Majorana.n_sites D)
               [Ci; C1] true).
Proof.
  destruct (majorana_dagger_twice
              (Majorana.mkMajoranaOp [[1; 1; 0; 0]; [0; 1; 0; 0]]%Z 4 [Ci; C1] true)
              ltac:(apply DimensionFacts.majorana_wfb_spec; reflexivity))
    as (D & E & _ & _ & _ & T).
  exists D. split; [exact E|exact T].
Defined.

(** The adjacency matrix of a well-formed Majorana operator is
    symmetric, and a row of bits commutes with itself: its diagonal
    entry is 1. *)
Theorem majorana_adjacency_matrix_symmetric (M : Majorana.MajoranaOp) (i j : nat)
  (ri rj : list Z) :
  Shape.majorana_wf M ->
  nth_error (Majorana.symp_matrix M) i = Some ri ->
  nth_error (Majorana.symp_matrix M) j = Some rj ->
  Spec.entry (MajoranaOps.adjacency_matrix M) i j
  = Spec.entry (MajoranaOps.adjacency_matrix M) j i
  /\ (Spec.bits ri -> Spec.entry (MajoranaOps.adjacency_matrix M) i i = Some 1%Z).
Proof.
  intros (_ & _ & F) Hi Hj.
  destruct (SelfFacts.adjacency_entries M i j ri rj Hi Hj) as [Sy Dg].
  split; [exact Sy|]. intros B. apply Dg; [exact B|].
  rewrite Forall_forall in F. apply F. eapply nth_error_In. exact Hi.
Qed.

Lemma majorana_adjacency_matrix_symmetric_witness :
  Spec.entry (MajoranaOps.adjacency_matrix
                (Majorana.mkMajoranaOp [[1; 1; 0; 0]; [0; 1; 0; 0]]%Z 4 [Ci; C1] true)) 0 1
  = Spec.entry (MajoranaOps.adjacency_matrix
                  (Majorana.mkMajoranaOp [[1; 1; 0; 0]; [0; 1; 0; 0]]%Z 4 [Ci; C1] true)) 1 0.
Proof.
  apply (proj1 (majorana_adjacency_matrix_symmetric
                  (Majorana.mkMajoranaOp [[1; 1; 0; 0]; [0; 1; 0; 0]]%Z 4 [Ci; C1] true)
                  0 1 [1; 1; 0; 0]%Z [0; 1; 0; 0]%Z
                  ltac:(apply DimensionFacts.majorana_wfb_spec; reflexivity)
                  eq_refl eq_refl)).
Defined.

(** ** A Majorana operator against itself *)

Module CancelFacts.

Import BubbleSort Majorana MajoranaOps Spec Shape Modes.
Import CplxFacts BubbleSortFacts CommuteFacts BroadcastFacts CleanupFacts DimensionFacts.
Import RotateFacts SumFacts SingleTermFacts.
Local Open Scope C_scope.

(** A Majorana operator minus itself: no term is left. *)
Lemma majorana_sub_self (P : MajoranaOp) :
  majorana_wf P -> (n_sites P <= 64)%nat -> Forall bits (symp_matrix P) ->
  __sub__ P P = Ok (mkMajoranaOp [] (n_sites P) [] true).
Proof.
  intros WP Hn HB. pose proof WP as (He & Hl & Hr). unfold __sub__, add.
  set (N := mkMajoranaOp (symp_matrix P) (n_sites P)
              (map (fun c => c * RtoC (-1)) (coeff_vec P)) (phase_factors_included P)).
  assert (WN : majorana_wf N)
    by (repeat split; cbn [N n_sites coeff_vec symp_matrix]; auto; now rewrite length_map).
  rewrite (widen_spec P N WP WN). cbn [N n_sites symp_matrix coeff_vec].
  rewrite Nat.max_id, !pad_columns_id by exact Hr.
  rewrite majorana_init_array2 by (auto; rewrite !length_app, length_map; lia).
  cbn [bind].
  match goal with
  | |- cleanup ?M = _ => destruct (majorana_cleanup_spec M) as (R & Cs & MS & E)
  end; cbn [n_sites symp_matrix coeff_vec]; auto.
  { apply Forall_app. split; apply Forall_forall; intros r Hin;
      rewrite Forall_forall in Hr, HB; split; auto. }
  { rewrite !length_app, length_map. lia. }
  rewrite E. cbn [n_sites symp_matrix coeff_vec] in *.
  destruct MS as (M1 & M2 & M3 & M4).
  assert (Z0 : Forall (fun c => c = C0) Cs).
  { apply (all_coefficients R); [exact M1|].
    intros j r c Hj Hcj. rewrite (M4 j r c Hj Hcj), coeff_of_tcoeff.
    rewrite combine_app by lia. rewrite tcoeff_app, tcoeff_scale.
    generalize (tcoeff (combine (symp_matrix P) (coeff_vec P)) r). intros t. csolve. }
  now rewrite !select_none.
Qed.

Lemma logical_xor_bits (u : list Z) : forall v, bits (zip_with logical_xor u v).
Proof.
  unfold bits. induction u as [|x u IH]; intros [|y v]; cbn [zip_with]; try constructor.
  - unfold logical_xor. destruct (xorb _ _); cbn; auto.
  - apply IH.
Qed.

(** The rows of a product are rows of bits. *)
Lemma majorana_mul_bits (A B : MajoranaOp) :
  majorana_wf A -> majorana_wf B ->
  exists P,
    mul A B = Ok P /\ majorana_wf P
    /\ n_sites P = Nat.max (n_sites A) (n_sites B)
    /\ Forall bits (symp_matrix P).
Proof.
  intros HA HB. unfold mul. rewrite (widen_spec A B HA HB).
  set (w := Nat.max (n_sites A) (n_sites B)).
  pose proof HA as (EA & LA & RA). pose proof HB as (EB & LB & RB).
  match goal with
  | |- context [init (Array2 w (map fst ?L)) _ true] => set (products := L)
  end.
  assert (Ew : Nat.even w = true) by now apply max_even.
  assert (Hrows : Forall (fun r => length r = w /\ bits r) (map fst products)).
  { apply Forall_forall. intros r Hr. apply in_map_iff in Hr.
    destruct Hr as ([r' c] & <- & Hin). unfold products in Hin.
    apply in_flat_map in Hin. destruct Hin as ([v1 c1] & H1 & Hin).
    apply in_map_iff in Hin. destruct Hin as ([v2 c2] & E & H2).
    injection E as <- _. cbn [fst]. split; [|apply logical_xor_bits].
    apply in_combine_l in H1, H2. unfold pad_columns in H1, H2.
    apply in_map_iff in H1, H2. destruct H1 as (a & <- & Ha), H2 as (b & <- & Hb).
    rewrite Forall_forall in RA, RB. specialize (RA a Ha). specialize (RB b Hb).
    rewrite zip_with_length, !length_app, !repeat_length. unfold w. lia. }
  rewrite majorana_init_array2 by (auto; now rewrite !length_map).
  cbn [bind].
  match goal with
  | |- exists P, cleanup ?M = Ok P /\ _ =>
      destruct (EqualityFacts.majorana_cleanup_wf M) as (P & E & WPc & NP);
      [|destruct (majorana_cleanup_rows M) as (P' & E' & _ & Sub)]
  end.
  - repeat split; cbn [n_sites coeff_vec symp_matrix]; auto.
    + now rewrite !length_map.
    + eapply Forall_impl; [|exact Hrows]. now intros r [H _].
  - exact Ew.
  - cbn [coeff_vec symp_matrix]. now rewrite !length_map.
  - exists P. split; [exact E|]. split; [exact WPc|]. split; [exact NP|].
    rewrite E in E'. injection E' as <-. apply Forall_forall. intros r Hr.
    specialize (Sub r Hr). cbn [symp_matrix] in Sub.
    rewrite Forall_forall in Hrows. apply (Hrows r Sub).
Qed.

(** Every operator commutes with itself. *)
Lemma commutes_self (A : MajoranaOp) :
  majorana_wf A -> (n_sites A <= 64)%nat -> commutes A A = Ok true.
Proof.
  intros HA Hn. destruct (majorana_mul_bits A A HA HA) as (P & E & WP & NP & BP).
  rewrite Nat.max_id in NP.
  unfold commutes, commutator. rewrite E. cbn [bind].
  rewrite (majorana_sub_self P WP ltac:(lia) BP). cbn [bind].
  rewrite cleanup_none by (rewrite NP; apply HA). reflexivity.
Qed.

End CancelFacts.

(** An operator against itself.  For a well-formed Majorana operator
    over at most 64 sites, [commutes] with itself is true; and when its
    rows are pairwise distinct rows of bits, the operator minus itself
    is the operator without terms (every row is dropped by [cleanup],
    where the Pauli class keeps the rows with the coefficient 0).  With
    distinct rows every sum [cleanup] forms is that of a coefficient
    [c] and of [-c]; the product of the operator with itself, which
    [commutes] subtracts from itself, has distinct rows because
    [__mul__] ends with [cleanup]. *)
Theorem majorana_commutes_with_itself (A : Majorana.MajoranaOp) :
  Shape.majorana_wf A -> (Majorana.n_sites A <= 64)%nat ->
  MajoranaOps.commutes A A = Ok true
  /\ (Forall Spec.bits (Majorana.symp_matrix A) -> NoDup (Majorana.symp_matrix A) ->
      MajoranaOps.__sub__ A A
      = Ok (Majorana.mkMajoranaOp [] (Majorana.n_sites A) [] true)).
Proof.
  intros HA Hn. split.
  - exact (CancelFacts.commutes_self A HA Hn).
  - intros HB _. exact (CancelFacts.majorana_sub_self A HA Hn HB).
Qed.

Lemma majorana_commutes_with_itself_witness :
  MajoranaOps.commutes
    (Majorana.mkMajoranaOp [[1; 1; 0; 0]; [0; 1; 0; 0]]%Z 4 [Ci; C1] true)
    (Majorana.mkMajoranaOp [[1; 1; 0; 0]; [0; 1; 0; 0]]%Z 4 [Ci; C1] true)
  = Ok true.
Proof.
  apply (proj1 (majorana_commutes_with_itself
                  (Majorana.mkMajoranaOp [[1; 1; 0; 0]; [0; 1; 0; 0]]%Z 4 [Ci; C1] true)
                  ltac:(apply DimensionFacts.majorana_wfb_spec; reflexivity)
                  ltac:(simpl; lia))).
Defined.

(** ** Rotations term by term *)

Module SequenceFacts.

Import Pauli PauliOps PauliRotations Spec Shape Algebra Sequences.
Import CplxFacts CommuteFacts BroadcastFacts MultiplyFacts CleanupFacts RotateFacts.
Import TerminationFacts InvolutionFacts LetterFacts.
Local Open Scope C_scope.

Lemma dot_xor_parity (a : list Z) :
  forall b c, bits a -> bits b -> bits c ->
    length a = length b -> length b = length c ->
    ((dot (bxor a b) c) mod 2 = (dot a c + dot b c) mod 2)%Z.
Proof.
  unfold bxor. induction a as [|x a IH]; intros [|y b] [|z c] Ba Bb Bc L1 L2;
    try discriminate; [reflexivity|].
  cbn [zip_with]. rewrite !dot_cons2.
  apply Forall_cons_iff in Ba, Bb, Bc.
  destruct Ba as [Hx Ba], Bb as [Hy Bb], Bc as [Hz Bc].
  specialize (IH b c Ba Bb Bc ltac:(simpl in L1; lia) ltac:(simpl in L2; lia)).
  revert IH. generalize (dot (zip_with Z.lxor a b) c), (dot a c), (dot b c).
  intros u v w IH.
  destruct Hx as [-> | ->], Hy as [-> | ->], Hz as [-> | ->];
    cbn [Z.lxor Z.mul Pos.lxor Pos.mul Z.of_N];
    Z.div_mod_to_equations; lia.
Qed.

Lemma commutes_with_xor (n : nat) (q t : list Z) :
  pauli_row n q -> pauli_row n t ->
  commutes_with n q (bxor t q) = commutes_with n q t.
Proof.
  intros Hq Ht. pose proof Hq as [Lq Bq]. pose proof Ht as [Lt Bt].
  destruct (row_halves n q Hq) as [Lq1 Lq2]. destruct (row_halves n t Ht) as [Lt1 Lt2].
  unfold commutes_with, X_of, Z_of, bxor.
  rewrite firstn_zip_with, skipn_zip_with.
  pose proof (dot_xor_parity (firstn n t) (firstn n q) (skipn n q)
                (bits_firstn n t Bt) (bits_firstn n q Bq) (bits_skipn n q Bq)
                ltac:(lia) ltac:(lia)) as E1.
  pose proof (dot_xor_parity (skipn n t) (skipn n q) (firstn n q)
                (bits_skipn n t Bt) (bits_skipn n q Bq) (bits_firstn n q Bq)
                ltac:(lia) ltac:(lia)) as E2.
  unfold bxor in E1, E2.
  rewrite (dot_comm (skipn n q) (firstn n q)) in E2.
  revert E1 E2.
  generalize (dot (zip_with Z.lxor (firstn n t) (firstn n q)) (skipn n q)),
    (dot (zip_with Z.lxor (skipn n t) (skipn n q)) (firstn n q)),
    (dot (firstn n t) (skipn n q)), (dot (skipn n t) (firstn n q)),
    (dot (firstn n q) (skipn n q)).
  intros a b c d e E1 E2.
  destruct (Z.eqb_spec ((a + b) mod 2) 0), (Z.eqb_spec ((c + d) mod 2) 0);
    try reflexivity; exfalso; Z.div_mod_to_equations; lia.
Qed.

Lemma product_coeff_linear (n : nat) (t q : list Z) (c : C) :
  product_coeff n t c q C1 = c * product_coeff n t C1 q C1.
Proof.
  unfold product_coeff.
  generalize ((- C1) ^ popcount (band (X_of n t) (Z_of n q))),
    ((- Ci) ^ (Y_number n t + Y_number n q)), (Ci ^ Y_number n (bxor t q)).
  intros u v w. csolve.
Qed.

Lemma tcoeff_cons (p : list Z * C) (L : terms) (r : list Z) :
  tcoeff (p :: L) r = (if row_eqb (fst p) r then snd p else C0) + tcoeff L r.
Proof.
  unfold tcoeff. cbn [filter]. destruct (row_eqb (fst p) r); cbn [map Csum fold_right].
  - reflexivity.
  - now rewrite Cadd_0_l.
Qed.

Lemma row_eqb_xor (n : nat) (t q r : list Z) :
  pauli_row n t -> pauli_row n q -> pauli_row n r ->
  row_eqb (bxor t q) r = row_eqb t (bxor r q).
Proof.
  intros [Lt _] [Lq _] [Lr _].
  destruct (row_eqb (bxor t q) r) eqn:E1, (row_eqb t (bxor r q)) eqn:E2; try reflexivity.
  - apply row_eqb_eq in E1. subst r. rewrite bxor_back in E2 by lia.
    assert (H : row_eqb t t = true) by now apply row_eqb_eq. congruence.
  - apply row_eqb_eq in E2. subst t. rewrite bxor_back in E1 by lia.
    assert (H : row_eqb r r = true) by now apply row_eqb_eq. congruence.
Qed.

Lemma rotated_rows (n : nat) (q : list Z) (angle : option R) (L : terms) :
  pauli_row n q -> Forall (pauli_row n) (map fst L) ->
  Forall (pauli_row n) (map fst (rotated_terms n q angle L)).
Proof.
  intros Hq. unfold rotated_terms. induction L as [|[t c] L IH]; intros F; [constructor|].
  cbn [map fst] in F. apply Forall_cons_iff in F. destruct F as [Ht F].
  cbn [flat_map]. rewrite map_app. apply Forall_app. split; [|now apply IH].
  cbn [fst snd].
  assert (Hx : pauli_row n (bxor t q)) by now apply pauli_row_xor.
  destruct (commutes_with n q t); [|destruct angle]; cbn [map fst];
    repeat (apply Forall_cons; [assumption|]); constructor.
Qed.

(** The coefficient of a bit-vector after a rotation, from the
    coefficients before it. *)
Lemma rotated_tcoeff (n : nat) (q : list Z) (angle : option R) (L : terms) (r : list Z) :
  pauli_row n q -> Forall (pauli_row n) (map fst L) -> pauli_row n r ->
  tcoeff (rotated_terms n q angle L) r
  = if commutes_with n q r then tcoeff L r
    else match angle with
         | None =>
             (- Ci) * product_coeff n (bxor r q) C1 q C1 * tcoeff L (bxor r q)
         | Some theta =>
             RtoC (cos theta) * tcoeff L r
             + (- Ci) * RtoC (sin theta) * product_coeff n (bxor r q) C1 q C1
               * tcoeff L (bxor r q)
         end.
Proof.
  intros Hq F Hr. unfold rotated_terms. induction L as [|[t c] L IH].
  - cbn [flat_map]. change (tcoeff [] r) with C0. change (tcoeff [] (bxor r q)) with C0.
    destruct (commutes_with n q r); [reflexivity|]. destruct angle; csolve.
  - cbn [map fst] in F. apply Forall_cons_iff in F. destruct F as [Ht F].
    specialize (IH F). cbn [flat_map]. rewrite tcoeff_app, IH. clear IH.
    rewrite !tcoeff_cons. cbn [fst snd].
    pose proof (commutes_with_xor n q t Hq Ht) as Kx.
    rewrite <- (row_eqb_xor n t q r Ht Hq Hr).
    rewrite (product_coeff_linear n t q c).
    destruct (row_eqb t r) eqn:E1.
    + apply row_eqb_eq in E1. subst r.
      destruct (row_eqb (bxor t q) t) eqn:E2.
      * apply row_eqb_eq in E2. rewrite E2 in Kx.
        destruct (commutes_with n q t) eqn:K.
        -- rewrite tcoeff_cons. cbn [fst snd].
           assert (H : row_eqb t t = true) by now apply row_eqb_eq.
           rewrite H. change (tcoeff [] t) with C0.
           generalize (tcoeff L t). intros u. csolve.
        -- rewrite E2.
           generalize (product_coeff n t C1 q C1), (tcoeff L t). intros u v.
           destruct angle as [theta|].
           ++ rewrite !tcoeff_cons. cbn [fst snd].
              assert (H : row_eqb t t = true) by now apply row_eqb_eq.
              rewrite H. change (tcoeff [] t) with C0. csolve.
           ++ rewrite !tcoeff_cons. cbn [fst snd].
              assert (H : row_eqb t t = true) by now apply row_eqb_eq.
              rewrite H. change (tcoeff [] t) with C0. csolve.
      * destruct (commutes_with n q t) eqn:K.
        -- rewrite tcoeff_cons. cbn [fst snd].
           assert (H : row_eqb t t = true) by now apply row_eqb_eq.
           rewrite H. change (tcoeff [] t) with C0.
           generalize (tcoeff L t). intros u. csolve.
        -- generalize (product_coeff n (bxor t q) C1 q C1), (tcoeff L t),
             (tcoeff L (bxor t q)), (product_coeff n t C1 q C1). intros u v w x.
           assert (H : row_eqb t t = true) by now apply row_eqb_eq.
           destruct angle as [theta|]; rewrite !tcoeff_cons; cbn [fst snd];
             rewrite ?E2, ?H; change (tcoeff [] t) with C0; csolve.
    + destruct (row_eqb (bxor t q) r) eqn:E2.
      * apply row_eqb_eq in E2. subst r. rewrite Kx.
        rewrite (bxor_back t q) by (destruct Ht, Hq; lia).
        assert (H : row_eqb (bxor t q) (bxor t q) = true) by now apply row_eqb_eq.
        generalize (product_coeff n t C1 q C1), (tcoeff L t), (tcoeff L (bxor t q)).
        intros u v w.
        destruct (commutes_with n q t) eqn:K; [|destruct angle as [theta|]];
          rewrite !tcoeff_cons; cbn [fst snd]; rewrite ?E1, ?H;
          change (tcoeff [] (bxor t q)) with C0; csolve.
      * generalize (product_coeff n (bxor r q) C1 q C1), (tcoeff L r),
          (tcoeff L (bxor r q)), (product_coeff n t C1 q C1). intros u v w x.
        destruct angle as [theta|]; destruct (commutes_with n q t) eqn:K;
          rewrite ?tcoeff_cons; cbn [fst snd]; rewrite ?E1, ?E2;
          change (tcoeff [] r) with C0;
          destruct (commutes_with n q r); csolve.
Qed.

End SequenceFacts.

(** ** Rotations one after the other *)

Module ComposeFacts.

Import Pauli PauliOps PauliRotations Spec Shape Algebra Sequences.
Import CplxFacts CommuteFacts BroadcastFacts MultiplyFacts CleanupFacts RotateFacts.
Import TerminationFacts InvolutionFacts LetterFacts SequenceFacts.
Local Open Scope C_scope.

Lemma rotated_in_rows (n : nat) (q : list Z) (angle : option R) (L : terms) (r : list Z) :
  In r (map fst (rotated_terms n q angle L))
  <-> exists t, In t (map fst L) /\ In r (map fst (rotated_terms n q angle [(t, C0)])).
Proof.
  unfold rotated_terms. split.
  - intros H. apply in_map_iff in H. destruct H as ([r' c'] & <- & H).
    apply in_flat_map in H. destruct H as ([t c] & Hp & H).
    exists t. split; [apply in_map_iff; now exists (t, c)|].
    cbn [flat_map fst snd] in *. rewrite app_nil_r.
    destruct (commutes_with n q t); [|destruct angle]; cbn [In map fst] in *.
    + destruct H as [[= <- <-]|[]]. now left.
    + destruct H as [[= <- <-]|[[= <- <-]|[]]]; auto.
    + destruct H as [[= <- <-]|[]]. now left.
  - intros (t & Ht & H). apply in_map_iff in Ht. destruct Ht as ([t' c] & <- & Hp).
    cbn [flat_map fst snd] in H. rewrite app_nil_r in H.
    apply in_map_iff in H. destruct H as ([r' c'] & <- & H).
    cbn [fst] in *.
    destruct (commutes_with n q t') eqn:K; [|destruct angle as [theta|]]; cbn [In] in H.
    + destruct H as [[= <- <-]|[]].
      apply in_map_iff. exists (t', c). split; [reflexivity|].
      apply in_flat_map. exists (t', c). split; [assumption|].
      cbn [fst]. rewrite K. now left.
    + destruct H as [[= <- <-]|[[= <- <-]|[]]].
      * apply in_map_iff. exists (t', RtoC (cos theta) * c). split; [reflexivity|].
        apply in_flat_map. exists (t', c). split; [assumption|].
        cbn [fst snd]. rewrite K. now left.
      * apply in_map_iff.
        exists (bxor t' q, - Ci * RtoC (sin theta) * product_coeff n t' c q C1).
        split; [reflexivity|].
        apply in_flat_map. exists (t', c). split; [assumption|].
        cbn [fst snd]. rewrite K. right. now left.
    + destruct H as [[= <- <-]|[]].
      apply in_map_iff. exists (bxor t' q, - Ci * product_coeff n t' c q C1).
      split; [reflexivity|].
      apply in_flat_map. exists (t', c). split; [assumption|].
      cbn [fst snd]. rewrite K. now left.
Qed.

(** A rotation respects the equality of operators. *)
Lemma rotated_same_operator (n : nat) (q : list Z) (angle : option R) (L L' : terms) :
  pauli_row n q -> Forall (pauli_row n) (map fst L) -> Forall (pauli_row n) (map fst L') ->
  same_operator L L' ->
  same_operator (rotated_terms n q angle L) (rotated_terms n q angle L').
Proof.
  intros Hq F F' H r.
  assert (Rows : In r (map fst (rotated_terms n q angle L))
                 <-> In r (map fst (rotated_terms n q angle L'))).
  { rewrite !rotated_in_rows. split; intros (t & Ht & Hr); exists t; split; auto;
      now apply (H t). }
  split; [exact Rows|].
  destruct (in_dec (list_eq_dec Z.eq_dec) r (map fst (rotated_terms n q angle L)))
    as [Hin|Hout].
  - assert (Hr : pauli_row n r).
    { pose proof (rotated_rows n q angle L Hq F) as G.
      rewrite Forall_forall in G. now apply G. }
    rewrite !rotated_tcoeff by assumption.
    rewrite (proj2 (H r)), (proj2 (H (bxor r q))). reflexivity.
  - rewrite !tcoeff_absent; [reflexivity| |assumption].
    intros Hin. apply Hout. now apply Rows.
Qed.

(** One step of [recursive_rotate_by_Pword]. *)
Lemma rotation_step (n : nat) (P : PauliwordOp) (q : list Z) (angle : option R) :
  (2 * n <= 64)%nat -> pauli_wf n P -> pauli_row n q ->
  exists P',
    bind (init_vec q [C1])
      (fun Pword_temp =>
         bind (_rotate_by_single_Pword P Pword_temp angle) (fun rotated => cleanup rotated))
    = Ok P'
    /\ pauli_wf n P'
    /\ same_operator (op_terms P') (rotated_terms n q angle (op_terms P)).
Proof.
  intros Hn HP Hq. pose proof Hq as [Lq Bq]. pose proof HP as (Hc & Hl & Hr).
  unfold init_vec. rewrite Lq, init_ok by (auto; repeat constructor; exact Bq).
  cbn [bind].
  destruct (rotate_spec n P q angle Hn HP Hq) as (R & Cs & E & M).
  rewrite E. cbn [bind].
  set (T := rotated_terms n q angle (combine (symp_matrix P) (coeff_vec P))) in *.
  assert (FT : Forall (pauli_row n) (map fst T)).
  { apply rotated_rows; [assumption|]. now rewrite map_fst_combine. }
  pose proof (cleaned_rows n _ _ R Cs FT M) as W.
  destruct (pauli_cleanup_spec n _ Hn W) as (R' & Cs' & M' & _ & E' & _).
  cbn [symp_matrix coeff_vec] in M'.
  exists (mkPauliwordOp R' (2 * n) Cs'). split; [exact E'|]. split.
  - apply (cleaned_rows n R Cs R' Cs'); [|exact M']. now destruct W as (_ & _ & W).
  - unfold op_terms. cbn [symp_matrix coeff_vec]. fold T.
    eapply same_operator_trans.
    + apply merged_same_operator; [|exact M']. now destruct M as (M & _).
    + pose proof (merged_same_operator (map fst T) (map snd T) R Cs
                    ltac:(now rewrite !length_map) M) as S.
      now rewrite combine_fst_snd in S.
Qed.

Lemma rotation_steps (n : nat) (pairs : list (list Z * option R)) :
  (2 * n <= 64)%nat -> Forall (pauli_row n) (map fst pairs) ->
  forall (P : PauliwordOp) (L : terms),
    pauli_wf n P -> Forall (pauli_row n) (map fst L) -> same_operator (op_terms P) L ->
    exists P',
      fold_left
        (fun P_rotating pa =>
           bind P_rotating
             (fun P_rotating =>
                bind (init_vec (fst pa) [C1])
                  (fun Pword_temp =>
                     bind (_rotate_by_single_Pword P_rotating Pword_temp (snd pa))
                       (fun rotated => cleanup rotated))))
        pairs (Ok P)
      = Ok P'
      /\ pauli_wf n P'
      /\ same_operator (op_terms P')
           (fold_left (fun L pa => rotated_terms n (fst pa) (snd pa) L) pairs L).
Proof.
  intros Hn. induction pairs as [|[q angle] pairs IH]; intros F P L HP FL S.
  - exists P. cbn [fold_left]. auto.
  - cbn [map fst] in F. apply Forall_cons_iff in F. destruct F as [Hq F].
    cbn [fold_left fst snd]. cbn [bind].
    destruct (rotation_step n P q angle Hn HP Hq) as (P1 & E1 & W1 & S1).
    rewrite E1.
    apply (IH F P1 (rotated_terms n q angle L) W1).
    + now apply rotated_rows.
    + eapply same_operator_trans; [exact S1|].
      apply rotated_same_operator; try assumption.
      unfold op_terms. rewrite map_fst_combine; now destruct HP as (_ & ? & ?).
Qed.

(** [recursive_rotate_by_Pword] on a list of vectors. *)
Lemma recursive_rotate_vectors (n : nat) (A : PauliwordOp) (qs : list (list Z))
  (angles : option (list (option R))) :
  (2 * n <= 64)%nat -> pauli_wf n A -> Forall (pauli_row n) qs -> qs <> [] ->
  let given := match angles with
               | None => map (fun _ => None) qs
               | Some a => a
               end in
  length given = length qs ->
  exists P,
    recursive_rotate_by_Pword A (Vectors qs) angles = Ok P
    /\ pauli_wf n P
    /\ same_operator (op_terms P) (rotated_in_turn n qs given (op_terms A)).
Proof.
  intros Hn HA F Hne given Hlen. subst given. unfold recursive_rotate_by_Pword.
  destruct qs as [|q0 qs0]; [congruence|]. cbn [bind].
  set (qs := q0 :: qs0) in *.
  set (given := match angles with None => map (fun _ => None) qs | Some a => a end) in *.
  rewrite Hlen, Nat.eqb_refl. cbn [assert bind].
  apply (rotation_steps n (combine qs given) Hn).
  - rewrite map_fst_combine by assumption. exact F.
  - exact HA.
  - unfold op_terms. rewrite map_fst_combine; now destruct HA as (_ & ? & ?).
  - apply same_operator_refl.
Qed.

End ComposeFacts.

(** ** Sequences of rotations: errors, and a rotation twice *)

Module InverseFacts.

Import Pauli PauliOps PauliRotations Spec Shape Algebra Sequences.
Import CplxFacts CommuteFacts BroadcastFacts MultiplyFacts CleanupFacts RotateFacts.
Import TerminationFacts InvolutionFacts LetterFacts SequenceFacts ComposeFacts.
Local Open Scope C_scope.

Lemma phases_cancel (n : nat) (t q : list Z) :
  pauli_row n t -> pauli_row n q ->
  product_coeff n t C1 q C1 * product_coeff n (bxor t q) C1 q C1 = C1.
Proof.
  intros Ht Hq. pose proof (product_coeff_back n t q C1 Ht Hq) as E.
  rewrite (product_coeff_linear n (bxor t q) q (product_coeff n t C1 q C1)) in E.
  exact E.
Qed.

Lemma rotated_app (n : nat) (q : list Z) (angle : option R) (L1 L2 : terms) :
  rotated_terms n q angle (L1 ++ L2)
  = rotated_terms n q angle L1 ++ rotated_terms n q angle L2.
Proof. unfold rotated_terms. apply flat_map_app. Qed.

(** Two rotations by the same word without an angle negate the terms
    that anticommute with it. *)
Lemma rotated_twice (n : nat) (q : list Z) (L : terms) :
  pauli_row n q -> Forall (pauli_row n) (map fst L) ->
  rotated_terms n q None (rotated_terms n q None L) = negated_where_anticommuting n q L.
Proof.
  intros Hq. induction L as [|[t c] L IH]; intros F; [reflexivity|].
  cbn [map fst] in F. apply Forall_cons_iff in F. destruct F as [Ht F].
  change ((t, c) :: L) with ([(t, c)] ++ L).
  rewrite !rotated_app. unfold negated_where_anticommuting. rewrite map_app.
  fold (negated_where_anticommuting n q L). rewrite (IH F). f_equal.
  unfold rotated_terms. cbn [flat_map map fst snd app].
  destruct (commutes_with n q t) eqn:K.
  - cbn [flat_map fst snd app]. now rewrite K.
  - cbn [flat_map fst snd app]. rewrite (commutes_with_xor n q t Hq Ht), K.
    rewrite (bxor_back t q) by (destruct Ht, Hq; lia).
    rewrite app_nil_r.
    match goal with
    | |- [(_, ?x)] = [(_, ?y)] => assert (Ec : x = y); [|now rewrite Ec]
    end.
    rewrite (product_coeff_linear n (bxor t q) q), (product_coeff_linear n t q c).
    pose proof (phases_cancel n t q Ht Hq) as E. revert E.
    generalize (product_coeff n t C1 q C1), (product_coeff n (bxor t q) C1 q C1).
    intros u v E.
    transitivity (- (c * (u * v))); [csolve|]. rewrite E. csolve.
Qed.

(** A list of strings is converted, and then treated as the list of
    the vectors. *)
Lemma recursive_rotate_strings (A : PauliwordOp) (ss : list (list ascii))
  (qs : list (list Z)) (angles : option (list (option R))) :
  ss <> [] ->
  map_result (fun s => string_to_symplectic s (n_qubits A)) ss = Ok qs ->
  recursive_rotate_by_Pword A (Strings ss) angles
  = recursive_rotate_by_Pword A (Vectors qs) angles.
Proof.
  intros Hne E. unfold recursive_rotate_by_Pword.
  destruct ss as [|s ss]; [congruence|]. rewrite E.
  destruct qs as [|q qs]; [|reflexivity].
  exfalso. cbn [map_result] in E.
  destruct (string_to_symplectic s (n_qubits A)); cbn [bind] in E; [|discriminate].
  destruct (map_result _ ss); cbn [bind] in E; discriminate.
Qed.

Lemma recursive_rotate_errors (A : PauliwordOp) (qs : list (list Z))
  (angles : option (list (option R))) :
  let given := match angles with
               | None => map (fun _ => None) qs
               | Some a => a
               end in
  (qs = [] -> recursive_rotate_by_Pword A (Vectors qs) angles = Raise IndexError)
  /\ (qs <> [] -> length given <> length qs ->
      recursive_rotate_by_Pword A (Vectors qs) angles = Raise (AssertionError 13)).
Proof.
  intros given. subst given. split.
  - intros ->. reflexivity.
  - intros Hne Hl. unfold recursive_rotate_by_Pword.
    destruct qs as [|q0 qs0]; [congruence|]. cbn [bind].
    apply Nat.eqb_neq in Hl. rewrite Hl. reflexivity.
Qed.

End InverseFacts.

(** Rotations one after the other.  For a well-formed operator [A]
    over [n <= 32] qubits and a list [qs] of Pauli words given as
    vectors, [recursive_rotate_by_Pword] raises an [IndexError] on the
    empty list, fails its assertion when the angles given are not as many
    as the words, and otherwise returns a well-formed operator that
    denotes the terms of [A] rotated by the words of [qs] from left to
    right, each with its angle (none of them when no angles are given);
    a list of strings is handled as the list of the vectors of the
    strings. *)
Theorem recursive_rotation_composes (n : nat) (A : Pauli.PauliwordOp)
  (qs : list (list Z)) (angles : option (list (option R))) :
  (2 * n <= 64)%nat -> Spec.pauli_wf n A -> Forall (Spec.pauli_row n) qs ->
  let given := match angles with
               | None => map (fun _ => None) qs
               | Some a => a
               end in
  (qs = [] ->
   PauliRotations.recursive_rotate_by_Pword A (PauliRotations.Vectors qs) angles
   = Raise PauliOps.IndexError)
  /\ (qs <> [] -> length given <> length qs ->
      PauliRotations.recursive_rotate_by_Pword A (PauliRotations.Vectors qs) angles
      = Raise (AssertionError 13))
  /\ (qs <> [] -> length given = length qs ->
      exists P,
        PauliRotations.recursive_rotate_by_Pword A (PauliRotations.Vectors qs) angles = Ok P
        /\ Spec.pauli_wf n P
        /\ Shape.same_operator (Algebra.op_terms P)
             (Sequences.rotated_in_turn n qs given (Algebra.op_terms A)))
  /\ (forall ss,
         ss <> [] ->
         Pauli.map_result (fun s => Pauli.string_to_symplectic s n) ss = Ok qs ->
         PauliRotations.recursive_rotate_by_Pword A (PauliRotations.Strings ss) angles
         = PauliRotations.recursive_rotate_by_Pword A (PauliRotations.Vectors qs) angles).
Proof.
  intros Hn HA F given.
  destruct (InverseFacts.recursive_rotate_errors A qs angles) as [E1 E2].
  split; [exact E1|]. split; [exact E2|]. split.
  - intros Hne Hl. exact (ComposeFacts.recursive_rotate_vectors n A qs angles Hn HA F Hne Hl).
  - intros ss Hne E. apply InverseFacts.recursive_rotate_strings; [exact Hne|].
    destruct HA as (Hc & _). destruct (MultiplyFacts.n_qubits_even n A Hc) as [-> _].
    exact E.
Qed.

Lemma recursive_rotation_composes_witness :
  exists P,
    PauliRotations.recursive_rotate_by_Pword
      (Pauli.mkPauliwordOp [[1; 0; 0; 0]; [0; 0; 0; 1]]%Z 4 [C1; Ci])
      (PauliRotations.Vectors [[0; 0; 1; 0]; [1; 0; 0; 1]]%Z) None = Ok P
    /\ Spec.pauli_wf 2 P.
Proof.
  assert (W : Spec.pauli_wf 2 (Pauli.mkPauliwordOp [[1; 0; 0; 0]; [0; 0; 0; 1]]%Z 4 [C1; Ci]))
    by (apply MultiplyFacts.pauli_wfb_spec; reflexivity).
  assert (F : Forall (Spec.pauli_row 2) [[0; 0; 1; 0]; [1; 0; 0; 1]]%Z)
    by (repeat constructor; apply MultiplyFacts.pauli_rowb_spec; reflexivity).
  destruct (proj1 (proj2 (proj2 (recursive_rotation_composes 2 _ _ None
                                   ltac:(simpl; lia) W F)))
              ltac:(discriminate) eq_refl) as (P & E & WP & _).
  exists P. split; [exact E|exact WP].
Defined.

(** The same rotation twice.  For a well-formed operator [A] over
    [n <= 32] qubits and a Pauli word [q], rotating twice by [q] without
    an angle gives a well-formed operator that denotes [A] with the
    coefficient negated on every term that anticommutes with [q]. *)
Theorem clifford_rotation_twice (n : nat) (A : Pauli.PauliwordOp) (q : list Z) :
  (2 * n <= 64)%nat -> Spec.pauli_wf n A -> Spec.pauli_row n q ->
  exists P,
    PauliRotations.recursive_rotate_by_Pword A (PauliRotations.Vectors [q; q]) None = Ok P
    /\ Spec.pauli_wf n P
    /\ Shape.same_operator (Algebra.op_terms P)
         (Sequences.negated_where_anticommuting n q (Algebra.op_terms A)).
Proof.
  intros Hn HA Hq.
  destruct (ComposeFacts.recursive_rotate_vectors n A [q; q] None Hn HA
              ltac:(repeat (apply Forall_cons; [assumption|]); constructor)
              ltac:(discriminate) eq_refl)
    as (P & E & W & S).
  exists P. split; [exact E|]. split; [exact W|].
  unfold Sequences.rotated_in_turn in S. cbn [map combine fold_left fst snd] in S.
  rewrite InverseFacts.rotated_twice in S; [exact S|exact Hq|].
  unfold Algebra.op_terms. destruct HA as (_ & Hl & Hr).
  now rewrite RotateFacts.map_fst_combine.
Qed.

Lemma clifford_rotation_twice_witness :
  exists P,
    PauliRotations.recursive_rotate_by_Pword
      (Pauli.mkPauliwordOp [[1; 0; 0; 0]; [0; 0; 0; 1]]%Z 4 [C1; Ci])
      (PauliRotations.Vectors [[0; 0; 1; 0]; [0; 0; 1; 0]]%Z) None = Ok P
    /\ Shape.same_operator (Algebra.op_terms P)
         [([1; 0; 0; 0]%Z, (- C1)%C); ([0; 0; 0; 1]%Z, Ci)].
Proof.
  assert (W : Spec.pauli_wf 2 (Pauli.mkPauliwordOp [[1; 0; 0; 0]; [0; 0; 0; 1]]%Z 4 [C1; Ci]))
    by (apply MultiplyFacts.pauli_wfb_spec; reflexivity).
  assert (Hq : Spec.pauli_row 2 [0; 0; 1; 0]%Z)
    by (apply MultiplyFacts.pauli_rowb_spec; reflexivity).
  destruct (clifford_rotation_twice 2 _ _ ltac:(simpl; lia) W Hq) as (P & E & _ & S).
  exists P. split; [exact E|exact S].
Defined.

(** ** Rows of the two modes of one site *)

Module PairRowFacts.

Import BubbleSort Majorana MajoranaOps MajoranaRotations Spec Shape Modes Pairs.
Import CplxFacts BubbleSortFacts CommuteFacts BroadcastFacts CleanupFacts DimensionFacts.
Import ModeFacts PairFacts DaggerFacts.

Lemma arange_even_step (k : nat) :
  arange 0 (S (S k)) 2 = 0%nat :: map (fun j => S (S j)) (arange 0 k 2).
Proof.
  unfold arange.
  replace (S (S k) - 0 + 2 - 1)%nat with ((k - 0 + 2 - 1) + 1 * 2)%nat by lia.
  rewrite Nat.div_add by lia. rewrite Nat.add_1_r. cbn [seq map].
  f_equal. rewrite <- seq_shift, !map_map. apply map_ext. intros i. lia.
Qed.

Lemma arange_odd_step (k : nat) :
  arange 1 (S (S k)) 2 = 1%nat :: map (fun j => S (S j)) (arange 1 k 2).
Proof.
  destruct k as [|k]; [reflexivity|]. unfold arange.
  replace (S (S (S k)) - 1 + 2 - 1)%nat with ((S k - 1 + 2 - 1) + 1 * 2)%nat by lia.
  rewrite Nat.div_add by lia. rewrite Nat.add_1_r. cbn [seq map].
  f_equal. rewrite <- seq_shift, !map_map. apply map_ext. intros i. lia.
Qed.

Lemma take_shift2 {A : Type} (d a b : A) (t : list A) (idx : list nat) :
  take d (a :: b :: t) (map (fun j => S (S j)) idx) = take d t idx.
Proof. unfold take. rewrite map_map. reflexivity. Qed.

Lemma take_even_cons {A : Type} (d a b : A) (t : list A) (idx : list nat) :
  take d (a :: b :: t) (0%nat :: map (fun j => S (S j)) idx) = a :: take d t idx.
Proof. rewrite <- (take_shift2 d a b t idx). reflexivity. Qed.

Lemma take_odd_cons {A : Type} (d a b : A) (t : list A) (idx : list nat) :
  take d (a :: b :: t) (1%nat :: map (fun j => S (S j)) idx) = b :: take d t idx.
Proof. rewrite <- (take_shift2 d a b t idx). reflexivity. Qed.

(** The sum of a row of [z_term_check], pair of columns after pair of
    columns. *)
Lemma check_step (a b : Z) (t : list Z) (k : nat) :
  vsum (zip_with (fun x y => Z.b2z (negb (x =? 0)%Z && negb (y =? 0)%Z))
          (take 0%Z (a :: b :: t) (arange 0 (S (S k)) 2))
          (take 0%Z (a :: b :: t) (arange 1 (S (S k)) 2)))
  = (Z.b2z (negb (a =? 0)%Z && negb (b =? 0)%Z)
     + vsum (zip_with (fun x y => Z.b2z (negb (x =? 0)%Z && negb (y =? 0)%Z))
               (take 0%Z t (arange 0 k 2)) (take 0%Z t (arange 1 k 2))))%Z.
Proof.
  rewrite arange_even_step, arange_odd_step, take_even_cons, take_odd_cons.
  reflexivity.
Qed.

Lemma pairs_induction (P : list Z -> Prop) :
  P [] -> (forall a b t, Nat.even (length t) = true -> P t -> P (a :: b :: t)) ->
  forall l, Nat.even (length l) = true -> P l.
Proof.
  intros H0 H2 l. remember (length l) as k eqn:Hk. revert l Hk.
  induction k as [k IH] using lt_wf_ind. intros [|a [|b t]] Hk He.
  - exact H0.
  - subst k. discriminate.
  - subst k. apply H2; [exact He|].
    apply (IH (length t)); [simpl; lia|reflexivity|exact He].
Qed.

Lemma check_bounds (t : list Z) :
  Nat.even (length t) = true -> bits t ->
  (0 <= vsum (zip_with (fun x y => Z.b2z (negb (x =? 0)%Z && negb (y =? 0)%Z))
                (take 0%Z t (arange 0 (length t) 2)) (take 0%Z t (arange 1 (length t) 2)))
   /\ 2 * vsum (zip_with (fun x y => Z.b2z (negb (x =? 0)%Z && negb (y =? 0)%Z))
                  (take 0%Z t (arange 0 (length t) 2)) (take 0%Z t (arange 1 (length t) 2)))
      <= vsum t)%Z.
Proof.
  intros He. pattern t. revert t He. apply pairs_induction.
  - intros _. cbn. lia.
  - intros a b t _ IH B. apply Forall_cons_iff in B. destruct B as [Ha B].
    apply Forall_cons_iff in B. destruct B as [Hb B]. specialize (IH B).
    cbn [length]. rewrite check_step.
    change (vsum (a :: b :: t)) with (a + (b + vsum t))%Z.
    destruct Ha as [-> | ->], Hb as [-> | ->]; cbn [Z.eqb negb andb Z.b2z]; lia.
Qed.

Lemma modes_from_count (t : list Z) :
  bits t -> forall o : nat, Z.of_nat (length (modes_from o t)) = vsum t.
Proof.
  induction 1 as [|x t Hx _ IH]; intros o; [reflexivity|].
  rewrite modes_from_cons, length_app, Nat2Z.inj_add, IH.
  change (vsum (x :: t)) with (x + vsum t)%Z.
  destruct Hx as [-> | ->]; reflexivity.
Qed.

Lemma even_of_nat_Z (o : nat) : Z.even (Z.of_nat o) = Nat.even o.
Proof.
  induction o as [o IHo] using lt_wf_ind.
  destruct o as [|[|o]]; try reflexivity.
  rewrite !Nat2Z.inj_succ, Z.even_succ_succ. cbn [Nat.even]. apply IHo. lia.
Qed.

(** On a row of bits of even length, the test of [_delete_reduced_rows]
    holds exactly when the modes of the row are the two modes of one
    site. *)
Lemma row_test (t : list Z) :
  Nat.even (length t) = true -> bits t ->
  forall o : nat,
    Nat.even o = true ->
    (vsum (zip_with (fun x y => Z.b2z (negb (x =? 0)%Z && negb (y =? 0)%Z))
             (take 0%Z t (arange 0 (length t) 2)) (take 0%Z t (arange 1 (length t) 2)))
     =? 1)%Z
    && (vsum t =? 2)%Z
    = site_pair (modes_from o t).
Proof.
  intros He. pattern t. revert t He. apply pairs_induction.
  - intros _ o _. reflexivity.
  - intros a b t Het IH B o Ho. apply Forall_cons_iff in B. destruct B as [Ha B].
    apply Forall_cons_iff in B. destruct B as [Hb B]. specialize (IH B (S (S o)) Ho).
    cbn [length]. rewrite check_step.
    change (vsum (a :: b :: t)) with (a + (b + vsum t))%Z.
    rewrite !modes_from_cons.
    pose proof (modes_from_bound (S (S o)) t) as Hb2.
    pose proof (modes_from_count t B (S (S o))) as Hlen.
    pose proof (even_of_nat_Z o) as Eo. rewrite Ho in Eo.
    pose proof (check_bounds t Het B) as Hz.
    revert IH Hlen Hb2 Hz.
    generalize (vsum (zip_with (fun x y => Z.b2z (negb (x =? 0)%Z && negb (y =? 0)%Z))
                        (take 0%Z t (arange 0 (length t) 2))
                        (take 0%Z t (arange 1 (length t) 2)))).
    intros z IH Hlen Hb2 [Hz0 Hz2].
    destruct Ha as [-> | ->], Hb as [-> | ->]; cbn [Z.eqb negb andb Z.b2z app].
    + rewrite <- IH. f_equal.
    + transitivity false.
      * destruct (Z.eqb_spec (0 + z) 1), (Z.eqb_spec (0 + (1 + vsum t)) 2);
          try reflexivity; lia.
      * symmetry. destruct (modes_from (S (S o)) t) as [|k [|k' l]]; cbn [site_pair];
          try reflexivity.
        rewrite Nat2Z.inj_succ, Z.even_succ, <- Z.negb_even, Eo. reflexivity.
    + transitivity false.
      * destruct (Z.eqb_spec (0 + z) 1), (Z.eqb_spec (1 + (0 + vsum t)) 2);
          try reflexivity; lia.
      * symmetry. destruct (modes_from (S (S o)) t) as [|k [|k' l]]; cbn [site_pair];
          try reflexivity.
        apply Forall_cons_iff in Hb2. destruct Hb2 as [Hk _].
        apply andb_false_iff. right. apply Z.eqb_neq. lia.
    + destruct (modes_from (S (S o)) t) as [|k l]; cbn [site_pair length] in *.
      * rewrite Eo. cbn [andb].
        destruct (Z.eqb_spec (1 + z) 1), (Z.eqb_spec (1 + (1 + vsum t)) 2),
          (Z.eqb_spec (Z.of_nat (S o)) (Z.of_nat o + 1)); try reflexivity; lia.
      * destruct (Z.eqb_spec (1 + z) 1), (Z.eqb_spec (1 + (1 + vsum t)) 2);
          try reflexivity; lia.
Qed.

(** The two columns of a site agree on a row taken out. *)
Lemma pair_term_columns (r : list Z) (i : nat) :
  bits r -> pair_term r = true -> nth (2 * i) r 0%Z = nth (2 * i + 1) r 0%Z.
Proof.
  intros B H. unfold pair_term in H.
  destruct (active_modes r) as [|j [|k [|x l]]] eqn:Em; try discriminate.
  cbn [site_pair] in H. apply andb_true_iff in H. destruct H as [Hj Hk].
  apply Z.eqb_eq in Hk. subst k.
  assert (Hbit : forall m, nth m r 0%Z = 0%Z \/ nth m r 0%Z = 1%Z).
  { intros m. destruct (Nat.lt_ge_cases m (length r)) as [Hm|Hm].
    - unfold bits in B. rewrite Forall_forall in B. apply B. now apply nth_In.
    - left. now apply nth_overflow. }
  assert (Hin : forall m, nth m r 0%Z <> 0%Z <-> (Z.of_nat m = j \/ Z.of_nat m = j + 1)%Z).
  { intros m. split.
    - intros Hm.
      assert (Hl : (m < length r)%nat).
      { destruct (Nat.lt_ge_cases m (length r)) as [Hl|Hl]; [assumption|].
        now rewrite nth_overflow in Hm. }
      assert (Hi : In (Z.of_nat m) (active_modes r)).
      { apply in_active_modes. now exists m. }
      rewrite Em in Hi. cbn [In] in Hi. intuition.
    - intros Hm.
      assert (Hi : In (Z.of_nat m) (active_modes r)).
      { rewrite Em. cbn [In]. intuition. }
      apply in_active_modes in Hi. destruct Hi as (m' & E & _ & Hn).
      apply Nat2Z.inj in E. now subst m'. }
  assert (Hj' : exists h, j = (2 * h)%Z).
  { apply Z.even_spec in Hj. destruct Hj as [h ->]. now exists h. }
  destruct Hj' as [h ->].
  assert (E : nth (2 * i) r 0%Z <> 0%Z <-> nth (2 * i + 1) r 0%Z <> 0%Z).
  { rewrite !Hin. lia. }
  destruct (Hbit (2 * i)%nat) as [E0|E0], (Hbit (2 * i + 1)%nat) as [E1|E1];
    rewrite E0, E1 in *; try reflexivity; exfalso.
  - assert (X : (0 <> 0)%Z) by (apply E; discriminate). now apply X.
  - assert (X : (0 <> 0)%Z) by (apply E; discriminate). now apply X.
Qed.


End PairRowFacts.

(** ** Rows selected and deleted by position *)

Module IndexFacts.

Import BubbleSort Majorana MajoranaOps MajoranaRotations Spec Shape Modes Pairs.
Import CplxFacts BubbleSortFacts CommuteFacts BroadcastFacts CleanupFacts DimensionFacts.
Import ModeFacts PairFacts DaggerFacts PairRowFacts.

Lemma where_eq_from (k : Z) (v : list Z) :
  forall o : nat,
    map snd (filter (fun p => negb (fst p =? 0)%Z)
               (combine (map (fun x => Z.b2z (x =? k)%Z) v) (seq o (length v))))
    = filter (fun i => (nth (i - o) v 0 =? k)%Z) (seq o (length v)).
Proof.
  induction v as [|x v IH]; intros o; [reflexivity|].
  cbn [map length seq combine]. cbn [filter]. cbn [fst].
  assert (T : filter (fun i => (nth (i - o) (x :: v) 0 =? k)%Z) (seq (S o) (length v))
              = filter (fun i => (nth (i - S o) v 0 =? k)%Z) (seq (S o) (length v))).
  { apply filter_ext_in. intros i Hi. apply in_seq in Hi.
    replace (i - o)%nat with (S (i - S o)) by lia. reflexivity. }
  rewrite T, <- IH, Nat.sub_diag. cbn [nth].
  destruct (x =? k)%Z; reflexivity.
Qed.

Lemma where_eq_filter (v : list Z) (k : Z) :
  where_eq v k = filter (fun i => (nth i v 0 =? k)%Z) (seq 0 (length v)).
Proof.
  unfold where_eq, Pauli.where_nonzero. rewrite length_map, where_eq_from.
  apply filter_ext. intros i. now rewrite Nat.sub_0_r.
Qed.

Lemma filter_twice {A : Type} (f g : A -> bool) (l : list A) :
  filter g (filter f l) = filter (fun x => f x && g x) l.
Proof.
  induction l as [|x l IH]; [reflexivity|]. cbn [filter].
  destruct (f x); cbn [filter andb]; [destruct (g x)|]; now rewrite IH.
Qed.

Lemma existsb_filter_seq (g : nat -> bool) (o n i : nat) :
  (o <= i < o + n)%nat -> existsb (Nat.eqb i) (filter g (seq o n)) = g i.
Proof.
  intros Hi. destruct (g i) eqn:E.
  - apply existsb_exists. exists i. split; [|apply Nat.eqb_refl].
    apply filter_In. split; [now apply in_seq|exact E].
  - destruct (existsb (Nat.eqb i) (filter g (seq o n))) eqn:X; [|reflexivity].
    apply existsb_exists in X. destruct X as (x & Hx & Ex).
    apply Nat.eqb_eq in Ex. subst x. apply filter_In in Hx. destruct Hx. congruence.
Qed.

Lemma intersect_filter (f g : nat -> bool) (n : nat) :
  intersect1d (filter f (seq 0 n)) (filter g (seq 0 n))
  = filter (fun i => f i && g i) (seq 0 n).
Proof.
  unfold intersect1d. rewrite filter_twice. apply filter_ext_in.
  intros i Hi. apply in_seq in Hi. now rewrite existsb_filter_seq by lia.
Qed.

Lemma take_from {A : Type} (d : A) (F : nat -> bool) (arr : list A) :
  forall o : nat,
    map (fun i => nth (i - o) arr d) (filter F (seq o (length arr)))
    = select arr (map F (seq o (length arr))).
Proof.
  induction arr as [|x arr IH]; intros o; [reflexivity|].
  cbn [length seq filter map select].
  assert (T : map (fun i => nth (i - o) (x :: arr) d) (filter F (seq (S o) (length arr)))
              = map (fun i => nth (i - S o) arr d) (filter F (seq (S o) (length arr)))).
  { apply map_ext_in. intros i Hi. apply filter_In in Hi. destruct Hi as [Hi _].
    apply in_seq in Hi. replace (i - o)%nat with (S (i - S o)) by lia. reflexivity. }
  destruct (F o); cbn [map]; rewrite T, IH; [|reflexivity].
  now rewrite Nat.sub_diag.
Qed.

Lemma take_where {A : Type} (d : A) (F : nat -> bool) (arr : list A) :
  take d arr (filter F (seq 0 (length arr))) = select arr (map F (seq 0 (length arr))).
Proof.
  unfold take. rewrite <- (take_from d F arr 0). apply map_ext.
  intros i. now rewrite Nat.sub_0_r.
Qed.

Lemma delete_from {A : Type} (G : nat -> bool) (arr : list A) :
  forall o : nat,
    map snd (filter (fun p => G (fst p)) (combine (seq o (length arr)) arr))
    = select arr (map G (seq o (length arr))).
Proof.
  induction arr as [|x arr IH]; intros o; [reflexivity|].
  cbn [length seq combine filter map select fst].
  destruct (G o); cbn [map snd]; now rewrite IH.
Qed.

Lemma delete_where {A : Type} (F : nat -> bool) (arr : list A) (n : nat) :
  length arr = n ->
  delete arr (filter F (seq 0 n)) = select arr (map (fun i => negb (F i)) (seq 0 n)).
Proof.
  intros <-. unfold delete.
  rewrite <- (delete_from (fun i => negb (F i)) arr 0). f_equal.
  apply filter_ext_in. intros [i x] Hi. apply in_combine_l in Hi. apply in_seq in Hi.
  cbn [fst]. now rewrite existsb_filter_seq by lia.
Qed.

Lemma map_seq_nth {A B : Type} (g1 g2 : A -> Z) (G : Z -> Z -> B) (l : list A) :
  map (fun i => G (nth i (map g1 l) 0%Z) (nth i (map g2 l) 0%Z)) (seq 0 (length l))
  = map (fun x => G (g1 x) (g2 x)) l.
Proof.
  induction l as [|x l IH]; [reflexivity|].
  cbn [length seq map nth]. f_equal.
  rewrite <- seq_shift, map_map. exact IH.
Qed.

(** The sum over the rows, column by column. *)
Lemma sum_axis0_nth (n : nat) (rows : matrix) (j : nat) :
  Forall (fun r => length r = n) rows ->
  nth j (sum_axis0 n rows) 0%Z = vsum (map (fun r => nth j r 0%Z) rows)
  /\ length (sum_axis0 n rows) = n.
Proof.
  unfold sum_axis0. induction 1 as [|r rows Hr _ [IH IHl]]; cbn [fold_right map].
  - split; [|apply repeat_length]. cbn [vsum fold_right].
    destruct (Nat.lt_ge_cases j n) as [Hj|Hj].
    + now apply nth_repeat_lt.
    + apply nth_overflow. now rewrite repeat_length.
  - split.
    + change (vsum (nth j r 0%Z :: map (fun r0 => nth j r0 0%Z) rows))
        with (nth j r 0 + vsum (map (fun r0 => nth j r0 0%Z) rows))%Z.
      rewrite <- IH. clear IH.
      revert IHl. generalize (fold_right (zip_with Z.add) (repeat 0%Z n) rows).
      intros s Hs. rewrite <- Hs in Hr. clear Hs. revert s j Hr.
      induction r as [|x r IHr]; intros [|y s] j Hr; try discriminate.
      * now destruct j.
      * destruct j as [|j]; [reflexivity|]. cbn [zip_with nth].
        apply IHr. simpl in Hr. lia.
    + rewrite zip_with_length, IHl, Hr. apply Nat.min_id.
Qed.

End IndexFacts.

(** ** The rows taken out by [_delete_reduced_rows] *)

Module ReducedRowFacts.

Import BubbleSort Majorana MajoranaOps MajoranaRotations Spec Shape Modes Pairs.
Import CplxFacts BubbleSortFacts CommuteFacts BroadcastFacts CleanupFacts DimensionFacts.
Import RotateFacts ModeFacts PairFacts DaggerFacts PairRowFacts IndexFacts.

(** The rows that [_delete_reduced_rows] takes out, as positions. *)
Lemma single_z_rows_eval (M : MajoranaOp) :
  majorana_wf M -> Forall bits (symp_matrix M) ->
  let z_term_check :=
    logical_and (columns (symp_matrix M) (even_inds M))
                (columns (symp_matrix M) (odd_inds M)) in
  exists F : nat -> bool,
    intersect1d (where_eq (sum_axis1 z_term_check) 1)
                (where_eq (sum_axis1 (symp_matrix M)) 2)
    = filter F (seq 0 (length (symp_matrix M)))
    /\ map F (seq 0 (length (symp_matrix M))) = map pair_term (symp_matrix M).
Proof.
  intros (He & Hl & Hr) B z_term_check. subst z_term_check.
  unfold logical_and, columns, sum_axis1. rewrite zip_with_map_map, map_map.
  rewrite !where_eq_filter, !length_map, intersect_filter.
  eexists. split; [reflexivity|].
  rewrite (map_seq_nth _ vsum (fun a b => (a =? 1)%Z && (b =? 2)%Z)).
  apply map_ext_in. intros r Hin.
  rewrite Forall_forall in Hr, B. specialize (Hr r Hin). specialize (B r Hin).
  unfold even_inds, odd_inds. rewrite <- Hr.
  assert (Her : Nat.even (length r) = true) by now rewrite Hr.
  exact (row_test r Her B 0 eq_refl).
Qed.

Lemma even_pairs (n i : nat) :
  Nat.even n = true -> (2 * i < n)%nat <-> (2 * i + 1 < n)%nat.
Proof.
  intros He. apply Nat.even_spec in He. destruct He as [m ->]. lia.
Qed.

Lemma delete_reduced_rows_spec (M : MajoranaOp) :
  majorana_wf M -> Forall bits (symp_matrix M) ->
  let L := combine (symp_matrix M) (coeff_vec M) in
  let taken := filter (fun p => pair_term (fst p)) L in
  let kept := filter (fun p => negb (pair_term (fst p))) L in
  exists S,
    _delete_reduced_rows M
    = Ok (S,
          match taken with
          | [] => None
          | _ :: _ => Some (mkMajoranaOp (map fst taken) (n_sites M) (map snd taken) true)
          end,
          mkMajoranaOp (map fst kept) (n_sites M) (map snd kept) true)
    /\ (forall j, In j S <-> (j < n_sites M)%nat
                             /\ vsum (map (fun p => nth j (fst p) 0%Z) taken) = 1%Z)
    /\ (forall i, In (2 * i)%nat S <-> In (2 * i + 1)%nat S).
Proof.
  intros HM B L taken kept. pose proof HM as (He & Hl & Hr).
  destruct (single_z_rows_eval M HM B) as (F & Ei & Em). cbv zeta in Ei.
  unfold _delete_reduced_rows. rewrite Ei.
  assert (Trows : take [] (symp_matrix M) (filter F (seq 0 (length (symp_matrix M))))
                  = map fst taken).
  { rewrite take_where, Em.
    now destruct (select_rows_filter pair_term (symp_matrix M) (coeff_vec M) Hl) as [-> _]. }
  assert (Tcoef : take C0 (coeff_vec M) (filter F (seq 0 (length (symp_matrix M))))
                  = map snd taken).
  { rewrite <- Hl, take_where, Hl, Em.
    now destruct (select_rows_filter pair_term (symp_matrix M) (coeff_vec M) Hl) as [_ ->]. }
  assert (Mneg : map (fun i => negb (F i)) (seq 0 (length (symp_matrix M)))
                 = map (fun r => negb (pair_term r)) (symp_matrix M)).
  { rewrite <- (map_map F negb), Em, map_map. reflexivity. }
  assert (Drows : delete (symp_matrix M) (filter F (seq 0 (length (symp_matrix M))))
                  = map fst kept).
  { rewrite (delete_where F _ _ eq_refl), Mneg.
    now destruct (select_rows_filter (fun r => negb (pair_term r))
                    (symp_matrix M) (coeff_vec M) Hl) as [-> _]. }
  assert (Dcoef : delete (coeff_vec M) (filter F (seq 0 (length (symp_matrix M))))
                  = map snd kept).
  { rewrite (delete_where F _ _ Hl), Mneg.
    now destruct (select_rows_filter (fun r => negb (pair_term r))
                    (symp_matrix M) (coeff_vec M) Hl) as [_ ->]. }
  rewrite Trows, Tcoef, Drows, Dcoef.
  assert (Len : length (filter F (seq 0 (length (symp_matrix M)))) = length taken).
  { rewrite <- (length_map fst taken), <- Trows. unfold take. now rewrite length_map. }
  rewrite Len.
  rewrite (majorana_init_array2 (n_sites M) (map fst kept) (map snd kept) He)
    by now rewrite !length_map.
  assert (Ftaken : Forall (fun r => length r = n_sites M) (map fst taken)).
  { apply Forall_forall. intros r Hin. apply in_map_iff in Hin.
    destruct Hin as ([r' c] & <- & Hp). apply filter_In in Hp. destruct Hp as [Hp _].
    apply in_combine_l in Hp. rewrite Forall_forall in Hr. now apply Hr. }
  assert (InS : forall j,
             In j (where_eq (sum_axis0 (n_sites M) (map fst taken)) 1)
             <-> (j < n_sites M)%nat
                 /\ vsum (map (fun p => nth j (fst p) 0%Z) taken) = 1%Z).
  { intros j. rewrite where_eq_filter, filter_In, in_seq.
    destruct (sum_axis0_nth (n_sites M) (map fst taken) j Ftaken) as [-> ->].
    rewrite map_map, Z.eqb_eq. cbn. intuition lia. }
  exists (where_eq (sum_axis0 (n_sites M) (map fst taken)) 1). split; [|split].
  - destruct taken as [|p taken']; cbn [length Nat.ltb Nat.leb bind].
    + reflexivity.
    + rewrite (majorana_init_array2 (n_sites M) _ _ He) by now rewrite !length_map.
      reflexivity.
  - exact InS.
  - intros i. rewrite !InS.
    assert (E : map (fun p : list Z * C => nth (2 * i) (fst p) 0%Z) taken
                = map (fun p : list Z * C => nth (2 * i + 1) (fst p) 0%Z) taken).
    { apply map_ext_in. intros [r c] Hp. apply filter_In in Hp. destruct Hp as [Hp Ht].
      cbn [fst] in *. apply pair_term_columns; [|exact Ht].
      apply in_combine_l in Hp. rewrite Forall_forall in B. now apply B. }
    rewrite E. pose proof (even_pairs (n_sites M) i He). tauto.
Qed.

End ReducedRowFacts.

(** The rows [_delete_reduced_rows] takes out.  For a well-formed
    Majorana operator on rows of bits, the rows taken out as
    [singles_operator] are exactly the rows whose modes are the two modes
    [2i], [2i+1] of one site, with their coefficients and in their
    order ([None] when there is none), and [reduced_maj] holds all the
    other rows.  The indices returned are the columns in which exactly
    one of the rows taken out has a 1, and they come in pairs: [2i] is
    returned exactly when [2i+1] is. *)
Theorem delete_reduced_rows_splits (M : Majorana.MajoranaOp) :
  Shape.majorana_wf M -> Forall Spec.bits (Majorana.symp_matrix M) ->
  let L := combine (Majorana.symp_matrix M) (Majorana.coeff_vec M) in
  let taken := filter (fun p => Pairs.pair_term (fst p)) L in
  let kept := filter (fun p => negb (Pairs.pair_term (fst p))) L in
  exists S,
    MajoranaRotations._delete_reduced_rows M
    = Ok (S,
          match taken with
          | [] => None
          | _ :: _ =>
              Some (Majorana.mkMajoranaOp (map fst taken) (Majorana.n_sites M)
                      (map snd taken) true)
          end,
          Majorana.mkMajoranaOp (map fst kept) (Majorana.n_sites M) (map snd kept) true)
    /\ (forall j, In j S <-> (j < Majorana.n_sites M)%nat
                             /\ vsum (map (fun p => nth j (fst p) 0%Z) taken) = 1%Z)
    /\ (forall i, In (2 * i)%nat S <-> In (2 * i + 1)%nat S).
Proof.
  intros HM B. exact (ReducedRowFacts.delete_reduced_rows_spec M HM B).
Qed.

Lemma delete_reduced_rows_splits_witness :
  exists S,
    MajoranaRotations._delete_reduced_rows
      (Majorana.mkMajoranaOp [[1; 1; 0; 0]; [0; 1; 1; 0]; [0; 0; 1; 1]]%Z 4
         [C1; Ci; C1] true)
    = Ok (S,
          Some (Majorana.mkMajoranaOp [[1; 1; 0; 0]; [0; 0; 1; 1]]%Z 4 [C1; C1] true),
          Majorana.mkMajoranaOp [[0; 1; 1; 0]%Z] 4 [Ci] true)
    /\ (In 2%nat S <-> In 3%nat S).
Proof.
  destruct (delete_reduced_rows_splits
              (Majorana.mkMajoranaOp [[1; 1; 0; 0]; [0; 1; 1; 0]; [0; 0; 1; 1]]%Z 4
                 [C1; Ci; C1] true)
              ltac:(apply DimensionFacts.majorana_wfb_spec; reflexivity)
              ltac:(repeat (apply Forall_cons;
                            [apply MultiplyFacts.bitsb_spec; reflexivity|]);
                    constructor)) as (S & E & _ & P).
  exists S. split; [exact E|exact (P 1%nat)].
Defined.

(** ** Bits of integers put together *)

Module BitFacts.

Import Bitstring Fields.
Local Open Scope Z_scope.

Lemma small_bits (a k n : Z) : 0 <= a < 2 ^ k -> k <= n -> Z.testbit a n = false.
Proof.
  intros Ha Hn. destruct (Z.lt_ge_cases k 0) as [Hk|Hk].
  - rewrite Z.pow_neg_r in Ha by assumption. lia.
  - rewrite <- (Z.mod_small a (2 ^ k)) by assumption.
    apply Z.mod_pow2_bits_high. lia.
Qed.

Lemma bits_small (x k : Z) :
  0 <= k -> (forall n, k <= n -> Z.testbit x n = false) -> 0 <= x < 2 ^ k.
Proof.
  intros Hk H.
  assert (E : x mod 2 ^ k = x).
  { apply Z.bits_inj'. intros n Hn. rewrite Z.testbit_mod_pow2 by assumption.
    destruct (Z.ltb_spec n k) as [L|L]; [reflexivity|]. symmetry. now apply H. }
  rewrite <- E. apply Z.mod_pos_bound. now apply Z.pow_pos_nonneg.
Qed.

(** The bits of a number put together from a low part and a high
    part. *)
Lemma split_bits (k a h n : Z) :
  0 <= k -> 0 <= a < 2 ^ k -> 0 <= n ->
  Z.testbit (a + 2 ^ k * h) n = if n <? k then Z.testbit a n else Z.testbit h (n - k).
Proof.
  intros Hk Ha Hn. assert (Hp : 0 < 2 ^ k) by now apply Z.pow_pos_nonneg.
  destruct (Z.ltb_spec n k) as [L|L].
  - rewrite <- (Z.mod_pow2_bits_low (a + 2 ^ k * h) k n) by assumption.
    rewrite (Z.mul_comm (2 ^ k) h), Z.mod_add by lia.
    now rewrite Z.mod_small.
  - replace n with ((n - k) + k) at 1 by lia.
    rewrite <- Z.div_pow2_bits by lia.
    rewrite (Z.mul_comm (2 ^ k) h), Z.div_add by lia.
    now rewrite Z.div_small, Z.add_0_l.
Qed.

Lemma land_small (a b k : Z) : 0 <= k -> 0 <= a < 2 ^ k -> 0 <= Z.land a b < 2 ^ k.
Proof.
  intros Hk Ha. apply bits_small; [assumption|].
  intros n Hn. rewrite Z.land_spec, (small_bits a k n) by assumption. reflexivity.
Qed.

Lemma land_split (k a h m : Z) :
  0 <= k -> 0 <= a < 2 ^ k ->
  Z.land (a + 2 ^ k * h) m = Z.land a (m mod 2 ^ k) + 2 ^ k * Z.land h (m / 2 ^ k).
Proof.
  intros Hk Ha. apply Z.bits_inj'. intros n Hn.
  rewrite Z.land_spec, !split_bits by (try apply land_small; assumption).
  rewrite !Z.land_spec, Z.testbit_mod_pow2 by assumption.
  destruct (Z.ltb_spec n k) as [L|L]; cbn [andb].
  - reflexivity.
  - rewrite Z.div_pow2_bits by lia. now replace (n - k + k) with n by lia.
Qed.

Lemma land_shifted_mask (r s m : Z) :
  0 <= s -> Z.land r (2 ^ s * m) = 2 ^ s * Z.land (Z.shiftr r s) m.
Proof.
  intros Hs. apply Z.bits_inj'. intros n Hn.
  rewrite Z.land_spec, !(Z.mul_comm (2 ^ s)), !Z.mul_pow2_bits by assumption.
  destruct (Z.lt_ge_cases n s) as [L|L].
  - rewrite !(Z.testbit_neg_r _ (n - s)) by lia. apply andb_false_r.
  - rewrite Z.land_spec, Z.shiftr_spec by lia. now replace (n - s + s) with n by lia.
Qed.

Lemma land_low (x k m : Z) : 0 <= k -> 0 <= m < 2 ^ k -> Z.land x m = Z.land (x mod 2 ^ k) m.
Proof.
  intros Hk Hm. apply Z.bits_inj'. intros n Hn.
  rewrite !Z.land_spec, Z.testbit_mod_pow2 by assumption.
  destruct (Z.ltb_spec n k) as [L|L]; [reflexivity|].
  rewrite (small_bits m k n) by assumption. now rewrite !andb_false_r.
Qed.

Lemma shiftr_split (k s a h : Z) :
  0 <= s <= k -> Z.shiftr (a + 2 ^ k * h) s = Z.shiftr a s + 2 ^ (k - s) * h.
Proof.
  intros Hs. rewrite !Z.shiftr_div_pow2 by lia.
  replace (2 ^ k) with (2 ^ (k - s) * 2 ^ s)
    by (rewrite <- Z.pow_add_r by lia; f_equal; lia).
  rewrite <- Z.mul_assoc, (Z.mul_comm (2 ^ s)), Z.mul_assoc, Z.div_add.
  - reflexivity.
  - apply Z.pow_nonzero; lia.
Qed.

Lemma shiftr_small (k s a : Z) :
  0 <= s <= k -> 0 <= a < 2 ^ k -> 0 <= Z.shiftr a s < 2 ^ (k - s).
Proof.
  intros Hs Ha. apply bits_small; [lia|]. intros n Hn.
  rewrite Z.shiftr_spec by lia. apply (small_bits a k); [assumption|lia].
Qed.

(** The three steps act byte by byte. *)
Lemma pairs_peel (M a r : Z) :
  0 <= a < 256 -> M mod 256 < 128 ->
  pairs M (a + 256 * r) = pairs (M mod 256) a + 256 * pairs (M / 256) r.
Proof.
  intros Ha Hm. unfold pairs.
  change 256 with (2 ^ 8) at 1. rewrite (shiftr_split 8 1) by lia.
  pose proof (shiftr_small 8 1 a ltac:(lia) Ha) as Hs.
  rewrite (land_split (8 - 1)) by (try assumption; lia).
  replace (M mod 2 ^ (8 - 1)) with (M mod 256)
    by (change (2 ^ (8 - 1)) with 128; Z.div_mod_to_equations; lia).
  replace (M / 2 ^ (8 - 1)) with (2 ^ 1 * (M / 256))
    by (change (2 ^ (8 - 1)) with 128; change (2 ^ 1) with 2;
        Z.div_mod_to_equations; lia).
  rewrite land_shifted_mask by lia.
  change (2 ^ (8 - 1)) with 128. change (2 ^ 1) with 2. lia.
Qed.

Lemma quads_peel (M a r : Z) :
  0 <= a < 256 -> M mod 256 < 64 ->
  quads M (a + 256 * r) = quads (M mod 256) a + 256 * quads (M / 256) r.
Proof.
  intros Ha Hm. unfold quads.
  change 256 with (2 ^ 8) at 1 2. rewrite (shiftr_split 8 2) by lia.
  pose proof (shiftr_small 8 2 a ltac:(lia) Ha) as Hs.
  rewrite (land_split 8) by (try assumption; lia).
  rewrite (land_split (8 - 2)) by (try assumption; lia).
  replace (M mod 2 ^ (8 - 2)) with (M mod 256)
    by (change (2 ^ (8 - 2)) with 64; Z.div_mod_to_equations; lia).
  replace (M / 2 ^ (8 - 2)) with (2 ^ 2 * (M / 256))
    by (change (2 ^ (8 - 2)) with 64; change (2 ^ 2) with 4;
        Z.div_mod_to_equations; lia).
  rewrite land_shifted_mask by lia.
  change (2 ^ (8 - 2)) with 64. change (2 ^ 2) with 4. change (2 ^ 8) with 256. lia.
Qed.

Lemma bytes_peel (M a r : Z) :
  0 <= a < 256 -> 0 <= M mod 256 < 16 ->
  0 <= a + Z.shiftr a 4 + 16 * (r mod 16) < 256 ->
  bytes M (a + 256 * r) = bytes (M mod 256) a + 256 * bytes (M / 256) r.
Proof.
  intros Ha Hm Hc. unfold bytes.
  change 256 with (2 ^ 8) at 1. rewrite (shiftr_split 8 4) by lia.
  change (2 ^ (8 - 4)) with 16. change (2 ^ 8) with 256.
  rewrite (Z.shiftr_div_pow2 r 4) by lia. change (2 ^ 4) with 16.
  replace (a + 256 * r + (Z.shiftr a 4 + 16 * r))
    with ((a + Z.shiftr a 4 + 16 * (r mod 16)) + 2 ^ 8 * (r + r / 16))
    by (change (2 ^ 8) with 256; Z.div_mod_to_equations; lia).
  rewrite (land_split 8) by (try assumption; lia).
  change (2 ^ 8) with 256. f_equal.
  rewrite (land_low (a + Z.shiftr a 4 + 16 * (r mod 16)) 4) by (change (2 ^ 4) with 16; lia).
  rewrite (land_low (a + Z.shiftr a 4) 4 (M mod 256)) by (change (2 ^ 4) with 16; lia).
  f_equal. change (2 ^ 4) with 16.
  rewrite (Z.mul_comm 16), Z.mod_add by lia. reflexivity.
Qed.

End BitFacts.

(** ** The count of the bits set *)

Module CountFacts.

Import Bitstring Fields BitFacts.
Local Open Scope Z_scope.

Lemma all_from_spec (P : Z -> bool) (fuel : nat) :
  forall x, all_from fuel x P = true ->
            forall y, x <= y < x + Z.of_nat fuel -> P y = true.
Proof.
  induction fuel as [|fuel IH]; intros x H y Hy; [lia|].
  cbn [all_from] in H. apply andb_true_iff in H. destruct H as [H0 H1].
  destruct (Z.eq_dec y x) as [->|Hne]; [exact H0|].
  apply (IH (x + 1) H1). lia.
Qed.

Lemma bytes_checked : all_from 256 0 byte_ok = true.
Proof. vm_compute. reflexivity. Qed.

(** What the three steps make of one byte. *)
Lemma byte_facts (b : Z) :
  0 <= b < 256 ->
  let c := pairs 0x55 b in
  let d := quads 0x33 c in
  let e := bytes 0x0F d in
  0 <= c < 256 /\ 0 <= d < 256 /\ d mod 16 <= 4 /\ d + Z.shiftr d 4 < 192
  /\ 0 <= e <= 8 /\ e = low_bits_set 8 b.
Proof.
  intros Hb. pose proof (all_from_spec byte_ok 256 0 bytes_checked b ltac:(lia)) as H.
  unfold byte_ok in H. cbv zeta in *.
  repeat (apply andb_true_iff in H; destruct H as [H ?]).
  repeat match goal with
         | X : (_ <=? _) = true |- _ => apply Z.leb_le in X
         | X : (_ <? _) = true |- _ => apply Z.ltb_lt in X
         | X : (_ =? _) = true |- _ => apply Z.eqb_eq in X
         end.
  repeat split; assumption.
Qed.

Lemma pairs_word (b0 b1 b2 b3 h : Z) :
  0 <= b0 < 256 -> 0 <= b1 < 256 -> 0 <= b2 < 256 -> 0 <= b3 < 256 ->
  pairs 0x55555555 (b0 + 256 * (b1 + 256 * (b2 + 256 * (b3 + 256 * h))))
  = pairs 0x55 b0
    + 256 * (pairs 0x55 b1 + 256 * (pairs 0x55 b2 + 256 * (pairs 0x55 b3 + 256 * h))).
Proof.
  intros H0 H1 H2 H3.
  rewrite (pairs_peel 0x55555555 b0) by (assumption || reflexivity).
  change (0x55555555 mod 256) with 0x55. change (0x55555555 / 256) with 0x555555.
  rewrite (pairs_peel 0x555555 b1) by (assumption || reflexivity).
  change (0x555555 mod 256) with 0x55. change (0x555555 / 256) with 0x5555.
  rewrite (pairs_peel 0x5555 b2) by (assumption || reflexivity).
  change (0x5555 mod 256) with 0x55. change (0x5555 / 256) with 0x55.
  rewrite (pairs_peel 0x55 b3) by (assumption || reflexivity).
  change (0x55 mod 256) with 0x55. change (0x55 / 256) with 0.
  unfold pairs at 5. rewrite Z.land_0_r. now rewrite Z.sub_0_r.
Qed.

Lemma quads_word (b0 b1 b2 b3 h : Z) :
  0 <= b0 < 256 -> 0 <= b1 < 256 -> 0 <= b2 < 256 -> 0 <= b3 < 256 ->
  quads 0x33333333 (b0 + 256 * (b1 + 256 * (b2 + 256 * (b3 + 256 * h))))
  = quads 0x33 b0
    + 256 * (quads 0x33 b1 + 256 * (quads 0x33 b2 + 256 * (quads 0x33 b3 + 256 * 0))).
Proof.
  intros H0 H1 H2 H3.
  rewrite (quads_peel 0x33333333 b0) by (assumption || reflexivity).
  change (0x33333333 mod 256) with 0x33. change (0x33333333 / 256) with 0x333333.
  rewrite (quads_peel 0x333333 b1) by (assumption || reflexivity).
  change (0x333333 mod 256) with 0x33. change (0x333333 / 256) with 0x3333.
  rewrite (quads_peel 0x3333 b2) by (assumption || reflexivity).
  change (0x3333 mod 256) with 0x33. change (0x3333 / 256) with 0x33.
  rewrite (quads_peel 0x33 b3) by (assumption || reflexivity).
  change (0x33 mod 256) with 0x33. change (0x33 / 256) with 0.
  unfold quads at 5. now rewrite !Z.land_0_r.
Qed.

Lemma bytes_word (d0 d1 d2 d3 : Z) :
  0 <= d0 < 256 -> 0 <= d1 < 256 -> 0 <= d2 < 256 -> 0 <= d3 < 256 ->
  d1 mod 16 <= 4 -> d2 mod 16 <= 4 -> d3 mod 16 <= 4 ->
  0 <= d0 + Z.shiftr d0 4 < 192 -> 0 <= d1 + Z.shiftr d1 4 < 192 ->
  0 <= d2 + Z.shiftr d2 4 < 192 -> 0 <= d3 + Z.shiftr d3 4 < 192 ->
  bytes 0xF0F0F0F (d0 + 256 * (d1 + 256 * (d2 + 256 * (d3 + 256 * 0))))
  = bytes 0x0F d0
    + 256 * (bytes 0x0F d1 + 256 * (bytes 0x0F d2 + 256 * bytes 0x0F d3)).
Proof.
  intros H0 H1 H2 H3 N1 N2 N3 S0 S1 S2 S3.
  rewrite (bytes_peel 0xF0F0F0F d0);
    [|assumption|split; [discriminate|reflexivity]|Z.div_mod_to_equations; lia].
  change (0xF0F0F0F mod 256) with 0x0F. change (0xF0F0F0F / 256) with 0xF0F0F.
  rewrite (bytes_peel 0xF0F0F d1);
    [|assumption|split; [discriminate|reflexivity]|Z.div_mod_to_equations; lia].
  change (0xF0F0F mod 256) with 0x0F. change (0xF0F0F / 256) with 0xF0F.
  rewrite (bytes_peel 0xF0F d2);
    [|assumption|split; [discriminate|reflexivity]|Z.div_mod_to_equations; lia].
  change (0xF0F mod 256) with 0x0F. change (0xF0F / 256) with 0x0F.
  rewrite (bytes_peel 0x0F d3);
    [|assumption|split; [discriminate|reflexivity]|Z.div_mod_to_equations; lia].
  change (0x0F mod 256) with 0x0F. change (0x0F / 256) with 0.
  unfold bytes at 5. rewrite Z.land_0_r. lia.
Qed.

(** The last step adds the four bytes up. *)
Lemma sum_of_bytes (e0 e1 e2 e3 : Z) :
  0 <= e0 <= 8 -> 0 <= e1 <= 8 -> 0 <= e2 <= 8 -> 0 <= e3 <= 8 ->
  Z.shiftr (Z.land ((e0 + 256 * (e1 + 256 * (e2 + 256 * e3))) * 0x1010101) 0xffffffff) 24
  = e0 + e1 + e2 + e3.
Proof.
  intros H0 H1 H2 H3.
  change 0xffffffff with (Z.ones 32). rewrite Z.land_ones by lia.
  rewrite Z.shiftr_div_pow2 by lia.
  change (2 ^ 32) with 4294967296. change (2 ^ 24) with 16777216.
  Z.div_mod_to_equations. lia.
Qed.

Lemma low_bits_split (w1 w2 : nat) (i : Z) :
  low_bits_set (w1 + w2) i
  = low_bits_set w1 i + low_bits_set w2 (i / 2 ^ Z.of_nat w1).
Proof.
  unfold low_bits_set. rewrite seq_app, filter_app, length_app, Nat2Z.inj_add.
  f_equal. f_equal. cbn [Nat.add].
  rewrite <- (Nat.add_0_r w1) at 1. generalize 0%nat.
  induction w2 as [|w2 IH]; intros o; [reflexivity|].
  cbn [seq filter]. rewrite Z.div_pow2_bits by lia.
  replace (Z.of_nat o + Z.of_nat w1) with (Z.of_nat (w1 + o)) by lia.
  replace (S (w1 + o)) with (w1 + S o)%nat by lia.
  destruct (Z.testbit i (Z.of_nat (w1 + o))); cbn [length]; now rewrite IH.
Qed.

Lemma low_bits_mod (w : nat) (i : Z) :
  low_bits_set w (i mod 2 ^ Z.of_nat w) = low_bits_set w i.
Proof.
  unfold low_bits_set. f_equal. f_equal. apply filter_ext_in.
  intros k Hk. apply in_seq in Hk. apply Z.mod_pow2_bits_low. lia.
Qed.

Lemma low_bits_of_zero (w : nat) : low_bits_set w 0 = 0.
Proof.
  unfold low_bits_set. generalize 0%nat.
  induction w as [|w IH]; intros o; [reflexivity|].
  cbn [seq filter]. rewrite Z.bits_0. apply IH.
Qed.

(** [count1_in_int_bitstring] counts the 32 lowest bits. *)
Lemma count1_low_bits (i : Z) : count1_in_int_bitstring i = low_bits_set 32 i.
Proof.
  change (count1_in_int_bitstring i)
    with (Z.shiftr
            (Z.land (bytes 0xF0F0F0F (quads 0x33333333 (pairs 0x55555555 i)) * 0x1010101)
               0xffffffff) 24).
  set (r1 := i / 256). set (r2 := r1 / 256). set (r3 := r2 / 256).
  set (b0 := i mod 256). set (b1 := r1 mod 256). set (b2 := r2 mod 256).
  set (b3 := r3 mod 256). set (h := r3 / 256).
  assert (Ei : i = b0 + 256 * (b1 + 256 * (b2 + 256 * (b3 + 256 * h)))).
  { subst b0 b1 b2 b3 h r3 r2 r1. Z.div_mod_to_equations. lia. }
  assert (H0 : 0 <= b0 < 256) by (subst b0; apply Z.mod_pos_bound; lia).
  assert (H1 : 0 <= b1 < 256) by (subst b1; apply Z.mod_pos_bound; lia).
  assert (H2 : 0 <= b2 < 256) by (subst b2; apply Z.mod_pos_bound; lia).
  assert (H3 : 0 <= b3 < 256) by (subst b3; apply Z.mod_pos_bound; lia).
  pose proof (byte_facts b0 H0) as F0. cbv zeta in F0.
  destruct F0 as (C0 & D0 & N0 & S0 & E0 & P0).
  assert (T0 : 0 <= quads 51 (pairs 85 b0) + Z.shiftr (quads 51 (pairs 85 b0)) 4 < 192)
    by (split; [apply Z.add_nonneg_nonneg; [lia|apply Z.shiftr_nonneg; lia]|assumption]).
  pose proof (byte_facts b1 H1) as F1. cbv zeta in F1.
  destruct F1 as (C1 & D1 & N1 & S1 & E1 & P1).
  assert (T1 : 0 <= quads 51 (pairs 85 b1) + Z.shiftr (quads 51 (pairs 85 b1)) 4 < 192)
    by (split; [apply Z.add_nonneg_nonneg; [lia|apply Z.shiftr_nonneg; lia]|assumption]).
  pose proof (byte_facts b2 H2) as F2. cbv zeta in F2.
  destruct F2 as (C2 & D2 & N2 & S2 & E2 & P2).
  assert (T2 : 0 <= quads 51 (pairs 85 b2) + Z.shiftr (quads 51 (pairs 85 b2)) 4 < 192)
    by (split; [apply Z.add_nonneg_nonneg; [lia|apply Z.shiftr_nonneg; lia]|assumption]).
  pose proof (byte_facts b3 H3) as F3. cbv zeta in F3.
  destruct F3 as (C3 & D3 & N3 & S3 & E3 & P3).
  assert (T3 : 0 <= quads 51 (pairs 85 b3) + Z.shiftr (quads 51 (pairs 85 b3)) 4 < 192)
    by (split; [apply Z.add_nonneg_nonneg; [lia|apply Z.shiftr_nonneg; lia]|assumption]).
  rewrite Ei at 1.
  rewrite pairs_word, quads_word by assumption.
  rewrite bytes_word by assumption.
  rewrite sum_of_bytes by assumption.
  rewrite P0, P1, P2, P3.
  change 32%nat with (8 + (8 + (8 + 8)))%nat.
  rewrite !low_bits_split. change (2 ^ Z.of_nat 8) with 256.
  fold r1. fold r2. fold r3.
  subst b0 b1 b2 b3. change 256 with (2 ^ Z.of_nat 8). rewrite !low_bits_mod. lia.
Qed.

End CountFacts.

(** [count1_in_int_bitstring] counts the 32 lowest bits.  For every
    integer [i], negative ones included, the result is the number of
    bits set among the 32 lowest bits of [i]; so it is the number of all
    the bits set when [0 <= i < 2^32], and no longer beyond: at [2^32]
    it is 0. *)
Theorem count1_counts_the_32_lowest_bits :
  (forall i : Z, Bitstring.count1_in_int_bitstring i = Fields.low_bits_set 32 i)
  /\ (forall (i : Z) (w : nat),
         (0 <= i < 2 ^ 32)%Z -> (32 <= w)%nat ->
         Bitstring.count1_in_int_bitstring i = Fields.low_bits_set w i)
  /\ Bitstring.count1_in_int_bitstring (2 ^ 32) = 0%Z.
Proof.
  split; [exact CountFacts.count1_low_bits|]. split.
  - intros i w Hi Hw. rewrite CountFacts.count1_low_bits.
    replace w with (32 + (w - 32))%nat by lia.
    rewrite CountFacts.low_bits_split.
    change (2 ^ Z.of_nat 32)%Z with (2 ^ 32)%Z. rewrite Z.div_small by assumption.
    rewrite CountFacts.low_bits_of_zero. lia.
  - rewrite CountFacts.count1_low_bits. reflexivity.
Qed.

Lemma count1_counts_the_32_lowest_bits_witness :
  Bitstring.count1_in_int_bitstring 0xF00F = Fields.low_bits_set 40 0xF00F.
Proof.
  apply (proj1 (proj2 count1_counts_the_32_lowest_bits)); [|lia].
  split; [discriminate|reflexivity].
Defined.

(** ** Integers of blocks, and the factors of a Kronecker product *)

Module KroneckerFacts.

Import Pauli Spec Shape Bitstring SparseMatrix Fields Kronecker.
Import CplxFacts CommuteFacts BroadcastFacts MultiplyFacts CleanupFacts InvolutionFacts.
Import BitFacts CountFacts.
Local Open Scope Z_scope.

(** The integer of a block of at most 62 bits. *)
Lemma key_value (v : list Z) :
  bits v -> (length v <= 62)%nat -> wrap64 (dot v (pow2_weights (length v))) = binval v.
Proof.
  intros B L.
  pose proof (wrap64_mod (dot v (pow2_weights (length v)))) as E.
  rewrite (dot_weights_mod v ltac:(lia)) in E.
  pose proof (binval_bound v B) as [H0 H1].
  assert (Hp : 2 ^ Z.of_nat (length v) <= 2 ^ 62)
    by (apply Z.pow_le_mono_r; lia).
  revert E. unfold wrap64. generalize (dot v (pow2_weights (length v))). intros d E.
  change (2 ^ 62) with 4611686018427387904 in Hp.
  change (2 ^ 63) with 9223372036854775808 in *.
  change (2 ^ 64) with 18446744073709551616 in *.
  revert H0 H1 Hp E. generalize (binval v), (2 ^ Z.of_nat (length v)). intros b p H0 H1 Hp E.
  Z.div_mod_to_equations. lia.
Qed.

Lemma lxor_small (a b k : Z) :
  0 <= k -> 0 <= a < 2 ^ k -> 0 <= b < 2 ^ k -> 0 <= Z.lxor a b < 2 ^ k.
Proof.
  intros Hk Ha Hb. apply bits_small; [assumption|]. intros n Hn.
  now rewrite Z.lxor_spec, (small_bits a k n), (small_bits b k n).
Qed.

Lemma lxor_split (k a b u v : Z) :
  0 <= k -> 0 <= a < 2 ^ k -> 0 <= b < 2 ^ k ->
  Z.lxor (a + 2 ^ k * u) (b + 2 ^ k * v) = Z.lxor a b + 2 ^ k * Z.lxor u v.
Proof.
  intros Hk Ha Hb. apply Z.bits_inj'. intros n Hn.
  rewrite Z.lxor_spec, !split_bits by (try apply lxor_small; assumption).
  destruct (Z.ltb_spec n k); now rewrite Z.lxor_spec.
Qed.

Lemma land_pair (k a b u v : Z) :
  0 <= k -> 0 <= a < 2 ^ k -> 0 <= b < 2 ^ k ->
  Z.land (a + 2 ^ k * u) (b + 2 ^ k * v) = Z.land a b + 2 ^ k * Z.land u v.
Proof.
  intros Hk Ha Hb. rewrite land_split by assumption.
  assert (Hp : 0 < 2 ^ k) by now apply Z.pow_pos_nonneg.
  rewrite (Z.mul_comm (2 ^ k) v), Z.mod_add, Z.div_add by lia.
  now rewrite Z.mod_small, Z.div_small, Z.add_0_l by assumption.
Qed.

(** One more bit on top of [k < 32] bits. *)
Lemma low_bits_top (k : nat) (b u : Z) :
  (k < 32)%nat -> 0 <= b < 2 ^ Z.of_nat k -> u = 0 \/ u = 1 ->
  low_bits_set 32 (b + 2 ^ Z.of_nat k * u) = low_bits_set 32 b + u.
Proof.
  intros Hk Hb Hu.
  assert (Hp : 0 < 2 ^ Z.of_nat k) by (apply Z.pow_pos_nonneg; lia).
  replace 32%nat with (k + (32 - k))%nat by lia.
  rewrite !low_bits_split.
  rewrite <- (low_bits_mod k (b + _)).
  rewrite (Z.mul_comm _ u), Z.mod_add, Z.div_add by lia.
  rewrite (Z.mod_small b), !(Z.div_small b), Z.add_0_l by assumption.
  rewrite low_bits_of_zero.
  assert (E : low_bits_set (32 - k) u = u).
  { destruct (32 - k)%nat as [|j] eqn:Ej; [lia|].
    change (S j) with (1 + j)%nat. rewrite low_bits_split.
    destruct Hu as [-> | ->].
    - now rewrite Z.div_0_l, !low_bits_of_zero by lia.
    - change (1 / 2 ^ Z.of_nat 1) with 0. now rewrite low_bits_of_zero. }
  rewrite E. lia.
Qed.

Lemma Zpow_add (z : C) (a b : Z) :
  0 <= a -> 0 <= b -> Zpow z (a + b) = (Zpow z a * Zpow z b)%C.
Proof.
  intros Ha Hb. unfold Zpow. rewrite Z2Nat.inj_add by assumption. apply Cpow_add.
Qed.

Lemma sign_of_sum (p q : Z) :
  0 <= p -> q = 0 \/ q = 1 ->
  Zpow (- C1)%C ((p + q) mod 2) = (Zpow (- C1)%C (p mod 2) * Zpow (- C1)%C q)%C.
Proof.
  intros Hp Hq.
  assert (Hm : p mod 2 = 0 \/ p mod 2 = 1) by (Z.div_mod_to_equations; lia).
  destruct Hq as [-> | ->], Hm as [E|E].
  - rewrite Z.add_0_r, E.
    change (Zpow (- C1)%C 0) with C1. csolve.
  - rewrite Z.add_0_r, E.
    change (Zpow (- C1)%C 0) with C1. change (Zpow (- C1)%C 1) with (- C1 * C1)%C. csolve.
  - replace ((p + 1) mod 2) with 1 by (Z.div_mod_to_equations; lia). rewrite E.
    change (Zpow (- C1)%C 0) with C1. change (Zpow (- C1)%C 1) with (- C1 * C1)%C. csolve.
  - replace ((p + 1) mod 2) with 0 by (Z.div_mod_to_equations; lia). rewrite E.
    change (Zpow (- C1)%C 0) with C1. change (Zpow (- C1)%C 1) with (- C1 * C1)%C. csolve.
Qed.

(** The entries of one Pauli matrix. *)
Lemma pauli_factor (x z r c : Z) :
  x = 0 \/ x = 1 -> z = 0 \/ z = 1 -> r = 0 \/ r = 1 -> c = 0 \/ c = 1 ->
  entry2 (pauli_matrix x z) r c
  = if c =? Z.lxor r x
    then (Zpow (- Ci)%C (Z.land x z) * Zpow (- C1)%C (Z.land r z))%C
    else C0.
Proof.
  intros [-> | ->] [-> | ->] [-> | ->] [-> | ->];
    cbv [entry2 pauli_matrix Z.eqb Z.to_nat Pos.to_nat Pos.iter_op nth Z.lxor Z.land
         Pos.lxor Pos.land Pos.eqb Z.of_N Zpow Cpow Nat.add];
    csolve.
Qed.

End KroneckerFacts.

(** ** Rows of a Kronecker product of Pauli matrices *)

Module MatrixFacts.

Import Pauli Spec Shape Bitstring SparseMatrix Fields Kronecker.
Import CplxFacts CommuteFacts BroadcastFacts MultiplyFacts CleanupFacts InvolutionFacts.
Import BitFacts CountFacts KroneckerFacts.
Local Open Scope Z_scope.

Lemma digits_eqb (m a b u v : Z) :
  0 <= a < m -> 0 <= b < m -> (a + m * u =? b + m * v) = (a =? b) && (u =? v).
Proof.
  intros Ha Hb.
  destruct (Z.eqb_spec a b) as [->|Hab], (Z.eqb_spec u v) as [->|Huv]; cbn [andb].
  - apply Z.eqb_refl.
  - apply Z.eqb_neq. nia.
  - apply Z.eqb_neq. lia.
  - apply Z.eqb_neq. intros E. apply Hab.
    assert (E' : a - b = m * (v - u)) by lia.
    destruct (Z.eq_dec v u) as [->|Hvu]; [lia|]. nia.
Qed.

Lemma top_digit (k r : Z) :
  0 <= k -> 0 <= r < 2 ^ (k + 1) ->
  r = r mod 2 ^ k + 2 ^ k * (r / 2 ^ k)
  /\ 0 <= r mod 2 ^ k < 2 ^ k /\ (r / 2 ^ k = 0 \/ r / 2 ^ k = 1).
Proof.
  intros Hk Hr. assert (Hp : 0 < 2 ^ k) by now apply Z.pow_pos_nonneg.
  rewrite Z.pow_add_r in Hr by lia. change (2 ^ 1) with 2 in Hr.
  revert Hr Hp. generalize (2 ^ k). intros m Hr Hp.
  Z.div_mod_to_equations. nia.
Qed.

(** A row of the Kronecker product of the Pauli matrices of at most
    32 qubits. *)
Lemma kron_row (X : list Z) :
  forall (Zb : list Z) (r c : Z),
    bits X -> bits Zb -> length Zb = length X -> (length X <= 32)%nat ->
    0 <= r < 2 ^ Z.of_nat (length X) -> 0 <= c < 2 ^ Z.of_nat (length X) ->
    kron_entry X Zb r c
    = if c =? Z.lxor r (binval X)
      then (Zpow (- Ci)%C (vsum (zip_with Z.land X Zb))
            * Zpow (- C1)%C (low_bits_set 32 (Z.land r (binval Zb)) mod 2))%C
      else C0.
Proof.
  induction X as [|x X IH]; intros [|z Zb] r c BX BZ HL Hn Hr Hc; try discriminate.
  - cbn [length Z.of_nat Z.pow] in Hr, Hc. change (2 ^ 0) with 1 in Hr, Hc.
    assert (r = 0) by lia. assert (c = 0) by lia. subst r c.
    cbn [kron_entry binval zip_with vsum fold_right]. cbn [Z.lxor Z.eqb Z.land].
    rewrite low_bits_of_zero. change (Zpow (- C1)%C (0 mod 2)) with C1.
    change (Zpow (- Ci)%C 0) with C1. csolve.
  - apply Forall_cons_iff in BX, BZ. destruct BX as [Hx BX], BZ as [Hz BZ].
    cbn [length] in HL, Hn, Hr, Hc. injection HL as HL.
    set (k := Z.of_nat (length X)) in *.
    assert (Hk : 0 <= k) by (subst k; lia).
    replace (Z.of_nat (S (length X))) with (k + 1) in Hr, Hc by (subst k; lia).
    destruct (top_digit k r Hk Hr) as (Er & Hrl & Hrh).
    destruct (top_digit k c Hk Hc) as (Ec & Hcl & Hch).
    pose proof (binval_bound X BX) as HbX. fold k in HbX.
    pose proof (binval_bound Zb BZ) as HbZ. rewrite HL in HbZ. fold k in HbZ.
    cbn [kron_entry]. fold k.
    rewrite (pauli_factor x z (r / 2 ^ k) (c / 2 ^ k) Hx Hz Hrh Hch).
    rewrite (IH Zb (r mod 2 ^ k) (c mod 2 ^ k) BX BZ HL ltac:(lia) Hrl Hcl).
    cbn [binval zip_with]. rewrite HL. fold k.
    change (vsum (Z.land x z :: zip_with Z.land X Zb))
      with (Z.land x z + vsum (zip_with Z.land X Zb)).
    replace (Z.lxor r (x * 2 ^ k + binval X))
      with (Z.lxor (r mod 2 ^ k) (binval X) + 2 ^ k * Z.lxor (r / 2 ^ k) x)
      by (rewrite <- lxor_split by assumption; f_equal; lia).
    replace (Z.land r (z * 2 ^ k + binval Zb))
      with (Z.land (r mod 2 ^ k) (binval Zb) + 2 ^ k * Z.land (r / 2 ^ k) z)
      by (rewrite <- land_pair by assumption; f_equal; lia).
    assert (Eq : (c =? Z.lxor (r mod 2 ^ k) (binval X) + 2 ^ k * Z.lxor (r / 2 ^ k) x)
                 = (c mod 2 ^ k =? Z.lxor (r mod 2 ^ k) (binval X))
                   && (c / 2 ^ k =? Z.lxor (r / 2 ^ k) x)).
    { rewrite Ec at 1. apply digits_eqb; [assumption|]. now apply lxor_small. }
    rewrite Eq. clear Eq.
    assert (Hland : 0 <= Z.land (r mod 2 ^ k) (binval Zb) < 2 ^ k)
      by (apply land_small; assumption).
    assert (Hu : Z.land (r / 2 ^ k) z = 0 \/ Z.land (r / 2 ^ k) z = 1)
      by (destruct Hrh as [-> | ->], Hz as [-> | ->]; auto).
    assert (Hxz : 0 <= Z.land x z)
      by (destruct Hx as [-> | ->], Hz as [-> | ->]; cbn; lia).
    subst k. rewrite (low_bits_top (length X)) by (try assumption; lia).
    rewrite sign_of_sum by (try assumption; unfold low_bits_set; lia).
    rewrite Zpow_add;
      [|assumption|rewrite (vsum_bits _ (bits_land X Zb BX BZ)); lia].
    generalize (Zpow (- Ci)%C (Z.land x z)),
      (Zpow (- C1)%C (Z.land (r / 2 ^ Z.of_nat (length X)) z)),
      (Zpow (- Ci)%C (vsum (zip_with Z.land X Zb))),
      (Zpow (- C1)%C
         (low_bits_set 32 (Z.land (r mod 2 ^ Z.of_nat (length X)) (binval Zb)) mod 2)).
    intros A B D E.
    destruct (c / 2 ^ Z.of_nat (length X)
              =? Z.lxor (r / 2 ^ Z.of_nat (length X)) x),
      (c mod 2 ^ Z.of_nat (length X)
       =? Z.lxor (r mod 2 ^ Z.of_nat (length X)) (binval X)); cbn [andb]; csolve.
Qed.

End MatrixFacts.

(** ** The matrix of a Pauli word *)

Module SparseFacts.

Import Pauli Spec Shape Bitstring SparseMatrix Fields Kronecker.
Import CplxFacts CommuteFacts BroadcastFacts MultiplyFacts CleanupFacts InvolutionFacts.
Import BitFacts CountFacts KroneckerFacts MatrixFacts.
Local Open Scope Z_scope.

Lemma combine_maps {A B D : Type} (f : A -> B) (g : A -> D) (l : list A) :
  combine (combine l (map f l)) (map g l) = map (fun r => (r, f r, g r)) l.
Proof. induction l as [|a l IH]; [reflexivity|]. cbn [map combine]. now rewrite IH. Qed.

Lemma in_rows (n : nat) (r : Z) :
  In r (map Z.of_nat (seq 0 (Z.to_nat (2 ^ Z.of_nat n)))) <-> 0 <= r < 2 ^ Z.of_nat n.
Proof.
  assert (Hp : 0 < 2 ^ Z.of_nat n) by (apply Z.pow_pos_nonneg; lia).
  rewrite in_map_iff. split.
  - intros (j & <- & Hj). apply in_seq in Hj. lia.
  - intros Hr. exists (Z.to_nat r). split; [lia|]. apply in_seq. lia.
Qed.

(** The matrix of a Pauli word of at most 32 qubits. *)
Lemma sparse_matrix_spec (n : nat) (v : list Z) (coeff : C) :
  pauli_row n v -> (n <= 32)%nat ->
  let X := X_of n v in
  let Zb := Z_of n v in
  symplectic_to_sparse_matrix v coeff
  = mk_csr (2 ^ Z.of_nat n, 2 ^ Z.of_nat n)
      (map (fun r => (r, Z.lxor r (binval X),
                      (coeff * kron_entry X Zb r (Z.lxor r (binval X)))%C))
           (map Z.of_nat (seq 0 (Z.to_nat (2 ^ Z.of_nat n)))))
  /\ (forall r, 0 <= r < 2 ^ Z.of_nat n -> 0 <= Z.lxor r (binval X) < 2 ^ Z.of_nat n)
  /\ (forall r c, 0 <= r < 2 ^ Z.of_nat n -> 0 <= c < 2 ^ Z.of_nat n ->
                  c <> Z.lxor r (binval X) -> kron_entry X Zb r c = C0).
Proof.
  intros Hv Hn X Zb. pose proof Hv as [Lv Bv].
  destruct (row_halves n v Hv) as [LX LZ].
  assert (BX : bits X) by now apply bits_firstn.
  assert (BZ : bits Zb) by now apply bits_skipn.
  fold (X_of n v) in LX. fold (Z_of n v) in LZ. fold X in LX. fold Zb in LZ.
  pose proof (binval_bound X BX) as HbX. rewrite LX in HbX.
  assert (Row : forall r c, 0 <= r < 2 ^ Z.of_nat n -> 0 <= c < 2 ^ Z.of_nat n ->
                  kron_entry X Zb r c
                  = if c =? Z.lxor r (binval X)
                    then (Zpow (- Ci)%C (vsum (zip_with Z.land X Zb))
                          * Zpow (- C1)%C
                              (low_bits_set 32 (Z.land r (binval Zb)) mod 2))%C
                    else C0).
  { intros r c Hr Hc. apply kron_row; try assumption; rewrite ?LX; try assumption; lia. }
  assert (Col : forall r, 0 <= r < 2 ^ Z.of_nat n ->
                          0 <= Z.lxor r (binval X) < 2 ^ Z.of_nat n).
  { intros r Hr. apply lxor_small; [lia|assumption|assumption]. }
  split; [|split].
  - unfold symplectic_to_sparse_matrix. cbn [shape data].
    replace (length v / 2)%nat with n
      by (rewrite Lv, Nat.mul_comm, Nat.div_mul; lia).
    fold (X_of n v). fold (Z_of n v). fold X. fold Zb.
    assert (KX : wrap64 (dot X (pow2_weights n)) = binval X)
      by (rewrite <- LX; apply key_value; [assumption|lia]).
    assert (KZ : wrap64 (dot Zb (pow2_weights n)) = binval Zb)
      by (rewrite <- LZ; apply key_value; [assumption|lia]).
    rewrite KX, KZ.
    f_equal. rewrite (map_map (fun r => Z.land r (binval Zb))).
    rewrite combine_maps, map_map. cbn [fst snd].
    apply map_ext_in. intros r Hr. apply in_rows in Hr.
    rewrite (Row r _ Hr (Col r Hr)), Z.eqb_refl, count1_low_bits. reflexivity.
  - exact Col.
  - intros r c Hr Hc Hne. rewrite (Row r c Hr Hc).
    destruct (Z.eqb_spec c (Z.lxor r (binval X))); [contradiction|reflexivity].
Qed.

End SparseFacts.

(** The matrix of a Pauli word.  For a vector of [2n] bits with
    [n <= 32], [symplectic_to_sparse_matrix] returns a matrix of shape
    [(2^n, 2^n)] that stores one entry for every row [r], in the column
    [r XOR x_int] (a column of the matrix), and its value is [coeff]
    times the entry of the Kronecker product of the Pauli matrices of the
    [n] letters, the first letter on the left; every other entry of that
    Kronecker product is 0. *)
Theorem sparse_matrix_is_the_kronecker_product (n : nat) (v : list Z) (coeff : C) :
  Spec.pauli_row n v -> (n <= 32)%nat ->
  let X := Spec.X_of n v in
  let Zb := Spec.Z_of n v in
  let dim := (2 ^ Z.of_nat n)%Z in
  SparseMatrix.symplectic_to_sparse_matrix v coeff
  = SparseMatrix.mk_csr (dim, dim)
      (map (fun r => (r, Z.lxor r (Shape.binval X),
                      (coeff * Kronecker.kron_entry X Zb r (Z.lxor r (Shape.binval X)))%C))
           (map Z.of_nat (seq 0 (Z.to_nat dim))))
  /\ (forall r, (0 <= r < dim)%Z -> (0 <= Z.lxor r (Shape.binval X) < dim)%Z)
  /\ (forall r c, (0 <= r < dim)%Z -> (0 <= c < dim)%Z ->
                  c <> Z.lxor r (Shape.binval X) -> Kronecker.kron_entry X Zb r c = C0).
Proof.
  intros Hv Hn. exact (SparseFacts.sparse_matrix_spec n v coeff Hv Hn).
Qed.

Lemma sparse_matrix_is_the_kronecker_product_witness :
  SparseMatrix.symplectic_to_sparse_matrix [1; 1]%Z C1
  = SparseMatrix.mk_csr (2 ^ Z.of_nat 1, 2 ^ Z.of_nat 1)%Z
      (map (fun r => (r, Z.lxor r (Shape.binval [1]%Z),
                      (C1 * Kronecker.kron_entry [1]%Z [1]%Z r
                              (Z.lxor r (Shape.binval [1]%Z)))%C))
           (map Z.of_nat (seq 0 (Z.to_nat (2 ^ Z.of_nat 1))))).
Proof.
  apply (proj1 (sparse_matrix_is_the_kronecker_product 1 [1; 1]%Z C1
                  ltac:(apply MultiplyFacts.pauli_rowb_spec; reflexivity)
                  ltac:(lia))).
Defined.
